(** * Citrus: command dispatch, cooldowns, locks, prefixes, inhibitors

    A shallow embedding of the command-dispatch core of the Citrus
    framework (src/struct/CitrusHandler.ts, which holds the CommandHandler
    and Command classes, src/struct/inhibitors/InhibitorHandler.ts, the
    TypeResolver and the ContextMenuCommandHandler), with the properties
    the specification states about it.

    Conventions of the embedding:
    - JavaScript numbers that the code uses as integers (timestamps,
      durations, counters, priorities) are [Z];
    - a [string] is a text by its UTF-16 code units, for texts whose code
      units are all below 256 (the characters of ISO 8859-1): each [ascii]
      is one code unit, 160 being the no-break space and 192 to 222 the
      accented capitals.  A text with a code unit from 256 on has no
      counterpart here, and a literal written with such a character
      stands for the text of its bytes;
    - a [Collection]/[Map] or an object used as a dictionary is a [gmap];
      a collection whose iteration order matters is a list;
    - user supplied callbacks (exec, parse, before, inhibitors, key
      suppliers) are functions of their arguments whose result says
      whether they returned or threw;
    - the handler's mutable fields are threaded explicitly in [State];
      everything it emits is appended to [log]. *)

From Stdlib Require Import ZArith String Ascii List Lia Bool Sorted.
From stdpp Require Import gmap strings list.

Local Open Scope string_scope.
Local Open Scope Z_scope.

(** ** JavaScript string primitives used by the handler *)

Module Js.

(** The white space of the language, which [\s], [trim] and the number
    parsers share, among the code units below 256: tab, line feed,
    vertical tab, form feed, carriage return, space and no-break space. *)
Definition isSpace (c : ascii) : bool :=
  let n := nat_of_ascii c in
  ((9 <=? n)%nat && (n <=? 13)%nat) || (n =? 32)%nat || (n =? 160)%nat.

(** The lower case of a code unit below 256: the capitals A to Z, and the
    accented capitals 192 to 222 but for the multiplication sign 215, are
    32 below their small letters; nothing else changes, and no text
    changes its length. *)
Definition lowerChar (c : ascii) : ascii :=
  let n := nat_of_ascii c in
  if ((65 <=? n)%nat && (n <=? 90)%nat) ||
     ((192 <=? n)%nat && (n <=? 222)%nat && negb (n =? 215)%nat)
  then ascii_of_nat (n + 32) else c.

(** [String.prototype.toLowerCase]. *)
Fixpoint toLowerCase (s : string) : string :=
  match s with
  | EmptyString => EmptyString
  | String c r => String (lowerChar c) (toLowerCase r)
  end.

(** [s.startsWith(p)]. *)
Fixpoint startsWith (s p : string) : bool :=
  match p, s with
  | EmptyString, _ => true
  | String _ _, EmptyString => false
  | String a p', String b s' => if Ascii.eqb a b then startsWith s' p' else false
  end.

Definition length (s : string) : Z := Z.of_nat (String.length s).

Fixpoint drop (n : nat) (s : string) : string :=
  match n, s with
  | O, _ => s
  | S _, EmptyString => EmptyString
  | S k, String _ r => drop k r
  end.

(** [s.slice(start)]: a negative [start] counts from the end. *)
Definition slice (s : string) (start : Z) : string :=
  let from := if start <? 0 then Z.max (length s + start) 0 else start in
  drop (Z.to_nat from) s.

Fixpoint searchFrom (i : Z) (s : string) : Z :=
  match s with
  | EmptyString => -1
  | String c r => if isSpace c then searchFrom (i + 1) r else i
  end.

(** [s.search(/\S/)]: index of the first non-space character, or -1. *)
Definition searchNonSpace (s : string) : Z := searchFrom 0 s.

(** [s.split(/\s{1,}|\n{1,}/)[0]]: the text before the first space. *)
Fixpoint splitFirst (s : string) : string :=
  match s with
  | EmptyString => EmptyString
  | String c r => if isSpace c then EmptyString else String c (splitFirst r)
  end.

Fixpoint trimStart (s : string) : string :=
  match s with
  | EmptyString => EmptyString
  | String c r => if isSpace c then trimStart r else s
  end.

(** Drops trailing spaces: an all-space suffix collapses to the empty
    string. *)
Fixpoint trimEnd (s : string) : string :=
  match s with
  | EmptyString => EmptyString
  | String c r =>
      match trimEnd r with
      | EmptyString => if isSpace c then EmptyString else String c EmptyString
      | r' => String c r'
      end
  end.

(** [s.trim()]. *)
Definition trim (s : string) : string := trimEnd (trimStart s).

(** [Array.prototype.sort(cmp)]: a stable sort; [cmp a b <= 0] keeps [a]
    before [b].  Insertion from the right keeps equal elements in their
    original order. *)
Fixpoint insertBy {A : Type} (cmp : A -> A -> Z) (x : A) (l : list A) : list A :=
  match l with
  | [] => [x]
  | y :: r => if cmp x y <=? 0 then x :: y :: r else y :: insertBy cmp x r
  end.

Fixpoint sortBy {A : Type} (cmp : A -> A -> Z) (l : list A) : list A :=
  match l with
  | [] => []
  | x :: r => insertBy cmp x (sortBy cmp r)
  end.

(** [s.includes(sub)] on strings. *)
Fixpoint includes (s sub : string) : bool :=
  startsWith s sub ||
  match s with
  | EmptyString => false
  | String _ r => includes r sub
  end.

(** Truthiness of a string value: only the empty string is falsy. *)
Definition truthyStr (s : string) : bool :=
  match s with EmptyString => false | _ => true end.

(** The property names every object inherits from [Object.prototype]: on
    an object literal without an own property of such a name, [obj[name]]
    is the inherited function (for [__proto__], the prototype itself),
    which is truthy. *)
Definition objectPrototype : list string :=
  ["constructor"; "__defineGetter__"; "__defineSetter__"; "hasOwnProperty";
   "__lookupGetter__"; "__lookupSetter__"; "isPrototypeOf";
   "propertyIsEnumerable"; "toString"; "valueOf"; "__proto__";
   "toLocaleString"].

Definition inherited (name : string) : bool :=
  bool_decide (name ∈ objectPrototype).

(** The largest delay of the host's timers, 2^31 - 1 ms. *)
Definition TIMEOUT_MAX : Z := 2147483647.

(** The delay the host's [setTimeout] really waits: the one it is given
    when that is from 1 to [TIMEOUT_MAX], and 1 ms otherwise. *)
Definition timerDelay (delay : Z) : Z :=
  if (1 <=? delay) && (delay <=? TIMEOUT_MAX) then delay else 1.

End Js.

(** ** Data model *)

(** A JavaScript error value, identified by its message. *)
Definition Error := string.

(** The error of [Command.execSlash], the method of the base class. *)
Definition NOT_IMPLEMENTED : Error := "NOT_IMPLEMENTED".

(** Result of calling user code: it returns a value or throws. *)
Inductive Outcome (A : Type) : Type :=
| Returns (a : A)
| Throws (e : Error).
Arguments Returns {A} a.
Arguments Throws {A} e.

(** ** Promises awaited together *)

Module Promise.

(** A promise as [Promise.all] meets it: what it settles with, and the
    instant it does, counted from the call of [Promise.all] (0 for a
    promise that is settled by then, as the promise of an asynchronous
    closure whose body ran without waiting).  Promises that settle at the
    same instant do so in the order of the list. *)
Record Settling (A : Type) := { result : Outcome A; instant : nat }.
Arguments result {A} _.
Arguments instant {A} _.

(** The rejection that happens first: its instant and its error. *)
Fixpoint firstRejection {A : Type} (l : list (Settling A)) : option (nat * Error) :=
  match l with
  | [] => None
  | p :: r =>
      match result p, firstRejection r with
      | Throws e, Some (t, e') =>
          if (instant p <=? t)%nat then Some (instant p, e) else Some (t, e')
      | Throws e, None => Some (instant p, e)
      | Returns _, later => later
      end
  end.

(** The values of the promises that are fulfilled, in list order. *)
Fixpoint values {A : Type} (l : list (Settling A)) : list A :=
  match l with
  | [] => []
  | p :: r =>
      match result p with
      | Returns a => a :: values r
      | Throws _ => values r
      end
  end.

(** The instant by which every promise has settled. *)
Definition lastInstant {A : Type} (l : list (Settling A)) : nat :=
  foldr Nat.max 0%nat (map instant l).

(** [Promise.all(promises)]: rejected with the first rejection in time,
    at that instant; fulfilled, when every promise is, with their values
    in list order. *)
Definition all {A : Type} (l : list (Settling A)) : Settling (list A) :=
  match firstRejection l with
  | Some (t, e) => {| result := Throws e; instant := t |}
  | None => {| result := Returns (values l); instant := lastInstant l |}
  end.

(** The promises in the order they settle. *)
Definition bySettling {A : Type} (l : list (Settling A)) : list (Settling A) :=
  Js.sortBy (fun p q => Z.of_nat (instant p) - Z.of_nat (instant q)) l.

End Promise.

Record User := { user_id : string; bot : bool }.

Record Message := {
  msg_id : string;
  author : option User;
  content : string;
  createdTimestamp : Z;
  editedTimestamp : option Z;
  guild : option string;
  channel_id : string;
  channel_nsfw : bool
}.

(** [message.author?.id]. *)
Definition author_id (m : Message) : option string :=
  user_id <$> author m.

(** Modelled from the spec: the [Flag] class (Flag.ts is not among the
    sources).  "A tagged value distinguishable from normal argument
    results, one of: cancel, retry (re-submit a replacement message),
    continue (jump into another command's execution with pre-supplied
    leftover text and an ignore-inhibitors flag)". *)
Inductive Flag : Type :=
| FlagCancel
| FlagRetry (message : Message)
| FlagContinue (command : string) (ignore : bool) (rest : string).

Definition Flag_type (f : Flag) : string :=
  match f with
  | FlagCancel => "cancel"
  | FlagRetry _ => "retry"
  | FlagContinue _ _ _ => "continue"
  end.

(** What argument resolution yields and what [exec] receives ([any] in the
    source): a Flag, or an arguments object. *)
Inductive Value : Type :=
| VFlag (f : Flag)
| VArgs (fields : list (string * string)).

(** Modelled from the spec: [Flag.is(value, type)], true when the value is
    a Flag of the given type. *)
Definition Flag_is (v : Value) (type : string) : bool :=
  match v with
  | VFlag f => String.eqb (Flag_type f) type
  | VArgs _ => false
  end.

(** [ignoreCooldown]: an array of ids, a predicate, or one id.  The
    predicate receives the message and the command; the command is passed
    by its id. *)
Inductive Ignorer : Type :=
| IgnoreArray (ids : list string)
| IgnoreFn (f : Message -> string -> bool)
| IgnoreId (id : string).

(** A key computed by a lock key supplier: a string, or null/undefined. *)
Definition JsKey := option string.

Definition truthyKey (k : JsKey) : bool :=
  match k with Some s => Js.truthyStr s | None => false end.

Inductive ChannelKind := GuildOnly | DmOnly.

(** A prefix option: one string or an array of strings. *)
Inductive PrefixValue : Type :=
| PrefixStr (p : string)
| PrefixArr (ps : list string).

(** A command as dispatch sees it.  [regex] is what the command's [regex]
    (a RegExp, or a supplier called with the message) gives on the
    message's content: the fields of [{ match, matches }], or [None] when
    the command has no regex or the content does not match; [condition]
    is the truthiness of what [condition(message)] gives or resolves to,
    or the error it throws or rejects with, and [conditionSettles] the
    instant that is known (0 when it gives no promise).  [ownExecSlash]
    says whether the command's class defines [execSlash] itself, and
    [execSlash] is the method the command has, the one of the base class
    (which throws) when no class of its own defines it. *)
Record Command := {
  cmd_id : string;
  cmd_prefix : option PrefixValue;
  editable : bool;
  ownerOnly : bool;
  superUserOnly : bool;
  cmd_channel : option ChannelKind;
  onlyNsfw : bool;
  slashOnly : bool;
  cooldown : option Z;
  ratelimit : Z;
  ignoreCooldown : option Ignorer;
  lock : option (Message -> Value -> JsKey);
  before : Message -> Outcome unit;
  parse : Message -> string -> Outcome Value;
  regex : Message -> Outcome (option (list (string * string)));
  condition : Message -> Outcome bool;
  conditionSettles : Message -> nat;
  exec : Message -> Value -> Outcome string;
  slashEphemeral : bool;
  ownExecSlash : bool;
  execSlash : Message -> Value -> Outcome string
}.

(** Modelled from the spec: the built-in block reasons of
    [BuiltInReasons] (Constants.ts is not among the sources): "missing
    author, self-message block, bot-message block" and "owner-only,
    superuser-only, guild/DM restriction, NSFW restriction". *)
Inductive BuiltInReasons : Type :=
| AUTHOR_NOT_FOUND | CLIENT | BOT | OWNER | SUPER_USER | GUILD | DM | NOT_NSFW.

(** A block reason: built in, or the [reason] of an inhibitor. *)
Inductive Reason : Type :=
| BuiltIn (r : BuiltInReasons)
| Custom (s : string).

(** Events the handler emits, with their arguments; commands are named by
    id ([None] where the source passes [undefined]). *)
Inductive Event : Type :=
| MESSAGE_BLOCKED (m : Message) (reason : Reason)
| IN_PROMPT (m : Message)
| SLASH_ONLY (m : Message) (c : string)
| MESSAGE_INVALID (m : Message)
| COMMAND_INVALID (m : Message)
| COMMAND_BLOCKED (m : Message) (c : option string) (reason : Reason)
| MISSING_PERMISSIONS (m : Message) (c : string) (who : string) (missing : string)
| COOLDOWN (m : Message) (c : string) (remaining : Z)
| COMMAND_CANCELLED (m : Message) (c : string)
| COMMAND_BREAKOUT (m : Message) (c : string) (m' : Message)
| COMMAND_LOCKED (m : Message) (c : string)
| COMMAND_STARTED (m : Message) (c : string) (args : Value)
| COMMAND_FINISHED (m : Message) (c : string) (args : Value) (ret : string)
| ERROR (e : Error) (m : Message) (c : option string)
| SLASH_NOT_FOUND (commandName : string)
| SLASH_STARTED (m : Message) (c : string) (args : Value)
| SLASH_FINISHED (m : Message) (c : string) (args : Value) (ret : string)
| SLASH_ERROR (e : Error) (m : Message) (c : string).

(** What the outside observes: an emitted event, or a call of a command
    body, [exec] or [execSlash]. *)
Inductive Effect : Type :=
| Emit (ev : Event)
| ExecCall (c : string) (m : Message) (args : Value)
| ExecSlashCall (c : string) (m : Message) (args : Value).

(** [CooldownData]: the expiry timer's handle, when the cooldown ends, and
    the uses so far. *)
Record CooldownData := { timer : nat; end_ : Z; uses : Z }.

(** A pending [setTimeout]: when it becomes due and the (user id, command
    id) its callback closes over. *)
Record Timer := { due : Z; t_user : option string; t_cmd : string }.

(** The handler's mutable state.  [cooldowns] maps a user id to an object
    from command id to entry or [null] ([Some None]); [lockers] holds the
    [locker] set of every command that has one. *)
Record State := {
  now : Z;
  cooldowns : gmap (option string) (gmap string (option CooldownData));
  timers : gmap nat Timer;
  nextTimer : nat;
  lockers : gmap string (gset string);
  commandUtils : gset string;
  log : list Effect
}.

Definition with_cooldowns (st : State) cds : State :=
  {| now := now st; cooldowns := cds; timers := timers st;
     nextTimer := nextTimer st; lockers := lockers st;
     commandUtils := commandUtils st; log := log st |}.

Definition with_timers (st : State) ts nt : State :=
  {| now := now st; cooldowns := cooldowns st; timers := ts;
     nextTimer := nt; lockers := lockers st;
     commandUtils := commandUtils st; log := log st |}.

Definition with_now (st : State) t : State :=
  {| now := t; cooldowns := cooldowns st; timers := timers st;
     nextTimer := nextTimer st; lockers := lockers st;
     commandUtils := commandUtils st; log := log st |}.

Definition with_lockers (st : State) ls : State :=
  {| now := now st; cooldowns := cooldowns st; timers := timers st;
     nextTimer := nextTimer st; lockers := ls;
     commandUtils := commandUtils st; log := log st |}.

Definition with_commandUtils (st : State) us : State :=
  {| now := now st; cooldowns := cooldowns st; timers := timers st;
     nextTimer := nextTimer st; lockers := lockers st;
     commandUtils := us; log := log st |}.

(** [this.emit(event, ...)]. *)
Definition emit (ev : Event) (st : State) : State :=
  {| now := now st; cooldowns := cooldowns st; timers := timers st;
     nextTimer := nextTimer st; lockers := lockers st;
     commandUtils := commandUtils st; log := log st ++ [Emit ev] |}.

Definition record (ef : Effect) (st : State) : State :=
  {| now := now st; cooldowns := cooldowns st; timers := timers st;
     nextTimer := nextTimer st; lockers := lockers st;
     commandUtils := commandUtils st; log := log st ++ [ef] |}.

Definition initial : State :=
  {| now := 0; cooldowns := ∅; timers := ∅; nextTimer := 0%nat;
     lockers := ∅; commandUtils := ∅; log := [] |}.

(** [InhibitorOptions]/[Inhibitor]: [inh_exec] is the inhibitor's [exec],
    the truthiness of what it returns or resolves to, or the error it
    throws or rejects with; [inh_settles] is the instant that is known,
    counted from the call of [test]: 0 when [exec] returns a plain value
    or throws, later when it returns a promise. *)
Record Inhibitor := {
  inh_id : string;
  inh_type : string;
  priority : Z;
  reason : string;
  inh_exec : Message -> option Command -> Outcome bool;
  inh_settles : Message -> option Command -> nat
}.

(** [ownerID]/[superUserID] of the client: one id or an array of ids. *)
Inductive Ids : Type :=
| OneId (id : string)
| ManyIds (ids : list string).

(** The handler's configuration, fixed while messages are handled.
    [prefix] and the providers in [prefixes] are
    [Util.intoCallable(...)(message)]; [hasPrompt] and
    [missingPermissions] (who misses which permissions for the command,
    the finding of [runPermissionChecks]) belong to the platform side and
    are taken as given; [modules_values] is [this.modules.values()], the
    loaded commands in the order they were registered; [h_execSlash] is
    the handler's [execSlash] option. *)
Record Handler := {
  modules : gmap string Command;
  modules_values : list Command;
  aliases : gmap string string;
  prefix : Message -> PrefixValue;
  prefixes : list ((Message -> PrefixValue) * gset string);
  h_ignoreCooldown : Ignorer;
  defaultCooldown : Z;
  blockClient : bool;
  blockBots : bool;
  skipBuiltInPostInhibitors : bool;
  commandUtil : bool;
  inhibitorHandler : option (list Inhibitor);
  clientUserId : option string;
  ownerID : Ids;
  superUserID : Ids;
  errorListeners : nat;
  autoDefer : bool;
  h_execSlash : bool;
  hasPrompt : Message -> bool;
  missingPermissions : Message -> Command -> Outcome (option (string * string))
}.

(** ** Cooldowns: [CommandHandler.runCooldowns] and its expiry timer

    The object the table keeps per user is an object literal: the map
    holds its own properties, and a name without an own property is
    looked up in [Object.prototype].  [setTimeout] is the host's, with
    its range of delays. *)

Module Cooldown.

(** The entry stored for the user under the command's id: the own
    property [this.cooldowns.get(id)![command.id]] when it holds an entry
    (not null). *)
Definition entryOf (st : State) (id : option string) (cid : string)
  : option CooldownData :=
  match cooldowns st !! id with
  | Some obj => match obj !! cid with Some (Some e) => Some e | _ => None end
  | None => None
  end.

(** [this.cooldowns.get(id)![command.id] = v]. *)
Definition setEntry (id : option string) (cid : string)
    (v : option CooldownData) (st : State) : State :=
  match cooldowns st !! id with
  | Some obj => with_cooldowns st (<[id := <[cid := v]> obj]> (cooldowns st))
  | None => st
  end.

(** [this.cooldowns.get(id)![command.id]] finds an inherited property:
    the user's object has no own property of the name and the name is one
    of [Object.prototype]. *)
Definition inheritedAt (st : State) (id : option string) (cid : string) : bool :=
  match cooldowns st !! id with
  | Some obj => bool_decide (obj !! cid = None) && Js.inherited cid
  | None => false
  end.

(** [setTimeout(callback, delay)]: the callback becomes due after the
    delay the host waits for [delay]. *)
Definition setTimeout (id : option string) (cid : string) (delay : Z)
    (st : State) : nat * State :=
  let t := nextTimer st in
  (t, with_timers st
        (<[t := {| due := now st + Js.timerDelay delay; t_user := id;
                   t_cmd := cid |}]> (timers st))
        (S t)).

Definition clearTimeout (t : nat) (st : State) : State :=
  with_timers st (delete t (timers st)) (nextTimer st).

Definition truthyIgnorer (o : option Ignorer) : bool :=
  match o with
  | Some (IgnoreId s) => Js.truthyStr s
  | Some _ => true
  | None => false
  end.

(** [command.ignoreCooldown || this.ignoreCooldown]. *)
Definition ignorerOf (h : Handler) (command : Command) : Ignorer :=
  match ignoreCooldown command with
  | Some ig => if truthyIgnorer (Some ig) then ig else h_ignoreCooldown h
  | None => h_ignoreCooldown h
  end.

Definition isIgnored (h : Handler) (message : Message) (command : Command) : bool :=
  match ignorerOf h command with
  | IgnoreArray ids =>
      match author_id message with
      | Some i => bool_decide (i ∈ ids)
      | None => false
      end
  | IgnoreFn f => f message (cmd_id command)
  | IgnoreId s => bool_decide (author_id message = Some s)
  end.

(** [command.cooldown != null ? command.cooldown : this.defaultCooldown]. *)
Definition timeOf (h : Handler) (command : Command) : Z :=
  match cooldown command with
  | Some t => t
  | None => defaultCooldown h
  end.

(** [if (!this.cooldowns.has(id)) this.cooldowns.set(id, {})]. *)
Definition ensureUser (id : option string) (st : State) : State :=
  match cooldowns st !! id with
  | Some _ => st
  | None => with_cooldowns st (<[id := ∅]> (cooldowns st))
  end.

Definition incUses (e : CooldownData) : CooldownData :=
  {| timer := timer e; end_ := end_ e; uses := uses e + 1 |}.

(** [runCooldowns(message, command)].  Where the lookup of the command's
    id finds an inherited property, that function is taken for the entry:
    none is stored and no timer set, its [uses] is undefined, which is
    [>=] no ratelimit, and the increment makes it NaN on the function
    itself, outside the table; the call returns false. *)
Definition runCooldowns (h : Handler) (message : Message) (command : Command)
    (st : State) : bool * State :=
  let id := author_id message in
  if isIgnored h message command then (false, st) else
  let time := timeOf h command in
  if time =? 0 then (false, st) else
  let endTime := createdTimestamp message + time in
  let st1 := ensureUser id st in
  if inheritedAt st1 id (cmd_id command) then (false, st1) else
  let '(entry, st2) :=
    match entryOf st1 id (cmd_id command) with
    | Some e => (e, st1)
    | None =>
        let '(t, st') := setTimeout id (cmd_id command) time st1 in
        let e := {| timer := t; end_ := endTime; uses := 0 |} in
        (e, setEntry id (cmd_id command) (Some e) st')
    end in
  if ratelimit command <=? uses entry then
    let diff := end_ entry - createdTimestamp message in
    (true, emit (COOLDOWN message (cmd_id command) diff) st2)
  else
    (false, setEntry id (cmd_id command) (Some (incUses entry)) st2).

(** The callback given to [setTimeout]: clears the entry's timer, sets the
    entry to [null], and drops the user's object when it has no keys left.
    Where [this.cooldowns.get(id)] is undefined the callback throws before
    changing anything. *)
Definition expire (id : option string) (cid : string) (st : State) : State :=
  match cooldowns st !! id with
  | None => st
  | Some obj =>
      let st1 :=
        match obj !! cid with
        | Some (Some e) => clearTimeout (timer e) st
        | _ => st
        end in
      let obj' := <[cid := None]> obj in
      if bool_decide (dom obj' = ∅)
      then with_cooldowns st1 (delete id (cooldowns st1))
      else with_cooldowns st1 (<[id := obj']> (cooldowns st1))
  end.

(** What can happen to the cooldown table: real time passes, a due timer
    fires (the label repeats the key its callback closes over), or
    [runCooldowns] is called. *)
Inductive Action : Type :=
| Advance (dt : Z)
| Fire (t : nat) (id : option string) (cid : string)
| Call (m : Message) (c : Command).

(** One call of [runCooldowns] as seen from outside: its arguments, its
    result, the clock at the call, and what it emitted. *)
Record Outcall := {
  o_msg : Message;
  o_cmd : Command;
  o_at : Z;
  o_blocked : bool;
  o_emitted : list Effect
}.

Definition step (h : Handler) (st : State) (a : Action)
  : option (list Outcall * State) :=
  match a with
  | Advance dt =>
      if 0 <=? dt then Some ([], with_now st (now st + dt)) else None
  | Fire t id cid =>
      match timers st !! t with
      | Some tm =>
          if bool_decide (t_user tm = id ∧ t_cmd tm = cid) && (due tm <=? now st)
          then Some ([], expire id cid (clearTimeout t st))
          else None
      | None => None
      end
  | Call m c =>
      let '(b, st') := runCooldowns h m c st in
      Some ([{| o_msg := m; o_cmd := c; o_at := now st; o_blocked := b;
                o_emitted := drop (List.length (log st)) (log st') |}], st')
  end.

Fixpoint run (h : Handler) (st : State) (acts : list Action)
  : option (list Outcall * State) :=
  match acts with
  | [] => Some ([], st)
  | a :: rest =>
      match step h st a with
      | Some (o1, st1) =>
          match run h st1 rest with
          | Some (o2, st2) => Some ((o1 ++ o2)%list, st2)
          | None => None
          end
      | None => None
      end
  end.

End Cooldown.

(** ** Statements about the cooldown table *)

Module CooldownInv.
Import Cooldown.

(** The calls of one user for one command. *)
Definition mine (u : option string) (cid : string) (o : Outcall) : bool :=
  bool_decide (author_id (o_msg o) = u ∧ cmd_id (o_cmd o) = cid).

(** An action that leaves the window of [(u, c)] open: no timer of that
    key fires, and the user's calls for the command's id are calls of [c]
    that the ignore list does not exempt. *)
Definition in_window (h : Handler) (u : option string) (c : Command)
    (a : Action) : Prop :=
  match a with
  | Advance _ => True
  | Fire _ id cid => ¬ (id = u ∧ cid = cmd_id c)
  | Call m c' =>
      author_id m = u → cmd_id c' = cmd_id c →
      c' = c ∧ isIgnored h m c = false
  end.

(** What the [i]-th call in a window reports, given the uses counted
    before the window's calls and the end timestamp of the entry. *)
Definition expected (c : Command) (used : Z) (endTime : Z) (i : nat)
    (o : Outcall) : Prop :=
  o_blocked o = (ratelimit c <=? used + Z.of_nat i) ∧
  o_emitted o =
    if o_blocked o
    then [Emit (COOLDOWN (o_msg o) (cmd_id c)
                  (endTime - createdTimestamp (o_msg o)))]
    else [].

(** Pending timers and entries agree: every pending timer is the timer of
    the entry of its key, and handles below [nextTimer] only. *)
Definition wf (st : State) : Prop :=
  (∀ t tm, timers st !! t = Some tm →
     ∃ e, entryOf st (t_user tm) (t_cmd tm) = Some e ∧ timer e = t) ∧
  (∀ t tm, timers st !! t = Some tm → (t < nextTimer st)%nat).

(** The entry [e] of [(u, cid)] is live: it is the stored entry and its
    own timer [tm] is pending. *)
Definition live (st : State) (u : option string) (cid : string)
    (e : CooldownData) (tm : Timer) : Prop :=
  entryOf st u cid = Some e ∧ timers st !! timer e = Some tm ∧
  t_user tm = u ∧ t_cmd tm = cid.

(** The sliding-window reading of the reset rule: whenever the entry of a
    user and command is found cleared, a full cooldown has passed since
    every counted use of it. *)
Definition reset_needs_quiet_cooldown : Prop :=
  ∀ (h : Handler) (acts : list Action) (outs : list Outcall) (st' : State)
    (u : option string) (c : Command) (o : Outcall),
    run h initial acts = Some (outs, st') →
    o ∈ outs → author_id (o_msg o) = u → o_cmd o = c →
    o_blocked o = false → isIgnored h (o_msg o) c = false →
    timeOf h c ≠ 0 →
    entryOf st' u (cmd_id c) = None →
    o_at o + timeOf h c ≤ now st'.

End CooldownInv.


Module CooldownCount.

(** The counter after [k] more calls of an open window. *)
Definition usesAfter (N used : Z) (k : nat) : Z :=
  if N <=? used then used else Z.min (used + Z.of_nat k) N.

End CooldownCount.

(** ** Concrete handlers, commands and messages used in examples *)

Module Samples.
Import Cooldown.

Definition mkMsg (i u text : string) (ts : Z) : Message :=
  {| msg_id := i; author := Some {| user_id := u; bot := false |};
     content := text; createdTimestamp := ts; editedTimestamp := None;
     guild := Some "g"; channel_id := "ch"; channel_nsfw := false |}.

Definition mkCmd (i : string) (cd : option Z) (rl : Z) : Command :=
  {| cmd_id := i; cmd_prefix := None; editable := true; ownerOnly := false;
     superUserOnly := false; cmd_channel := None; onlyNsfw := false;
     slashOnly := false; cooldown := cd; ratelimit := rl;
     ignoreCooldown := None; lock := None;
     before := fun _ => Returns tt;
     parse := fun _ _ => Returns (VArgs []);
     regex := fun _ => Returns None; condition := fun _ => Returns false;
     conditionSettles := fun _ => 0%nat;
     exec := fun _ _ => Returns "done";
     slashEphemeral := false; ownExecSlash := false;
     execSlash := fun _ _ => Throws NOT_IMPLEMENTED |}.

Definition mkHandler (cmds : list Command) (als : list (string * string))
    (pfx : PrefixValue) (listeners : nat) : Handler :=
  {| modules := list_to_map (map (fun c => (cmd_id c, c)) cmds);
     modules_values := cmds;
     aliases := list_to_map als;
     prefix := fun _ => pfx; prefixes := [];
     h_ignoreCooldown := IgnoreId "owner"; defaultCooldown := 0;
     blockClient := true; blockBots := true;
     skipBuiltInPostInhibitors := false; commandUtil := false;
     inhibitorHandler := None; clientUserId := Some "bot";
     ownerID := OneId "owner"; superUserID := ManyIds [];
     errorListeners := listeners; autoDefer := false; h_execSlash := false;
     hasPrompt := fun _ => false;
     missingPermissions := fun _ _ => Returns None |}.

(** Command [a]: two uses per 1000 ms. *)
Definition cmdA : Command := mkCmd "a" (Some 1000) 2.

Definition h1 : Handler := mkHandler [cmdA] [("a", "a")] (PrefixStr "!") 0.

(** Three uses by user [u] inside one window, a use by another user in
    between. *)
Definition burst : list Action :=
  [Call (mkMsg "1" "u" "!a" 5) cmdA; Advance 100;
   Call (mkMsg "2" "v" "!a" 101) cmdA;
   Call (mkMsg "3" "u" "!a" 105) cmdA;
   Call (mkMsg "4" "u" "!a" 110) cmdA].

(** A second use 900 ms into the window, then the timer of the first use
    fires at 1000 ms. *)
Definition late_use : list Action :=
  [Call (mkMsg "1" "u" "!a" 0) cmdA; Advance 900;
   Call (mkMsg "2" "u" "!a" 900) cmdA; Advance 100;
   Fire 0%nat (Some "u") "a"].

(** Command [once]: one use per 1000 ms; two uses 100 ms apart. *)
Definition once : Command := mkCmd "once" (Some 1000) 1.

(** A command whose id is a name every object inherits, one use per
    1000 ms, and three uses of it by user [u] within 20 ms. *)
Definition inheritedId : Command := mkCmd "constructor" (Some 1000) 1.

Definition h2 : Handler :=
  mkHandler [inheritedId] [("constructor", "constructor")] (PrefixStr "!") 0.

Definition thrice : list Action :=
  [Call (mkMsg "1" "u" "!constructor" 0) inheritedId; Advance 10;
   Call (mkMsg "2" "u" "!constructor" 10) inheritedId; Advance 10;
   Call (mkMsg "3" "u" "!constructor" 20) inheritedId].

Definition twice : list Action :=
  [Call (mkMsg "1" "u" "!once" 0) once; Advance 100;
   Call (mkMsg "2" "u" "!once" 100) once].

Definition ranFrom (h : Handler) (st : State) (acts : list Action)
  : list Outcall * State :=
  match run h st acts with
  | Some r => r
  | None => ([], st)
  end.

Definition ran (h : Handler) (acts : list Action) : list Outcall * State :=
  ranFrom h initial acts.

(** The state after the first use of [late_use]. *)
Definition first_used : State :=
  (runCooldowns h1 (mkMsg "1" "u" "!a" 0) cmdA initial).2.

End Samples.

(** ** Inhibitors: [InhibitorHandler.test] *)

Module Inhibitors.

(** One of the asynchronous closures pushed to [promises]: it settles
    when what [exec] gave does, with the inhibitor itself when it blocks
    and [null] when it does not. *)
Definition probe (message : Message) (command : option Command)
    (i : Inhibitor) : Promise.Settling (option Inhibitor) :=
  {| Promise.result :=
       match inh_exec i message command with
       | Returns true => Returns (Some i)
       | Returns false => Returns None
       | Throws e => Throws e
       end;
     Promise.instant := inh_settles i message command |}.

(** The comparator given to [sort]: [(a, b) => b.priority - a.priority]. *)
Definition byPriority (a b : Inhibitor) : Z := priority b - priority a.

(** A call of [test] as seen from outside: the inhibitors whose [exec] it
    called, by id and in order, and the promise it returned. *)
Record Tested := {
  called : list string;
  settled : Promise.Settling (option string)
}.

(** [InhibitorHandler.test(type, message, command)] over the loaded
    inhibitors in the order they were loaded: the loop calls [exec] of
    every inhibitor of the type, then the closures are awaited
    together. *)
Definition run (modules : list Inhibitor) (type : string)
    (message : Message) (command : option Command) : Tested :=
  let null :=
    {| called := [];
       settled := {| Promise.result := Returns None; Promise.instant := 0%nat |} |} in
  match modules with
  | [] => null
  | _ =>
    let inhibitors := List.filter (fun i => String.eqb (inh_type i) type) modules in
    match inhibitors with
    | [] => null
    | _ =>
      let promises := map (probe message command) inhibitors in
      let awaited := Promise.all promises in
      {| called := map inh_id inhibitors;
         settled :=
           {| Promise.result :=
                match Promise.result awaited with
                | Throws e => Throws e
                | Returns results =>
                    let inhibitedInhibitors := omap (fun r => r) results in
                    match Js.sortBy byPriority inhibitedInhibitors with
                    | [] => Returns None
                    | first :: _ => Returns (Some (reason first))
                    end
                end;
              Promise.instant := Promise.instant awaited |} |}
    end
  end.

(** What [await this.inhibitorHandler.test(...)] gives. *)
Definition test (modules : list Inhibitor) (type : string)
    (message : Message) (command : option Command) : Outcome (option string) :=
  Promise.result (settled (run modules type message command)).

(** The inhibitors of a stage, in loading order. *)
Definition ofType (modules : list Inhibitor) (type : string) : list Inhibitor :=
  List.filter (fun i => String.eqb (inh_type i) type) modules.

(** The inhibitor blocks the message. *)
Definition blocks (message : Message) (command : option Command)
    (i : Inhibitor) : bool :=
  match inh_exec i message command with Returns true => true | _ => false end.

(** The inhibitors of a stage that block the message, in loading order. *)
Definition blocking (modules : list Inhibitor) (type : string)
    (message : Message) (command : option Command) : list Inhibitor :=
  List.filter
    (fun i => String.eqb (inh_type i) type && blocks message command i)
    modules.

(** No inhibitor of the stage throws on the message. *)
Definition settles (modules : list Inhibitor) (type : string)
    (message : Message) (command : option Command) : Prop :=
  ∀ i, i ∈ modules → inh_type i = type →
       ∃ b, inh_exec i message command = Returns b.

(** [i] is the first inhibitor of highest priority in [l]. *)
Definition first_highest (l : list Inhibitor) (i : Inhibitor) : Prop :=
  ∃ l1 l2, l = (l1 ++ i :: l2)%list ∧
    (∀ j, j ∈ l1 → priority j < priority i) ∧
    (∀ j, j ∈ l2 → priority j ≤ priority i).

(** The inhibitor throws, or the promise it returns rejects. *)
Definition fails (message : Message) (command : option Command)
    (i : Inhibitor) : Prop :=
  ∃ e, inh_exec i message command = Throws e.

(** [i] is the inhibitor of [l] that fails first: before those loaded
    before it, and not after those loaded after it. *)
Definition first_failing (message : Message) (command : option Command)
    (l : list Inhibitor) (i : Inhibitor) : Prop :=
  ∃ l1 l2, l = (l1 ++ i :: l2)%list ∧
    (∀ j, j ∈ l1 → fails message command j →
          (inh_settles i message command < inh_settles j message command)%nat) ∧
    (∀ j, j ∈ l2 → fails message command j →
          (inh_settles i message command ≤ inh_settles j message command)%nat).

(** The claim as stated: whatever the inhibitors of the stage do, [test]
    returns null when none of them blocks and otherwise the reason of the
    first blocking one of highest priority. *)
Definition test_returns_highest_reason : Prop :=
  ∀ (modules : list Inhibitor) (type : string) (message : Message)
    (command : option Command),
    match blocking modules type message command with
    | [] => test modules type message command = Returns None
    | _ :: _ =>
        ∃ i, first_highest (blocking modules type message command) i ∧
             test modules type message command = Returns (Some (reason i))
    end.

End Inhibitors.

Module InhibitorSamples.

Definition mkInhibitor (i type : string) (p : Z) (r : string) (b : bool)
  : Inhibitor :=
  {| inh_id := i; inh_type := type; priority := p; reason := r;
     inh_exec := fun _ _ => Returns b; inh_settles := fun _ _ => 0%nat |}.

(** Two blocking post inhibitors share the highest priority 5; the first
    loaded of them gives the reason. *)
Definition loaded : list Inhibitor :=
  [mkInhibitor "low" "post" 1 "low" true;
   mkInhibitor "quiet" "post" 7 "quiet" false;
   mkInhibitor "early" "pre" 9 "early" true;
   mkInhibitor "first" "post" 5 "first" true;
   mkInhibitor "second" "post" 5 "second" true].

End InhibitorSamples.

(** ** Prefix resolution: [parseCommand], [parseMultiplePrefixes],
    [parseWithPrefix] *)

Module Prefix.

(** [ParsedComponentData]; every field may be absent. *)
Record ParsedComponentData := {
  p_command : option Command;
  p_prefix : option string;
  p_alias : option string;
  p_content : option string;
  p_afterPrefix : option string
}.

Definition noParse : ParsedComponentData :=
  {| p_command := None; p_prefix := None; p_alias := None;
     p_content := None; p_afterPrefix := None |}.

(** [Util.intoArray] (Util.ts is not among the sources), as its uses on
    [string | string[]] values require: an array is kept, a single value
    becomes an array of one. *)
Definition intoArray (v : PrefixValue) : list string :=
  match v with
  | PrefixStr p => [p]
  | PrefixArr ps => ps
  end.

(** Truthiness of a prefix option: an array is always truthy. *)
Definition truthyPrefix (v : PrefixValue) : bool :=
  match v with
  | PrefixStr p => Js.truthyStr p
  | PrefixArr _ => true
  end.

(** Template text of [client.user?.id]. *)
Definition clientIdText (h : Handler) : string :=
  match clientUserId h with
  | Some i => i
  | None => "undefined"
  end.

(** The two mention forms of the bot, [<@id>] and [<@!id>]. *)
Definition mentions (h : Handler) : list string :=
  [("<@" ++ clientIdText h ++ ">")%string; ("<@!" ++ clientIdText h ++ ">")%string].

Definition isMention (h : Handler) (p : string) : bool :=
  bool_decide (p ∈ mentions h).

(** Lexicographic order of two strings by code unit, as -1, 0 or 1; the
    tie-break of [prefixCompare]. *)
Fixpoint lexCompare (a b : string) : Z :=
  match a, b with
  | EmptyString, EmptyString => 0
  | EmptyString, String _ _ => -1
  | String _ _, EmptyString => 1
  | String x a', String y b' =>
      if (nat_of_ascii x <? nat_of_ascii y)%nat then -1
      else if (nat_of_ascii y <? nat_of_ascii x)%nat then 1
      else lexCompare a' b'
  end.

(** Modelled from the spec: [Util.prefixCompare] (Util.ts is not among the
    sources).  "Prefixes are compared so that, among all configured
    prefixes, the longest string sorts first unless one is the exact
    mention-form of the bot; string equality ties break by lexicographic
    order."  The exception is read as: an exact mention form of the bot
    sorts before a prefix that is not one; two mention forms, and two
    other prefixes, compare by length, longest first, then
    lexicographically. *)
Definition prefixCompare (h : Handler) (a b : string) : Z :=
  match isMention h a, isMention h b with
  | true, false => -1
  | false, true => 1
  | _, _ =>
      if Js.length a =? Js.length b then lexCompare a b
      else Js.length b - Js.length a
  end.

(** [this.findCommand(name)]:
    [this.modules.get(this.aliases.get(name.toLowerCase()))]. *)
Definition findCommand (h : Handler) (name : string) : option Command :=
  match aliases h !! Js.toLowerCase name with
  | Some i => modules h !! i
  | None => None
  end.

Definition parseWithPrefix (h : Handler) (message : Message) (prefix : string)
    (associatedCommands : option (gset string)) : ParsedComponentData :=
  let lowerContent := Js.toLowerCase (content message) in
  if negb (Js.startsWith lowerContent (Js.toLowerCase prefix)) then noParse else
  (* the content starts with the prefix, so [indexOf] is 0 *)
  let endOfPrefix := 0 + Js.length prefix in
  let startOfArgs :=
    Js.searchNonSpace (Js.slice (content message) endOfPrefix) + Js.length prefix in
  let alias := Js.splitFirst (Js.slice (content message) startOfArgs) in
  let command := findCommand h alias in
  let content' :=
    Js.trim (Js.slice (content message) (startOfArgs + Js.length alias + 1)) in
  let afterPrefix := Js.trim (Js.slice (content message) (Js.length prefix)) in
  let unresolved :=
    {| p_command := None; p_prefix := Some prefix; p_alias := Some alias;
       p_content := Some content'; p_afterPrefix := Some afterPrefix |} in
  match command with
  | None => unresolved
  | Some c =>
      let refused :=
        match associatedCommands with
        | None => bool_decide (is_Some (cmd_prefix c))
        | Some cmds => bool_decide (cmd_id c ∉ cmds)
        end in
      if refused then unresolved
      else {| p_command := Some c; p_prefix := Some prefix;
              p_alias := Some alias; p_content := Some content';
              p_afterPrefix := Some afterPrefix |}
  end.

(** [parses.find(parsed => parsed.command)], then
    [parses.find(parsed => parsed.prefix != null)], then [{}]. *)
Definition parseMultiplePrefixes (h : Handler) (message : Message)
    (pairs : list (string * option (gset string))) : ParsedComponentData :=
  let parses := map (fun '(prefix, cmds) => parseWithPrefix h message prefix cmds) pairs in
  match List.find (fun parsed => bool_decide (is_Some (p_command parsed))) parses with
  | Some result => result
  | None =>
      match List.find (fun parsed => bool_decide (is_Some (p_prefix parsed))) parses with
      | Some guess => guess
      | None => noParse
      end
  end.

(** The candidate prefixes of [parseCommand], sorted: the configured ones,
    with the bot's mention forms in front when the prefix option is
    truthy. *)
Definition candidates (h : Handler) (message : Message) : list string :=
  let allowMention := prefix h message in
  let prefixes := intoArray allowMention in
  let prefixes :=
    if truthyPrefix allowMention then (mentions h ++ prefixes)%list else prefixes in
  Js.sortBy (prefixCompare h) prefixes.

Definition parseCommand (h : Handler) (message : Message) : ParsedComponentData :=
  parseMultiplePrefixes h message (map (fun p => (p, None)) (candidates h message)).

(** [parseCommandOverwrittenPrefixes]: the pairs of every prefix override
    with the commands it belongs to, sorted by prefix. *)
Definition parseCommandOverwrittenPrefixes (h : Handler) (message : Message)
  : ParsedComponentData :=
  match prefixes h with
  | [] => noParse
  | _ =>
      let pairs :=
        concat (map (fun '(provider, cmds) =>
                       map (fun p => (p, Some cmds)) (intoArray (provider message)))
                    (prefixes h)) in
      parseMultiplePrefixes h message
        (Js.sortBy (fun a b => prefixCompare h a.1 b.1) pairs)
  end.



End Prefix.

Module PrefixSamples.
Import Samples.

Definition ping : Command := mkCmd "ping" None 1.


(** Prefixes ["!", "!!"]; the alias is "ping". *)
Definition plain : Handler :=
  mkHandler [ping] [("ping", "ping")] (PrefixArr ["!"; "!!"]) 0.

End PrefixSamples.

(** ** The client: [CitrusClient.isOwner] and [isSuperUser] *)

Module Client.

(** [client.users.resolveId(user)] followed by [if (!id) return false]. *)
Definition resolveId (u : option User) : option string :=
  match u with
  | Some x => if Js.truthyStr (user_id x) then Some (user_id x) else None
  | None => None
  end.

(** [CitrusClient.isOwner]. *)
Definition isOwner (ownerID : Ids) (u : option User) : bool :=
  match resolveId u with
  | None => false
  | Some id =>
      match ownerID with
      | ManyIds ids => bool_decide (id ∈ ids)
      | OneId o => String.eqb id o
      end
  end.

(** [CitrusClient.isSuperUser]; [this.ownerID.includes(id)] is the array
    or the string method, whichever [ownerID] is. *)
Definition isSuperUser (superUserID ownerID : Ids) (u : option User) : bool :=
  match resolveId u with
  | None => false
  | Some id =>
      match superUserID with
      | ManyIds ids =>
          bool_decide (id ∈ ids) ||
          match ownerID with
          | ManyIds os => bool_decide (id ∈ os)
          | OneId o => Js.includes o id
          end
      | OneId s =>
          String.eqb id s ||
          match ownerID with
          | ManyIds _ => false
          | OneId o => String.eqb id o
          end
      end
  end.

End Client.

(** ** Dispatch: [handle], [handleDirectCommand] and their stages *)

Module Dispatch.
Import Prefix.

(** The error a property access on [undefined] raises. *)
Definition TypeError : Error := "TypeError: Cannot read properties of undefined".

Definition isOwner (h : Handler) (u : option User) : bool :=
  Client.isOwner (ownerID h) u.

Definition isSuperUser (h : Handler) (u : option User) : bool :=
  Client.isSuperUser (superUserID h) (ownerID h) u.

(** Truthiness of [message.editedTimestamp]. *)
Definition edited (message : Message) : bool :=
  match editedTimestamp message with
  | Some t => negb (t =? 0)
  | None => false
  end.

(** [this.inhibitorHandler ? await this.inhibitorHandler.test(...) : null]. *)
Definition inhibitorTest (h : Handler) (type : string) (message : Message)
    (command : option Command) : Outcome (option string) :=
  match inhibitorHandler h with
  | Some loaded => Inhibitors.test loaded type message command
  | None => Returns None
  end.

(** [runAllTypeInhibitors(message, slash)]. *)
Definition runAllTypeInhibitors (h : Handler) (message : Message) (slash : bool)
    (st : State) : Outcome bool * State :=
  match inhibitorTest h "all" message None with
  | Throws e => (Throws e, st)
  | Returns (Some reason) =>
      (Returns true, emit (MESSAGE_BLOCKED message (Custom reason)) st)
  | Returns None =>
      match author message with
      | None =>
          (Returns true, emit (MESSAGE_BLOCKED message (BuiltIn AUTHOR_NOT_FOUND)) st)
      | Some a =>
          if blockClient h && bool_decide (Some (user_id a) = clientUserId h) then
            (Returns true, emit (MESSAGE_BLOCKED message (BuiltIn CLIENT)) st)
          else if blockBots h && bot a then
            (Returns true, emit (MESSAGE_BLOCKED message (BuiltIn BOT)) st)
          else if negb slash && hasPrompt h message then
            (Returns true, emit (IN_PROMPT message) st)
          else (Returns false, st)
      end
  end.

Definition runPreTypeInhibitors (h : Handler) (message : Message) (st : State)
  : Outcome bool * State :=
  match inhibitorTest h "pre" message None with
  | Throws e => (Throws e, st)
  | Returns (Some reason) =>
      (Returns true, emit (MESSAGE_BLOCKED message (Custom reason)) st)
  | Returns None => (Returns false, st)
  end.

(** The built-in checks at the head of [runPostTypeInhibitors], in their
    order; the reason of the first that blocks. *)
Definition builtInBlock (h : Handler) (message : Message) (c : Command)
  : option BuiltInReasons :=
  if ownerOnly c && negb (isOwner h (author message)) then Some OWNER
  else if superUserOnly c && negb (isSuperUser h (author message)) then Some SUPER_USER
  else if match cmd_channel c, guild message with
          | Some GuildOnly, None => true
          | _, _ => false
          end then Some GUILD
  else if match cmd_channel c, guild message with
          | Some DmOnly, Some _ => true
          | _, _ => false
          end then Some DM
  else if onlyNsfw c && negb (channel_nsfw message) then Some NOT_NSFW
  else None.

(** [runPermissionChecks]: reports who misses permissions, if anyone. *)
Definition runPermissionChecks (h : Handler) (message : Message) (c : Command)
    (st : State) : Outcome bool * State :=
  match missingPermissions h message c with
  | Throws e => (Throws e, st)
  | Returns (Some (who, missing)) =>
      (Returns true, emit (MISSING_PERMISSIONS message (cmd_id c) who missing) st)
  | Returns None => (Returns false, st)
  end.

(** The tail of [runPostTypeInhibitors]: the inhibitor's reason, if any,
    blocks; otherwise the cooldown decides. *)
Definition reasonThenCooldown (h : Handler) (message : Message) (c : Command)
    (reason : option string) (st : State) : Outcome bool * State :=
  match reason with
  | Some r =>
      (Returns true, emit (COMMAND_BLOCKED message (Some (cmd_id c)) (Custom r)) st)
  | None =>
      let '(blocked, st') := Cooldown.runCooldowns h message c st in
      (Returns blocked, st')
  end.

(** [runPostTypeInhibitors(message, command)] (not a slash command).  An
    undefined [command] raises a TypeError at its first property access. *)
Definition runPostTypeInhibitors (h : Handler) (message : Message)
    (command : option Command) (st : State) : Outcome bool * State :=
  if skipBuiltInPostInhibitors h then
    match inhibitorTest h "post" message command with
    | Throws e => (Throws e, st)
    | Returns (Some r) =>
        (Returns true,
         emit (COMMAND_BLOCKED message (cmd_id <$> command) (Custom r)) st)
    | Returns None =>
        match command with
        | None => (Throws TypeError, st)
        | Some c =>
            match runPermissionChecks h message c st with
            | (Throws e, st1) => (Throws e, st1)
            | (Returns true, st1) => (Returns true, st1)
            | (Returns false, st1) => reasonThenCooldown h message c None st1
            end
        end
    end
  else
    match command with
    | None => (Throws TypeError, st)
    | Some c =>
        match builtInBlock h message c with
        | Some r =>
            (Returns true,
             emit (COMMAND_BLOCKED message (Some (cmd_id c)) (BuiltIn r)) st)
        | None =>
            match runPermissionChecks h message c st with
            | (Throws e, st1) => (Throws e, st1)
            | (Returns true, st1) => (Returns true, st1)
            | (Returns false, st1) =>
                match inhibitorTest h "post" message command with
                | Throws e => (Throws e, st1)
                | Returns reason => reasonThenCooldown h message c reason st1
                end
            end
        end
    end.

(** [runCommand(message, command, args)].  The typing interval it starts
    and clears is a platform effect and is left out. *)
Definition runCommand (message : Message) (command : option Command)
    (args : Value) (st : State) : Outcome unit * State :=
  match command with
  | None => (Returns tt, emit (COMMAND_INVALID message) st)
  | Some c =>
      let st1 := emit (COMMAND_STARTED message (cmd_id c) args) st in
      let st2 := record (ExecCall (cmd_id c) message args) st1 in
      match exec c message args with
      | Throws e => (Throws e, st2)
      | Returns ret =>
          (Returns tt, emit (COMMAND_FINISHED message (cmd_id c) args ret) st2)
      end
  end.

(** [emitError(err, message, command)]: to the error event when it has a
    listener, thrown again otherwise. *)
Definition emitError (h : Handler) (err : Error) (message : Message)
    (command : option string) (st : State) : Outcome unit * State :=
  if (0 <? errorListeners h)%nat
  then (Returns tt, emit (ERROR err message command) st)
  else (Throws err, st).

(** One of the closures [handleRegexCommands] and
    [handleConditionalCommands] push to [promises]: post inhibitors,
    [before], then the command, with [emitError] on anything thrown. *)
Definition runMatched (h : Handler) (message : Message) (command : Command)
    (args : Value) (st : State) : Outcome unit * State :=
  let caught (e : Error) (st' : State) :=
    emitError h e message (Some (cmd_id command)) st' in
  match runPostTypeInhibitors h message (Some command) st with
  | (Throws e, st1) => caught e st1
  | (Returns true, st1) => (Returns tt, st1)
  | (Returns false, st1) =>
      match before command message with
      | Throws e => caught e st1
      | Returns _ =>
          match runCommand message (Some command) args st1 with
          | (Throws e, st2) => caught e st2
          | (Returns _, st2) => (Returns tt, st2)
          end
      end
  end.

(** [await Promise.all(promises)] over such closures.  The code starts
    every closure before any has finished, and they take turns at their
    awaits; here each runs to its end before the next starts, in the
    order pushed.  With one matched command the two are the same.  With
    several, they differ in the order in which the effects of different
    commands enter the log, in the numbering of the timers, and in which
    of several rejections is the result (the first in time in the code,
    the first in the order pushed here).  Which closures run, what each is
    given and what each does are the same: the closures are for different
    commands, a cooldown entry belongs to one command, and no closure
    touches a locker. *)
Fixpoint runPromises (h : Handler) (message : Message)
    (matched : list (Command * Value)) (st : State) : Outcome unit * State :=
  match matched with
  | [] => (Returns tt, st)
  | (command, args) :: rest =>
      let '(r1, st1) := runMatched h message command args st in
      let '(r2, st2) := runPromises h message rest st1 in
      (match r1 with Throws e => Throws e | Returns _ => r2 end, st2)
  end.

(** A loop that calls user code for one element after the other and stops
    at the first that throws. *)
Fixpoint inTurn {A : Type} (l : list (Outcome A)) : Outcome (list A) :=
  match l with
  | [] => Returns []
  | Throws e :: _ => Throws e
  | Returns a :: r =>
      match inTurn r with
      | Returns rs => Returns (a :: rs)
      | Throws e => Throws e
      end
  end.

(** The two loops of [handleRegexCommands] for one command: its regex,
    then the match on the content, as the args [{ match, matches }]. *)
Definition matchOf (message : Message) (command : Command)
  : Outcome (option (Command * Value)) :=
  match regex command message with
  | Throws e => Throws e
  | Returns None => Returns None
  | Returns (Some fields) => Returns (Some (command, VArgs fields))
  end.

(** [handleRegexCommands(message)]. *)
Definition handleRegexCommands (h : Handler) (message : Message) (st : State)
  : Outcome bool * State :=
  let considered :=
    List.filter (fun c => if edited message then editable c else true)
      (modules_values h) in
  match inTurn (map (matchOf message) considered) with
  | Throws e => (Throws e, st)
  | Returns found =>
      match omap (fun r => r) found with
      | [] => (Returns false, st)
      | matchedCommands =>
          match runPromises h message matchedCommands st with
          | (Throws e, st1) => (Throws e, st1)
          | (Returns _, st1) => (Returns true, st1)
          end
      end
  end.

(** One of the closures pushed to [filterPromises]: when the condition
    has settled, the command is pushed to [trueCommands] if it holds. *)
Definition holds (message : Message) (command : Command)
  : Promise.Settling (option (Command * Value)) :=
  {| Promise.result :=
       match condition command message with
       | Throws e => Throws e
       | Returns true => Returns (Some (command, VArgs []))
       | Returns false => Returns None
       end;
     Promise.instant := conditionSettles command message |}.

(** [handleConditionalCommands(message)]; [trueCommands] holds the
    commands in the order their conditions settled, and they run with
    [{}] as their args. *)
Definition handleConditionalCommands (h : Handler) (message : Message)
    (st : State) : Outcome bool * State :=
  let considered :=
    List.filter (fun c => negb (edited message && negb (editable c)))
      (modules_values h) in
  let filterPromises := map (holds message) considered in
  match Promise.result (Promise.all filterPromises) with
  | Throws e => (Throws e, st)
  | Returns _ =>
      match omap (fun r => r) (Promise.values (Promise.bySettling filterPromises)) with
      | [] => (Returns false, st)
      | trueCommands =>
          match runPromises h message trueCommands st with
          | (Throws e, st1) => (Throws e, st1)
          | (Returns _, st1) => (Returns true, st1)
          end
      end
  end.

(** [handleRegexAndConditionalCommands(message)]. *)
Definition handleRegexAndConditionalCommands (h : Handler) (message : Message)
    (st : State) : Outcome bool * State :=
  match handleRegexCommands h message st with
  | (Throws e, st1) => (Throws e, st1)
  | (Returns ran1, st1) =>
      match handleConditionalCommands h message st1 with
      | (Throws e, st2) => (Throws e, st2)
      | (Returns ran2, st2) => (Returns (ran1 || ran2), st2)
      end
  end.

(** A [catch (err) { this.emitError(err, message, command); return null; }]
    block: null, unless [emitError] throws the error again. *)
Definition catchError (h : Handler) (message : Message) (command : option string)
    (err : Error) (st : State) : Outcome (option bool) * State :=
  match emitError h err message command st with
  | (Returns _, st') => (Returns None, st')
  | (Throws e', st') => (Throws e', st')
  end.

(** How the [try] block of [handleDirectCommand] is left. *)
Inductive TryExit : Type :=
| Return (v : option bool)
| Raise (e : Error)
| TailHandle (m : Message)
| TailDirect (content : string) (command : option Command) (ignore : bool).

(** The checks before [command.before]: edited messages of commands that
    are not editable, then the post inhibitors; skipped with [ignore]. *)
Definition gates (h : Handler) (message : Message) (command : option Command)
    (ignore : bool) (st : State) : option TryExit * State :=
  if ignore then (None, st) else
  match (if edited message
         then match command with
              | Some c => Returns (negb (editable c))
              | None => Throws TypeError
              end
         else Returns false) with
  | Throws e => (Some (Raise e), st)
  | Returns true => (Some (Return (Some false)), st)
  | Returns false =>
      match runPostTypeInhibitors h message command st with
      | (Throws e, st1) => (Some (Raise e), st1)
      | (Returns true, st1) => (Some (Return (Some false)), st1)
      | (Returns false, st1) => (None, st1)
      end
  end.

(** What the lock section decides: the command is locked for the key, or
    it may run, holding [key] (falsy when nothing was added). *)
Inductive LockExit : Type :=
| Locked
| Holding (key : JsKey).

(** The lock section: the key is computed, looked up in the command's
    locker and added to it.  Skipped with [ignore]. *)
Definition acquire (message : Message) (c : Command) (args : Value)
    (ignore : bool) (st : State) : LockExit * State :=
  if ignore then (Holding None, st) else
  let key := match lock c with Some supplier => supplier message args | None => None end in
  match key with
  | Some k =>
      if Js.truthyStr k then
        match lockers st !! cmd_id c with
        | Some locker =>
            if bool_decide (k ∈ locker)
            then (Locked, emit (COMMAND_LOCKED message (cmd_id c)) st)
            else (Holding key,
                  with_lockers st (<[cmd_id c := {[k]} ∪ locker]> (lockers st)))
        | None => (Holding key, st)
        end
      else (Holding key, st)
  | None => (Holding key, st)
  end.

(** The [finally] block: [if (key) command.locker?.delete(key)]. *)
Definition release (command : option Command) (key : JsKey) (st : State) : State :=
  match key with
  | Some k =>
      if Js.truthyStr k then
        match command with
        | Some c =>
            match lockers st !! cmd_id c with
            | Some locker =>
                with_lockers st (<[cmd_id c := locker ∖ {[k]}]> (lockers st))
            | None => st
            end
        | None => st
        end
      else st
  | None => st
  end.

(** From the result of [command.parse] to the end of the [try] block: a
    Flag leaves at once (the three [Flag.is] tests, in their order);
    otherwise the lock section, then the command. *)
Definition dispatchArgs (h : Handler) (message : Message) (c : Command)
    (ignore : bool) (args : Value) (st : State) : TryExit * JsKey * State :=
  if Flag_is args "cancel" then
    (Return (Some true), None, emit (COMMAND_CANCELLED message (cmd_id c)) st)
  else
  match args with
  | VFlag (FlagRetry m') =>
      (TailHandle m', None, emit (COMMAND_BREAKOUT message (cmd_id c) m') st)
  | VFlag (FlagContinue name ignore' rest) =>
      (TailDirect rest (modules h !! name) ignore', None, st)
  | _ =>
      match acquire message c args ignore st with
      | (Locked, st1) => (Return (Some true), None, st1)
      | (Holding key, st1) =>
          match runCommand message (Some c) args st1 with
          | (Throws e, st2) => (Raise e, key, st2)
          | (Returns _, st2) => (Return (Some true), key, st2)
          end
      end
  end.

(** The [try] block of [handleDirectCommand]; with how it is left, the
    value of the local [key]. *)
Definition tryBlock (h : Handler) (message : Message) (content : string)
    (command : option Command) (ignore : bool) (st : State)
  : TryExit * JsKey * State :=
  match gates h message command ignore st with
  | (Some exit, st1) => (exit, None, st1)
  | (None, st1) =>
      match command with
      | None => (Raise TypeError, None, st1)
      | Some c =>
          match before c message with
          | Throws e => (Raise e, None, st1)
          | Returns _ =>
              match parse c message content with
              | Throws e => (Raise e, None, st1)
              | Returns args => dispatchArgs h message c ignore args st1
              end
          end
      end
  end.

(** A handler call that settled: it resolved with a value or rejected. *)
Definition Settled : Type := Outcome (option bool) * State.

(** [handle(message)], given how direct commands are handled.  [None]
    when the given handler does not settle.  The member fetch of
    [fetchMembers] is a platform call and is left out. *)
Definition handleWith
    (direct : Message -> string -> option Command -> bool -> State -> option Settled)
    (h : Handler) (message : Message) (st : State) : option Settled :=
  let caught (e : Error) (st' : State) : option Settled :=
    Some (catchError h message None e st') in
  match runAllTypeInhibitors h message false st with
  | (Throws e, st1) => caught e st1
  | (Returns true, st1) => Some (Returns (Some false), st1)
  | (Returns false, st1) =>
      let st2 :=
        if commandUtil h
        then with_commandUtils st1 ({[msg_id message]} ∪ commandUtils st1)
        else st1 in
      match runPreTypeInhibitors h message st2 with
      | (Throws e, st3) => caught e st3
      | (Returns true, st3) => Some (Returns (Some false), st3)
      | (Returns false, st3) =>
          let parsed := parseCommand h message in
          let parsed :=
            match p_command parsed with
            | Some _ => parsed
            | None =>
                let overParsed := parseCommandOverwrittenPrefixes h message in
                if bool_decide (is_Some (p_command overParsed)) ||
                   (bool_decide (p_prefix parsed = None) &&
                    bool_decide (is_Some (p_prefix overParsed)))
                then overParsed else parsed
            end in
          match p_command parsed with
          | Some c =>
              if slashOnly c then
                Some (Returns (Some false), emit (SLASH_ONLY message (cmd_id c)) st3)
              else
                match direct message (default "" (p_content parsed)) (Some c) false st3 with
                | None => None
                | Some (Throws e, st4) => caught e st4
                | Some (Returns (Some false), st4) =>
                    Some (Returns (Some false), emit (MESSAGE_INVALID message) st4)
                | Some (Returns ran, st4) => Some (Returns ran, st4)
                end
          | None =>
              match handleRegexAndConditionalCommands h message st3 with
              | (Throws e, st4) => caught e st4
              | (Returns false, st4) =>
                  Some (Returns (Some false), emit (MESSAGE_INVALID message) st4)
              | (Returns true, st4) => Some (Returns (Some true), st4)
              end
          end
      end
  end.

(** [handleDirectCommand(message, content, command, ignore)].  A retry or
    continue Flag hands over to [handle] or to [handleDirectCommand]
    itself; [fuel] bounds the number of such hand-overs, [None] when it
    runs out. *)
Fixpoint handleDirectCommand (fuel : nat) (h : Handler) (message : Message)
    (content : string) (command : option Command) (ignore : bool) (st : State)
  : option Settled :=
  match fuel with
  | O => None
  | S n =>
      match tryBlock h message content command ignore st with
      | (Return v, key, st1) => Some (Returns v, release command key st1)
      | (Raise e, key, st1) =>
          let '(r, st2) := catchError h message (cmd_id <$> command) e st1 in
          Some (r, release command key st2)
      | (TailHandle m', key, st1) =>
          handleWith (handleDirectCommand n h) h m' (release command key st1)
      | (TailDirect content' command' ignore', key, st1) =>
          handleDirectCommand n h message content' command' ignore'
            (release command key st1)
      end
  end.

Definition handle (fuel : nat) (h : Handler) (message : Message) (st : State)
  : option Settled :=
  handleWith (handleDirectCommand fuel h) h message st.

End Dispatch.

(** ** Slash commands: [handleSlash] *)

Module Slash.
Import Prefix Dispatch.

(** A chat input interaction as [handleSlash] uses it: the name of the
    command, the [CitrusMessage] made of the interaction, what the
    conversion of its options gives (the [convertedOptions] object, or
    the error the conversion throws), and what [deferReply] gives.  The
    conversion and the reply belong to the platform side. *)
Record Interaction := {
  s_commandName : string;
  s_message : Message;
  s_options : Outcome (list (string * string));
  s_deferReply : Outcome unit
}.






End Slash.

Module DispatchSamples.
Import Samples.

(** A command whose body throws. *)
Definition failing : Command :=
  {| cmd_id := "boom"; cmd_prefix := None; editable := true; ownerOnly := false;
     superUserOnly := false; cmd_channel := None; onlyNsfw := false;
     slashOnly := false; cooldown := None; ratelimit := 1;
     ignoreCooldown := None; lock := None;
     before := fun _ => Returns tt;
     parse := fun _ _ => Returns (VArgs []);
     regex := fun _ => Returns None; condition := fun _ => Returns false;
     conditionSettles := fun _ => 0%nat;
     exec := fun _ _ => Throws "boom failed";
     slashEphemeral := false; ownExecSlash := false;
     execSlash := fun _ _ => Throws NOT_IMPLEMENTED |}.

Definition listening : Handler := mkHandler [failing] [("boom", "boom")] (PrefixStr "!") 1.

Definition boomMsg : Message := mkMsg "1" "u" "!boom" 0.


(** A command triggered by the regex [/hello/] instead of by its name. *)
Definition greeter : Command :=
  {| cmd_id := "greet"; cmd_prefix := None; editable := true; ownerOnly := false;
     superUserOnly := false; cmd_channel := None; onlyNsfw := false;
     slashOnly := false; cooldown := None; ratelimit := 1;
     ignoreCooldown := None; lock := None;
     before := fun _ => Returns tt;
     parse := fun _ _ => Returns (VArgs []);
     regex := fun m =>
       Returns (if Js.includes (content m) "hello"
                then Some [("match", "hello")] else None);
     condition := fun _ => Returns false;
     conditionSettles := fun _ => 0%nat;
     exec := fun _ _ => Returns "hi";
     slashEphemeral := false; ownExecSlash := false;
     execSlash := fun _ _ => Throws NOT_IMPLEMENTED |}.

Definition greeting : Handler :=
  mkHandler [greeter] [("greet", "greet")] (PrefixStr "!") 0.

Definition helloMsg : Message := mkMsg "2" "u" "oh hello there" 0.

End DispatchSamples.

(** ** Statements about what dispatch records *)

Module DispatchInv.

(** An emitted event, as opposed to a call of a command body. *)
Definition isEmit (ef : Effect) : Prop :=
  match ef with
  | Emit _ => True
  | ExecCall _ _ _ => False
  | ExecSlashCall _ _ _ => False
  end.

(** Anything but a call of a command body with a Flag as its args. *)
Definition plainExec (ef : Effect) : Prop :=
  match ef with
  | ExecCall _ _ (VFlag _) => False
  | _ => True
  end.


(** From [st] to [st'] the log only grew, by effects that satisfy [P]. *)
Definition growsBy (P : Effect → Prop) (st st' : State) : Prop :=
  ∃ efs, log st' = (log st ++ efs)%list ∧ Forall P efs.

End DispatchInv.

Module FlagSamples.
Import Samples.

Definition withParse (c : Command) (p : Message -> string -> Outcome Value)
  : Command :=
  {| cmd_id := cmd_id c; cmd_prefix := cmd_prefix c; editable := editable c;
     ownerOnly := ownerOnly c; superUserOnly := superUserOnly c;
     cmd_channel := cmd_channel c; onlyNsfw := onlyNsfw c;
     slashOnly := slashOnly c; cooldown := cooldown c; ratelimit := ratelimit c;
     ignoreCooldown := ignoreCooldown c; lock := lock c; before := before c;
     parse := p; regex := regex c; condition := condition c;
     conditionSettles := conditionSettles c; exec := exec c;
     slashEphemeral := slashEphemeral c; ownExecSlash := ownExecSlash c;
     execSlash := execSlash c |}.

(** [b]: one use per 1000 ms; its args hold the text it was given. *)
Definition target : Command :=
  withParse (mkCmd "b" (Some 1000) 1)
    (fun _ text => Returns (VArgs [("text", text)])).

(** [a] continues into [b] with the leftover text "x"; the Flag of
    [Flag.continue({command: "b", rest: "x"})] carries no [ignore]. *)
Definition jumping : Command :=
  withParse (mkCmd "a" None 1)
    (fun _ _ => Returns (VFlag (FlagContinue "b" false "x"))).

(** The same with [ignore] set. *)
Definition jumpSkipping : Command :=
  withParse (mkCmd "a2" None 1)
    (fun _ _ => Returns (VFlag (FlagContinue "b" true "x"))).

(** A command whose argument resolution cancels. *)
Definition cancelling : Command :=
  withParse (mkCmd "c" None 1) (fun _ _ => Returns (VFlag FlagCancel)).

Definition hc : Handler :=
  mkHandler [jumping; jumpSkipping; target; cancelling]
    [("a", "a"); ("a2", "a2"); ("b", "b"); ("c", "c")] (PrefixStr "!") 0.

Definition msgB : Message := mkMsg "1" "u" "!b" 0.
Definition msgA : Message := mkMsg "2" "u" "!a" 100.

(** User [u] has just used [b]. *)
Definition usedB : State := (Cooldown.runCooldowns hc msgB target initial).2.

End FlagSamples.

Module DispatchClaims.
Import Dispatch.

(** The claim as stated: when the argument parse of [a] returns
    [Flag.continue({command: "b", rest: "x"})], command [b] is executed
    with the args it resolves from "x" and the cooldown table is left as
    it was after the checks of [a]. *)
Definition continue_skips_cooldown : Prop :=
  ∀ (fuel : nat) (h : Handler) (message : Message) (content : string)
    (a b : Command) (fields : list (string * string)) (st st1 st' : State)
    (r : Outcome (option bool)),
    gates h message (Some a) false st = (None, st1) →
    before a message = Returns tt →
    parse a message content = Returns (VFlag (FlagContinue (cmd_id b) false "x")) →
    modules h !! cmd_id b = Some b →
    before b message = Returns tt →
    parse b message "x" = Returns (VArgs fields) →
    handleDirectCommand (S (S fuel)) h message content (Some a) false st =
      Some (r, st') →
    ExecCall (cmd_id b) message (VArgs fields) ∈ log st' ∧
    cooldowns st' = cooldowns st1.

End DispatchClaims.

(** ** Locks: several invocations of [handleDirectCommand] in flight *)

Module Locking.
Import Dispatch.

(** An invocation of [handleDirectCommand] for the command whose argument
    resolution has given plain args (a Flag leaves before the lock
    section). *)
Record Invocation := {
  i_msg : Message;
  i_args : list (string * string);
  i_ignore : bool
}.

(** Where an invocation is: its args are resolved and the lock section is
    still ahead; the command body has been called and has not settled
    ([key] is the local variable of that name); or the call has settled. *)
Inductive Phase : Type :=
| Parsed
| Running (key : JsKey)
| Settled (r : Outcome (option bool)).

(** The handler's state and the phase of every invocation. *)
Record System := { handlerState : State; phases : list Phase }.

(** The synchronous stretch from the lock section to the call of the
    command body in [runCommand]. *)
Definition enter (c : Command) (inv : Invocation) (st : State) : Phase * State :=
  match acquire (i_msg inv) c (VArgs (i_args inv)) (i_ignore inv) st with
  | (Locked, st1) => (Settled (Returns (Some true)), st1)
  | (Holding key, st1) =>
      (Running key,
       record (ExecCall (cmd_id c) (i_msg inv) (VArgs (i_args inv)))
         (emit (COMMAND_STARTED (i_msg inv) (cmd_id c) (VArgs (i_args inv))) st1))
  end.

(** The stretch after the body settles with [out]: the finished event or
    the [catch] block, then the [finally] block. *)
Definition settle (h : Handler) (c : Command) (inv : Invocation) (key : JsKey)
    (out : Outcome string) (st : State) : Phase * State :=
  match out with
  | Returns ret =>
      (Settled (Returns (Some true)),
       release (Some c) key
         (emit (COMMAND_FINISHED (i_msg inv) (cmd_id c) (VArgs (i_args inv)) ret) st))
  | Throws e =>
      let '(r, st1) := catchError h (i_msg inv) (Some (cmd_id c)) e st in
      (Settled r, release (Some c) key st1)
  end.

(** The event loop resumes invocation [i] at its lock section, or the body
    of invocation [i] settles with [out]. *)
Inductive Label : Type :=
| Enter (i : nat)
| Settle (i : nat) (out : Outcome string).

Definition step (h : Handler) (c : Command) (invs : list Invocation)
    (sys : System) (l : Label) : option System :=
  match l with
  | Enter i =>
      match invs !! i, phases sys !! i with
      | Some inv, Some Parsed =>
          let '(ph, st') := enter c inv (handlerState sys) in
          Some {| handlerState := st'; phases := <[i := ph]> (phases sys) |}
      | _, _ => None
      end
  | Settle i out =>
      match invs !! i, phases sys !! i with
      | Some inv, Some (Running key) =>
          let '(ph, st') := settle h c inv key out (handlerState sys) in
          Some {| handlerState := st'; phases := <[i := ph]> (phases sys) |}
      | _, _ => None
      end
  end.

Fixpoint run (h : Handler) (c : Command) (invs : list Invocation)
    (sys : System) (ls : list Label) : option System :=
  match ls with
  | [] => Some sys
  | l :: rest =>
      match step h c invs sys l with
      | Some sys' => run h c invs sys' rest
      | None => None
      end
  end.

(** Every invocation has its args and none has entered the lock section. *)
Definition start (st : State) (invs : list Invocation) : System :=
  {| handlerState := st; phases := map (fun _ => Parsed) invs |}.

(** The key the command's supplier computes for an invocation. *)
Definition keyOf (c : Command) (inv : Invocation) : JsKey :=
  match lock c with
  | Some supplier => supplier (i_msg inv) (VArgs (i_args inv))
  | None => None
  end.

(** The command's [locker]. *)
Definition lockerOf (c : Command) (st : State) : gset string :=
  default ∅ (lockers st !! cmd_id c).

(** The locker holds exactly the truthy keys of the running invocations,
    and no two of them run under the same truthy key. *)
Definition consistent (c : Command) (sys : System) : Prop :=
  is_Some (lockers (handlerState sys) !! cmd_id c) ∧
  (∀ k, Js.truthyStr k = true →
     (k ∈ lockerOf c (handlerState sys) ↔
      ∃ i, phases sys !! i = Some (Running (Some k)))) ∧
  (∀ i j k, Js.truthyStr k = true →
     phases sys !! i = Some (Running (Some k)) →
     phases sys !! j = Some (Running (Some k)) → i = j).

(** Invocation [i] is running the command body. *)
Definition running (sys : System) (i : nat) : Prop :=
  ∃ key, phases sys !! i = Some (Running key).

(** Every invocation has its phase, and one that is running the body has
    in [key] what the lock section left there: nothing with [ignore], and
    otherwise the key its supplier computes. *)
Definition keyed (c : Command) (invs : list Invocation) (sys : System) : Prop :=
  length (phases sys) = length invs ∧
  ∀ i a key, invs !! i = Some a → phases sys !! i = Some (Running key) →
    key = if i_ignore a then None else keyOf c a.

(** The claim as stated: of two invocations of a command with a lock key
    supplier that compute the same key, never both are running the
    command body. *)
Definition same_key_never_both_running : Prop :=
  ∀ (h : Handler) (c : Command) (invs : list Invocation) (st0 : State)
    (ls : list Label) (sys : System) (i j : nat) (a b : Invocation)
    (ka kb : JsKey),
    is_Some (lock c) → lockers st0 !! cmd_id c = Some ∅ →
    run h c invs (start st0 invs) ls = Some sys →
    i ≠ j → invs !! i = Some a → invs !! j = Some b →
    i_ignore a = false → i_ignore b = false →
    keyOf c a = keyOf c b →
    phases sys !! i = Some (Running ka) →
    phases sys !! j = Some (Running kb) → False.

End Locking.

Module LockSamples.
Import Samples Locking.

(** A command locked per guild by a supplier of its own: the guild's id,
    the empty string in direct messages. *)
Definition perGuild : Command :=
  {| cmd_id := "slow"; cmd_prefix := None; editable := true; ownerOnly := false;
     superUserOnly := false; cmd_channel := None; onlyNsfw := false;
     slashOnly := false; cooldown := None; ratelimit := 1;
     ignoreCooldown := None;
     lock := Some (fun m _ => Some (default "" (guild m)));
     before := fun _ => Returns tt;
     parse := fun _ _ => Returns (VArgs []);
     regex := fun _ => Returns None; condition := fun _ => Returns false;
     conditionSettles := fun _ => 0%nat;
     exec := fun _ _ => Returns "done";
     slashEphemeral := false; ownExecSlash := false;
     execSlash := fun _ _ => Throws NOT_IMPLEMENTED |}.

Definition hl : Handler := mkHandler [perGuild] [("slow", "slow")] (PrefixStr "!") 0.

Definition dm (i u : string) : Message :=
  {| msg_id := i; author := Some {| user_id := u; bot := false |};
     content := "!slow"; createdTimestamp := 0; editedTimestamp := None;
     guild := None; channel_id := "dm"; channel_nsfw := false |}.

(** The state after construction: [perGuild] has an empty locker. *)
Definition constructed : State :=
  with_lockers initial {["slow" := ∅]}.

(** Two invocations from direct messages, and two from guild "g". *)
Definition fromDms : list Invocation :=
  [{| i_msg := dm "1" "u"; i_args := []; i_ignore := false |};
   {| i_msg := dm "2" "v"; i_args := []; i_ignore := false |}].

Definition fromGuild : list Invocation :=
  [{| i_msg := mkMsg "1" "u" "!slow" 0; i_args := []; i_ignore := false |};
   {| i_msg := mkMsg "2" "v" "!slow" 0; i_args := []; i_ignore := false |}].

Definition ranLabels (invs : list Invocation) (ls : list Label) : System :=
  match run hl perGuild invs (start constructed invs) ls with
  | Some sys => sys
  | None => start constructed invs
  end.

End LockSamples.

(** ** Context menu commands: [ContextMenuCommandHandler.handle] *)

Module ContextMenu.

(** A context menu interaction: the command's name and the invoking
    user. *)
Record Interaction := { commandName : string; user : User }.

Record ContextMenuCommand := {
  cm_id : string;
  name : string;
  cm_ownerOnly : bool;
  cm_superUserOnly : bool;
  cm_exec : Interaction -> Outcome string
}.

(** The handler: its loaded modules in loading order, the number of
    listeners on its error event, and the owner ids of its client. *)
Record ContextMenuCommandHandler := {
  cm_modules : list ContextMenuCommand;
  cm_errorListeners : nat;
  cm_ownerID : Ids;
  cm_superUserID : Ids
}.

(** The handler's events ([ContextCommandHandlerEvents]) with their
    arguments; the command is named by its id. *)
Inductive CmEvent : Type :=
| CM_NOT_FOUND (i : Interaction)
| CM_BLOCKED (i : Interaction) (c : string) (reason : BuiltInReasons)
| CM_STARTED (i : Interaction) (c : string)
| CM_FINISHED (i : Interaction) (c : string) (ret : string)
| CM_ERROR (e : Error) (i : Interaction) (c : string).

(** An emitted event, or a call of a command's [exec]. *)
Inductive CmEffect : Type :=
| CmEmit (ev : CmEvent)
| CmExec (c : string) (i : Interaction).

(** [emitError(err, interaction, command)]. *)
Definition emitError (h : ContextMenuCommandHandler) (err : Error)
    (interaction : Interaction) (c : string) (log : list CmEffect)
  : Outcome unit * list CmEffect :=
  if (0 <? cm_errorListeners h)%nat
  then (Returns tt, (log ++ [CmEmit (CM_ERROR err interaction c)])%list)
  else (Throws err, log).

(** [handle(interaction)]: what the call resolves with (or the error it
    rejects with) and the log after it. *)
Definition handle (h : ContextMenuCommandHandler) (interaction : Interaction)
    (log : list CmEffect) : Outcome bool * list CmEffect :=
  match List.find (fun module => String.eqb (name module) (commandName interaction))
                  (cm_modules h) with
  | None => (Returns false, (log ++ [CmEmit (CM_NOT_FOUND interaction)])%list)
  | Some command =>
      let log1 :=
        if cm_ownerOnly command &&
           negb (Client.isOwner (cm_ownerID h) (Some (user interaction)))
        then (log ++ [CmEmit (CM_BLOCKED interaction (cm_id command) OWNER)])%list
        else log in
      let log2 :=
        if cm_superUserOnly command &&
           negb (Client.isSuperUser (cm_superUserID h) (cm_ownerID h)
                   (Some (user interaction)))
        then (log1 ++ [CmEmit (CM_BLOCKED interaction (cm_id command) SUPER_USER)])%list
        else log1 in
      let log3 :=
        (log2 ++ [CmEmit (CM_STARTED interaction (cm_id command));
                  CmExec (cm_id command) interaction])%list in
      match cm_exec command interaction with
      | Returns ret =>
          (Returns true,
           (log3 ++ [CmEmit (CM_FINISHED interaction (cm_id command) ret)])%list)
      | Throws err =>
          match emitError h err interaction (cm_id command) log3 with
          | (Returns _, log4) => (Returns false, log4)
          | (Throws e, log4) => (Throws e, log4)
          end
      end
  end.

(** The command is owner-only (or super-user-only) and the invoking user
    is not an owner (or super user). *)
Definition restricted (h : ContextMenuCommandHandler) (command : ContextMenuCommand)
    (interaction : Interaction) : Prop :=
  (cm_ownerOnly command = true ∧
   Client.isOwner (cm_ownerID h) (Some (user interaction)) = false) ∨
  (cm_superUserOnly command = true ∧
   Client.isSuperUser (cm_superUserID h) (cm_ownerID h)
     (Some (user interaction)) = false).

End ContextMenu.

Module ContextMenuSamples.
Import ContextMenu.

Definition secret : ContextMenuCommand :=
  {| cm_id := "secret"; name := "Secret"; cm_ownerOnly := true;
     cm_superUserOnly := false; cm_exec := fun _ => Returns "revealed" |}.

Definition menus : ContextMenuCommandHandler :=
  {| cm_modules := [secret]; cm_errorListeners := 0;
     cm_ownerID := OneId "owner"; cm_superUserID := ManyIds [] |}.

(** User "guest", not the owner, picks "Secret". *)
Definition byGuest : Interaction :=
  {| commandName := "Secret"; user := {| user_id := "guest"; bot := false |} |}.

End ContextMenuSamples.

(** ** Built-in argument types: the casters of
    [TypeResolver.addBuiltInTypes] that only read the phrase *)

Module Types.

Definition isDigit (c : ascii) : bool :=
  let n := nat_of_ascii c in (48 <=? n)%nat && (n <=? 57)%nat.

Definition isBinDigit (c : ascii) : bool :=
  let n := nat_of_ascii c in (48 <=? n)%nat && (n <=? 49)%nat.

Definition isOctDigit (c : ascii) : bool :=
  let n := nat_of_ascii c in (48 <=? n)%nat && (n <=? 55)%nat.

Definition isHexDigit (c : ascii) : bool :=
  let n := nat_of_ascii c in
  isDigit c || ((65 <=? n)%nat && (n <=? 70)%nat) || ((97 <=? n)%nat && (n <=? 102)%nat).

(** The value of a digit in any radix up to 16. *)
Definition digitValue (c : ascii) : Z :=
  let n := Z.of_nat (nat_of_ascii c) in
  if isDigit c then n - 48
  else if n <? 97 then n - 55 else n - 87.

Fixpoint allChars (p : ascii -> bool) (s : string) : bool :=
  match s with
  | EmptyString => true
  | String c r => p c && allChars p r
  end.

(** One or more characters, all satisfying [p]. *)
Definition some (p : ascii -> bool) (s : string) : bool :=
  Js.truthyStr s && allChars p s.

(** The longest prefix of decimal digits, and the rest. *)
Fixpoint spanDigits (s : string) : string * string :=
  match s with
  | EmptyString => (EmptyString, EmptyString)
  | String c r =>
      if isDigit c
      then let '(ds, rest) := spanDigits r in (String c ds, rest)
      else (EmptyString, s)
  end.

Definition isSign (c : ascii) : bool := Ascii.eqb c "+" || Ascii.eqb c "-".

(** Nothing, or an [ExponentPart]: [e] or [E], an optional sign, digits. *)
Definition exponentOpt (s : string) : bool :=
  match s with
  | EmptyString => true
  | String c r =>
      (Ascii.eqb c "e" || Ascii.eqb c "E") &&
      match r with
      | String d r' => if isSign d then some isDigit r' else some isDigit r
      | EmptyString => false
      end
  end.

(** [StrUnsignedDecimalLiteral]. *)
Definition unsignedDecimal (s : string) : bool :=
  String.eqb s "Infinity" ||
  let '(ds, rest) := spanDigits s in
  match rest with
  | String c r =>
      if Ascii.eqb c "."
      then let '(fs, rest') := spanDigits r in
           (Js.truthyStr ds || Js.truthyStr fs) && exponentOpt rest'
      else Js.truthyStr ds && exponentOpt rest
  | EmptyString => Js.truthyStr ds
  end.

(** [NonDecimalIntegerLiteral]: the radix and the digits. *)
Definition nonDecimal (s : string) : option (Z * string) :=
  match s with
  | String z (String x r) =>
      if Ascii.eqb z "0" then
        if (Ascii.eqb x "b" || Ascii.eqb x "B") && some isBinDigit r then Some (2, r)
        else if (Ascii.eqb x "o" || Ascii.eqb x "O") && some isOctDigit r then Some (8, r)
        else if (Ascii.eqb x "x" || Ascii.eqb x "X") && some isHexDigit r then Some (16, r)
        else None
      else None
  | _ => None
  end.

(** [StrNumericLiteral]: what [ToNumber] accepts from a trimmed, non-empty
    string. *)
Definition numericLiteral (s : string) : bool :=
  match nonDecimal s with
  | Some _ => true
  | None =>
      match s with
      | String c r => if isSign c then unsignedDecimal r else unsignedDecimal s
      | EmptyString => false
      end
  end.

(** [isNaN(+phrase)]: the trimmed phrase is neither empty nor a numeric
    literal. *)
Definition isNaN_number (phrase : string) : bool :=
  let s := Js.trim phrase in
  Js.truthyStr s && negb (numericLiteral s).

Fixpoint digitsValue (radix : Z) (acc : Z) (s : string) : Z :=
  match s with
  | EmptyString => acc
  | String c r => digitsValue radix (acc * radix + digitValue c) r
  end.

(** [BigInt(phrase)], the [StringToBigInt] of the language: blanks only
    give 0; decimal digits with an optional sign, or binary, octal or
    hexadecimal digits after their marker, give their value; anything else
    is a [SyntaxError]. *)
Definition BigInt (phrase : string) : Outcome Z :=
  let s := Js.trim phrase in
  match s with
  | EmptyString => Returns 0
  | String c r =>
      match nonDecimal s with
      | Some (radix, ds) => Returns (digitsValue radix 0 ds)
      | None =>
          if isSign c then
            if some isDigit r
            then Returns (if Ascii.eqb c "-" then - digitsValue 10 0 r
                          else digitsValue 10 0 r)
            else Throws "SyntaxError: Cannot convert to a BigInt"
          else if some isDigit s then Returns (digitsValue 10 0 s)
          else Throws "SyntaxError: Cannot convert to a BigInt"
      end
  end.

(** [ArgumentTypes.STRING]: [phrase || null]. *)
Definition STRING (phrase : string) : Outcome (option string) :=
  Returns (if Js.truthyStr phrase then Some phrase else None).

(** [ArgumentTypes.LOWERCASE]. *)
Definition LOWERCASE (phrase : string) : Outcome (option string) :=
  Returns (if Js.truthyStr phrase then Some (Js.toLowerCase phrase) else None).

(** [ArgumentTypes.BIGINT]:
    [if (!phrase || isNaN(+phrase)) return null; return BigInt(phrase);] *)
Definition BIGINT (phrase : string) : Outcome (option Z) :=
  if negb (Js.truthyStr phrase) || isNaN_number phrase then Returns None
  else match BigInt phrase with
       | Returns n => Returns (Some n)
       | Throws e => Throws e
       end.

End Types.

(** ** Further samples for dispatch *)

Module DispatchMoreSamples.
Import Samples DispatchSamples LockSamples Dispatch.


(** A message to the command locked per guild, and the state after it was
    handled from the state the constructor leaves. *)
Definition slowMsg : Message := mkMsg "1" "u" "!slow" 0.

Definition ranSlow : State :=
  match handleDirectCommand 1 hl slowMsg "" (Some perGuild) false constructed with
  | Some (_, st) => st
  | None => constructed
  end.

End DispatchMoreSamples.

(** ** What the regex and conditional stage looks at *)

Module Fallback.
Import Dispatch.

(** The command is looked at for this message: always, unless the message
    was edited and the command is not editable. *)
Definition considered (message : Message) (c : Command) : bool :=
  if edited message then editable c else true.



End Fallback.

Module FallbackSamples.
Import Samples DispatchSamples.

(** [greeter] behind an inhibitor that blocks every command. *)
Definition guarded : Handler :=
  {| modules := modules greeting; modules_values := modules_values greeting;
     aliases := aliases greeting; prefix := prefix greeting;
     prefixes := prefixes greeting; h_ignoreCooldown := h_ignoreCooldown greeting;
     defaultCooldown := 0; blockClient := true; blockBots := true;
     skipBuiltInPostInhibitors := false; commandUtil := false;
     inhibitorHandler :=
       Some [{| inh_id := "no"; inh_type := "post"; priority := 0;
                reason := "closed"; inh_exec := fun _ _ => Returns true;
                inh_settles := fun _ _ => 0%nat |}];
     clientUserId := Some "bot"; ownerID := OneId "owner";
     superUserID := ManyIds []; errorListeners := 1;
     autoDefer := false; h_execSlash := false;
     hasPrompt := fun _ => false;
     missingPermissions := fun _ _ => Returns None |}.

End FallbackSamples.

(** ** Further statements about the cooldown table *)

Module CooldownMoreInv.
Import Cooldown.

(** The action is not about the key [(u, cid)]: time passing, a timer of
    another key, a call by another user or for another command. *)
Definition foreign (u : option string) (cid : string) (a : Action) : Prop :=
  match a with
  | Advance _ => True
  | Fire _ id cid' => ¬ (id = u ∧ cid' = cid)
  | Call m c => ¬ (author_id m = u ∧ cmd_id c = cid)
  end.

(** Every user object of [st] is still in [st'], with at least its keys. *)
Definition keeps (st st' : State) : Prop :=
  ∀ u obj, cooldowns st !! u = Some obj →
    ∃ obj', cooldowns st' !! u = Some obj' ∧ dom obj ⊆ dom obj'.

End CooldownMoreInv.

Module CooldownMoreSamples.
Import Cooldown Samples.

(** User [u] used up command [once], then waited for the cooldown. *)
Definition exhausted : State :=
  (ranFrom h1 initial [Call (mkMsg "1" "u" "!once" 0) once; Advance 1000]).2.

(** The state after [late_use]: both uses made and the timer fired. *)
Definition fired : State := (ran h1 late_use).2.

(** Uses of [a] by another user and of another command by [u]. *)
Definition others : list Action :=
  [Call (mkMsg "2" "v" "!a" 10) cmdA; Call (mkMsg "3" "u" "!once" 20) once;
   Advance 50; Call (mkMsg "4" "v" "!a" 60) cmdA].

End CooldownMoreSamples.

(** ** Shapes of message contents, for statements about parsing *)

Module Shape.

(** Every character of [s] is a space. *)
Definition blank (s : string) : bool := Types.allChars Js.isSpace s.

(** No character of [s] is a space. *)
Definition solid (s : string) : bool :=
  Types.allChars (fun c => negb (Js.isSpace c)) s.

(** The last character of [s], if it has one. *)
Fixpoint lastChar (s : string) : option ascii :=
  match s with
  | EmptyString => None
  | String c EmptyString => Some c
  | String _ r => lastChar r
  end.

(** The contents of the two messages differ at most in the case of their
    letters. *)
Definition sameButCase (m m' : Message) : Prop :=
  Js.toLowerCase (content m) = Js.toLowerCase (content m').

(** What [parseWithPrefix] makes of the command found for the alias: it is
    dropped when it has a prefix of its own and the prefix is a general
    one, or when the prefix is an override of other commands. *)
Definition admitted (associatedCommands : option (gset string))
    (found : option Command) : option Command :=
  match found with
  | None => None
  | Some c =>
      if match associatedCommands with
         | None => bool_decide (is_Some (cmd_prefix c))
         | Some cmds => bool_decide (cmd_id c ∉ cmds)
         end
      then None else Some c
  end.

End Shape.

Module ShapeSamples.
Import Samples.

(** Prefix "hey", with a command aliased "y" besides "ping". *)
Definition yes : Command := mkCmd "yes" None 1.

Definition hey : Handler :=
  mkHandler [PrefixSamples.ping; yes] [("ping", "ping"); ("y", "yes")]
    (PrefixStr "hey") 0.

End ShapeSamples.

(** ** Further samples: inhibitors and context menu commands *)

Module InhibitorMoreSamples.
Import InhibitorSamples.

(** A post inhibitor that throws, loaded after one of higher priority
    that blocks. *)
Definition broken : Inhibitor :=
  {| inh_id := "broken"; inh_type := "post"; priority := 0; reason := "broken";
     inh_exec := fun _ _ => Throws "inhibitor failed";
     inh_settles := fun _ _ => 0%nat |}.

Definition strict : Inhibitor :=
  {| inh_id := "strict"; inh_type := "post"; priority := 10; reason := "strict";
     inh_exec := fun _ _ => Returns true; inh_settles := fun _ _ => 0%nat |}.

(** Two post inhibitors whose promises reject: the first loaded after 5
    instants, the second after 2. *)
Definition slowFailure : Inhibitor :=
  {| inh_id := "slow"; inh_type := "post"; priority := 0; reason := "slow";
     inh_exec := fun _ _ => Throws "slow failed";
     inh_settles := fun _ _ => 5%nat |}.

Definition quickFailure : Inhibitor :=
  {| inh_id := "quick"; inh_type := "post"; priority := 0; reason := "quick";
     inh_exec := fun _ _ => Throws "quick failed";
     inh_settles := fun _ _ => 2%nat |}.

End InhibitorMoreSamples.

Module ContextMenuMoreSamples.
Import ContextMenu ContextMenuSamples.

(** A context menu command whose body throws, in a handler with a
    listener on its error event. *)
Definition faulty : ContextMenuCommand :=
  {| cm_id := "faulty"; name := "Faulty"; cm_ownerOnly := false;
     cm_superUserOnly := false; cm_exec := fun _ => Throws "menu failed" |}.

Definition watched : ContextMenuCommandHandler :=
  {| cm_modules := [secret; faulty]; cm_errorListeners := 1;
     cm_ownerID := OneId "owner"; cm_superUserID := ManyIds [] |}.

Definition pickFaulty : Interaction :=
  {| commandName := "Faulty"; user := {| user_id := "guest"; bot := false |} |}.

End ContextMenuMoreSamples.

(** ** More built-in argument types: [INTEGER] and [COLOR], with
    [parseInt] *)

Module TypesMore.
Import Types.

(** A JavaScript number as the casters below give it: a finite number
    whose value is an integer (the two zeros are not told apart), an
    infinity, or NaN. *)
Inductive Number : Type :=
| Int (z : Z)
| Infinite (negative : bool)
| NaN.

(** The magnitude of the double nearest to the magnitude [a]: [a] itself
    below 2^53; from there on the 53 leading bits are kept and the rest
    is rounded to the nearest, a tie to the even one. *)
Definition nearest (a : Z) : Z :=
  if a <? 2 ^ 53 then a else
  let e := Z.log2 a - 52 in
  let q := a / 2 ^ e in
  let r := a mod 2 ^ e in
  let half := 2 ^ (e - 1) in
  (if (half <? r) || ((r =? half) && Z.odd q) then q + 1 else q) * 2 ^ e.

(** The number for a mathematical integer: the nearest double, an
    infinity where that is 2^1024 or more in magnitude. *)
Definition toNumber (z : Z) : Number :=
  let v := nearest (Z.abs z) in
  if 2 ^ 1024 <=? v then Infinite (z <? 0) else Int (Z.sgn z * v).

Definition isRadixDigit (radix : Z) (c : ascii) : bool :=
  isHexDigit c && (digitValue c <? radix).

(** The longest prefix of digits of the radix. *)
Fixpoint spanRadix (radix : Z) (s : string) : string :=
  match s with
  | EmptyString => EmptyString
  | String c r => if isRadixDigit radix c then String c (spanRadix radix r) else EmptyString
  end.

(** The mathematical integer [parseInt(s, radix)] reads, [None] where it
    gives NaN: leading blanks are skipped, then a sign, then [0x] or [0X]
    (which makes the radix 16), then the longest run of digits of the
    radix; no digit gives NaN.  [radix] is 10 where the source passes
    none and 16 where it passes 16: in both cases the [0x] prefix is
    looked for.  Every digit of the run counts, as in V8; the language
    standard fixes the result for runs of up to 20 significant decimal
    digits. *)
Definition parseIntExact (radix : Z) (s : string) : option Z :=
  let s1 := Js.trimStart s in
  let '(sign, s2) :=
    match s1 with
    | String c r => if Ascii.eqb c "-" then (-1, r)
                    else if Ascii.eqb c "+" then (1, r) else (1, s1)
    | EmptyString => (1, s1)
    end in
  let '(R, s3) :=
    match s2 with
    | String z (String x r) =>
        if Ascii.eqb z "0" && (Ascii.eqb x "x" || Ascii.eqb x "X")
        then (16, r) else (radix, s2)
    | _ => (radix, s2)
    end in
  match spanRadix R s3 with
  | EmptyString => None
  | digits => Some (sign * digitsValue R 0 digits)
  end.

(** [parseInt(s)] as a number. *)
Definition parseInt (s : string) : Number :=
  match parseIntExact 10 s with
  | Some z => toNumber z
  | None => NaN
  end.

(** [ArgumentTypes.INTEGER]:
    [if (!phrase || isNaN(+phrase)) return null; return parseInt(phrase);] *)
Definition INTEGER (phrase : string) : Outcome (option Number) :=
  if negb (Js.truthyStr phrase) || isNaN_number phrase then Returns None
  else Returns (Some (parseInt phrase)).

(** Where a run of decimal digits ends for [parseInt]: at the end of the
    text, or before a character that is neither a decimal digit nor the
    [x] of a hexadecimal prefix. *)
Definition endsDigits (rest : string) : bool :=
  match rest with
  | EmptyString => true
  | String c _ => negb (isDigit c) && negb (Ascii.eqb c "x" || Ascii.eqb c "X")
  end.

(** [phrase.replace("#", "")]: the first "#" is taken out. *)
Fixpoint dropFirstHash (s : string) : string :=
  match s with
  | EmptyString => EmptyString
  | String c r => if Ascii.eqb c "#" then r else String c (dropFirstHash r)
  end.

(** [ArgumentTypes.COLOR]: the colour as an integer, where the phrase is a
    hexadecimal number from 0 to 0xffffff.  The range test gives the same
    on the integer read as on the number it becomes; minus zero is read
    as 0. *)
Definition COLOR (phrase : string) : Outcome (option Z) :=
  if negb (Js.truthyStr phrase) then Returns None
  else
    match parseIntExact 16 (dropFirstHash phrase) with
    | None => Returns None
    | Some color =>
        if (color <? 0) || (16777215 <? color) then Returns None
        else Returns (Some color)
    end.

End TypesMore.

(** ** Ongoing prompts and the command util cache:
    [addPrompt], [removePrompt], [hasPrompt], [sweepCommandUtil] *)

Module Prompts.

(** [this.prompts] maps a channel id to the ids of the users with an
    ongoing prompt there.

    [addPrompt(channel, user)], by the ids of the two. *)
Definition addPrompt (channel user : string) (prompts : gmap string (gset string))
  : gmap string (gset string) :=
  let prompts1 :=
    match prompts !! channel with
    | Some _ => prompts
    | None => <[channel := ∅]> prompts
    end in
  match prompts1 !! channel with
  | Some users => <[channel := {[user]} ∪ users]> prompts1
  | None => prompts1
  end.

(** [removePrompt(channel, user)]: the user leaves the channel's set; when
    the set is then empty, [this.prompts.delete(user.id)]. *)
Definition removePrompt (channel user : string) (prompts : gmap string (gset string))
  : gmap string (gset string) :=
  match prompts !! channel with
  | None => prompts
  | Some users =>
      let users' := users ∖ {[user]} in
      let prompts1 := <[channel := users']> prompts in
      if bool_decide (size users' = 0%nat) then delete user prompts1 else prompts1
  end.

(** [hasPrompt(channel, user)]. *)
Definition hasPrompt (channel user : string) (prompts : gmap string (gset string)) : bool :=
  match prompts !! channel with
  | None => false
  | Some users => bool_decide (user ∈ users)
  end.

End Prompts.

Module Sweep.

(** [this.commandUtils]: the cached command utils in insertion order,
    each with its key and the message it belongs to. *)
Definition CommandUtils := list (string * Message).

(** [message.editedTimestamp || message.createdTimestamp]. *)
Definition stamp (m : Message) : Z :=
  match editedTimestamp m with
  | Some t => if t =? 0 then createdTimestamp m else t
  | None => createdTimestamp m
  end.

(** The loop of [sweepCommandUtil] over the entries in order, [deleted]
    being the keys deleted so far: an entry whose key was deleted is not
    visited; one older than the lifetime is counted and the key
    [message.id] deleted.  [now] is [Date.now()], taken to be the same
    throughout the loop.  The count and the keys deleted. *)
Fixpoint visit (lifetime now : Z) (deleted : gset string) (utils : CommandUtils)
  : Z * gset string :=
  match utils with
  | [] => (0, deleted)
  | (k, m) :: rest =>
      if bool_decide (k ∈ deleted) then visit lifetime now deleted rest
      else if lifetime <? now - stamp m then
        let '(count, deleted') := visit lifetime now ({[msg_id m]} ∪ deleted) rest in
        (1 + count, deleted')
      else visit lifetime now deleted rest
  end.

(** [sweepCommandUtil(lifetime)]: the count returned and the cache after
    it. *)
Definition sweepCommandUtil (lifetime now : Z) (utils : CommandUtils)
  : Z * CommandUtils :=
  let '(count, deleted) := visit lifetime now ∅ utils in
  (count, List.filter (fun '(k, _) => bool_decide (k ∉ deleted)) utils).

(** The cache as [handle] fills it: every util under the id of its
    message, no id twice. *)
Definition keyed (utils : CommandUtils) : Prop :=
  Forall (fun '(k, m) => k = msg_id m) utils ∧ NoDup (map fst utils).

(** The util's message is older than the lifetime. *)
Definition stale (lifetime now : Z) (km : string * Message) : bool :=
  lifetime <? now - stamp km.2.

End Sweep.

Module SweepSamples.
Import Samples.

(** Three cached utils at time 1000: messages of time 0, 500 and 900. *)
Definition cached : Sweep.CommandUtils :=
  [("1", mkMsg "1" "u" "!a" 0); ("2", mkMsg "2" "u" "!a" 500);
   ("3", mkMsg "3" "v" "!a" 900)].

End SweepSamples.

(** ** Loading and removing modules: [CitrusHandler.register],
    [deregister], [remove], [removeAll], [findCategory], and
    [CommandHandler.register], [deregister]

    Module objects are shared between [modules] and the categories and
    are changed in place by [register]; they are kept in a store and
    named by reference.  A [Collection] is the list of its entries in
    insertion order, every key once. *)

Module Collection.

Section Entries.
Context {V : Type}.

(** [collection.get(key)]. *)
Fixpoint get (key : string) (entries : list (string * V)) : option V :=
  match entries with
  | [] => None
  | (k, v) :: rest => if String.eqb key k then Some v else get key rest
  end.

(** [collection.has(key)]. *)
Definition has (key : string) (entries : list (string * V)) : bool :=
  match get key entries with Some _ => true | None => false end.

(** [collection.set(key, value)]: a key already there keeps its place. *)
Fixpoint set (key : string) (value : V) (entries : list (string * V))
  : list (string * V) :=
  match entries with
  | [] => [(key, value)]
  | (k, v) :: rest =>
      if String.eqb key k then (key, value) :: rest
      else (k, v) :: set key value rest
  end.

(** [collection.delete(key)]. *)
Fixpoint delete (key : string) (entries : list (string * V)) : list (string * V) :=
  match entries with
  | [] => []
  | (k, v) :: rest =>
      if String.eqb key k then delete key rest else (k, v) :: delete key rest
  end.

End Entries.

End Collection.

Module Registry.

(** A module object: a [CitrusModule], with the aliases and the prefix of
    a [Command] (none for other modules).  [m_category] names, by its id,
    the [Category] object the module was put in ([None] for null), and
    [m_filepath] is null for a module that was not loaded from a file. *)
Record ModuleObject := {
  m_id : string;
  m_categoryID : string;
  m_category : option string;
  m_filepath : option string;
  m_aliases : list string;
  m_prefix : option PrefixValue
}.

Inductive RegistryEvent : Type :=
| LOAD (module : nat) (isReload : bool)
| REMOVE (module : nat).

(** The handler's options and what it takes from its platform:
    [dirName] is the last directory of [path.dirname(filepath)],
    [aliasReplacement] the text left when the pattern of that name is
    taken out of an alias, [prefixCompare] the order of [Util.prefixCompare]
    (Util.ts is not among the sources). *)
Record Options := {
  automateCategories : bool;
  dirName : string -> string;
  aliasReplacement : option (string -> string);
  prefixCompare : string -> string -> Z
}.

(** The handler: the store of module objects, [modules], [categories]
    (each a collection of modules), [aliases], the prefix overrides
    [prefixes] in their order, and the events emitted. *)
Record Registry := {
  objects : gmap nat ModuleObject;
  r_modules : list (string * nat);
  r_categories : list (string * list (string * nat));
  r_aliases : gmap string string;
  r_prefixes : list (string * gset string);
  r_emitted : list RegistryEvent
}.

Definition empty : Registry :=
  {| objects := ∅; r_modules := []; r_categories := []; r_aliases := ∅;
     r_prefixes := []; r_emitted := [] |}.

Definition with_objects (r : Registry) os : Registry :=
  {| objects := os; r_modules := r_modules r; r_categories := r_categories r;
     r_aliases := r_aliases r; r_prefixes := r_prefixes r;
     r_emitted := r_emitted r |}.

Definition with_modules (r : Registry) ms : Registry :=
  {| objects := objects r; r_modules := ms; r_categories := r_categories r;
     r_aliases := r_aliases r; r_prefixes := r_prefixes r;
     r_emitted := r_emitted r |}.

Definition with_categories (r : Registry) cs : Registry :=
  {| objects := objects r; r_modules := r_modules r; r_categories := cs;
     r_aliases := r_aliases r; r_prefixes := r_prefixes r;
     r_emitted := r_emitted r |}.

Definition with_aliases (r : Registry) als : Registry :=
  {| objects := objects r; r_modules := r_modules r;
     r_categories := r_categories r; r_aliases := als;
     r_prefixes := r_prefixes r; r_emitted := r_emitted r |}.

Definition with_prefixes (r : Registry) ps : Registry :=
  {| objects := objects r; r_modules := r_modules r;
     r_categories := r_categories r; r_aliases := r_aliases r;
     r_prefixes := ps; r_emitted := r_emitted r |}.

Definition emit (ev : RegistryEvent) (r : Registry) : Registry :=
  {| objects := objects r; r_modules := r_modules r;
     r_categories := r_categories r; r_aliases := r_aliases r;
     r_prefixes := r_prefixes r; r_emitted := r_emitted r ++ [ev] |}.

Definition setFilepath (d : ModuleObject) (p : option string) : ModuleObject :=
  {| m_id := m_id d; m_categoryID := m_categoryID d; m_category := m_category d;
     m_filepath := p; m_aliases := m_aliases d; m_prefix := m_prefix d |}.

Definition setCategoryID (d : ModuleObject) (c : string) : ModuleObject :=
  {| m_id := m_id d; m_categoryID := c; m_category := m_category d;
     m_filepath := m_filepath d; m_aliases := m_aliases d; m_prefix := m_prefix d |}.

Definition setCategory (d : ModuleObject) (c : option string) : ModuleObject :=
  {| m_id := m_id d; m_categoryID := m_categoryID d; m_category := c;
     m_filepath := m_filepath d; m_aliases := m_aliases d; m_prefix := m_prefix d |}.

(** The truthiness of [mod.filepath]. *)
Definition hasFilepath (d : ModuleObject) : bool :=
  match m_filepath d with Some p => Js.truthyStr p | None => false end.

Definition TypeError : Error := "TypeError".
Definition MODULE_NOT_FOUND : Error := "MODULE_NOT_FOUND".
Definition ALREADY_LOADED : Error := "ALREADY_LOADED".
Definition ALIAS_CONFLICT : Error := "ALIAS_CONFLICT".

(** [CitrusHandler.register(mod, filepath)].  With [automateCategories]
    the category of a module of category "default" is taken from its
    path: [path.dirname] of a missing path throws, after the module was
    put in [modules].  A reference outside the store does not occur. *)
Definition register (opts : Options) (module : nat) (filepath : option string)
    (r : Registry) : Outcome unit * Registry :=
  match objects r !! module with
  | None => (Throws TypeError, r)
  | Some d =>
      let d1 := setFilepath d filepath in
      let r1 := with_modules (with_objects r (<[module := d1]> (objects r)))
                  (Collection.set (m_id d1) module (r_modules r)) in
      let renamed : Outcome ModuleObject :=
        if String.eqb (m_categoryID d1) "default" && automateCategories opts then
          match filepath with
          | Some p => Returns (setCategoryID d1 (dirName opts p))
          | None => Throws TypeError
          end
        else Returns d1 in
      match renamed with
      | Throws e => (Throws e, r1)
      | Returns d2 =>
          let categories :=
            if Collection.has (m_categoryID d2) (r_categories r1)
            then r_categories r1
            else Collection.set (m_categoryID d2) [] (r_categories r1) in
          let members := default [] (Collection.get (m_categoryID d2) categories) in
          let d3 := setCategory d2 (Some (m_categoryID d2)) in
          (Returns tt,
           with_categories (with_objects r1 (<[module := d3]> (objects r1)))
             (Collection.set (m_categoryID d2)
                (Collection.set (m_id d3) module members) categories))
      end
  end.

(** [CitrusHandler.deregister(mod)]; the entry of the module cache it
    drops is outside the handler, and [require.resolve] of the path of a
    module is taken to return.  A module that was never registered has
    no category: [mod.category.delete] throws, after [modules.delete]. *)
Definition deregister (module : nat) (r : Registry) : Outcome unit * Registry :=
  match objects r !! module with
  | None => (Throws TypeError, r)
  | Some d =>
      let r1 := with_modules r (Collection.delete (m_id d) (r_modules r)) in
      match m_category d with
      | None => (Throws TypeError, r1)
      | Some c =>
          match Collection.get c (r_categories r1) with
          | None => (Returns tt, r1)
          | Some members =>
              (Returns tt,
               with_categories r1
                 (Collection.set c (Collection.delete (m_id d) members)
                    (r_categories r1)))
          end
      end
  end.

(** [CitrusHandler.remove(id)]; [deregister] is the handler's own method
    of that name, the one of [CommandHandler] for a command handler. *)
Definition remove (deregister : nat -> Registry -> Outcome unit * Registry)
    (id : string) (r : Registry) : Outcome nat * Registry :=
  match Collection.get id (r_modules r) with
  | None => (Throws MODULE_NOT_FOUND, r)
  | Some module =>
      match deregister module r with
      | (Throws e, r1) => (Throws e, r1)
      | (Returns _, r1) => (Returns module, emit (REMOVE module) r1)
      end
  end.

(** The loop of [removeAll] over [Array.from(this.modules.values())]. *)
Fixpoint removeEach (deregister : nat -> Registry -> Outcome unit * Registry)
    (values : list nat) (r : Registry) : Outcome unit * Registry :=
  match values with
  | [] => (Returns tt, r)
  | module :: rest =>
      match objects r !! module with
      | None => (Throws TypeError, r)
      | Some d =>
          if hasFilepath d then
            match remove deregister (m_id d) r with
            | (Throws e, r1) => (Throws e, r1)
            | (Returns _, r1) => removeEach deregister rest r1
            end
          else removeEach deregister rest r
      end
  end.

(** [CitrusHandler.removeAll()]. *)
Definition removeAll (deregister : nat -> Registry -> Outcome unit * Registry)
    (r : Registry) : Outcome unit * Registry :=
  removeEach deregister (map snd (r_modules r)) r.

(** [CitrusHandler.findCategory(name)]: the id of the first category
    whose id is [name] up to case. *)
Definition findCategory (name : string) (r : Registry) : option string :=
  fst <$> List.find
            (fun category => String.eqb (Js.toLowerCase category.1) (Js.toLowerCase name))
            (r_categories r).

(** The part of [CitrusHandler.load] that follows the construction of the
    module [mod] from a class ([filepath] null) or from the file at
    [filepath]; [register] is the handler's own method of that name. *)
Definition load (register : nat -> option string -> Registry -> Outcome unit * Registry)
    (module : nat) (filepath : option string) (isReload : bool) (r : Registry)
  : Outcome nat * Registry :=
  match objects r !! module with
  | None => (Throws TypeError, r)
  | Some d =>
      if Collection.has (m_id d) (r_modules r) then (Throws ALREADY_LOADED, r)
      else
        match register module filepath r with
        | (Throws e, r1) => (Throws e, r1)
        | (Returns _, r1) => (Returns module, emit (LOAD module isReload) r1)
        end
  end.

(** One round of the alias loop of [CommandHandler.register]. *)
Definition addAlias (opts : Options) (id : string) (alias : string)
    (aliases : gmap string string) : Outcome unit * gmap string string :=
  let conflict := default "" (aliases !! Js.toLowerCase alias) in
  if Js.truthyStr conflict then (Throws ALIAS_CONFLICT, aliases) else
  let alias := Js.toLowerCase alias in
  let aliases1 := <[alias := id]> aliases in
  match aliasReplacement opts with
  | None => (Returns tt, aliases1)
  | Some replace =>
      let replacement := replace alias in
      if String.eqb replacement alias then (Returns tt, aliases1) else
      let replacementConflict := default "" (aliases1 !! replacement) in
      if Js.truthyStr replacementConflict then (Throws ALIAS_CONFLICT, aliases1)
      else (Returns tt, <[replacement := id]> aliases1)
  end.

Fixpoint addAliases (opts : Options) (id : string) (names : list string)
    (aliases : gmap string string) : Outcome unit * gmap string string :=
  match names with
  | [] => (Returns tt, aliases)
  | alias :: rest =>
      match addAlias opts id alias aliases with
      | (Throws e, aliases1) => (Throws e, aliases1)
      | (Returns _, aliases1) => addAliases opts id rest aliases1
      end
  end.

(** One prefix of the command: its id joins the prefix's set, or a new
    entry is made; whether an entry was made. *)
Definition addPrefix (id : string) (prefix : string)
    (prefixes : list (string * gset string)) : bool * list (string * gset string) :=
  match Collection.get prefix prefixes with
  | Some ids => (false, Collection.set prefix ({[id]} ∪ ids) prefixes)
  | None => (true, Collection.set prefix {[id]} prefixes)
  end.

Fixpoint addPrefixes (id : string) (names : list string)
    (prefixes : list (string * gset string)) : bool * list (string * gset string) :=
  match names with
  | [] => (false, prefixes)
  | prefix :: rest =>
      let '(new1, prefixes1) := addPrefix id prefix prefixes in
      let '(new2, prefixes2) := addPrefixes id rest prefixes1 in
      (new1 || new2, prefixes2)
  end.

(** [CommandHandler.register(command, filepath)]; the default of
    [slashDefaultPermission] it sets is left out.  A prefix given as a
    supplier function is left out as well. *)
Definition registerCommand (opts : Options) (command : nat)
    (filepath : option string) (r : Registry) : Outcome unit * Registry :=
  match register opts command filepath r with
  | (Throws e, r1) => (Throws e, r1)
  | (Returns _, r1) =>
      match objects r1 !! command with
      | None => (Throws TypeError, r1)
      | Some d =>
          match addAliases opts (m_id d) (m_aliases d) (r_aliases r1) with
          | (Throws e, aliases) => (Throws e, with_aliases r1 aliases)
          | (Returns _, aliases) =>
              let r2 := with_aliases r1 aliases in
              match m_prefix d with
              | None => (Returns tt, r2)
              | Some prefix =>
                  let '(newEntry, prefixes) :=
                    addPrefixes (m_id d) (Prefix.intoArray prefix) (r_prefixes r2) in
                  (Returns tt,
                   with_prefixes r2
                     (if newEntry
                      then Js.sortBy (fun a b => prefixCompare opts a.1 b.1) prefixes
                      else prefixes))
              end
          end
      end
  end.

(** One round of the alias loop of [CommandHandler.deregister]. *)
Definition dropAlias (opts : Options) (alias : string)
    (aliases : gmap string string) : gmap string string :=
  let alias := Js.toLowerCase alias in
  let aliases1 := base.delete alias aliases in
  match aliasReplacement opts with
  | None => aliases1
  | Some replace =>
      let replacement := replace alias in
      if String.eqb replacement alias then aliases1
      else base.delete replacement aliases1
  end.

(** One prefix of the command in [CommandHandler.deregister]: the entry
    goes when its set has one member; otherwise
    [prefixes.delete(prefix)] takes the prefix, not the command's id, out
    of the set. *)
Definition dropPrefix (prefix : string) (prefixes : list (string * gset string))
  : list (string * gset string) :=
  match Collection.get prefix prefixes with
  | None => prefixes
  | Some ids =>
      if bool_decide (size ids = 1%nat) then Collection.delete prefix prefixes
      else Collection.set prefix (ids ∖ {[prefix]}) prefixes
  end.

(** [CommandHandler.deregister(command)]. *)
Definition deregisterCommand (opts : Options) (command : nat) (r : Registry)
  : Outcome unit * Registry :=
  match objects r !! command with
  | None => (Throws TypeError, r)
  | Some d =>
      let r1 := with_aliases r (foldl (fun als a => dropAlias opts a als)
                                  (r_aliases r) (m_aliases d)) in
      let r2 :=
        match m_prefix d with
        | None => r1
        | Some prefix =>
            with_prefixes r1 (foldl (fun ps p => dropPrefix p ps)
                                (r_prefixes r1) (Prefix.intoArray prefix))
        end in
      deregister command r2
  end.

(** [CommandHandler.findCommand(name)]. *)
Definition findCommand (name : string) (r : Registry) : option nat :=
  match r_aliases r !! Js.toLowerCase name with
  | Some id => Collection.get id (r_modules r)
  | None => None
  end.

(** Every module in [modules] is stored under its id and listed, under
    that id, in the category named by its [categoryID]. *)
Definition listed (r : Registry) : Prop :=
  ∀ id module, Collection.get id (r_modules r) = Some module →
    ∃ d members,
      objects r !! module = Some d ∧ m_id d = id ∧
      m_category d = Some (m_categoryID d) ∧
      Collection.get (m_categoryID d) (r_categories r) = Some members ∧
      Collection.get id members = Some module.

(** The ids of the categories. *)
Definition categoryIds (r : Registry) : list string := map fst (r_categories r).

(** [modules] holds no id twice. *)
Definition distinct (r : Registry) : Prop := NoDup (map fst (r_modules r)).

(** The module behind the reference has a truthy [filepath]. *)
Definition filed (r : Registry) (module : nat) : bool :=
  match objects r !! module with
  | Some d => hasFilepath d
  | None => false
  end.

(** One of the operations that change what is loaded took [r] to [r']
    and returned. *)
Inductive changed (opts : Options) (r r' : Registry) : Prop :=
| by_register module filepath :
    register opts module filepath r = (Returns tt, r') → changed opts r r'
| by_registerCommand command filepath :
    registerCommand opts command filepath r = (Returns tt, r') → changed opts r r'
| by_deregister module :
    deregister module r = (Returns tt, r') → changed opts r r'
| by_deregisterCommand command :
    deregisterCommand opts command r = (Returns tt, r') → changed opts r r'
| by_remove id module :
    remove deregister id r = (Returns module, r') → changed opts r r'
| by_removeCommand id module :
    remove (deregisterCommand opts) id r = (Returns module, r') → changed opts r r'
| by_removeAll :
    removeAll deregister r = (Returns tt, r') → changed opts r r'
| by_load module filepath isReload :
    load (register opts) module filepath isReload r = (Returns module, r') →
    changed opts r r'
| by_loadCommand command filepath isReload :
    load (registerCommand opts) command filepath isReload r = (Returns command, r') →
    changed opts r r'.

End Registry.

Module RegistrySamples.
Import Registry.

(** A command handler without [automateCategories] and without
    [aliasReplacement]. *)
Definition defaults : Options :=
  {| automateCategories := false; dirName := fun p => p;
     aliasReplacement := None; prefixCompare := fun _ _ => 0%Z |}.

Definition ping : ModuleObject :=
  {| m_id := "ping"; m_categoryID := "default"; m_category := None;
     m_filepath := None; m_aliases := ["ping"; "P"]; m_prefix := None |}.

(** Its second alias is, up to case, the second alias of [ping]. *)
Definition pong : ModuleObject :=
  {| m_id := "pong"; m_categoryID := "default"; m_category := None;
     m_filepath := None; m_aliases := ["pong"; "p"]; m_prefix := None |}.

Definition ban : ModuleObject :=
  {| m_id := "ban"; m_categoryID := "mod"; m_category := None;
     m_filepath := None; m_aliases := ["ban"]; m_prefix := Some (PrefixStr "?") |}.

Definition kick : ModuleObject :=
  {| m_id := "kick"; m_categoryID := "mod"; m_category := None;
     m_filepath := None; m_aliases := ["kick"]; m_prefix := Some (PrefixStr "?") |}.

(** The four commands constructed, none loaded. *)
Definition built : Registry :=
  with_objects empty
    (<[0%nat := ping]> (<[1%nat := pong]> (<[2%nat := ban]> (<[3%nat := kick]> ∅)))).

(** [ping] loaded from its file. *)
Definition loaded : Registry :=
  (registerCommand defaults 0 (Some "/commands/ping.js") built).2.

(** [ping] loaded from its file, then [ban] from its class. *)
Definition mixed : Registry := (registerCommand defaults 2 None loaded).2.

(** [ban] and [kick], which share the prefix "?". *)
Definition moderation : Registry :=
  (registerCommand defaults 3 None (registerCommand defaults 2 None built).2).2.

End RegistrySamples.

(** * Properties *)

(** ** Cooldown window *)

Module CooldownFacts.
Import Cooldown CooldownInv CooldownCount.

Lemma entryOf_with_cooldowns st cds u cid :
  entryOf (with_cooldowns st cds) u cid =
  match cds !! u with
  | Some obj => match obj !! cid with Some (Some e) => Some e | _ => None end
  | None => None
  end.
Proof. reflexivity. Qed.

Lemma entryOf_setEntry_eq st u cid v obj :
  cooldowns st !! u = Some obj →
  entryOf (setEntry u cid v st) u cid = v.
Proof.
  intros Hobj. unfold setEntry. rewrite Hobj, entryOf_with_cooldowns.
  rewrite lookup_insert_eq, lookup_insert_eq. by destruct v.
Qed.

Lemma entryOf_setEntry_ne st u cid v u' cid' :
  ¬ (u' = u ∧ cid' = cid) →
  entryOf (setEntry u cid v st) u' cid' = entryOf st u' cid'.
Proof.
  intros Hne. unfold setEntry.
  destruct (cooldowns st !! u) as [obj|] eqn:Hobj; [|done].
  rewrite entryOf_with_cooldowns. unfold entryOf.
  destruct (decide (u' = u)) as [->|Hu].
  - rewrite lookup_insert_eq, Hobj.
    rewrite lookup_insert_ne; [done|]. intros ->. by apply Hne.
  - by rewrite lookup_insert_ne.
Qed.

Lemma entryOf_emit st ev u cid : entryOf (emit ev st) u cid = entryOf st u cid.
Proof. reflexivity. Qed.

Lemma entryOf_with_timers st ts n u cid :
  entryOf (with_timers st ts n) u cid = entryOf st u cid.
Proof. reflexivity. Qed.

Lemma entryOf_with_now st t u cid : entryOf (with_now st t) u cid = entryOf st u cid.
Proof. reflexivity. Qed.

Lemma log_setEntry st u cid v : log (setEntry u cid v st) = log st.
Proof. unfold setEntry. by destruct (cooldowns st !! u). Qed.

Lemma timers_setEntry st u cid v : timers (setEntry u cid v st) = timers st.
Proof. unfold setEntry. by destruct (cooldowns st !! u). Qed.

Lemma nextTimer_setEntry st u cid v : nextTimer (setEntry u cid v st) = nextTimer st.
Proof. unfold setEntry. by destruct (cooldowns st !! u). Qed.

Lemma now_setEntry st u cid v : now (setEntry u cid v st) = now st.
Proof. unfold setEntry. by destruct (cooldowns st !! u). Qed.

Lemma ensureUser_has st u : is_Some (cooldowns (ensureUser u st) !! u).
Proof.
  unfold ensureUser. destruct (cooldowns st !! u) eqn:E; [by rewrite E|].
  simpl. by rewrite lookup_insert_eq.
Qed.

Lemma entryOf_ensureUser u st u' cid : entryOf (ensureUser u st) u' cid = entryOf st u' cid.
Proof.
  unfold ensureUser. destruct (cooldowns st !! u) eqn:E; [done|].
  rewrite entryOf_with_cooldowns. unfold entryOf.
  destruct (decide (u' = u)) as [->|Hu].
  - by rewrite lookup_insert_eq, E, lookup_empty.
  - by rewrite lookup_insert_ne.
Qed.

Lemma inheritedAt_own st u cid obj v :
  cooldowns st !! u = Some obj → obj !! cid = Some v →
  inheritedAt st u cid = false.
Proof.
  intros Hobj Hv. unfold inheritedAt. rewrite Hobj.
  rewrite bool_decide_eq_false_2; [done|]. by rewrite Hv.
Qed.

Lemma inheritedAt_entry st u cid e :
  entryOf st u cid = Some e → inheritedAt st u cid = false.
Proof.
  unfold entryOf. destruct (cooldowns st !! u) as [obj|] eqn:Hobj; [|done].
  destruct (obj !! cid) as [v|] eqn:Hv; [|done]. intros _.
  by eapply inheritedAt_own.
Qed.

Lemma inheritedAt_plain st u cid :
  Js.inherited cid = false → inheritedAt st u cid = false.
Proof.
  intros H. unfold inheritedAt. rewrite H.
  destruct (cooldowns st !! u); [apply andb_false_r|done].
Qed.

Lemma inheritedAt_ensureUser_own st u cid obj v :
  cooldowns st !! u = Some obj → obj !! cid = Some v →
  inheritedAt (ensureUser u st) u cid = false.
Proof.
  intros Hobj Hv. unfold ensureUser. rewrite Hobj. by eapply inheritedAt_own.
Qed.

(** A counted call on an existing entry: blocked exactly when the uses
    have reached the ratelimit, reporting [end - createdTimestamp];
    otherwise the counter goes up by one. *)
Lemma runCooldowns_existing h m c st e :
  isIgnored h m c = false → timeOf h c ≠ 0 →
  entryOf st (author_id m) (cmd_id c) = Some e →
  runCooldowns h m c st =
    if ratelimit c <=? uses e
    then (true, emit (COOLDOWN m (cmd_id c) (end_ e - createdTimestamp m)) st)
    else (false, setEntry (author_id m) (cmd_id c) (Some (incUses e)) st).
Proof.
  intros Hig Ht He. unfold runCooldowns. rewrite Hig.
  destruct (Z.eqb_spec (timeOf h c) 0) as [|_]; [done|].
  assert (Hobj : is_Some (cooldowns st !! author_id m)).
  { unfold entryOf in He. destruct (cooldowns st !! author_id m); [eauto|done]. }
  destruct Hobj as [obj Hobj].
  assert (Hen : ensureUser (author_id m) st = st) by (unfold ensureUser; by rewrite Hobj).
  rewrite Hen, (inheritedAt_entry _ _ _ _ He), He. done.
Qed.

(** The first counted call: the entry is created with no uses, ending one
    cooldown after the message's timestamp, and its timer is set to the
    cooldown. *)
Lemma runCooldowns_fresh h m c st :
  isIgnored h m c = false → timeOf h c ≠ 0 →
  entryOf st (author_id m) (cmd_id c) = None →
  inheritedAt (ensureUser (author_id m) st) (author_id m) (cmd_id c) = false →
  let u := author_id m in
  let e0 := {| timer := nextTimer st;
               end_ := createdTimestamp m + timeOf h c; uses := 0 |} in
  let st0 := setEntry u (cmd_id c) (Some e0)
               (snd (setTimeout u (cmd_id c) (timeOf h c) (ensureUser u st))) in
  runCooldowns h m c st =
    if ratelimit c <=? 0
    then (true, emit (COOLDOWN m (cmd_id c) (end_ e0 - createdTimestamp m)) st0)
    else (false, setEntry u (cmd_id c) (Some (incUses e0)) st0).
Proof.
  intros Hig Ht He Hown u e0 st0. unfold runCooldowns. rewrite Hig.
  destruct (Z.eqb_spec (timeOf h c) 0) as [|_]; [done|].
  rewrite Hown. fold u.
  rewrite entryOf_ensureUser. fold u in He. rewrite He.
  unfold setTimeout. simpl.
  assert (Hn : nextTimer (ensureUser u st) = nextTimer st).
  { unfold ensureUser. by destruct (cooldowns st !! u). }
  subst st0 e0. unfold setTimeout. simpl. rewrite !Hn. done.
Qed.


Lemma dom_insert_nonempty (obj : gmap string (option CooldownData)) cid v :
  dom (<[cid := v]> obj) ≠ (∅ : gset string).
Proof. rewrite dom_insert_L. set_solver. Qed.

Lemma expire_unfold id cid st obj :
  cooldowns st !! id = Some obj →
  expire id cid st =
    with_cooldowns
      (match obj !! cid with
       | Some (Some e) => clearTimeout (timer e) st
       | _ => st
       end)
      (<[id := <[cid := None]> obj]> (cooldowns st)).
Proof.
  intros Hobj. unfold expire. rewrite Hobj.
  rewrite bool_decide_eq_false_2 by apply dom_insert_nonempty.
  by destruct (obj !! cid) as [[e|]|].
Qed.

Lemma expire_frame id cid' st u cid :
  ¬ (id = u ∧ cid' = cid) →
  entryOf (expire id cid' st) u cid = entryOf st u cid.
Proof.
  intros Hne. destruct (cooldowns st !! id) as [obj|] eqn:Hobj.
  - rewrite (expire_unfold _ _ _ _ Hobj), entryOf_with_cooldowns.
    unfold entryOf. destruct (decide (u = id)) as [->|Hu].
    + rewrite lookup_insert_eq, Hobj.
      rewrite lookup_insert_ne; [done|]. intros ->. by apply Hne.
    + by rewrite lookup_insert_ne.
  - unfold expire. by rewrite Hobj.
Qed.

Lemma expire_clears id cid st : entryOf (expire id cid st) id cid = None.
Proof.
  destruct (cooldowns st !! id) as [obj|] eqn:Hobj.
  - rewrite (expire_unfold _ _ _ _ Hobj), entryOf_with_cooldowns.
    by rewrite lookup_insert_eq, lookup_insert_eq.
  - unfold expire. rewrite Hobj. unfold entryOf. by rewrite Hobj.
Qed.

Lemma runCooldowns_frame h m c st u cid :
  ¬ (author_id m = u ∧ cmd_id c = cid) →
  entryOf (runCooldowns h m c st).2 u cid = entryOf st u cid.
Proof.
  intros Hne. unfold runCooldowns.
  destruct (isIgnored h m c); [done|].
  destruct (timeOf h c =? 0); [done|].
  assert (Hne' : ¬ (u = author_id m ∧ cid = cmd_id c)) by (intros [-> ->]; by apply Hne).
  destruct (inheritedAt _ _ _); [simpl; by rewrite entryOf_ensureUser|].
  destruct (entryOf (ensureUser (author_id m) st) (author_id m) (cmd_id c)) as [e|].
  - destruct (ratelimit c <=? uses e); simpl.
    + by rewrite entryOf_emit, entryOf_ensureUser.
    + by rewrite entryOf_setEntry_ne, entryOf_ensureUser.
  - simpl. destruct (ratelimit c <=? 0); simpl.
    + by rewrite entryOf_emit, entryOf_setEntry_ne, entryOf_with_timers,
        entryOf_ensureUser.
    + by rewrite !entryOf_setEntry_ne, entryOf_with_timers, entryOf_ensureUser.
Qed.

Lemma drop_log_same (l : list Effect) : drop (List.length l) l = [].
Proof. by apply drop_all. Qed.

Lemma drop_log_emit (l : list Effect) x : drop (List.length l) (l ++ [x]) = [x].
Proof. by rewrite drop_app_length. Qed.

(** An action outside the key: the entry stays, and no call of the key is
    reported. *)
Lemma step_frame h st a os st' u c :
  step h st a = Some (os, st') →
  match a with
  | Advance _ => True
  | Fire _ id cid => ¬ (id = u ∧ cid = cmd_id c)
  | Call m c' => ¬ (author_id m = u ∧ cmd_id c' = cmd_id c)
  end →
  entryOf st' u (cmd_id c) = entryOf st u (cmd_id c) ∧
  List.filter (mine u (cmd_id c)) os = [].
Proof.
  destruct a as [dt|t id cid|m c']; simpl; intros Hs Hout.
  - destruct (0 <=? dt); [|done]. by simplify_eq.
  - destruct (timers st !! t) as [tm|]; [|done].
    destruct (_ && _); [|done]. simplify_eq. split; [|done].
    by rewrite expire_frame.
  - destruct (runCooldowns h m c' st) as [b st1] eqn:Hr. simplify_eq.
    split.
    + change st' with (b, st').2. rewrite <- Hr. by apply runCooldowns_frame.
    + simpl. unfold mine. simpl. by rewrite bool_decide_eq_false_2.
Qed.

(** A counted call on the live entry [e]. *)
Lemma step_counted h st m c e :
  isIgnored h m c = false → timeOf h c ≠ 0 →
  entryOf st (author_id m) (cmd_id c) = Some e →
  ∃ o st',
    step h st (Call m c) = Some ([o], st') ∧
    o_msg o = m ∧ o_cmd o = c ∧ o_at o = now st ∧
    expected c (uses e) (end_ e) 0 o ∧
    entryOf st' (author_id m) (cmd_id c) =
      Some (if ratelimit c <=? uses e then e else incUses e).
Proof.
  intros Hig Ht He. simpl. rewrite (runCooldowns_existing _ _ _ _ _ Hig Ht He).
  assert (Hobj : is_Some (cooldowns st !! author_id m)).
  { unfold entryOf in He. destruct (cooldowns st !! author_id m); [eauto|done]. }
  destruct Hobj as [obj Hobj].
  unfold expected. rewrite Z.add_0_r.
  destruct (ratelimit c <=? uses e) eqn:Hle.
  - eexists _, _. split; [reflexivity|]. simpl.
    by rewrite drop_log_emit.
  - eexists _, _. split; [reflexivity|]. simpl. rewrite log_setEntry.
    rewrite drop_log_same. by rewrite (entryOf_setEntry_eq _ _ _ _ _ Hobj).
Qed.

Lemma expected_shift c used used' endT i o :
  used' = (if ratelimit c <=? used then used else used + 1) →
  expected c used' endT i o → expected c used endT (S i) o.
Proof.
  intros -> [Hb He]. split; [|done]. rewrite Hb.
  destruct (Z.leb_spec (ratelimit c) used).
  - destruct (Z.leb_spec (ratelimit c) (used + Z.of_nat i)),
             (Z.leb_spec (ratelimit c) (used + Z.of_nat (S i))); lia || done.
  - f_equal. lia.
Qed.

Lemma usesAfter_shift N used k :
  usesAfter N (if N <=? used then used else used + 1) k = usesAfter N used (S k).
Proof.
  unfold usesAfter. destruct (Z.leb_spec N used) as [H1|H1].
  - by destruct (Z.leb_spec N used); [|lia].
  - destruct (Z.leb_spec N (used + 1)); lia.
Qed.

(** While the window stays open, the calls of the key are answered from
    the one entry: its end never changes and its counter follows the
    calls up to the ratelimit. *)
Lemma run_open_window h u c : ∀ acts st e outs st',
  timeOf h c ≠ 0 →
  entryOf st u (cmd_id c) = Some e →
  Forall (in_window h u c) acts →
  run h st acts = Some (outs, st') →
  let mineouts := List.filter (mine u (cmd_id c)) outs in
  (∃ e', entryOf st' u (cmd_id c) = Some e' ∧ timer e' = timer e ∧
         end_ e' = end_ e ∧
         uses e' = usesAfter (ratelimit c) (uses e) (List.length mineouts)) ∧
  ∀ i o, mineouts !! i = Some o → expected c (uses e) (end_ e) i o.
Proof.
  intros acts. induction acts as [|a acts IH]; intros st e outs st' Ht He Hw Hrun.
  - simpl in Hrun. simplify_eq. simpl. split.
    + exists e. repeat split; try done. unfold usesAfter.
      destruct (Z.leb_spec (ratelimit c) (uses e)); lia.
    + intros i o Hi. by rewrite lookup_nil in Hi.
  - simpl in Hrun.
    destruct (step h st a) as [[o1 st1]|] eqn:Hs; [|done].
    destruct (run h st1 acts) as [[o2 st2]|] eqn:Hr; [|done].
    simplify_eq. apply Forall_cons in Hw as [Ha Hw].
    intros mineouts. subst mineouts. rewrite List.filter_app.
    assert (Htouch :
      (∃ m, a = Call m c ∧ author_id m = u ∧ isIgnored h m c = false) ∨
      match a with
      | Advance _ => True
      | Fire _ id cid => ¬ (id = u ∧ cid = cmd_id c)
      | Call m c' => ¬ (author_id m = u ∧ cmd_id c' = cmd_id c)
      end).
    { destruct a as [dt|t id cid|m c']; simpl in Ha; [by right|by right|].
      destruct (decide (author_id m = u ∧ cmd_id c' = cmd_id c)) as [[Hu Hc]|Hn].
      - destruct (Ha Hu Hc) as [Heq Hig]. subst c'. left. eauto.
      - by right. }
    destruct Htouch as [(m & -> & Hu & Hig)|Hframe].
    + subst u.
      destruct (step_counted h st m c e Hig Ht He)
        as (o & st1' & Hs' & Hm & Hc & _ & Hexp & He1).
      assert (o1 = [o] ∧ st1 = st1') as [-> ->] by (split; congruence).
      clear Hs. rewrite <- Hm in *.
      set (e1 := if ratelimit c <=? uses e then e else incUses e) in *.
      destruct (IH st1' e1 o2 st' Ht He1 Hw Hr) as [(e' & He' & Htm & Hend & Huses) Hall].
      assert (Hmine : mine (author_id (o_msg o)) (cmd_id c) o = true).
      { unfold mine. rewrite Hc. by apply bool_decide_eq_true_2. }
      simpl. rewrite Hmine. simpl.
      assert (Hu1 : uses e1 = if ratelimit c <=? uses e then uses e else uses e + 1).
      { subst e1. by destruct (ratelimit c <=? uses e). }
      assert (Hend1 : end_ e1 = end_ e).
      { subst e1. by destruct (ratelimit c <=? uses e). }
      assert (Htm1 : timer e1 = timer e).
      { subst e1. by destruct (ratelimit c <=? uses e). }
      split.
      * exists e'. repeat split; try congruence.
        rewrite Huses, Hu1. apply usesAfter_shift.
      * intros [|i] o' Hi; simpl in Hi.
        -- by simplify_eq.
        -- apply (expected_shift _ _ (uses e1)); [done|].
           rewrite <- Hend1. by apply Hall.
    + destruct (step_frame h st a o1 st1 u c Hs Hframe) as [He1 Hnone].
      rewrite <- He1 in He.
      destruct (IH st1 e o2 st' Ht He Hw Hr) as [Hfin Hall].
      rewrite Hnone. simpl. done.
Qed.


Lemma log_ensureUser u st : log (ensureUser u st) = log st.
Proof. unfold ensureUser. by destruct (cooldowns st !! u). Qed.

Lemma timers_ensureUser u st : timers (ensureUser u st) = timers st.
Proof. unfold ensureUser. by destruct (cooldowns st !! u). Qed.

Lemma nextTimer_ensureUser u st : nextTimer (ensureUser u st) = nextTimer st.
Proof. unfold ensureUser. by destruct (cooldowns st !! u). Qed.

Lemma now_ensureUser u st : now (ensureUser u st) = now st.
Proof. unfold ensureUser. by destruct (cooldowns st !! u). Qed.

Lemma setEntry_has st u cid v :
  is_Some (cooldowns st !! u) → is_Some (cooldowns (setEntry u cid v st) !! u).
Proof.
  intros [obj Hobj]. unfold setEntry. rewrite Hobj. simpl.
  rewrite lookup_insert_eq. eauto.
Qed.

(** The state right after the entry of a first use is stored. *)
Lemma created_entry h m c st :
  let u := author_id m in
  let e0 := {| timer := nextTimer st;
               end_ := createdTimestamp m + timeOf h c; uses := 0 |} in
  let st0 := setEntry u (cmd_id c) (Some e0)
               (setTimeout u (cmd_id c) (timeOf h c) (ensureUser u st)).2 in
  is_Some (cooldowns st0 !! u) ∧ entryOf st0 u (cmd_id c) = Some e0 ∧
  log st0 = log st ∧ now st0 = now st ∧ nextTimer st0 = S (nextTimer st) ∧
  timers st0 =
    <[nextTimer st := {| due := now st + Js.timerDelay (timeOf h c);
                         t_user := u; t_cmd := cmd_id c |}]> (timers st) ∧
  ∀ u' cid', ¬ (u' = u ∧ cid' = cmd_id c) →
    entryOf st0 u' cid' = entryOf st u' cid'.
Proof.
  intros u e0 st0.
  assert (Hhas : is_Some (cooldowns (setTimeout u (cmd_id c) (timeOf h c)
                                       (ensureUser u st)).2 !! u)).
  { simpl. apply ensureUser_has. }
  subst st0. split; [by apply setEntry_has|]. destruct Hhas as [obj Hobj].
  split; [by rewrite (entryOf_setEntry_eq _ _ _ _ _ Hobj)|].
  rewrite log_setEntry, now_setEntry, nextTimer_setEntry, timers_setEntry.
  simpl. rewrite log_ensureUser, now_ensureUser, nextTimer_ensureUser,
    timers_ensureUser.
  repeat split; try done.
  intros u' cid' Hne.
  by rewrite entryOf_setEntry_ne, entryOf_with_timers, entryOf_ensureUser.
Qed.

(** The first counted call of a key. *)
Lemma step_first h st m c :
  isIgnored h m c = false → timeOf h c ≠ 0 →
  entryOf st (author_id m) (cmd_id c) = None →
  inheritedAt (ensureUser (author_id m) st) (author_id m) (cmd_id c) = false →
  ∃ o st' e,
    step h st (Call m c) = Some ([o], st') ∧
    o_msg o = m ∧ o_cmd o = c ∧
    expected c 0 (createdTimestamp m + timeOf h c) 0 o ∧
    entryOf st' (author_id m) (cmd_id c) = Some e ∧
    end_ e = createdTimestamp m + timeOf h c ∧
    uses e = (if ratelimit c <=? 0 then 0 else 1).
Proof.
  intros Hig Ht He Hown.
  pose proof (created_entry h m c st) as Hce.
  pose proof (runCooldowns_fresh _ _ _ _ Hig Ht He Hown) as Hrun.
  cbv zeta in Hce, Hrun.
  remember (setEntry (author_id m) (cmd_id c) _ _) as st0 eqn:Hst0 in Hce, Hrun.
  destruct Hce as ([obj Hobj] & He0 & Hlog & _).
  unfold step, expected. rewrite Hrun.
  destruct (ratelimit c <=? 0) eqn:Hle.
  - eexists _, _, _. split; [reflexivity|]. simpl. rewrite Hlog.
    rewrite drop_log_emit. repeat split; try done.
  - eexists _, _, _. split; [reflexivity|]. simpl.
    rewrite log_setEntry, Hlog, drop_log_same.
    repeat split; try done.
    all: try by rewrite (entryOf_setEntry_eq _ _ _ _ _ Hobj).
    all: done.
Qed.

(** X28. For a user the ignore list does not exempt and a command with
    ratelimit N and a non-zero cooldown T whose id is not a name every
    object inherits: among the user's calls of
    [runCooldowns] for the command while the window is open (the entry's
    timer has not fired), starting from the first use, call number i
    (counted from 0) is blocked exactly when N <= i, so the first N calls
    return false and the next returns true; a blocked call emits one
    cooldown event whose remaining time is the entry's end (the first
    message's timestamp plus T) minus the blocked message's
    createdTimestamp, an allowed call emits nothing and the counter ends
    at min(calls, N). *)
Theorem runCooldowns_ratelimit_window h u c : ∀ acts st outs st',
  Js.inherited (cmd_id c) = false →
  timeOf h c ≠ 0 →
  entryOf st u (cmd_id c) = None →
  Forall (in_window h u c) acts →
  run h st acts = Some (outs, st') →
  match List.filter (mine u (cmd_id c)) outs with
  | [] => entryOf st' u (cmd_id c) = None
  | o0 :: rest =>
      let endTime := createdTimestamp (o_msg o0) + timeOf h c in
      (∃ e, entryOf st' u (cmd_id c) = Some e ∧ end_ e = endTime ∧
            uses e = Z.min (Z.of_nat (S (List.length rest)))
                           (Z.max (ratelimit c) 0)) ∧
      ∀ i o, (o0 :: rest) !! i = Some o → expected c 0 endTime i o
  end.
Proof.
  intros acts. induction acts as [|a acts IH]; intros st outs st' Hplain Ht He Hw Hrun.
  - simpl in Hrun. by simplify_eq.
  - simpl in Hrun.
    destruct (step h st a) as [[o1 st1]|] eqn:Hs; [|done].
    destruct (run h st1 acts) as [[o2 st2]|] eqn:Hr; [|done].
    simplify_eq. apply Forall_cons in Hw as [Ha Hw].
    rewrite List.filter_app.
    assert (Htouch :
      (∃ m, a = Call m c ∧ author_id m = u ∧ isIgnored h m c = false) ∨
      match a with
      | Advance _ => True
      | Fire _ id cid => ¬ (id = u ∧ cid = cmd_id c)
      | Call m c' => ¬ (author_id m = u ∧ cmd_id c' = cmd_id c)
      end).
    { destruct a as [dt|t id cid|m c']; simpl in Ha; [by right|by right|].
      destruct (decide (author_id m = u ∧ cmd_id c' = cmd_id c)) as [[Hu Hc]|Hn].
      - destruct (Ha Hu Hc) as [Heq Hig]. subst c'. left. eauto.
      - by right. }
    destruct Htouch as [(m & -> & Hu & Hig)|Hframe].
    + subst u.
      destruct (step_first h st m c Hig Ht He (inheritedAt_plain _ _ _ Hplain))
        as (o & st1' & e1 & Hs' & Hm & Hc & Hexp & He1 & Hend1 & Hu1).
      assert (o1 = [o] ∧ st1 = st1') as [-> ->] by (split; congruence).
      clear Hs. rewrite <- Hm in *.
      destruct (run_open_window h _ c acts st1' e1 o2 st' Ht He1 Hw Hr)
        as [(e' & He' & _ & Hend & Huses) Hall].
      assert (Hmine : mine (author_id (o_msg o)) (cmd_id c) o = true).
      { unfold mine. rewrite Hc. by apply bool_decide_eq_true_2. }
      simpl. rewrite Hmine. simpl. split.
      * exists e'. split; [done|]. split; [congruence|].
        rewrite Huses, Hu1. unfold usesAfter.
        destruct (Z.leb_spec (ratelimit c) 0);
          [destruct (Z.leb_spec (ratelimit c) 0)|destruct (Z.leb_spec (ratelimit c) 1)];
          lia.
      * intros [|i] o' Hi; simpl in Hi.
        -- by simplify_eq.
        -- apply (expected_shift _ _ (uses e1)); [by rewrite Hu1|].
           rewrite <- Hend1. by apply Hall.
    + destruct (step_frame h st a o1 st1 u c Hs Hframe) as [He1 Hnone].
      rewrite <- He1 in He. rewrite Hnone. simpl.
      by apply (IH st1 o2 st').
Qed.


(** What one call of [runCooldowns] does to the table and the timers:
    either no timer is created and the entry of the key, if any, keeps its
    timer and end and loses no use; or the key had no entry and gets one
    whose timer is due one cooldown from now. *)
Lemma runCooldowns_effect h m c st :
  let st' := (runCooldowns h m c st).2 in
  let u := author_id m in
  now st' = now st ∧
  (∀ u' cid', ¬ (u' = u ∧ cid' = cmd_id c) →
     entryOf st' u' cid' = entryOf st u' cid') ∧
  ((timers st' = timers st ∧ nextTimer st' = nextTimer st ∧
    match entryOf st u (cmd_id c) with
    | Some e => ∃ e', entryOf st' u (cmd_id c) = Some e' ∧ timer e' = timer e ∧
                      end_ e' = end_ e ∧ uses e ≤ uses e'
    | None => entryOf st' u (cmd_id c) = None
    end) ∨
   (entryOf st u (cmd_id c) = None ∧ isIgnored h m c = false ∧
    timeOf h c ≠ 0 ∧ nextTimer st' = S (nextTimer st) ∧
    timers st' =
      <[nextTimer st := {| due := now st + Js.timerDelay (timeOf h c);
                           t_user := u; t_cmd := cmd_id c |}]> (timers st) ∧
    ∃ e', entryOf st' u (cmd_id c) = Some e' ∧ timer e' = nextTimer st ∧
          end_ e' = createdTimestamp m + timeOf h c)).
Proof.
  intros st' u. subst st'.
  split; [|split].
  - unfold runCooldowns. destruct (isIgnored h m c); [done|].
    destruct (timeOf h c =? 0); [done|].
    destruct (inheritedAt _ _ _); [simpl; by rewrite now_ensureUser|].
    destruct (entryOf _ _ _) as [e|]; simpl.
    + destruct (ratelimit c <=? uses e); simpl;
        by rewrite ?now_setEntry, ?now_ensureUser.
    + destruct (ratelimit c <=? 0); simpl;
        by rewrite ?now_setEntry; simpl; rewrite ?now_ensureUser.
  - intros u' cid' Hne. apply runCooldowns_frame. intros [<- <-]. by apply Hne.
  - destruct (isIgnored h m c) eqn:Hig.
    { left. unfold runCooldowns. rewrite Hig. simpl.
      repeat split. destruct (entryOf st u (cmd_id c)) as [e|]; [|done].
      exists e. repeat split; lia || done. }
    destruct (Z.eqb_spec (timeOf h c) 0) as [Ht|Ht].
    { left. unfold runCooldowns. rewrite Hig, Ht. simpl.
      repeat split. destruct (entryOf st u (cmd_id c)) as [e|]; [|done].
      exists e. repeat split; lia || done. }
    destruct (entryOf st u (cmd_id c)) as [e|] eqn:He.
    + left. rewrite (runCooldowns_existing _ _ _ _ _ Hig Ht He).
      assert (Hobj : is_Some (cooldowns st !! u)).
      { unfold entryOf in He. destruct (cooldowns st !! u); [eauto|done]. }
      destruct Hobj as [obj Hobj].
      destruct (ratelimit c <=? uses e); simpl.
      * repeat split. rewrite entryOf_emit. fold u. rewrite He.
        exists e. repeat split; lia || done.
      * rewrite timers_setEntry, nextTimer_setEntry. repeat split.
        fold u. rewrite (entryOf_setEntry_eq _ _ _ _ _ Hobj).
        exists (incUses e). repeat split; simpl; lia || done.
    + destruct (inheritedAt (ensureUser u st) u (cmd_id c)) eqn:Hown.
      { left. unfold runCooldowns. rewrite Hig.
        destruct (Z.eqb_spec (timeOf h c) 0) as [|_]; [done|].
        fold u. rewrite Hown. simpl.
        rewrite timers_ensureUser, nextTimer_ensureUser, entryOf_ensureUser.
        by rewrite He. }
      right. pose proof (created_entry h m c st) as Hce.
      pose proof (runCooldowns_fresh _ _ _ _ Hig Ht He Hown) as Hrun.
      cbv zeta in Hce, Hrun. fold u in Hce, Hrun.
      remember (setEntry u (cmd_id c) _ _) as st0 eqn:Hst0 in Hce, Hrun.
      destruct Hce as ([obj Hobj] & He0 & _ & _ & Hnext & Htimers & _).
      rewrite Hrun. repeat split; try done.
      * destruct (ratelimit c <=? 0); simpl;
          by rewrite ?nextTimer_setEntry.
      * destruct (ratelimit c <=? 0); simpl;
          by rewrite ?timers_setEntry.
      * destruct (ratelimit c <=? 0); simpl.
        -- rewrite entryOf_emit, He0. eauto.
        -- rewrite (entryOf_setEntry_eq _ _ _ _ _ Hobj). eauto.
Qed.

Lemma timers_expire id cid st :
  timers (expire id cid st) =
    match entryOf st id cid with
    | Some e => delete (timer e) (timers st)
    | None => timers st
    end.
Proof.
  destruct (cooldowns st !! id) as [obj|] eqn:Hobj.
  - rewrite (expire_unfold _ _ _ _ Hobj). unfold entryOf. rewrite Hobj.
    by destruct (obj !! cid) as [[e|]|].
  - unfold expire, entryOf. by rewrite Hobj.
Qed.

Lemma nextTimer_expire id cid st : nextTimer (expire id cid st) = nextTimer st.
Proof.
  destruct (cooldowns st !! id) as [obj|] eqn:Hobj.
  - rewrite (expire_unfold _ _ _ _ Hobj).
    by destruct (obj !! cid) as [[e|]|].
  - unfold expire. by rewrite Hobj.
Qed.

Lemma now_expire id cid st : now (expire id cid st) = now st.
Proof.
  destruct (cooldowns st !! id) as [obj|] eqn:Hobj.
  - rewrite (expire_unfold _ _ _ _ Hobj).
    by destruct (obj !! cid) as [[e|]|].
  - unfold expire. by rewrite Hobj.
Qed.

Lemma wf_initial : wf initial.
Proof.
  split; intros t tm Hsome; unfold initial in Hsome; simpl in Hsome;
    by rewrite lookup_empty in Hsome.
Qed.

(** Every step keeps timers and entries in agreement. *)
Lemma step_wf h st a os st' : wf st → step h st a = Some (os, st') → wf st'.
Proof.
  intros [Hent Hlt] Hs. destruct a as [dt|t id cid|m c]; simpl in Hs.
  - destruct (0 <=? dt); [|done]. simplify_eq. by split.
  - destruct (timers st !! t) as [tm|] eqn:Htm; [|done].
    destruct (bool_decide _) eqn:Hkey; [|done].
    destruct (due tm <=? now st); [|done]. simpl in Hs. simplify_eq.
    apply bool_decide_eq_true_1 in Hkey as [Hu Hc].
    destruct (Hent t tm Htm) as (e & He & Het). rewrite Hu, Hc in He.
    assert (Htimers : timers (expire id cid (clearTimeout t st)) = delete t (timers st)).
    { rewrite timers_expire. change (entryOf (clearTimeout t st) id cid)
        with (entryOf st id cid). rewrite He, Het. simpl.
      apply map_eq. intros i. destruct (decide (i = t)) as [->|Hi].
      - by rewrite !lookup_delete_eq.
      - by rewrite !lookup_delete_ne. }
    split.
    + intros t' tm' Hsome. rewrite Htimers in Hsome.
      apply lookup_delete_Some in Hsome as [Hne Hsome].
      destruct (Hent t' tm' Hsome) as (e' & He' & Het').
      exists e'. split; [|done].
      rewrite expire_frame; [done|]. intros [Hu' Hc'].
      rewrite <- Hu', <- Hc' in He'. congruence.
    + intros t' tm' Hsome. rewrite Htimers in Hsome.
      apply lookup_delete_Some in Hsome as [Hne Hsome].
      rewrite nextTimer_expire. simpl. by eapply Hlt.
  - destruct (runCooldowns h m c st) as [b st1] eqn:Hr. simplify_eq.
    pose proof (runCooldowns_effect h m c st) as Heff. cbv zeta in Heff.
    rewrite Hr in Heff. simpl in Heff.
    destruct Heff as (_ & Hframe & [(Htm & Hnx & Hsame)|(He & _ & _ & Hnx & Htm & e' & He' & Het' & _)]).
    + split.
      * intros t tm Hsome. rewrite Htm in Hsome.
        destruct (Hent t tm Hsome) as (e & He & Het).
        destruct (decide (t_user tm = author_id m ∧ t_cmd tm = cmd_id c)) as [[Hu Hc]|Hn].
        -- rewrite Hu, Hc in *. rewrite He in Hsame.
           destruct Hsame as (e' & He' & Htimer & _). exists e'. split; congruence.
        -- exists e. split; [|done]. by rewrite Hframe.
      * intros t tm Hsome. rewrite Htm in Hsome. rewrite Hnx. by eapply Hlt.
    + split.
      * intros t tm Hsome. rewrite Htm in Hsome.
        apply lookup_insert_Some in Hsome as [[<- <-]|[Hne Hsome]].
        -- simpl. eauto.
        -- destruct (Hent t tm Hsome) as (e & He0 & Het).
           exists e. split; [|done]. rewrite Hframe; [done|].
           intros [Hu Hc]. rewrite Hu, Hc in He0. congruence.
      * intros t tm Hsome. rewrite Htm in Hsome. rewrite Hnx.
        apply lookup_insert_Some in Hsome as [[<- <-]|[Hne Hsome]]; [lia|].
        apply Hlt in Hsome. lia.
Qed.

Lemma run_wf h : ∀ acts st outs st',
  wf st → run h st acts = Some (outs, st') → wf st'.
Proof.
  induction acts as [|a acts IH]; intros st outs st' Hwf Hrun; simpl in Hrun.
  - by simplify_eq.
  - destruct (step h st a) as [[o1 st1]|] eqn:Hs; [|done].
    destruct (run h st1 acts) as [[o2 st2]|] eqn:Hr; [|done]. simplify_eq.
    eapply IH; [|done]. by eapply step_wf.
Qed.

(** A live entry stays live, with its timer and end and no use lost,
    across any step except the firing of its own timer, which needs the
    clock to have reached the timer's due time. *)
Lemma step_live h st a os st' u cid e tm :
  wf st → live st u cid e tm → step h st a = Some (os, st') →
  (∃ e', live st' u cid e' tm ∧ timer e' = timer e ∧ end_ e' = end_ e ∧
         uses e ≤ uses e' ∧ now st ≤ now st') ∨
  (a = Fire (timer e) u cid ∧ due tm ≤ now st ∧ now st' = now st).
Proof.
  intros [Hent Hlt] (He & Htm & Hku & Hkc) Hs.
  destruct a as [dt|t id cid'|m c]; simpl in Hs.
  - destruct (Z.leb_spec 0 dt); [|done]. simplify_eq. left.
    exists e. repeat split; simpl; lia || done.
  - destruct (timers st !! t) as [tm'|] eqn:Htm'; [|done].
    destruct (bool_decide _) eqn:Hkey; [|done].
    destruct (Z.leb_spec (due tm') (now st)); [|done]. simpl in Hs. simplify_eq.
    apply bool_decide_eq_true_1 in Hkey as [Hu Hc]. subst id cid'.
    destruct (Hent t tm' Htm') as (e1 & He1 & Het1).
    destruct (decide (t_user tm' = t_user tm ∧ t_cmd tm' = t_cmd tm)) as [[Hu' Hc']|Hn].
    + right. rewrite Hu', Hc' in He1.
      assert (e1 = e) by congruence. subst e1.
      rewrite now_expire. simpl. repeat split; try done.
      * congruence.
      * rewrite <- Het1, Htm in Htm'. by simplify_eq.
    + left. exists e. rewrite now_expire. simpl.
      repeat split; try lia; try done.
      * rewrite expire_frame; [exact He|]. intros [? ?]. by apply Hn.
      * rewrite timers_expire.
        change (entryOf (clearTimeout t st) (t_user tm') (t_cmd tm'))
          with (entryOf st (t_user tm') (t_cmd tm')).
        rewrite He1. simpl.
        assert (timer e ≠ t).
        { intros Heq. rewrite Heq, Htm' in Htm. simplify_eq. by apply Hn. }
        rewrite Het1. by rewrite !lookup_delete_ne.
  - destruct (runCooldowns h m c st) as [b st1] eqn:Hr. simplify_eq. left.
    pose proof (runCooldowns_effect h m c st) as Heff. cbv zeta in Heff.
    rewrite Hr in Heff. simpl in Heff.
    destruct Heff as (Hnow & Hframe & [(Htms & Hnx & Hsame)|(He0 & _ & _ & Hnx & Htms & _)]).
    + destruct (decide (t_user tm = author_id m ∧ t_cmd tm = cmd_id c)) as [[Hu Hc]|Hn].
      * rewrite <- Hu, <- Hc, He in Hsame.
        destruct Hsame as (e' & He' & Ht' & Hend' & Huses').
        exists e'. unfold live. rewrite Htms, Ht'. repeat split; lia || done.
      * exists e. unfold live. rewrite Htms, Hframe by done.
        repeat split; lia || done.
    + assert (Hn : ¬ (t_user tm = author_id m ∧ t_cmd tm = cmd_id c)).
      { intros [Hu Hc]. rewrite <- Hu, <- Hc in He0. congruence. }
      exists e. unfold live. rewrite Htms, Hframe by done.
      repeat split; try lia; try done.
      rewrite lookup_insert_ne; [done|]. apply Hlt in Htm. lia.
Qed.

Lemma run_now_mono h : ∀ acts st outs st',
  run h st acts = Some (outs, st') → now st ≤ now st'.
Proof.
  induction acts as [|a acts IH]; intros st outs st' Hrun; simpl in Hrun.
  - simplify_eq. lia.
  - destruct (step h st a) as [[o1 st1]|] eqn:Hs; [|done].
    destruct (run h st1 acts) as [[o2 st2]|] eqn:Hr; [|done]. simplify_eq.
    apply IH in Hr. enough (now st ≤ now st1) by lia.
    destruct a as [dt|t id cid|m c]; simpl in Hs.
    + destruct (Z.leb_spec 0 dt); [|done]. simplify_eq. simpl. lia.
    + destruct (timers st !! t); [|done]. destruct (_ && _); [|done].
      simplify_eq. rewrite now_expire. simpl. lia.
    + destruct (runCooldowns h m c st) as [b st1'] eqn:Hrc. simplify_eq.
      pose proof (runCooldowns_effect h m c st) as Heff. cbv zeta in Heff.
      rewrite Hrc in Heff. simpl in Heff. lia.
Qed.

Lemma run_live h u cid tm : ∀ acts st e outs st',
  wf st → live st u cid e tm → run h st acts = Some (outs, st') →
  (∃ e', live st' u cid e' tm ∧ timer e' = timer e ∧ end_ e' = end_ e ∧
         uses e ≤ uses e') ∨
  (due tm ≤ now st' ∧ Fire (timer e) u cid ∈ acts).
Proof.
  induction acts as [|a acts IH]; intros st e outs st' Hwf Hlive Hrun;
    simpl in Hrun.
  - simplify_eq. left. exists e. split; [exact Hlive|]. repeat split; lia || done.
  - destruct (step h st a) as [[o1 st1]|] eqn:Hs; [|done].
    destruct (run h st1 acts) as [[o2 st2]|] eqn:Hr; [|done]. simplify_eq.
    destruct (step_live h st a o1 st1 u cid e tm Hwf Hlive Hs)
      as [(e1 & Hlive1 & Ht1 & Hend1 & Hu1 & _)|(-> & Hdue & Hnow)].
    + destruct (IH st1 e1 o2 st' (step_wf _ _ _ _ _ Hwf Hs) Hlive1 Hr)
        as [(e' & Hlive' & Ht' & Hend' & Hu')|[Hdue Hin]].
      * left. exists e'. split; [exact Hlive'|]. repeat split; congruence || lia.
      * right. split; [done|]. rewrite <- Ht1. by apply list_elem_of_further.
    + right. split; [|apply list_elem_of_here].
      apply run_now_mono in Hr. lia.
Qed.


Lemma timerDelay_in_range t : 1 ≤ t ≤ Js.TIMEOUT_MAX → Js.timerDelay t = t.
Proof.
  intros [H1 H2]. unfold Js.timerDelay.
  destruct (Z.leb_spec 1 t); [|lia]. destruct (Z.leb_spec t Js.TIMEOUT_MAX); [done|lia].
Qed.

(** C2 (as amended). For a command whose id is not a name every object
    inherits and a cooldown from 1 ms to the longest delay of the host's
    timers: the entry created by a first use stays the stored entry, with
    its end unchanged, its timer pending and due one full cooldown after
    the creating call, through every later call, whoever makes it; it is
    cleared only by the firing of a timer of its key, and then the clock
    has passed the creation time plus the cooldown. *)
Theorem entry_kept_until_timer h m c st acts outs st' :
  wf st →
  isIgnored h m c = false →
  1 ≤ timeOf h c ≤ Js.TIMEOUT_MAX →
  Js.inherited (cmd_id c) = false →
  entryOf st (author_id m) (cmd_id c) = None →
  run h (runCooldowns h m c st).2 acts = Some (outs, st') →
  (∃ e tm, live st' (author_id m) (cmd_id c) e tm ∧
           end_ e = createdTimestamp m + timeOf h c ∧
           due tm = now st + timeOf h c) ∨
  (now st + timeOf h c ≤ now st' ∧
   ∃ t, Fire t (author_id m) (cmd_id c) ∈ acts).
Proof.
  intros Hwf Hig Hrange Hplain He Hrun.
  assert (Ht : timeOf h c ≠ 0) by lia.
  destruct (step_first h st m c Hig Ht He (inheritedAt_plain _ _ _ Hplain))
    as (o & st1 & e1 & Hs & _ & _ & _ & He1 & Hend1 & _).
  assert (Hst1 : (runCooldowns h m c st).2 = st1).
  { simpl in Hs. destruct (runCooldowns h m c st). by simplify_eq. }
  rewrite Hst1 in Hrun.
  pose proof (runCooldowns_effect h m c st) as Heff. cbv zeta in Heff.
  rewrite Hst1 in Heff.
  destruct Heff as (_ & _ & [(_ & _ & Hnone)|(_ & _ & _ & Hnx & Htm & e' & He' & Het' & _)]).
  { rewrite He in Hnone. congruence. }
  assert (e' = e1) by congruence. subst e'.
  rewrite (timerDelay_in_range _ Hrange) in Htm.
  set (tm := {| due := now st + timeOf h c; t_user := author_id m;
                t_cmd := cmd_id c |}) in *.
  assert (Hlive : live st1 (author_id m) (cmd_id c) e1 tm).
  { repeat split; try done. rewrite Htm, Het'. apply lookup_insert_eq. }
  destruct (run_live h _ _ tm acts st1 e1 outs st'
              (step_wf _ _ _ _ _ Hwf Hs) Hlive Hrun)
    as [(e' & Hlive' & _ & Hend' & _)|[Hdue Hin]].
  - left. exists e', tm. repeat split; try apply Hlive'. congruence.
  - right. split; [done|]. eauto.
Qed.

(** A use never destroys the entry: after a call of [runCooldowns] the
    entry that was stored is still stored, with the same timer and end and
    at least as many uses. *)
Lemma entry_survives_call h m c st u cid e :
  entryOf st u cid = Some e →
  ∃ e', entryOf (runCooldowns h m c st).2 u cid = Some e' ∧
        timer e' = timer e ∧ end_ e' = end_ e ∧ uses e ≤ uses e'.
Proof.
  intros He. pose proof (runCooldowns_effect h m c st) as Heff.
  cbv zeta in Heff.
  destruct Heff as (_ & Hframe & Hcase).
  destruct (decide (u = author_id m ∧ cid = cmd_id c)) as [[-> ->]|Hn].
  - destruct Hcase as [(_ & _ & Hsame)|(He0 & _)]; [|congruence].
    by rewrite He in Hsame.
  - exists e. rewrite Hframe by done. repeat split; lia || done.
Qed.


Import Samples.

(** The window theorem at the [burst] trace: the third use of [u] is the
    blocked one. *)
Lemma runCooldowns_ratelimit_window_burst :
  Js.inherited (cmd_id cmdA) = false ∧
  timeOf h1 cmdA ≠ 0 ∧
  entryOf initial (Some "u") "a" = None ∧
  Forall (in_window h1 (Some "u") cmdA) burst ∧
  run h1 initial burst = Some (ran h1 burst) ∧
  ∀ i o, List.filter (mine (Some "u") "a") (ran h1 burst).1 !! i = Some o →
         expected cmdA 0 1005 i o.
Proof.
  assert (H0 : Js.inherited (cmd_id cmdA) = false) by (vm_compute; reflexivity).
  assert (H1 : timeOf h1 cmdA ≠ 0) by (vm_compute; discriminate).
  assert (H2 : entryOf initial (Some "u") "a" = None) by reflexivity.
  assert (H3 : Forall (in_window h1 (Some "u") cmdA) burst).
  { unfold burst. repeat constructor; simpl; intros; try done. }
  assert (H4 : run h1 initial burst = Some (ran h1 burst)) by (vm_compute; reflexivity).
  repeat (split; [assumption|]).
  pose proof (runCooldowns_ratelimit_window h1 (Some "u") cmdA burst initial
                (ran h1 burst).1 (ran h1 burst).2 H0 H1 H2 H3) as H.
  destruct (List.filter (mine (Some "u") (cmd_id cmdA)) (ran h1 burst).1)
    as [|o0 rest] eqn:Hf.
  - vm_compute in Hf. discriminate.
  - change (cmd_id cmdA) with "a" in Hf. rewrite Hf.
    assert (Ho : createdTimestamp (o_msg o0) = 5).
    { vm_compute in Hf. by injection Hf as <- _. }
    destruct (ran h1 burst) as [outs st'] eqn:Hran. simpl in H.
    rewrite Ho in H. apply H. exact H4.
Defined.

(** A call for a command whose id the user's object inherits and does not
    own: nothing is stored or emitted and the call returns false. *)
Lemma runCooldowns_inherited h m c st :
  isIgnored h m c = false → timeOf h c ≠ 0 →
  inheritedAt (ensureUser (author_id m) st) (author_id m) (cmd_id c) = true →
  runCooldowns h m c st = (false, ensureUser (author_id m) st).
Proof.
  intros Hig Ht Hin. unfold runCooldowns. rewrite Hig.
  destruct (Z.eqb_spec (timeOf h c) 0) as [|_]; [done|]. by rewrite Hin.
Qed.

(** C1. The claim fails for a command whose id is a name every object
    inherits.  Command "constructor" allows one use per 1000 ms; user [u]
    uses it three times within 20 ms.  No call is blocked and none emits
    a cooldown event: the user's object is made and stays empty, and no
    timer is set. *)
Theorem inherited_id_never_cools_down :
  map (fun o => (o_blocked o, o_emitted o)) (ran h2 thrice).1 =
    [(false, []); (false, []); (false, [])] ∧
  cooldowns (ran h2 thrice).2 = {[Some "u" := ∅]} ∧
  timers (ran h2 thrice).2 = ∅.
Proof. repeat split; vm_compute; reflexivity. Qed.

(** One use per 1000 ms, two uses 100 ms apart: the first is allowed, the
    second is blocked with 900 ms remaining. *)
Example second_use_reports_900 :
  map (fun o => (o_blocked o, o_emitted o)) (ran h1 twice).1 =
    [(false, []);
     (true, [Emit (COOLDOWN (mkMsg "2" "u" "!once" 100) "once" 900)])].
Proof. vm_compute. reflexivity. Qed.

(** C2, the claim as stated fails: in [late_use] the entry of user [u] is
    cleared at 1000 ms by the timer of the first use, 100 ms after the
    user's second counted use. *)
Lemma reset_after_recent_use : ¬ reset_needs_quiet_cooldown.
Proof.
  intros Hclaim.
  assert (Hrun : run h1 initial late_use = Some (ran h1 late_use))
    by (vm_compute; reflexivity).
  destruct (ran h1 late_use) as [outs st'] eqn:Hran.
  destruct (outs !! 1%nat) as [o|] eqn:Ho; [|vm_compute in Hran; by simplify_eq].
  assert (Hat : o_at o = 900 ∧ now st' = 1000 ∧ author_id (o_msg o) = Some "u" ∧
                o_cmd o = cmdA ∧ o_blocked o = false ∧
                entryOf st' (Some "u") "a" = None).
  { vm_compute in Hran. injection Hran as <- <-.
    simpl in Ho. injection Ho as <-. repeat split. }
  destruct Hat as (Hat & Hnow & Hu & Hc & Hb & Hcleared).
  pose proof (Hclaim h1 late_use outs st' (Some "u") cmdA o Hrun
                (list_elem_of_lookup_2 _ _ _ Ho) Hu Hc Hb) as H.
  rewrite Hat, Hnow in H.
  assert (Hig : isIgnored h1 (o_msg o) cmdA = false).
  { vm_compute in Hran. injection Hran as <- <-.
    simpl in Ho. by injection Ho as <-. }
  specialize (H Hig). vm_compute in H.
  apply H; [discriminate|exact Hcleared|reflexivity].
Qed.

(** The entry theorem at the [late_use] trace. *)
Lemma entry_kept_until_timer_late_use :
  wf initial ∧
  isIgnored h1 (mkMsg "1" "u" "!a" 0) cmdA = false ∧
  1 ≤ timeOf h1 cmdA ≤ Js.TIMEOUT_MAX ∧
  Js.inherited (cmd_id cmdA) = false ∧
  entryOf initial (Some "u") "a" = None ∧
  ((∃ e tm, live (ranFrom h1 first_used (tail late_use)).2 (Some "u") "a" e tm ∧
            end_ e = 1000 ∧ due tm = 1000) ∨
   (1000 ≤ now (ranFrom h1 first_used (tail late_use)).2 ∧
    ∃ t, Fire t (Some "u") "a" ∈ tail late_use)).
Proof.
  assert (H1 : isIgnored h1 (mkMsg "1" "u" "!a" 0) cmdA = false) by reflexivity.
  assert (H2 : 1 ≤ timeOf h1 cmdA ≤ Js.TIMEOUT_MAX) by (vm_compute; split; discriminate).
  assert (H3 : entryOf initial (Some "u") "a" = None) by reflexivity.
  assert (H4 : Js.inherited (cmd_id cmdA) = false) by (vm_compute; reflexivity).
  repeat (split; [first [assumption | apply wf_initial]|]).
  apply (entry_kept_until_timer h1 (mkMsg "1" "u" "!a" 0) cmdA initial
           (tail late_use) (ranFrom h1 first_used (tail late_use)).1
           (ranFrom h1 first_used (tail late_use)).2
           wf_initial H1 H2 H4 H3).
  vm_compute. reflexivity.
Defined.

End CooldownFacts.

(** ** Promises awaited together *)

Module PromiseFacts.
Import Promise.

Section Mapped.
Context {X A : Type} (f : X → Settling A).

Lemma firstRejection_None l :
  firstRejection (map f l) = None ↔ ∀ x, x ∈ l → ∃ a, result (f x) = Returns a.
Proof.
  induction l as [|x l IH]; cbn [map firstRejection].
  - split; [|done]. intros _ x Hx. by apply elem_of_nil in Hx.
  - destruct (result (f x)) as [a|e] eqn:Hx.
    + rewrite IH. split.
      * intros H y Hy. apply elem_of_cons in Hy as [->|Hy]; [eauto|by apply H].
      * intros H y Hy. apply H. by right.
    + split.
      * by destruct (firstRejection (map f l)) as [[t e']|]; [destruct (_ <=? _)%nat|].
      * intros H. destruct (H x) as [a Ha]; [by left|]. congruence.
Qed.

(** The first rejection is that of a promise that rejects before those
    ahead of it in the list and not after those behind it. *)
Lemma firstRejection_Some l t e :
  firstRejection (map f l) = Some (t, e) ↔
  ∃ l1 x l2, l = (l1 ++ x :: l2)%list ∧
    result (f x) = Throws e ∧ instant (f x) = t ∧
    (∀ y, y ∈ l1 → (∃ e', result (f y) = Throws e') → (t < instant (f y))%nat) ∧
    (∀ y, y ∈ l2 → (∃ e', result (f y) = Throws e') → (t ≤ instant (f y))%nat).
Proof.
  revert t e. induction l as [|x l IH]; intros t e; cbn [map firstRejection].
  - split; [done|]. intros (l1 & y & l2 & H & _). by destruct l1.
  - destruct (result (f x)) as [a|e0] eqn:Hx.
    + rewrite IH. split.
      * intros (l1 & y & l2 & -> & Hy & Ht & H1 & H2). exists (x :: l1), y, l2.
        repeat split; try done. intros z Hz Hrej.
        apply elem_of_cons in Hz as [->|Hz]; [|by apply H1].
        destruct Hrej as [e' He']. congruence.
      * intros (l1 & y & l2 & Heq & Hy & Ht & H1 & H2). destruct l1 as [|z l1].
        -- simpl in Heq. injection Heq as -> Heq. congruence.
        -- simpl in Heq. injection Heq as -> ->. exists l1, y, l2.
           repeat split; try done. intros w Hw. apply H1. by right.
    + destruct (firstRejection (map f l)) as [[t' e']|] eqn:Hrest.
      * destruct (IH t' e') as [Hfwd _].
        destruct (Hfwd eq_refl) as (l1 & y & l2 & -> & Hy & Ht & H1 & H2).
        assert (Hlater : ∀ z, z ∈ (l1 ++ y :: l2)%list →
                  (∃ e1, result (f z) = Throws e1) → (t' ≤ instant (f z))%nat).
        { intros z Hz Hrej. apply elem_of_app in Hz as [Hz|Hz].
          - specialize (H1 z Hz Hrej). lia.
          - apply elem_of_cons in Hz as [->|Hz]; [lia|by apply H2]. }
        destruct (Nat.leb_spec (instant (f x)) t') as [Hle|Hgt].
        -- split.
           ++ intros H. injection H as <- <-. exists [], x, (l1 ++ y :: l2)%list.
              repeat split; try done.
              ** intros z Hz. by apply elem_of_nil in Hz.
              ** intros z Hz Hrej. specialize (Hlater z Hz Hrej). lia.
           ++ intros (k1 & z & k2 & Heq & Hz & Htz & K1 & K2).
              destruct k1 as [|w k1].
              ** simpl in Heq. injection Heq as -> Heq. congruence.
              ** simpl in Heq. injection Heq as <- Heq.
                 assert (Hx' : (t < instant (f x))%nat) by (apply K1; [by left|eauto]).
                 assert (Hzin : z ∈ (l1 ++ y :: l2)%list).
                 { rewrite Heq. apply elem_of_app. right. by left. }
                 specialize (Hlater z Hzin (ex_intro _ e Hz)). lia.
        -- split.
           ++ intros H. injection H as <- <-. exists (x :: l1), y, l2.
              repeat split; try done. intros z Hz Hrej.
              apply elem_of_cons in Hz as [->|Hz]; [lia|by apply H1].
           ++ intros (k1 & z & k2 & Heq & Hz & Htz & K1 & K2).
              destruct k1 as [|w k1].
              ** simpl in Heq. injection Heq as <- <-.
                 assert (Hyin : y ∈ (l1 ++ y :: l2)%list).
                 { apply elem_of_app. right. by left. }
                 specialize (K2 y Hyin (ex_intro _ e' Hy)). lia.
              ** simpl in Heq. injection Heq as <- Heq.
                 apply (IH t e). exists k1, z, k2. repeat split; try done.
                 intros v Hv. apply K1. by right.
      * pose proof (proj1 (firstRejection_None l) Hrest) as Hnone.
        clear Hrest. rename Hnone into Hrest. split.
        -- intros H. injection H as <- <-. exists [], x, l.
           repeat split; try done.
           ++ intros z Hz. by apply elem_of_nil in Hz.
           ++ intros z Hz [e1 He1]. destruct (Hrest z Hz) as [a Ha]. congruence.
        -- intros (k1 & z & k2 & Heq & Hz & Htz & K1 & K2).
           destruct k1 as [|w k1].
           ++ simpl in Heq. injection Heq as -> Heq. congruence.
           ++ simpl in Heq. injection Heq as -> ->.
              destruct (Hrest z) as [a Ha]; [|congruence].
              apply elem_of_app. right. by left.
Qed.

Lemma lastInstant_ge l x : x ∈ l → (instant (f x) ≤ lastInstant (map f l))%nat.
Proof.
  unfold lastInstant. induction l as [|y l IH]; intros Hx.
  - by apply elem_of_nil in Hx.
  - cbn [map foldr]. apply elem_of_cons in Hx as [->|Hx]; [lia|].
    specialize (IH Hx). lia.
Qed.

(** With no rejection, [Promise.all] is fulfilled when the last promise
    is. *)
Lemma all_fulfilled l :
  (∀ x, x ∈ l → ∃ a, result (f x) = Returns a) →
  all (map f l) =
    {| result := Returns (values (map f l)); instant := lastInstant (map f l) |}.
Proof. intros H. unfold all. by rewrite (proj2 (firstRejection_None l) H). Qed.

Lemma all_rejected l t e :
  firstRejection (map f l) = Some (t, e) →
  all (map f l) = {| result := Throws e; instant := t |}.
Proof. intros H. unfold all. by rewrite H. Qed.

End Mapped.

End PromiseFacts.

(** ** Inhibitor tests *)

Module InhibitorFacts.
Import Inhibitors.

Section Sorting.
Context {A : Type} (cmp : A → A → Z).

Lemma insertBy_head x l :
  head (Js.insertBy cmp x l) =
    match head l with
    | None => Some x
    | Some y => if cmp x y <=? 0 then Some x else Some y
    end.
Proof. destruct l as [|y r]; simpl; [done|]. by destruct (cmp x y <=? 0). Qed.

Lemma sortBy_nil_inv l : Js.sortBy cmp l = [] → l = [].
Proof.
  destruct l as [|x r]; [done|]. simpl. intros H.
  pose proof (insertBy_head x (Js.sortBy cmp r)) as Hh. rewrite H in Hh.
  simpl in Hh. destruct (head (Js.sortBy cmp r)); [|done].
  by destruct (cmp x a <=? 0).
Qed.
End Sorting.

(** The head of the sorted list is the first inhibitor of highest
    priority of the unsorted one. *)
Lemma sorted_head_first_highest : ∀ l i,
  head (Js.sortBy byPriority l) = Some i → first_highest l i.
Proof.
  induction l as [|x l IH]; intros i Hi; simpl in Hi; [done|].
  rewrite insertBy_head in Hi.
  destruct (head (Js.sortBy byPriority l)) as [y|] eqn:Hy.
  - destruct (IH y eq_refl) as (l1 & l2 & -> & Hlt & Hle).
    unfold byPriority in Hi.
    destruct (Z.leb_spec (priority y - priority x) 0); simplify_eq.
    + exists [], (l1 ++ y :: l2)%list. repeat split; [set_solver|].
      intros j Hj. apply elem_of_app in Hj as [Hj|Hj].
      * apply Hlt in Hj. lia.
      * apply elem_of_cons in Hj as [->|Hj]; [lia|]. apply Hle in Hj. lia.
    + exists (x :: l1), l2. repeat split; [|done].
      intros j Hj. apply elem_of_cons in Hj as [->|Hj]; [lia|]. by apply Hlt.
  - simplify_eq. destruct (Js.sortBy byPriority l) eqn:Hs; [|done].
    apply sortBy_nil_inv in Hs as ->.
    exists [], []. repeat split; set_solver.
Qed.

Lemma values_probe m c : ∀ l,
  omap (fun r => r) (Promise.values (map (probe m c) l)) = List.filter (blocks m c) l.
Proof.
  induction l as [|x l IH]; [done|]. cbn [map Promise.values List.filter].
  unfold blocks at 1, probe at 1. cbn [Promise.result].
  destruct (inh_exec x m c) as [[|]|e]; rewrite <- IH; reflexivity.
Qed.

Lemma settles_probe modules type m c :
  settles modules type m c →
  ∀ i, i ∈ ofType modules type →
       ∃ a, Promise.result (probe m c i) = Returns a.
Proof.
  intros Hsettle i Hi. apply list_elem_of_In, List.filter_In in Hi as [Hi Hty].
  destruct (Hsettle i) as [b Hb]; [by apply list_elem_of_In|by apply String.eqb_eq|].
  cbn. rewrite Hb. destruct b; eauto.
Qed.

Lemma run_unfold modules type m c :
  ofType modules type ≠ [] →
  run modules type m c =
    let awaited := Promise.all (map (probe m c) (ofType modules type)) in
    {| called := map inh_id (ofType modules type);
       settled :=
         {| Promise.result :=
              match Promise.result awaited with
              | Throws e => Throws e
              | Returns results =>
                  match Js.sortBy byPriority (omap (fun r => r) results) with
                  | [] => Returns None
                  | first :: _ => Returns (Some (reason first))
                  end
              end;
            Promise.instant := Promise.instant awaited |} |}.
Proof.
  unfold run, ofType. intros Hne. destruct modules as [|x l] eqn:Hm; [done|].
  rewrite <- Hm in *. clear Hm.
  by destruct (List.filter _ modules) as [|y r] eqn:Hf.
Qed.

Lemma run_none modules type m c :
  ofType modules type = [] →
  run modules type m c =
    {| called := [];
       settled := {| Promise.result := Returns None; Promise.instant := 0%nat |} |}.
Proof.
  unfold run, ofType. intros Hnil. destruct modules as [|x l] eqn:Hm; [done|].
  rewrite <- Hm in *. by rewrite Hnil.
Qed.

Lemma filter_filter_blocking modules type m c :
  List.filter (blocks m c) (ofType modules type) = blocking modules type m c.
Proof.
  unfold blocking, ofType. induction modules as [|x l IH]; simpl; [done|].
  destruct (String.eqb (inh_type x) type); simpl; [|done].
  by rewrite IH.
Qed.

(** When the inhibitors of the stage settle, [test] gives the reason at
    the head of the blocking ones sorted by priority. *)
Lemma test_settled modules type m c :
  settles modules type m c →
  test modules type m c =
    match Js.sortBy byPriority (blocking modules type m c) with
    | [] => Returns None
    | first :: _ => Returns (Some (reason first))
    end.
Proof.
  intros Hsettle. unfold test.
  rewrite <- filter_filter_blocking.
  destruct (ofType modules type) as [|y r] eqn:Hof.
  - by rewrite (run_none _ _ _ _ Hof).
  - rewrite run_unfold by (by rewrite Hof). cbv zeta. cbn [settled Promise.result].
    rewrite (PromiseFacts.all_fulfilled (probe m c)) by (by apply settles_probe).
    cbn [Promise.result]. by rewrite values_probe, Hof.
Qed.

(** C7 (as amended). For every stage and message, [test] calls [exec] of
    every loaded inhibitor of the stage, in loading order.  When none of
    them throws or rejects, it awaits them all: it does not resolve before
    each has settled, and it returns null when none of them blocks, and
    otherwise the reason of the blocking inhibitor of highest priority,
    the first loaded one among equals.  When one of them throws or
    rejects, [test] rejects. *)
Theorem test_highest_priority modules type m c :
  called (run modules type m c) = map inh_id (ofType modules type) ∧
  (settles modules type m c →
   (∀ i, i ∈ ofType modules type →
      (inh_settles i m c ≤ Promise.instant (settled (run modules type m c)))%nat) ∧
   match blocking modules type m c with
   | [] => test modules type m c = Returns None
   | _ :: _ =>
       ∃ i, first_highest (blocking modules type m c) i ∧
            test modules type m c = Returns (Some (reason i))
   end) ∧
  ((∃ i, i ∈ ofType modules type ∧ fails m c i) →
   ∃ e, test modules type m c = Throws e).
Proof.
  split; [|split].
  - destruct (ofType modules type) as [|y r] eqn:Hof.
    + by rewrite (run_none _ _ _ _ Hof).
    + rewrite run_unfold by (by rewrite Hof). by rewrite Hof.
  - intros Hsettle. split.
    + intros i Hi. rewrite run_unfold by (intros Hnil; rewrite Hnil in Hi;
        by apply elem_of_nil in Hi).
      cbv zeta. cbn [settled Promise.instant].
      rewrite (PromiseFacts.all_fulfilled (probe m c)) by (by apply settles_probe).
      cbn [Promise.instant].
      exact (PromiseFacts.lastInstant_ge (probe m c) _ i Hi).
    + rewrite (test_settled _ _ _ _ Hsettle).
      destruct (Js.sortBy byPriority (blocking modules type m c))
        as [|first rest] eqn:Hsort.
      * apply sortBy_nil_inv in Hsort. by rewrite Hsort.
      * assert (Hfh : first_highest (blocking modules type m c) first).
        { apply sorted_head_first_highest. by rewrite Hsort. }
        destruct (blocking modules type m c) as [|z zs] eqn:Hb.
        -- destruct Hfh as (l1 & l2 & Hnil & _). by destruct l1.
        -- eauto.
  - intros (i & Hi & e0 & He0). unfold test.
    rewrite run_unfold by (intros Hnil; rewrite Hnil in Hi; by apply elem_of_nil in Hi).
    cbv zeta. cbn [settled Promise.result].
    destruct (Promise.firstRejection (map (probe m c) (ofType modules type)))
      as [[t e]|] eqn:Hfirst.
    + rewrite (PromiseFacts.all_rejected _ _ _ _ Hfirst). eauto.
    + pose proof (proj1 (PromiseFacts.firstRejection_None (probe m c) _) Hfirst)
        as Hnone.
      destruct (Hnone i Hi) as [a Ha]. cbn in Ha. rewrite He0 in Ha. done.
Qed.

(** The test theorem at the [loaded] inhibitors: "first" wins over
    "second" (same priority, loaded later) and over "low".  And at
    [strict], which blocks, with [broken], which throws: [test]
    rejects. *)
Lemma test_highest_priority_loaded :
  settles InhibitorSamples.loaded "post" (Samples.mkMsg "1" "u" "!a" 0) None ∧
  called (run InhibitorSamples.loaded "post" (Samples.mkMsg "1" "u" "!a" 0) None) =
    ["low"; "quiet"; "first"; "second"] ∧
  (∃ i, first_highest
          (blocking InhibitorSamples.loaded "post" (Samples.mkMsg "1" "u" "!a" 0) None) i ∧
        test InhibitorSamples.loaded "post" (Samples.mkMsg "1" "u" "!a" 0) None =
          Returns (Some (reason i))) ∧
  fails (Samples.mkMsg "1" "u" "!a" 0) None InhibitorMoreSamples.broken ∧
  ∃ e, test [InhibitorMoreSamples.strict; InhibitorMoreSamples.broken] "post"
         (Samples.mkMsg "1" "u" "!a" 0) None = Throws e.
Proof.
  assert (H : settles InhibitorSamples.loaded "post"
                (Samples.mkMsg "1" "u" "!a" 0) None).
  { intros i Hi _. unfold InhibitorSamples.loaded in Hi.
    repeat (apply elem_of_cons in Hi as [->|Hi]); simpl; eauto.
    by apply elem_of_nil in Hi. }
  assert (Hf : fails (Samples.mkMsg "1" "u" "!a" 0) None InhibitorMoreSamples.broken)
    by (by eexists).
  split; [exact H|].
  destruct (test_highest_priority InhibitorSamples.loaded "post"
              (Samples.mkMsg "1" "u" "!a" 0) None) as (Hcalled & Hsettled & _).
  split; [exact Hcalled|]. split; [exact (proj2 (Hsettled H))|].
  split; [exact Hf|].
  apply (proj2 (proj2 (test_highest_priority
                         [InhibitorMoreSamples.strict; InhibitorMoreSamples.broken]
                         "post" (Samples.mkMsg "1" "u" "!a" 0) None))).
  exists InhibitorMoreSamples.broken. split; [|exact Hf].
  apply list_elem_of_further, list_elem_of_here.
Defined.

Example test_loaded_reason :
  test InhibitorSamples.loaded "post" (Samples.mkMsg "1" "u" "!a" 0) None =
    Returns (Some "first").
Proof. reflexivity. Qed.

(** C7, the claim as stated fails: of the post inhibitors [strict], which
    blocks, and [broken], which throws, [strict] is the blocking one of
    highest priority, and [test] rejects with the error of [broken]
    instead of returning the reason of [strict]. *)
Lemma thrower_hides_reason : ¬ test_returns_highest_reason.
Proof.
  intros Hclaim.
  specialize (Hclaim [InhibitorMoreSamples.strict; InhibitorMoreSamples.broken]
                "post" (Samples.mkMsg "1" "u" "!a" 0) None).
  cbn in Hclaim. destruct Hclaim as (i & _ & Htest). discriminate Htest.
Qed.

End InhibitorFacts.

(** ** Prefix resolution *)

Module PrefixFacts.
Import Prefix.

Section Membership.
Context {A : Type} (cmp : A → A → Z).


Lemma elem_of_insertBy z x l : z ∈ Js.insertBy cmp x l ↔ z = x ∨ z ∈ l.
Proof.
  induction l as [|y r IH]; simpl.
  - by rewrite !elem_of_cons.
  - destruct (cmp x y <=? 0); [by rewrite !elem_of_cons|].
    rewrite !elem_of_cons, IH. tauto.
Qed.

Lemma elem_of_sortBy z l : z ∈ Js.sortBy cmp l ↔ z ∈ l.
Proof.
  induction l as [|x r IH]; simpl; [done|].
  rewrite elem_of_insertBy, elem_of_cons, IH. done.
Qed.
End Membership.

Section InsertionSort.
Context {A : Type} (cmp : A → A → Z) (R : A → A → Prop).
Hypothesis R_trans : ∀ a b c, R a b → R b c → R a c.
Hypothesis cmp_le : ∀ a b, cmp a b ≤ 0 → R a b.
Hypothesis cmp_gt : ∀ a b, 0 < cmp a b → R b a.


End InsertionSort.











Import Samples PrefixSamples.



End PrefixFacts.

(** ** Dispatch *)

Module DispatchFacts.
Import Dispatch DispatchInv.

Lemma tryBlock_parsed h message content c ignore st st1 args :
  gates h message (Some c) ignore st = (None, st1) →
  before c message = Returns tt →
  parse c message content = Returns args →
  tryBlock h message content (Some c) ignore st =
    dispatchArgs h message c ignore args st1.
Proof. intros Hg Hb Hp. unfold tryBlock. by rewrite Hg, Hb, Hp. Qed.

(** An error [handleDirectCommand] rejects with passes through [handle]
    when nothing listens to the error event. *)
Lemma handleWith_rethrows direct h message st st1 st3 c content' st4 e :
  errorListeners h = 0%nat →
  runAllTypeInhibitors h message false st = (Returns false, st1) →
  runPreTypeInhibitors h message
    (if commandUtil h
     then with_commandUtils st1 ({[msg_id message]} ∪ commandUtils st1)
     else st1) = (Returns false, st3) →
  Prefix.p_command (Prefix.parseCommand h message) = Some c →
  Prefix.p_content (Prefix.parseCommand h message) = Some content' →
  slashOnly c = false →
  direct message content' (Some c) false st3 = Some (Throws e, st4) →
  handleWith direct h message st = Some (Throws e, st4).
Proof.
  intros Hl Hall Hpre Hc Hcont Hs Hd. unfold handleWith.
  rewrite Hall, Hpre, Hc. simpl. rewrite Hc, Hs, Hcont. simpl. rewrite Hd.
  unfold catchError, emitError. by rewrite Hl.
Qed.

Section Growth.
Context (P : Effect → Prop).

Lemma growsBy_refl st : growsBy P st st.
Proof. exists []. by rewrite app_nil_r. Qed.

Lemma growsBy_same st st' : log st' = log st → growsBy P st st'.
Proof. intros H. exists []. by rewrite app_nil_r. Qed.

Lemma growsBy_trans st1 st2 st3 :
  growsBy P st1 st2 → growsBy P st2 st3 → growsBy P st1 st3.
Proof.
  intros (e1 & H1 & F1) (e2 & H2 & F2). exists (e1 ++ e2)%list.
  split; [by rewrite H2, H1, app_assoc|]. by apply Forall_app.
Qed.

Lemma growsBy_record ef st : P ef → growsBy P st (record ef st).
Proof. intros H. exists [ef]. split; [done|]. by constructor. Qed.

Lemma growsBy_emit ev st : P (Emit ev) → growsBy P st (emit ev st).
Proof. intros H. exists [Emit ev]. split; [done|]. by constructor. Qed.
End Growth.

Lemma growsBy_weaken (P Q : Effect → Prop) st st' :
  (∀ ef, P ef → Q ef) → growsBy P st st' → growsBy Q st st'.
Proof.
  intros HPQ (efs & H & F). exists efs. split; [done|].
  eapply Forall_impl; eauto.
Qed.

Lemma isEmit_plain ef : isEmit ef → plainExec ef.
Proof. by destruct ef. Qed.

Create HintDb grows.
Local Hint Resolve growsBy_refl growsBy_emit growsBy_same : grows.
Local Hint Extern 1 (isEmit (Emit _)) => exact I : grows.

Lemma runCooldowns_emits h m c st :
  growsBy isEmit st (Cooldown.runCooldowns h m c st).2.
Proof.
  unfold Cooldown.runCooldowns.
  destruct (Cooldown.isIgnored h m c); [auto with grows|].
  destruct (Cooldown.timeOf h c =? 0); [auto with grows|].
  destruct (Cooldown.inheritedAt _ _ _);
    [simpl; apply growsBy_same, CooldownFacts.log_ensureUser|].
  destruct (Cooldown.entryOf _ _ _) as [e|]; simpl.
  - destruct (ratelimit c <=? uses e); simpl.
    + eapply growsBy_trans; [|apply growsBy_emit; exact I].
      apply growsBy_same, CooldownFacts.log_ensureUser.
    + apply growsBy_same.
      by rewrite CooldownFacts.log_setEntry, CooldownFacts.log_ensureUser.
  - destruct (ratelimit c <=? 0); simpl.
    + eapply growsBy_trans; [|apply growsBy_emit; exact I].
      apply growsBy_same. rewrite CooldownFacts.log_setEntry. simpl.
      apply CooldownFacts.log_ensureUser.
    + apply growsBy_same. rewrite !CooldownFacts.log_setEntry. simpl.
      apply CooldownFacts.log_ensureUser.
Qed.

Lemma runPermissionChecks_emits h m c st :
  growsBy isEmit st (runPermissionChecks h m c st).2.
Proof.
  unfold runPermissionChecks.
  destruct (missingPermissions h m c) as [[[who missing]|]|]; simpl;
    auto with grows.
Qed.

Lemma reasonThenCooldown_emits h m c reason st :
  growsBy isEmit st (reasonThenCooldown h m c reason st).2.
Proof.
  unfold reasonThenCooldown. destruct reason; simpl; [auto with grows|].
  pose proof (runCooldowns_emits h m c st) as H.
  by destruct (Cooldown.runCooldowns h m c st).
Qed.

Lemma runPostTypeInhibitors_emits h m command st :
  growsBy isEmit st (runPostTypeInhibitors h m command st).2.
Proof.
  unfold runPostTypeInhibitors.
  destruct (skipBuiltInPostInhibitors h).
  - destruct (inhibitorTest h "post" m command) as [[r|]|]; simpl;
      auto with grows.
    destruct command as [c|]; simpl; auto with grows.
    pose proof (runPermissionChecks_emits h m c st) as H1.
    destruct (runPermissionChecks h m c st) as [[[|]|] st1]; simpl in *; auto.
    eapply growsBy_trans; [exact H1|].
    exact (reasonThenCooldown_emits h m c None st1).
  - destruct command as [c|]; simpl; auto with grows.
    destruct (builtInBlock h m c); simpl; auto with grows.
    pose proof (runPermissionChecks_emits h m c st) as H1.
    destruct (runPermissionChecks h m c st) as [[[|]|] st1]; simpl in *; auto.
    destruct (inhibitorTest h "post" m (Some c)) as [reason|]; simpl; auto.
    eapply growsBy_trans; [exact H1|].
    exact (reasonThenCooldown_emits h m c reason st1).
Qed.

Lemma gates_emits h m command ignore st :
  growsBy isEmit st (gates h m command ignore st).2.
Proof.
  unfold gates. destruct ignore; simpl; auto with grows.
  destruct (if edited m then _ else _) as [[|]|]; simpl; auto with grows.
  pose proof (runPostTypeInhibitors_emits h m command st) as H.
  by destruct (runPostTypeInhibitors h m command st) as [[[|]|] st1].
Qed.

Lemma acquire_emits m c args ignore st :
  growsBy isEmit st (acquire m c args ignore st).2.
Proof.
  unfold acquire. destruct ignore; simpl; auto with grows.
  destruct (match lock c with Some _ => _ | None => _ end) as [k|]; simpl;
    auto with grows.
  destruct (Js.truthyStr k); simpl; auto with grows.
  destruct (lockers st !! cmd_id c) as [locker|]; simpl; auto with grows.
  destruct (bool_decide (k ∈ locker)); simpl; auto with grows.
Qed.

Lemma log_release command key st : log (release command key st) = log st.
Proof.
  unfold release. destruct key as [k|]; [|done].
  destruct (Js.truthyStr k); [|done]. destruct command as [c|]; [|done].
  by destruct (lockers st !! cmd_id c).
Qed.

Lemma runCommand_plain m c fields st :
  growsBy plainExec st (runCommand m (Some c) (VArgs fields) st).2.
Proof.
  unfold runCommand.
  assert (H : growsBy plainExec st
            (record (ExecCall (cmd_id c) m (VArgs fields))
               (emit (COMMAND_STARTED m (cmd_id c) (VArgs fields)) st))).
  { eapply growsBy_trans; [apply growsBy_emit|apply growsBy_record]; exact I. }
  destruct (exec c m (VArgs fields)); simpl; [|done].
  eapply growsBy_trans; [exact H|]. apply growsBy_emit. exact I.
Qed.

Lemma emitError_emits h e m c st : growsBy isEmit st (emitError h e m c st).2.
Proof.
  unfold emitError. destruct (0 <? errorListeners h)%nat; simpl; auto with grows.
Qed.

Lemma dispatchArgs_fields h m c ignore fields st :
  dispatchArgs h m c ignore (VArgs fields) st =
    match acquire m c (VArgs fields) ignore st with
    | (Locked, st1) => (Return (Some true), None, st1)
    | (Holding key, st1) =>
        match runCommand m (Some c) (VArgs fields) st1 with
        | (Throws e, st2) => (Raise e, key, st2)
        | (Returns _, st2) => (Return (Some true), key, st2)
        end
    end.
Proof. reflexivity. Qed.

Lemma catchError_emits h m c e st : growsBy isEmit st (catchError h m c e st).2.
Proof.
  unfold catchError. pose proof (emitError_emits h e m c st) as H.
  by destruct (emitError h e m c st) as [[|] st'].
Qed.

(** The [try] block records a call of the command body only with plain
    arguments, and none at all when argument resolution gave a Flag. *)
Lemma tryBlock_plain h m content command ignore st :
  growsBy plainExec st (tryBlock h m content command ignore st).2.
Proof.
  unfold tryBlock.
  pose proof (gates_emits h m command ignore st) as Hg.
  apply (growsBy_weaken _ _ _ _ isEmit_plain) in Hg.
  destruct (gates h m command ignore st) as [[exit|] st1]; simpl in *; [done|].
  destruct command as [c|]; simpl; [|done].
  destruct (before c m); simpl; [|done].
  destruct (parse c m content) as [args|]; simpl; [|done].
  eapply growsBy_trans; [exact Hg|].
  destruct args as [[|m'|name ign rest]|fields].
  - apply growsBy_emit. exact I.
  - apply growsBy_emit. exact I.
  - apply growsBy_refl.
  - rewrite dispatchArgs_fields.
    pose proof (acquire_emits m c (VArgs fields) ignore st1) as Ha.
    apply (growsBy_weaken _ _ _ _ isEmit_plain) in Ha.
    destruct (acquire m c (VArgs fields) ignore st1) as [[|key] st2];
      [exact Ha|].
    pose proof (runCommand_plain m c fields st2) as Hr.
    destruct (runCommand m (Some c) (VArgs fields) st2) as [[|] st3];
      (eapply growsBy_trans; [exact Ha|exact Hr]).
Qed.

Lemma tryBlock_flag_emits h m content c ignore st st1 f :
  gates h m (Some c) ignore st = (None, st1) →
  before c m = Returns tt →
  parse c m content = Returns (VFlag f) →
  growsBy isEmit st (tryBlock h m content (Some c) ignore st).2.
Proof.
  intros Hg Hb Hp. rewrite (tryBlock_parsed _ _ _ _ _ _ _ _ Hg Hb Hp).
  pose proof (gates_emits h m (Some c) ignore st) as Hge. rewrite Hg in Hge.
  simpl in Hge. eapply growsBy_trans; [exact Hge|].
  unfold dispatchArgs. destruct f; simpl; auto with grows.
Qed.

Lemma runAllTypeInhibitors_emits h m slash st :
  growsBy isEmit st (runAllTypeInhibitors h m slash st).2.
Proof.
  unfold runAllTypeInhibitors.
  destruct (inhibitorTest h "all" m None) as [[r|]|]; simpl; auto with grows.
  destruct (author m) as [a|]; simpl; auto with grows.
  destruct (blockClient h && _); simpl; auto with grows.
  destruct (blockBots h && _); simpl; auto with grows.
  destruct (negb slash && hasPrompt h m); simpl; auto with grows.
Qed.

Lemma runPreTypeInhibitors_emits h m st :
  growsBy isEmit st (runPreTypeInhibitors h m st).2.
Proof.
  unfold runPreTypeInhibitors.
  destruct (inhibitorTest h "pre" m None) as [[r|]|]; simpl; auto with grows.
Qed.

(** The closures of the regex and conditional commands call command
    bodies with match objects or an empty object, never with a Flag. *)
Lemma runMatched_plain h m c fields st :
  growsBy plainExec st (runMatched h m c (VArgs fields) st).2.
Proof.
  unfold runMatched.
  assert (Hc : ∀ e s, growsBy plainExec s (emitError h e m (Some (cmd_id c)) s).2).
  { intros e s. eapply growsBy_weaken; [exact isEmit_plain|apply emitError_emits]. }
  pose proof (runPostTypeInhibitors_emits h m (Some c) st) as Hp.
  apply (growsBy_weaken _ _ _ _ isEmit_plain) in Hp.
  destruct (runPostTypeInhibitors h m (Some c) st) as [[[|]|e] st1]; simpl in Hp.
  - exact Hp.
  - destruct (before c m) as [u|e].
    + pose proof (runCommand_plain m c fields st1) as Hr.
      destruct (runCommand m (Some c) (VArgs fields) st1) as [[u'|e] st2];
        simpl in Hr.
      * eapply growsBy_trans; [exact Hp|exact Hr].
      * eapply growsBy_trans; [exact Hp|].
        eapply growsBy_trans; [exact Hr|apply Hc].
    + eapply growsBy_trans; [exact Hp|apply Hc].
  - eapply growsBy_trans; [exact Hp|apply Hc].
Qed.

Lemma runPromises_plain h m matched :
  Forall (λ cv, ∃ fields, cv.2 = VArgs fields) matched →
  ∀ st, growsBy plainExec st (runPromises h m matched st).2.
Proof.
  induction 1 as [|[c args] rest [fields Hargs] _ IH]; intros st; simpl.
  - apply growsBy_refl.
  - simpl in Hargs. subst args.
    pose proof (runMatched_plain h m c fields st) as H1.
    destruct (runMatched h m c (VArgs fields) st) as [r1 st1]. simpl in H1.
    pose proof (IH st1) as H2.
    destruct (runPromises h m rest st1) as [r2 st2]. simpl in *.
    eapply growsBy_trans; [exact H1|exact H2].
Qed.

Lemma elem_of_values {A} (l : list (Promise.Settling A)) a :
  a ∈ Promise.values l ↔ ∃ p, p ∈ l ∧ Promise.result p = Returns a.
Proof.
  induction l as [|p l IH]; cbn [Promise.values].
  - split; [intros H; by apply elem_of_nil in H|].
    intros (p & H & _). by apply elem_of_nil in H.
  - destruct (Promise.result p) as [b|e] eqn:Hp.
    + rewrite elem_of_cons, IH. split.
      * intros [->|(q & Hq & Hr)]; [exists p; split; [by left|done]|].
        exists q. split; [by right|done].
      * intros (q & Hq & Hr). apply elem_of_cons in Hq as [->|Hq].
        -- left. congruence.
        -- right. eauto.
    + rewrite IH. split.
      * intros (q & Hq & Hr). exists q. split; [by right|done].
      * intros (q & Hq & Hr). apply elem_of_cons in Hq as [->|Hq]; [congruence|eauto].
Qed.

(** What is pushed to [trueCommands]: the commands whose condition
    holds, each with an empty arguments object. *)
Lemma elem_of_trueCommands m cs cv :
  cv ∈ omap (λ r, r) (Promise.values (Promise.bySettling (map (holds m) cs))) ↔
  ∃ c, c ∈ cs ∧ condition c m = Returns true ∧ cv = (c, VArgs []).
Proof.
  rewrite list_elem_of_omap. split.
  - intros (o & Ho & ->). apply elem_of_values in Ho as (p & Hp & Hr).
    apply PrefixFacts.elem_of_sortBy, list_elem_of_fmap in Hp as (c & -> & Hc).
    exists c. split; [done|]. cbn in Hr.
    destruct (condition c m) as [[|]|e]; by simplify_eq.
  - intros (c & Hc & Hcond & ->). exists (Some (c, VArgs [])). split; [|done].
    apply elem_of_values. exists (holds m c). split.
    + apply PrefixFacts.elem_of_sortBy, list_elem_of_fmap. eauto.
    + cbn. by rewrite Hcond.
Qed.

Lemma found_plain (f : Command → Outcome (option (Command * Value))) cs found :
  (∀ c cv, f c = Returns (Some cv) → ∃ fields, cv.2 = VArgs fields) →
  inTurn (map f cs) = Returns found →
  Forall (λ cv, ∃ fields, cv.2 = VArgs fields) (omap (λ r, r) found).
Proof.
  intros Hf. revert found. induction cs as [|c cs IH]; intros found H; simpl in H.
  - simplify_eq. constructor.
  - destruct (f c) as [o|e] eqn:Hc; [|done].
    destruct (inTurn (map f cs)) as [rs|e]; [|done].
    simplify_eq. simpl. destruct o as [cv|]; simpl; [|by apply IH].
    constructor; [by eapply Hf|by apply IH].
Qed.

Lemma handleRegexCommands_plain h m st :
  growsBy plainExec st (handleRegexCommands h m st).2.
Proof.
  unfold handleRegexCommands.
  destruct (inTurn _) as [found|e] eqn:Hall; [|apply growsBy_refl].
  apply found_plain in Hall.
  2:{ intros c cv Hc. unfold matchOf in Hc.
      destruct (regex c m) as [[fields|]|]; simplify_eq. by eexists. }
  destruct (omap _ found) as [|cv rest] eqn:Hm; [apply growsBy_refl|].
  pose proof (runPromises_plain h m _ Hall st) as Hr.
  by destruct (runPromises h m (cv :: rest) st) as [[|] st1].
Qed.

Lemma handleConditionalCommands_plain h m st :
  growsBy plainExec st (handleConditionalCommands h m st).2.
Proof.
  unfold handleConditionalCommands.
  destruct (Promise.result (Promise.all _)) as [found|e]; [|apply growsBy_refl].
  destruct (omap _ _) as [|cv rest] eqn:Hm; [apply growsBy_refl|].
  assert (Hall : Forall (λ cv, ∃ fields, cv.2 = VArgs fields) (cv :: rest)).
  { rewrite <- Hm. apply Forall_forall. intros cv' Hcv.
    apply elem_of_trueCommands in Hcv as (c & _ & _ & ->). by eexists. }
  pose proof (runPromises_plain h m _ Hall st) as Hr.
  by destruct (runPromises h m (cv :: rest) st) as [[|] st1].
Qed.

Lemma handleRegexAndConditionalCommands_plain h m st :
  growsBy plainExec st (handleRegexAndConditionalCommands h m st).2.
Proof.
  unfold handleRegexAndConditionalCommands.
  pose proof (handleRegexCommands_plain h m st) as H1.
  destruct (handleRegexCommands h m st) as [[ran1|e] st1]; simpl in H1; [|done].
  pose proof (handleConditionalCommands_plain h m st1) as H2.
  destruct (handleConditionalCommands h m st1) as [[ran2|e] st2]; simpl in *;
    (eapply growsBy_trans; [exact H1|exact H2]).
Qed.

(** [handle] grows the log by plain effects when the direct handler it is
    given does. *)
Lemma handleWith_plain direct h m st r st' :
  (∀ m' content command ignore st0 r0 st0',
     direct m' content command ignore st0 = Some (r0, st0') →
     growsBy plainExec st0 st0') →
  handleWith direct h m st = Some (r, st') →
  growsBy plainExec st st'.
Proof.
  intros Hdirect. unfold handleWith.
  assert (Hcaught : ∀ e st0 r0 st0',
    Some (catchError h m None e st0) = Some (r0, st0') →
    growsBy plainExec st0 st0').
  { intros e st0 r0 st0' H. pose proof (catchError_emits h m None e st0) as He.
    apply (growsBy_weaken _ _ _ _ isEmit_plain) in He.
    simplify_eq. by rewrite H in He. }
  pose proof (runAllTypeInhibitors_emits h m false st) as Hall.
  apply (growsBy_weaken _ _ _ _ isEmit_plain) in Hall.
  destruct (runAllTypeInhibitors h m false st) as [[[|]|e] st1]; simpl in Hall.
  - intros H. by simplify_eq.
  - set (st2 := if commandUtil h then _ else st1).
    assert (H12 : growsBy plainExec st1 st2).
    { subst st2. destruct (commandUtil h); apply growsBy_same; done. }
    pose proof (runPreTypeInhibitors_emits h m st2) as Hpre.
    apply (growsBy_weaken _ _ _ _ isEmit_plain) in Hpre.
    assert (H13 : ∀ st3, growsBy plainExec st2 st3 → growsBy plainExec st st3).
    { intros st3 H. eapply growsBy_trans; [exact Hall|].
      eapply growsBy_trans; [exact H12|exact H]. }
    destruct (runPreTypeInhibitors h m st2) as [[[|]|e] st3]; simpl in Hpre.
    + intros H. simplify_eq. by apply H13.
    + set (parsed := match Prefix.p_command (Prefix.parseCommand h m) with
                     | Some _ => _ | None => _ end).
      destruct (Prefix.p_command parsed) as [c|].
      * destruct (slashOnly c).
        -- intros H. simplify_eq. eapply growsBy_trans; [by apply H13|].
           apply growsBy_emit. exact I.
        -- destruct (direct m _ (Some c) false st3) as [[[[[|]|]|e] st4]|] eqn:Hd;
             intros H; try done.
           ++ simplify_eq. eapply growsBy_trans; [by apply H13|].
              by eapply Hdirect.
           ++ simplify_eq. eapply growsBy_trans; [by apply H13|].
              eapply growsBy_trans; [by eapply Hdirect|].
              apply growsBy_emit. exact I.
           ++ simplify_eq. eapply growsBy_trans; [by apply H13|].
              by eapply Hdirect.
           ++ eapply growsBy_trans; [by apply H13|].
              eapply growsBy_trans; [by eapply Hdirect|].
              by eapply Hcaught.
      * pose proof (handleRegexAndConditionalCommands_plain h m st3) as Hrx.
        destruct (handleRegexAndConditionalCommands h m st3) as [[[|]|e] st4];
          simpl in Hrx; intros H.
        -- simplify_eq. eapply growsBy_trans; [by apply H13|]. done.
        -- simplify_eq. eapply growsBy_trans; [by apply H13|].
           eapply growsBy_trans; [exact Hrx|]. apply growsBy_emit. exact I.
        -- eapply growsBy_trans; [by apply H13|].
           eapply growsBy_trans; [exact Hrx|]. by eapply Hcaught.
    + intros H. eapply growsBy_trans; [by apply H13|]. by eapply Hcaught.
  - intros H. eapply growsBy_trans; [exact Hall|]. by eapply Hcaught.
Qed.

(** Whatever [handleDirectCommand] hands over to, no command body is ever
    called with a Flag as its args. *)
Lemma handleDirectCommand_plain h fuel :
  ∀ m content command ignore st r st',
    handleDirectCommand fuel h m content command ignore st = Some (r, st') →
    growsBy plainExec st st'.
Proof.
  induction fuel as [|n IH]; intros m content command ignore st r st' H;
    [done|].
  simpl in H. pose proof (tryBlock_plain h m content command ignore st) as Ht.
  destruct (tryBlock h m content command ignore st) as [[exit key] st1].
  simpl in Ht.
  assert (Hrel : ∀ s, growsBy plainExec s (release command key s)).
  { intros s. apply growsBy_same, log_release. }
  destruct exit as [v|e|m'|content' command' ignore'].
  - simplify_eq. eapply growsBy_trans; [exact Ht|apply Hrel].
  - pose proof (catchError_emits h m (cmd_id <$> command) e st1) as He.
    apply (growsBy_weaken _ _ _ _ isEmit_plain) in He.
    destruct (catchError h m (cmd_id <$> command) e st1) as [r0 st2].
    simplify_eq. simpl in He.
    eapply growsBy_trans; [exact Ht|].
    eapply growsBy_trans; [exact He|apply Hrel].
  - eapply growsBy_trans; [exact Ht|]. eapply growsBy_trans; [apply Hrel|].
    eapply handleWith_plain; [|exact H]. exact (IH).
  - eapply growsBy_trans; [exact Ht|]. eapply growsBy_trans; [apply Hrel|].
    by eapply IH.
Qed.

(** C6. When argument resolution returns a control Flag, the rest of
    [handleDirectCommand] is skipped: a cancel Flag emits
    [commandCancelled] and the call resolves with true; a retry Flag emits
    [commandBreakout] and the call becomes [handle] of the substituted
    message; a continue Flag makes it [handleDirectCommand] of the named
    command.  Up to that point only events were emitted, no command body
    was called; and whatever follows, no command body is ever called with
    a Flag as its args. *)
Theorem flag_short_circuits fuel h message content c ignore st st1 f :
  gates h message (Some c) ignore st = (None, st1) →
  before c message = Returns tt →
  parse c message content = Returns (VFlag f) →
  handleDirectCommand (S fuel) h message content (Some c) ignore st =
    match f with
    | FlagCancel =>
        Some (Returns (Some true),
              emit (COMMAND_CANCELLED message (cmd_id c)) st1)
    | FlagRetry m' =>
        handle fuel h m' (emit (COMMAND_BREAKOUT message (cmd_id c) m') st1)
    | FlagContinue name ignore' rest =>
        handleDirectCommand fuel h message rest (modules h !! name) ignore' st1
    end ∧
  growsBy isEmit st (tryBlock h message content (Some c) ignore st).2 ∧
  ∀ r st',
    handleDirectCommand (S fuel) h message content (Some c) ignore st =
      Some (r, st') →
    growsBy plainExec st st'.
Proof.
  intros Hg Hb Hp. split; [|split].
  - simpl. rewrite (tryBlock_parsed _ _ _ _ _ _ _ _ Hg Hb Hp).
    by destruct f.
  - by eapply tryBlock_flag_emits.
  - intros r st' H. by eapply handleDirectCommand_plain.
Qed.

(** C5 (as amended). When the argument parse of a command returns a
    continue Flag naming [name] with leftover text [rest],
    [handleDirectCommand] becomes the call of [handleDirectCommand] for
    the command registered under [name] with content [rest] and the Flag's
    [ignore]: no prefix is resolved.  With [ignore] true the command runs
    with the args it resolves from [rest] and none of its inhibitors or
    cooldown checks run; with [ignore] false its post inhibitors and
    cooldown check run as for a direct invocation, and when they block it
    is not executed. *)
Theorem continue_runs_named_command fuel h message content a ignore st st1
    name ignore' rest :
  gates h message (Some a) ignore st = (None, st1) →
  before a message = Returns tt →
  parse a message content = Returns (VFlag (FlagContinue name ignore' rest)) →
  handleDirectCommand (S fuel) h message content (Some a) ignore st =
    handleDirectCommand fuel h message rest (modules h !! name) ignore' st1 ∧
  (ignore' = true →
   ∀ b fields ret,
     modules h !! name = Some b →
     before b message = Returns tt →
     parse b message rest = Returns (VArgs fields) →
     exec b message (VArgs fields) = Returns ret →
     handleDirectCommand (S (S fuel)) h message content (Some a) ignore st =
       Some (Returns (Some true),
             emit (COMMAND_FINISHED message (cmd_id b) (VArgs fields) ret)
               (record (ExecCall (cmd_id b) message (VArgs fields))
                  (emit (COMMAND_STARTED message (cmd_id b) (VArgs fields)) st1)))) ∧
  (ignore' = false →
   ∀ b st2,
     modules h !! name = Some b →
     edited message = false →
     runPostTypeInhibitors h message (Some b) st1 = (Returns true, st2) →
     handleDirectCommand (S (S fuel)) h message content (Some a) ignore st =
       Some (Returns (Some false), st2)).
Proof.
  intros Hg Hb Hp.
  assert (Heq : ∀ n, handleDirectCommand (S n) h message content (Some a) ignore st =
    handleDirectCommand n h message rest (modules h !! name) ignore' st1).
  { intros n. simpl. by rewrite (tryBlock_parsed _ _ _ _ _ _ _ _ Hg Hb Hp). }
  split; [apply Heq|]. split.
  - intros -> b fields ret Hm Hbb Hpb He. rewrite Heq, Hm. simpl.
    unfold tryBlock. simpl. rewrite Hbb, Hpb. rewrite dispatchArgs_fields.
    simpl. by rewrite He.
  - intros -> b st2 Hm Hed Hpost. rewrite Heq, Hm. simpl.
    unfold tryBlock, gates. by rewrite Hed, Hpost.
Qed.



Import Samples DispatchSamples FlagSamples DispatchClaims.


Example exec_error_listened :
  ∃ st', handleDirectCommand 1 listening boomMsg "" (Some failing) false initial =
           Some (Returns None, st') ∧
         last (log st') = Some (Emit (ERROR "boom failed" boomMsg (Some "boom"))).
Proof. eexists. split; vm_compute; reflexivity. Qed.


(** A message that names no command but matches a command's regex runs
    that command with the match as its args. *)
Example regex_command_runs :
  ∃ st', handle 1 greeting helloMsg initial = Some (Returns (Some true), st') ∧
         log st' =
           [Emit (COMMAND_STARTED helloMsg "greet" (VArgs [("match", "hello")]));
            ExecCall "greet" helloMsg (VArgs [("match", "hello")]);
            Emit (COMMAND_FINISHED helloMsg "greet" (VArgs [("match", "hello")]) "hi")].
Proof. eexists. split; vm_compute; reflexivity. Qed.

(** The Flag theorem at a command whose argument resolution cancels. *)
Lemma flag_short_circuits_cancelling :
  gates hc msgA (Some cancelling) false initial = (None, initial) ∧
  before cancelling msgA = Returns tt ∧
  parse cancelling msgA "" = Returns (VFlag FlagCancel) ∧
  handleDirectCommand 1 hc msgA "" (Some cancelling) false initial =
    Some (Returns (Some true), emit (COMMAND_CANCELLED msgA "c") initial).
Proof.
  assert (H1 : gates hc msgA (Some cancelling) false initial = (None, initial))
    by (vm_compute; reflexivity).
  assert (H2 : before cancelling msgA = Returns tt) by reflexivity.
  assert (H3 : parse cancelling msgA "" = Returns (VFlag FlagCancel)) by reflexivity.
  repeat (split; [assumption|]).
  exact (proj1 (flag_short_circuits 0 hc msgA "" cancelling false initial initial
                  FlagCancel H1 H2 H3)).
Defined.

(** The continue theorem at [jumpSkipping], whose Flag sets [ignore]:
    [b] runs although user [u] has used up its cooldown. *)
Lemma continue_runs_named_command_skipping :
  gates hc msgA (Some jumpSkipping) false usedB = (None, usedB) ∧
  before jumpSkipping msgA = Returns tt ∧
  parse jumpSkipping msgA "" = Returns (VFlag (FlagContinue "b" true "x")) ∧
  handleDirectCommand 2 hc msgA "" (Some jumpSkipping) false usedB =
    Some (Returns (Some true),
          emit (COMMAND_FINISHED msgA "b" (VArgs [("text", "x")]) "done")
            (record (ExecCall "b" msgA (VArgs [("text", "x")]))
               (emit (COMMAND_STARTED msgA "b" (VArgs [("text", "x")])) usedB))).
Proof.
  assert (H1 : gates hc msgA (Some jumpSkipping) false usedB = (None, usedB))
    by (vm_compute; reflexivity).
  assert (H2 : before jumpSkipping msgA = Returns tt) by reflexivity.
  assert (H3 : parse jumpSkipping msgA "" =
               Returns (VFlag (FlagContinue "b" true "x"))) by reflexivity.
  repeat (split; [assumption|]).
  apply (proj1 (proj2 (continue_runs_named_command 0 hc msgA "" jumpSkipping false
                         usedB usedB "b" true "x" H1 H2 H3)) eq_refl target);
    reflexivity.
Defined.

(** C5, the claim as stated fails: [a] continues into [b] with
    [Flag.continue({command: "b", rest: "x"})]; user [u] has used [b]
    100 ms before, so the cooldown check of [b] runs, blocks with 900 ms
    remaining, and [b] is not executed. *)
Lemma continue_checks_cooldown : ¬ continue_skips_cooldown.
Proof.
  intros Hclaim.
  destruct (handleDirectCommand 2 hc msgA "" (Some jumping) false usedB)
    as [[r st']|] eqn:Hrun; [|vm_compute in Hrun; discriminate].
  assert (H1 : gates hc msgA (Some jumping) false usedB = (None, usedB))
    by (vm_compute; reflexivity).
  assert (H2 : modules hc !! cmd_id target = Some target)
    by (vm_compute; reflexivity).
  destruct (Hclaim 0%nat hc msgA "" jumping target [("text", "x")] usedB usedB st' r
              H1 eq_refl eq_refl H2 eq_refl eq_refl Hrun) as [Hexec _].
  assert (Hlog : log st' = [Emit (COOLDOWN msgA "b" 900)]).
  { vm_compute in Hrun. by simplify_eq. }
  rewrite Hlog in Hexec.
  apply elem_of_cons in Hexec as [Hexec|Hexec]; [discriminate|].
  by apply elem_of_nil in Hexec.
Qed.

End DispatchFacts.

(** ** Locks *)

Module LockFacts.
Import Dispatch Locking.

Lemma lockers_catchError h m c e st : lockers (catchError h m c e st).2 = lockers st.
Proof.
  unfold catchError, emitError. by destruct (0 <? errorListeners h)%nat.
Qed.

(** The three ways through the lock section. *)
Lemma enter_effect c inv st L :
  lockers st !! cmd_id c = Some L →
  (∃ k, i_ignore inv = false ∧ keyOf c inv = Some k ∧ Js.truthyStr k = true ∧
        (k ∈ L) ∧
        enter c inv st =
          (Settled (Returns (Some true)),
           emit (COMMAND_LOCKED (i_msg inv) (cmd_id c)) st)) ∨
  (∃ k st', i_ignore inv = false ∧ keyOf c inv = Some k ∧
        Js.truthyStr k = true ∧ (k ∉ L) ∧
        enter c inv st = (Running (Some k), st') ∧
        lockers st' = <[cmd_id c := {[k]} ∪ L]> (lockers st)) ∨
  (∃ key st', truthyKey key = false ∧
        (i_ignore inv = true ∨ truthyKey (keyOf c inv) = false) ∧
        enter c inv st = (Running key, st') ∧ lockers st' = lockers st).
Proof.
  intros HL. unfold enter, acquire, keyOf.
  destruct (i_ignore inv) eqn:Hig.
  { right. right. eexists None, _. repeat split; try reflexivity. by left. }
  destruct (match lock c with Some _ => _ | None => _ end) as [k|] eqn:Hk;
    [|right; right; eexists None, _; repeat split; try reflexivity; by right].
  destruct (Js.truthyStr k) eqn:Ht;
    [|right; right; eexists (Some k), _; simpl; rewrite ?Ht;
      repeat split; try reflexivity; by right].
  rewrite HL. destruct (bool_decide (k ∈ L)) eqn:Hin.
  - left. exists k. apply bool_decide_eq_true_1 in Hin. done.
  - right. left. apply bool_decide_eq_false_1 in Hin.
    eexists k, _. repeat split; try done.
Qed.

Lemma settle_effect h c inv key out st L :
  lockers st !! cmd_id c = Some L →
  ∃ r st', settle h c inv key out st = (Settled r, st') ∧
    lockers st' =
      match key with
      | Some k => if Js.truthyStr k
                  then <[cmd_id c := L ∖ {[k]}]> (lockers st)
                  else lockers st
      | None => lockers st
      end.
Proof.
  intros HL. unfold settle. destruct out as [ret|e].
  - eexists _, _. split; [reflexivity|]. unfold release.
    destruct key as [k|]; [|done]. destruct (Js.truthyStr k); [|done].
    simpl. by rewrite HL.
  - pose proof (lockers_catchError h (i_msg inv) (Some (cmd_id c)) e st) as Hc.
    destruct (catchError h (i_msg inv) (Some (cmd_id c)) e st) as [r st1].
    simpl in Hc. eexists _, _. split; [reflexivity|]. unfold release.
    destruct key as [k|]; [|done]. destruct (Js.truthyStr k); [|done].
    by rewrite Hc, HL.
Qed.

Lemma lockerOf_insert c st st' L :
  lockers st' = <[cmd_id c := L]> (lockers st) → lockerOf c st' = L.
Proof. intros H. unfold lockerOf. by rewrite H, lookup_insert_eq. Qed.

Lemma lockerOf_same c st st' :
  lockers st' = lockers st → lockerOf c st' = lockerOf c st.
Proof. intros H. unfold lockerOf. by rewrite H. Qed.

Lemma running_insert_other (phs : list Phase) i j ph k :
  (∀ k', ph ≠ Running (Some k')) ∨ i ≠ j →
  phs !! i ≠ Some (Running (Some k)) →
  (<[i := ph]> phs !! j = Some (Running (Some k)) ↔
   phs !! j = Some (Running (Some k))).
Proof.
  intros Hph Hold. destruct (decide (i = j)) as [->|Hne].
  - destruct Hph as [Hph|]; [|done]. split; [|done].
    intros H. destruct (decide (j < length phs)%nat) as [Hlt|Hge].
    + rewrite list_lookup_insert_eq in H by done. simplify_eq. by destruct (Hph k).
    + rewrite list_insert_ge in H by lia. done.
  - by rewrite list_lookup_insert_ne.
Qed.

(** Every step keeps the locker and the running invocations in
    agreement. *)
Lemma step_consistent h c invs sys l sys' :
  consistent c sys → step h c invs sys l = Some sys' → consistent c sys'.
Proof.
  intros ([L HL] & Hiff & Huniq) Hs.
  destruct l as [i|i out]; simpl in Hs.
  - destruct (invs !! i) as [inv|]; [|done].
    destruct (phases sys !! i) as [[| |]|] eqn:Hi; try done.
    assert (Hlt : (i < length (phases sys))%nat) by (eapply lookup_lt_Some; eauto).
    destruct (enter_effect c inv (handlerState sys) L HL)
      as [(k & _ & _ & Ht & Hin & He)|[(k & st' & _ & _ & Ht & Hnin & He & Hl)|
          (key & st' & Hf & _ & He & Hl)]]; rewrite He in Hs; simplify_eq; simpl;
      assert (HLo : lockerOf c (handlerState sys) = L)
        by (unfold lockerOf; by rewrite HL).
    + (* locked *)
      unfold consistent. simpl.
      split; [rewrite HL; eauto|]. split.
      * intros k' Ht'. change (lockerOf c (emit _ (handlerState sys)))
          with (lockerOf c (handlerState sys)). rewrite (Hiff k' Ht').
        apply exist_proper. intros j. symmetry.
        apply running_insert_other; [by left|]. by rewrite Hi.
      * intros j1 j2 k' Ht' H1 H2.
        apply running_insert_other in H1; [|by left|by rewrite Hi].
        apply running_insert_other in H2; [|by left|by rewrite Hi].
        by eapply Huniq.
    + (* key added *)
      unfold consistent. simpl.
      split; [rewrite Hl, lookup_insert_eq; eauto|]. split.
      * intros k' Ht'. rewrite (lockerOf_insert _ _ _ _ Hl).
        destruct (decide (k' = k)) as [->|Hne].
        -- split; [|intros _; apply elem_of_union; left; by apply elem_of_singleton].
           intros _. exists i. by rewrite list_lookup_insert_eq.
        -- rewrite elem_of_union, elem_of_singleton. rewrite <- HLo, (Hiff k' Ht').
           split.
           ++ intros [?|[j Hj]]; [done|]. exists j.
              rewrite list_lookup_insert_ne; [done|]. intros ->. congruence.
           ++ intros [j Hj]. right. exists j.
              destruct (decide (i = j)) as [->|Hij].
              ** rewrite list_lookup_insert_eq in Hj by done. congruence.
              ** by rewrite list_lookup_insert_ne in Hj.
      * intros j1 j2 k' Ht' H1 H2.
        destruct (decide (k' = k)) as [->|Hne].
        -- destruct (decide (j1 = i)) as [->|Hn1], (decide (j2 = i)) as [->|Hn2];
             try done.
           ++ rewrite list_lookup_insert_ne in H2 by done.
              exfalso. apply Hnin. rewrite <- HLo. apply (Hiff k Ht'). eauto.
           ++ rewrite list_lookup_insert_ne in H1 by done.
              exfalso. apply Hnin. rewrite <- HLo. apply (Hiff k Ht'). eauto.
           ++ rewrite list_lookup_insert_ne in H1, H2 by done. by eapply Huniq.
        -- assert (∀ j, <[i:=Running (Some k)]> (phases sys) !! j =
                        Some (Running (Some k')) →
                        phases sys !! j = Some (Running (Some k'))) as Hold.
           { intros j Hj. destruct (decide (i = j)) as [->|Hij].
             - rewrite list_lookup_insert_eq in Hj by done. congruence.
             - by rewrite list_lookup_insert_ne in Hj. }
           eapply Huniq; eauto.
    + (* nothing added *)
      unfold consistent. simpl.
      assert (Hnot : ∀ k', Js.truthyStr k' = true → Running key ≠ Running (Some k')).
      { intros k' Ht' Heq. simplify_eq. simpl in Hf. congruence. }
      assert (Hsame : ∀ j k', Js.truthyStr k' = true →
                (<[i:=Running key]> (phases sys) !! j = Some (Running (Some k')) ↔
                 phases sys !! j = Some (Running (Some k')))).
      { intros j k' Ht'. destruct (decide (i = j)) as [->|Hij].
        - rewrite list_lookup_insert_eq by done. rewrite Hi. split; intros H.
          + simplify_eq. by destruct (Hnot k' Ht').
          + done.
        - by rewrite list_lookup_insert_ne. }
      split; [rewrite Hl, HL; eauto|]. split.
      * intros k' Ht'. rewrite (lockerOf_same _ _ _ Hl), (Hiff k' Ht').
        apply exist_proper. intros j. symmetry. by apply Hsame.
      * intros j1 j2 k' Ht' H1 H2. apply Hsame in H1, H2; try done.
        by eapply Huniq.
  - destruct (invs !! i) as [inv|]; [|done].
    destruct (phases sys !! i) as [[|key|]|] eqn:Hi; try done.
    assert (Hlt : (i < length (phases sys))%nat) by (eapply lookup_lt_Some; eauto).
    destruct (settle_effect h c inv key out (handlerState sys) L HL)
      as (r & st' & He & Hl). rewrite He in Hs. simplify_eq.
    assert (HLo : lockerOf c (handlerState sys) = L)
      by (unfold lockerOf; by rewrite HL).
    unfold consistent. simpl.
    assert (Hold : ∀ j k', <[i:=Settled r]> (phases sys) !! j = Some (Running (Some k')) ↔
                           j ≠ i ∧ phases sys !! j = Some (Running (Some k'))).
    { intros j k'. destruct (decide (i = j)) as [->|Hij].
      - rewrite list_lookup_insert_eq by done. split; [done|]. by intros [? _].
      - rewrite list_lookup_insert_ne by done. split; [|by intros [_ ?]].
        intros H. split; [congruence|done]. }
    split.
    { destruct key as [k|]; [destruct (Js.truthyStr k)|]; rewrite Hl;
        rewrite ?lookup_insert_eq, ?HL; eauto. }
    split.
    + intros k' Ht'.
      destruct key as [k|]; [destruct (Js.truthyStr k) eqn:Ht|].
      * rewrite (lockerOf_insert _ _ _ _ Hl).
        rewrite elem_of_difference, elem_of_singleton, <- HLo, (Hiff k' Ht').
        split.
        -- intros [[j Hj] Hne]. exists j. apply Hold. split; [|done].
           intros ->. congruence.
        -- intros [j Hj]. apply Hold in Hj as [Hji Hj]. split; [eauto|].
           intros ->. apply Hji. by eapply Huniq.
      * rewrite (lockerOf_same _ _ _ Hl), (Hiff k' Ht'). split.
        -- intros [j Hj]. exists j. apply Hold. split; [|done].
           intros ->. rewrite Hi in Hj. simplify_eq. congruence.
        -- intros [j Hj]. apply Hold in Hj as [_ Hj]. eauto.
      * rewrite (lockerOf_same _ _ _ Hl), (Hiff k' Ht'). split.
        -- intros [j Hj]. exists j. apply Hold. split; [|done].
           intros ->. rewrite Hi in Hj. simplify_eq.
        -- intros [j Hj]. apply Hold in Hj as [_ Hj]. eauto.
    + intros j1 j2 k' Ht' H1 H2. apply Hold in H1 as [_ H1], H2 as [_ H2].
      by eapply Huniq.
Qed.

Lemma run_consistent h c invs : ∀ ls sys sys',
  consistent c sys → run h c invs sys ls = Some sys' → consistent c sys'.
Proof.
  induction ls as [|l ls IH]; intros sys sys' Hc Hr; simpl in Hr.
  - by simplify_eq.
  - destruct (step h c invs sys l) as [sys1|] eqn:Hs; [|done].
    eapply IH; [|exact Hr]. by eapply step_consistent.
Qed.

Lemma start_consistent c st0 invs :
  lockers st0 !! cmd_id c = Some ∅ → consistent c (start st0 invs).
Proof.
  intros HL. unfold consistent, start, lockerOf. simpl. rewrite HL. simpl.
  assert (Hno : ∀ i key, map (fun _ : Invocation => Parsed) invs !! i ≠ Some (Running key)).
  { intros i key. rewrite list_lookup_fmap. by destruct (invs !! i). }
  split; [eauto|]. split.
  - intros k _. split; [set_solver|]. intros [i Hi]. by apply Hno in Hi.
  - intros i j k _ Hi. by apply Hno in Hi.
Qed.

(** The sequential [handleDirectCommand] is the lock section, the call of
    the body and the settling run back to back. *)
Lemma handleDirectCommand_enter_settle fuel h m content c ignore st st1 fields :
  gates h m (Some c) ignore st = (None, st1) →
  before c m = Returns tt →
  parse c m content = Returns (VArgs fields) →
  let inv := {| i_msg := m; i_args := fields; i_ignore := ignore |} in
  handleDirectCommand (S fuel) h m content (Some c) ignore st =
    match enter c inv st1 with
    | (Running key, st2) =>
        match settle h c inv key (exec c m (VArgs fields)) st2 with
        | (Settled r, st3) => Some (r, st3)
        | _ => None
        end
    | (Settled r, st2) => Some (r, st2)
    | (Parsed, _) => None
    end.
Proof.
  intros Hg Hb Hp inv. simpl.
  rewrite (DispatchFacts.tryBlock_parsed _ _ _ _ _ _ _ _ Hg Hb Hp).
  rewrite DispatchFacts.dispatchArgs_fields. unfold enter, settle. simpl.
  destruct (acquire m c (VArgs fields) ignore st1) as [[|key] st2]; [done|].
  unfold runCommand. destruct (exec c m (VArgs fields)) as [ret|e]; [done|].
  by destruct (catchError h m (Some (cmd_id c)) e _).
Qed.

(** A Flag leaves [handleDirectCommand] before the lock section: no key
    is held and the lockers are as they were. *)
Lemma flag_exit_holds_no_key h m c ignore f st :
  (dispatchArgs h m c ignore (VFlag f) st).1.2 = None ∧
  lockers (dispatchArgs h m c ignore (VFlag f) st).2 = lockers st.
Proof. by destruct f. Qed.

Lemma enter_key c inv st key st' :
  enter c inv st = (Running key, st') →
  key = if i_ignore inv then None else keyOf c inv.
Proof.
  unfold enter, acquire, keyOf. destruct (i_ignore inv); [by intros [= <- _]|].
  destruct (match lock c with Some _ => _ | None => _ end) as [k|];
    [|by intros [= <- _]].
  destruct (Js.truthyStr k); [|by intros [= <- _]].
  destruct (lockers st !! cmd_id c) as [L|]; [|by intros [= <- _]].
  destruct (bool_decide (k ∈ L)); [done|by intros [= <- _]].
Qed.

(** What [enter] logs when the body is called. *)
Lemma enter_running_log c inv st key st' :
  enter c inv st = (Running key, st') →
  log st' =
    (log st ++ [Emit (COMMAND_STARTED (i_msg inv) (cmd_id c) (VArgs (i_args inv)));
                ExecCall (cmd_id c) (i_msg inv) (VArgs (i_args inv))])%list.
Proof.
  unfold enter.
  assert (Hlog : ∀ ex s1, acquire (i_msg inv) c (VArgs (i_args inv)) (i_ignore inv) st
                            = (Holding ex, s1) → log s1 = log st).
  { intros ex s1. unfold acquire. destruct (i_ignore inv); [by intros [= _ <-]|].
    destruct (match lock c with Some _ => _ | None => _ end) as [k|];
      [|by intros [= _ <-]].
    destruct (Js.truthyStr k); [|by intros [= _ <-]].
    destruct (lockers st !! cmd_id c) as [L|]; [|by intros [= _ <-]].
    destruct (bool_decide (k ∈ L)); [done|by intros [= _ <-]]. }
  destruct (acquire _ _ _ _ _) as [[|ex] s1] eqn:Ha; [done|].
  intros [= _ <-]. cbn. rewrite (Hlog ex s1 eq_refl). by rewrite <- app_assoc.
Qed.

Lemma step_keyed h c invs sys l sys' :
  keyed c invs sys → step h c invs sys l = Some sys' → keyed c invs sys'.
Proof.
  intros [Hlen Hkey] Hs. destruct l as [i|i out]; simpl in Hs.
  - destruct (invs !! i) as [inv|] eqn:Hinv; [|done].
    destruct (phases sys !! i) as [[| |]|] eqn:Hi; try done.
    destruct (enter c inv (handlerState sys)) as [ph st'] eqn:He. simplify_eq.
    split; [cbn; by rewrite length_insert|].
    intros j a key Ha Hj. cbn in Hj. destruct (decide (i = j)) as [->|Hij].
    + rewrite list_lookup_insert_eq in Hj by (by eapply lookup_lt_Some).
      simplify_eq. by eapply enter_key.
    + rewrite list_lookup_insert_ne in Hj by done. by eapply Hkey.
  - destruct (invs !! i) as [inv|] eqn:Hinv; [|done].
    destruct (phases sys !! i) as [[|key0|]|] eqn:Hi; try done.
    destruct (settle h c inv key0 out (handlerState sys)) as [ph st'] eqn:He.
    simplify_eq. split; [cbn; by rewrite length_insert|].
    intros j a key Ha Hj. cbn in Hj. destruct (decide (i = j)) as [->|Hij].
    + rewrite list_lookup_insert_eq in Hj by (by eapply lookup_lt_Some).
      unfold settle in He. destruct out as [ret|e]; [by simplify_eq|].
      destruct (catchError _ _ _ _ _). by simplify_eq.
    + rewrite list_lookup_insert_ne in Hj by done. by eapply Hkey.
Qed.

Lemma run_keyed h c invs : ∀ ls sys sys',
  keyed c invs sys → run h c invs sys ls = Some sys' → keyed c invs sys'.
Proof.
  induction ls as [|l ls IH]; intros sys sys' Hk Hr; simpl in Hr.
  - by simplify_eq.
  - destruct (step h c invs sys l) as [sys1|] eqn:Hs; [|done].
    eapply IH; [|exact Hr]. by eapply step_keyed.
Qed.

Lemma start_keyed c st0 invs : keyed c invs (start st0 invs).
Proof.
  split; [cbn; by rewrite length_map|].
  intros i a key _ Hi. cbn in Hi. rewrite list_lookup_fmap in Hi.
  by destruct (invs !! i).
Qed.

(** C3 (as amended). For a command with a locker (it declares a lock key
    supplier) and any interleaving of invocations of
    [handleDirectCommand] for it.  Two invocations that compute the same
    non-empty key never run the command body at the same time.  The
    locker holds exactly the keys computed by the invocations that are
    running the body.  An invocation that reaches its lock section with a
    non-empty key: while the key is in the locker it is answered with the
    [commandLocked] event, resolves with true and does not call the body;
    when the key is free it takes the key and calls the body.  When the
    body of a running invocation settles, by returning or by throwing, its
    key is no longer in the locker.  An invocation whose argument
    resolution gives a Flag leaves before the lock section, holding no
    key and with the locker untouched. *)
Theorem lock_excludes h c invs st0 ls sys :
  lockers st0 !! cmd_id c = Some ∅ →
  run h c invs (start st0 invs) ls = Some sys →
  (∀ i j a b k, i ≠ j → invs !! i = Some a → invs !! j = Some b →
     i_ignore a = false → i_ignore b = false →
     keyOf c a = Some k → keyOf c b = Some k → Js.truthyStr k = true →
     ¬ (running sys i ∧ running sys j)) ∧
  (∀ k, Js.truthyStr k = true →
     (k ∈ lockerOf c (handlerState sys) ↔
      ∃ i a, invs !! i = Some a ∧ i_ignore a = false ∧ keyOf c a = Some k ∧
             running sys i)) ∧
  (∀ j b k, invs !! j = Some b → phases sys !! j = Some Parsed →
     i_ignore b = false → keyOf c b = Some k → Js.truthyStr k = true →
     if bool_decide (k ∈ lockerOf c (handlerState sys))
     then step h c invs sys (Enter j) =
            Some {| handlerState :=
                      emit (COMMAND_LOCKED (i_msg b) (cmd_id c)) (handlerState sys);
                    phases := <[j := Settled (Returns (Some true))]> (phases sys) |}
     else ∃ sys', step h c invs sys (Enter j) = Some sys' ∧
            phases sys' !! j = Some (Running (Some k)) ∧
            k ∈ lockerOf c (handlerState sys') ∧
            log (handlerState sys') =
              (log (handlerState sys) ++
               [Emit (COMMAND_STARTED (i_msg b) (cmd_id c) (VArgs (i_args b)));
                ExecCall (cmd_id c) (i_msg b) (VArgs (i_args b))])%list) ∧
  (∀ i a k out, invs !! i = Some a → i_ignore a = false →
     keyOf c a = Some k → Js.truthyStr k = true → running sys i →
     ∃ sys' r, step h c invs sys (Settle i out) = Some sys' ∧
       phases sys' !! i = Some (Settled r) ∧
       k ∉ lockerOf c (handlerState sys')) ∧
  (∀ m ignore f st,
     (dispatchArgs h m c ignore (VFlag f) st).1.2 = None ∧
     lockers (dispatchArgs h m c ignore (VFlag f) st).2 = lockers st).
Proof.
  intros HL Hrun.
  pose proof (run_consistent h c invs ls _ _ (start_consistent c st0 invs HL) Hrun)
    as ([L HLs] & Hiff & Huniq).
  pose proof (run_keyed h c invs ls _ _ (start_keyed c st0 invs) Hrun)
    as [Hlen Hkey].
  assert (HLo : lockerOf c (handlerState sys) = L)
    by (unfold lockerOf; by rewrite HLs).
  assert (Hheld : ∀ i a k, invs !! i = Some a → i_ignore a = false →
            keyOf c a = Some k → running sys i →
            phases sys !! i = Some (Running (Some k))).
  { intros i a k Ha Hig Hk [key Hi].
    rewrite (Hkey i a key Ha Hi), Hig, Hk in Hi. exact Hi. }
  split; [|split; [|split; [|split]]].
  - intros i j a b k Hne Ha Hb Higa Higb Hka Hkb Ht [Hi Hj].
    apply Hne. eapply (Huniq i j k Ht); eauto.
  - intros k Ht. rewrite (Hiff k Ht). split.
    + intros [i Hi].
      assert (Hlt : (i < length invs)%nat).
      { rewrite <- Hlen. by eapply lookup_lt_Some. }
      destruct (lookup_lt_is_Some_2 invs i Hlt) as [a Ha].
      pose proof (Hkey i a (Some k) Ha Hi) as Hk.
      destruct (i_ignore a) eqn:Hig; [done|].
      exists i, a. repeat split; try done. by exists (Some k).
    + intros (i & a & Ha & Hig & Hk & Hr). exists i. by eapply Hheld.
  - intros j b k Hb Hj Hig Hkey' Ht. rewrite HLo. simpl. rewrite Hb, Hj.
    destruct (enter_effect c b (handlerState sys) L HLs)
      as [(k' & _ & Hk' & _ & Hin & He)|[(k' & st' & _ & Hk' & _ & Hnin & He & Hl)|
          (key & st' & _ & [Hig'|Hf] & _)]].
    + rewrite Hkey' in Hk'. simplify_eq.
      rewrite bool_decide_eq_true_2 by done. by rewrite He.
    + rewrite Hkey' in Hk'. simplify_eq.
      rewrite bool_decide_eq_false_2 by done. rewrite He.
      eexists. split; [reflexivity|]. cbn. split; [|split].
      * apply list_lookup_insert_eq. by eapply lookup_lt_Some.
      * rewrite (lockerOf_insert _ _ _ _ Hl). set_solver.
      * by apply (enter_running_log _ _ _ _ _ He).
    + congruence.
    + rewrite Hkey' in Hf. simpl in Hf. congruence.
  - intros i a k out Ha Hig Hk Ht Hr.
    pose proof (Hheld i a k Ha Hig Hk Hr) as Hi. simpl. rewrite Ha, Hi.
    destruct (settle_effect h c a (Some k) out (handlerState sys) L HLs)
      as (r & st' & He & Hl). rewrite He.
    eexists _, r. split; [reflexivity|]. cbn. split.
    + apply list_lookup_insert_eq. by eapply lookup_lt_Some.
    + rewrite Ht in Hl. rewrite (lockerOf_insert _ _ _ _ Hl).
      rewrite elem_of_difference, elem_of_singleton. by intros [_ ?].
  - intros m ignore f st. apply flag_exit_holds_no_key.
Qed.

Import LockSamples.

(** The lock theorem at two invocations from the same guild, after the
    first has entered: both compute the key "g", the first is running
    the body under it, and the second, reaching its lock section, is
    answered with the [commandLocked] event and does not call the body. *)
Lemma lock_excludes_fromGuild :
  lockers constructed !! cmd_id perGuild = Some ∅ ∧
  run hl perGuild fromGuild (start constructed fromGuild) [Enter 0%nat] =
    Some (ranLabels fromGuild [Enter 0%nat]) ∧
  "g" ∈ lockerOf perGuild (handlerState (ranLabels fromGuild [Enter 0%nat])) ∧
  step hl perGuild fromGuild (ranLabels fromGuild [Enter 0%nat]) (Enter 1%nat) =
    Some {| handlerState :=
              emit (COMMAND_LOCKED (Samples.mkMsg "2" "v" "!slow" 0) "slow")
                (handlerState (ranLabels fromGuild [Enter 0%nat]));
            phases := [Running (Some "g"); Settled (Returns (Some true))] |}.
Proof.
  assert (H1 : lockers constructed !! cmd_id perGuild = Some ∅)
    by (vm_compute; reflexivity).
  assert (H2 : run hl perGuild fromGuild (start constructed fromGuild) [Enter 0%nat] =
               Some (ranLabels fromGuild [Enter 0%nat]))
    by (vm_compute; reflexivity).
  repeat (split; [assumption|]).
  destruct (lock_excludes hl perGuild fromGuild constructed [Enter 0%nat]
              (ranLabels fromGuild [Enter 0%nat]) H1 H2)
    as (_ & Hheld & Henter & _).
  assert (Hin : "g" ∈ lockerOf perGuild (handlerState (ranLabels fromGuild [Enter 0%nat]))).
  { apply (Hheld "g" eq_refl).
    exists 0%nat, {| i_msg := Samples.mkMsg "1" "u" "!slow" 0; i_args := [];
                     i_ignore := false |}.
    repeat split. by exists (Some "g"). }
  split; [exact Hin|].
  pose proof (Henter 1%nat
                {| i_msg := Samples.mkMsg "2" "v" "!slow" 0; i_args := [];
                   i_ignore := false |} "g" eq_refl eq_refl eq_refl eq_refl eq_refl)
    as Hstep.
  rewrite bool_decide_eq_true_2 in Hstep by exact Hin. exact Hstep.
Defined.

(** In that state the second invocation is answered with the
    [commandLocked] event and does not run the body. *)
Example second_from_guild_is_locked :
  phases (ranLabels fromGuild [Enter 0%nat; Enter 1%nat]) =
    [Running (Some "g"); Settled (Returns (Some true))] ∧
  last (log (handlerState (ranLabels fromGuild [Enter 0%nat; Enter 1%nat]))) =
    Some (Emit (COMMAND_LOCKED (Samples.mkMsg "2" "v" "!slow" 0) "slow")).
Proof. split; vm_compute; reflexivity. Qed.

(** C3, the claim as stated fails: the supplier of [perGuild] computes the
    same key, the empty string, for two direct messages; an empty key is
    never put in the locker, so both invocations run the body at once. *)
Lemma empty_key_does_not_lock : ¬ same_key_never_both_running.
Proof.
  intros Hclaim.
  assert (Hrun : run hl perGuild fromDms (start constructed fromDms)
                   [Enter 0%nat; Enter 1%nat] =
                 Some (ranLabels fromDms [Enter 0%nat; Enter 1%nat]))
    by (vm_compute; reflexivity).
  assert (Hlock : is_Some (lock perGuild)) by (simpl; eauto).
  assert (HL : lockers constructed !! cmd_id perGuild = Some ∅)
    by (vm_compute; reflexivity).
  assert (Hne : 0%nat ≠ 1%nat) by discriminate.
  exact (Hclaim hl perGuild fromDms constructed [Enter 0%nat; Enter 1%nat]
           (ranLabels fromDms [Enter 0%nat; Enter 1%nat]) 0%nat 1%nat
           {| i_msg := dm "1" "u"; i_args := []; i_ignore := false |}
           {| i_msg := dm "2" "v"; i_args := []; i_ignore := false |}
           (Some "") (Some "") Hlock HL Hrun Hne eq_refl eq_refl eq_refl eq_refl
           eq_refl eq_refl eq_refl).
Qed.

End LockFacts.

(** ** Context menu commands *)

Module ContextMenuFacts.
Import ContextMenu.

(** C10. A context menu interaction that matches a loaded command marked
    owner-only (or super-user-only), invoked by a user who is not an owner
    (or super user): [handle] emits the blocked event and still calls the
    command's [exec]; when [exec] does not throw the finished event
    follows and the call resolves with true. *)
Theorem blocked_yet_executed h interaction command ret log :
  List.find (fun module => String.eqb (name module) (commandName interaction))
    (cm_modules h) = Some command →
  restricted h command interaction →
  cm_exec command interaction = Returns ret →
  ∃ blocked,
    blocked ≠ [] ∧
    Forall (fun ef => ∃ r, ef = CmEmit (CM_BLOCKED interaction (cm_id command) r))
      blocked ∧
    handle h interaction log =
      (Returns true,
       (log ++ blocked ++
        [CmEmit (CM_STARTED interaction (cm_id command));
         CmExec (cm_id command) interaction;
         CmEmit (CM_FINISHED interaction (cm_id command) ret)])%list).
Proof.
  intros Hfind Hres Hexec. unfold handle. rewrite Hfind, Hexec.
  set (o := cm_ownerOnly command &&
            negb (Client.isOwner (cm_ownerID h) (Some (user interaction)))).
  set (s := cm_superUserOnly command &&
            negb (Client.isSuperUser (cm_superUserID h) (cm_ownerID h)
                    (Some (user interaction)))).
  assert (Hos : o = true ∨ s = true).
  { subst o s. destruct Hres as [[-> ->]|[-> ->]]; [by left|by right]. }
  destruct o, s.
  - exists [CmEmit (CM_BLOCKED interaction (cm_id command) OWNER);
            CmEmit (CM_BLOCKED interaction (cm_id command) SUPER_USER)].
    split; [done|]. split; [repeat constructor; eauto|].
    by rewrite <- !app_assoc.
  - exists [CmEmit (CM_BLOCKED interaction (cm_id command) OWNER)].
    split; [done|]. split; [repeat constructor; eauto|].
    by rewrite <- !app_assoc.
  - exists [CmEmit (CM_BLOCKED interaction (cm_id command) SUPER_USER)].
    split; [done|]. split; [repeat constructor; eauto|].
    by rewrite <- !app_assoc.
  - by destruct Hos.
Qed.

Import ContextMenuSamples.

(** The theorem at a guest picking the owner-only "Secret". *)
Lemma blocked_yet_executed_byGuest :
  List.find (fun module => String.eqb (name module) (commandName byGuest))
    (cm_modules menus) = Some secret ∧
  restricted menus secret byGuest ∧
  cm_exec secret byGuest = Returns "revealed" ∧
  ∃ blocked,
    blocked ≠ [] ∧
    Forall (fun ef => ∃ r, ef = CmEmit (CM_BLOCKED byGuest (cm_id secret) r)) blocked ∧
    handle menus byGuest [] =
      (Returns true,
       ([] ++ blocked ++
        [CmEmit (CM_STARTED byGuest (cm_id secret));
         CmExec (cm_id secret) byGuest;
         CmEmit (CM_FINISHED byGuest (cm_id secret) "revealed")])%list).
Proof.
  assert (H1 : List.find (fun module => String.eqb (name module) (commandName byGuest))
                 (cm_modules menus) = Some secret) by reflexivity.
  assert (H2 : restricted menus secret byGuest) by (left; split; reflexivity).
  assert (H3 : cm_exec secret byGuest = Returns "revealed") by reflexivity.
  repeat (split; [assumption|]).
  exact (blocked_yet_executed menus byGuest secret "revealed" [] H1 H2 H3).
Defined.

Example guest_runs_secret :
  handle menus byGuest [] =
    (Returns true,
     [CmEmit (CM_BLOCKED byGuest "secret" OWNER);
      CmEmit (CM_STARTED byGuest "secret");
      CmExec "secret" byGuest;
      CmEmit (CM_FINISHED byGuest "secret" "revealed")]).
Proof. reflexivity. Qed.

End ContextMenuFacts.

(** ** Built-in argument types *)

Module TypeFacts.
Import Types.

(** On the empty phrase the casters return null. *)
Lemma empty_phrase_null :
  STRING "" = Returns None ∧ LOWERCASE "" = Returns None ∧
  BIGINT "" = Returns None.
Proof. repeat split. Qed.

(** A phrase that is not a number at all is refused by the guard of the
    bigint caster. *)
Lemma BIGINT_not_a_number phrase :
  isNaN_number phrase = true → BIGINT phrase = Returns None.
Proof. intros H. unfold BIGINT. rewrite H. by rewrite orb_true_r. Qed.

(** C8. The bigint caster does not fail closed on every unparseable
    phrase: "1.5" is a number, so the guard [isNaN(+phrase)] lets it
    through, and [BigInt("1.5")] throws a SyntaxError instead of the
    caster returning null. *)
Theorem BIGINT_throws_on_fraction :
  isNaN_number "1.5" = false ∧
  BIGINT "1.5" = Throws "SyntaxError: Cannot convert to a BigInt".
Proof. split; reflexivity. Qed.

(** The same for an exponent, for Infinity and for a leading dot. *)
Example BIGINT_throws_more :
  map BIGINT ["1e3"; "Infinity"; ".5"] =
    [Throws "SyntaxError: Cannot convert to a BigInt";
     Throws "SyntaxError: Cannot convert to a BigInt";
     Throws "SyntaxError: Cannot convert to a BigInt"].
Proof. reflexivity. Qed.

Example BIGINT_accepts :
  map BIGINT ["12"; "-7"; "0x1F"; " 42 "] =
    [Returns (Some 12); Returns (Some (-7)); Returns (Some 31); Returns (Some 42)].
Proof. reflexivity. Qed.

End TypeFacts.

(** * Further properties of dispatch *)

Module DispatchMore.
Import Dispatch DispatchInv.











Import Samples DispatchSamples DispatchMoreSamples.


End DispatchMore.
Module LockMore.
Import Dispatch.

Lemma lockers_setEntry u cid v st : lockers (Cooldown.setEntry u cid v st) = lockers st.
Proof. unfold Cooldown.setEntry. by destruct (cooldowns st !! u). Qed.

Lemma lockers_ensureUser u st : lockers (Cooldown.ensureUser u st) = lockers st.
Proof. unfold Cooldown.ensureUser. by destruct (cooldowns st !! u). Qed.

Lemma lockers_runCooldowns h m c st : lockers (Cooldown.runCooldowns h m c st).2 = lockers st.
Proof.
  unfold Cooldown.runCooldowns.
  destruct (Cooldown.isIgnored h m c); [done|].
  destruct (Cooldown.timeOf h c =? 0); [done|].
  destruct (Cooldown.inheritedAt _ _ _); [simpl; apply lockers_ensureUser|].
  destruct (Cooldown.entryOf _ _ _) as [e|]; simpl.
  - destruct (ratelimit c <=? uses e); simpl;
      rewrite ?lockers_setEntry; apply lockers_ensureUser.
  - destruct (ratelimit c <=? 0); simpl;
      rewrite ?lockers_setEntry; simpl; apply lockers_ensureUser.
Qed.

Lemma lockers_runPermissionChecks h m c st : lockers (runPermissionChecks h m c st).2 = lockers st.
Proof.
  unfold runPermissionChecks.
  by destruct (missingPermissions h m c) as [[[who missing]|]|].
Qed.

Lemma lockers_reasonThenCooldown h m c reason st :
  lockers (reasonThenCooldown h m c reason st).2 = lockers st.
Proof.
  unfold reasonThenCooldown. destruct reason; [done|].
  pose proof (lockers_runCooldowns h m c st) as H.
  by destruct (Cooldown.runCooldowns h m c st).
Qed.

Lemma lockers_runPostTypeInhibitors h m command st :
  lockers (runPostTypeInhibitors h m command st).2 = lockers st.
Proof.
  unfold runPostTypeInhibitors.
  destruct (skipBuiltInPostInhibitors h).
  - destruct (inhibitorTest h "post" m command) as [[r|]|]; [done| |done].
    destruct command as [c|]; [|done].
    pose proof (lockers_runPermissionChecks h m c st) as H1.
    destruct (runPermissionChecks h m c st) as [[[|]|] st1]; simpl in *; [done| |done].
    transitivity (lockers st1);
      [exact (lockers_reasonThenCooldown h m c None st1)|exact H1].
  - destruct command as [c|]; [|done].
    destruct (builtInBlock h m c); [done|].
    pose proof (lockers_runPermissionChecks h m c st) as H1.
    destruct (runPermissionChecks h m c st) as [[[|]|] st1]; simpl in *; [done| |done].
    destruct (inhibitorTest h "post" m (Some c)) as [reason|]; [|done].
    transitivity (lockers st1);
      [exact (lockers_reasonThenCooldown h m c reason st1)|exact H1].
Qed.

Lemma lockers_gates h m command ignore st : lockers (gates h m command ignore st).2 = lockers st.
Proof.
  unfold gates. destruct ignore; [done|].
  destruct (if edited m then _ else _) as [[|]|]; [done| |done].
  pose proof (lockers_runPostTypeInhibitors h m command st) as H.
  by destruct (runPostTypeInhibitors h m command st) as [[[|]|] st1].
Qed.

Lemma lockers_runCommand m command args st : lockers (runCommand m command args st).2 = lockers st.
Proof.
  unfold runCommand. destruct command as [c|]; [|done].
  by destruct (exec c m args).
Qed.

Lemma lockers_emitError h e m c st : lockers (emitError h e m c st).2 = lockers st.
Proof. unfold emitError. by destruct (0 <? errorListeners h)%nat. Qed.

(** The lock section followed by the [finally] block puts the lock sets
    back, whatever ran in between left them alone. *)
Lemma acquire_release m c args ignore st key st1 st2 :
  acquire m c args ignore st = (Holding key, st1) →
  lockers st2 = lockers st1 →
  lockers (release (Some c) key st2) = lockers st.
Proof.
  unfold acquire, release. intros H Hs.
  destruct ignore; [by simplify_eq|].
  destruct (match lock c with Some _ => _ | None => _ end) as [k|];
    [|by simplify_eq].
  destruct (Js.truthyStr k) eqn:Hk; [|simplify_eq; by rewrite Hk].
  destruct (lockers st !! cmd_id c) as [locker|] eqn:Hl.
  - destruct (bool_decide (k ∈ locker)) eqn:Hin; [done|].
    apply bool_decide_eq_false in Hin.
    assert (key = Some k ∧
            st1 = with_lockers st (<[cmd_id c := {[k]} ∪ locker]> (lockers st)))
      as [-> ->] by (split; congruence).
    clear H. rewrite Hk, Hs. simpl.
    rewrite lookup_insert_eq. simpl. rewrite insert_insert_eq.
    assert (Hd : ({[k]} ∪ locker) ∖ {[k]} = locker) by set_solver.
    rewrite Hd. by apply insert_id.
  - assert (key = Some k ∧ st1 = st) as [-> ->] by (split; congruence).
    rewrite Hk, Hs, Hl. exact Hs.
Qed.

Lemma lockers_acquire_locked m c args ignore st st1 :
  acquire m c args ignore st = (Locked, st1) → lockers st1 = lockers st.
Proof.
  unfold acquire. destruct ignore; [done|].
  destruct (match lock c with Some _ => _ | None => _ end) as [k|]; [|done].
  destruct (Js.truthyStr k); [|done].
  destruct (lockers st !! cmd_id c) as [locker|]; [|done].
  destruct (bool_decide (k ∈ locker)); [|done]. intros H. by simplify_eq.
Qed.

Lemma release_ext command key st st' :
  lockers st' = lockers st → lockers (release command key st') = lockers (release command key st).
Proof.
  unfold release. intros H. destruct key as [k|]; [|done].
  destruct (Js.truthyStr k); [|done]. destruct command as [c|]; [|done].
  rewrite H. by destruct (lockers st !! cmd_id c).
Qed.

Lemma tryBlock_release h m content command ignore st :
  let '(exit, key, st1) := tryBlock h m content command ignore st in
  lockers (release command key st1) = lockers st.
Proof.
  unfold tryBlock.
  pose proof (lockers_gates h m command ignore st) as Hg.
  destruct (gates h m command ignore st) as [[exit|] st1]; simpl in *; [done|].
  destruct command as [c|]; [|done].
  destruct (before c m); [|done].
  destruct (parse c m content) as [args|]; [|done].
  destruct args as [[|m'|name ign rest]|fields]; simpl; try done.
  rewrite DispatchFacts.dispatchArgs_fields.
  destruct (acquire m c (VArgs fields) ignore st1) as [[|key] st2] eqn:Ha.
  - simpl. apply lockers_acquire_locked in Ha. congruence.
  - pose proof (lockers_runCommand m (Some c) (VArgs fields) st2) as Hr.
    destruct (runCommand m (Some c) (VArgs fields) st2) as [[|] st3];
      simpl in Hr; rewrite <- Hg; by eapply acquire_release.
Qed.

Lemma lockers_runMatched h m c args st : lockers (runMatched h m c args st).2 = lockers st.
Proof.
  unfold runMatched.
  pose proof (lockers_runPostTypeInhibitors h m (Some c) st) as Hp.
  destruct (runPostTypeInhibitors h m (Some c) st) as [[[|]|e] st1]; simpl in Hp.
  - done.
  - destruct (before c m) as [u|e].
    + pose proof (lockers_runCommand m (Some c) args st1) as Hr.
      destruct (runCommand m (Some c) args st1) as [[u'|e] st2]; simpl in Hr.
      * simpl. congruence.
      * rewrite lockers_emitError. congruence.
    + by rewrite lockers_emitError.
  - by rewrite lockers_emitError.
Qed.

Lemma lockers_runPromises h m : ∀ matched st, lockers (runPromises h m matched st).2 = lockers st.
Proof.
  induction matched as [|[c args] rest IH]; intros st; simpl; [done|].
  pose proof (lockers_runMatched h m c args st) as H1.
  destruct (runMatched h m c args st) as [r1 st1]. simpl in H1.
  pose proof (IH st1) as H2.
  destruct (runPromises h m rest st1) as [r2 st2]. simpl in *. congruence.
Qed.

Lemma lockers_handleRegexAndConditionalCommands h m st :
  lockers (handleRegexAndConditionalCommands h m st).2 = lockers st.
Proof.
  assert (Hrx : ∀ s, lockers (handleRegexCommands h m s).2 = lockers s).
  { intros s. unfold handleRegexCommands.
    destruct (inTurn _) as [found|e]; [|done].
    destruct (omap _ found) as [|cv rest]; [done|].
    pose proof (lockers_runPromises h m (cv :: rest) s) as Hr.
    by destruct (runPromises h m (cv :: rest) s) as [[|] st1]. }
  assert (Hc : ∀ s, lockers (handleConditionalCommands h m s).2 = lockers s).
  { intros s. unfold handleConditionalCommands.
    destruct (Promise.result (Promise.all _)) as [found|e]; [|done].
    destruct (omap _ _) as [|cv rest]; [done|].
    pose proof (lockers_runPromises h m (cv :: rest) s) as Hr.
    by destruct (runPromises h m (cv :: rest) s) as [[|] st1]. }
  unfold handleRegexAndConditionalCommands.
  pose proof (Hrx st) as H1.
  destruct (handleRegexCommands h m st) as [[ran1|e] st1]; simpl in H1; [|done].
  pose proof (Hc st1) as H2.
  destruct (handleConditionalCommands h m st1) as [[ran2|e] st2]; simpl in *;
    congruence.
Qed.

Lemma lockers_runAllTypeInhibitors h m slash st :
  lockers (runAllTypeInhibitors h m slash st).2 = lockers st.
Proof.
  unfold runAllTypeInhibitors.
  destruct (inhibitorTest h "all" m None) as [[r|]|]; [done| |done].
  destruct (author m) as [a|]; [|done].
  destruct (blockClient h && _); [done|].
  destruct (blockBots h && _); [done|].
  by destruct (negb slash && hasPrompt h m).
Qed.

Lemma lockers_runPreTypeInhibitors h m st : lockers (runPreTypeInhibitors h m st).2 = lockers st.
Proof.
  unfold runPreTypeInhibitors.
  by destruct (inhibitorTest h "pre" m None) as [[r|]|].
Qed.

Lemma lockers_handleWith direct h m st r st' :
  (∀ m' content command ignore st0 r0 st0',
     direct m' content command ignore st0 = Some (r0, st0') → lockers st0' = lockers st0) →
  handleWith direct h m st = Some (r, st') → lockers st' = lockers st.
Proof.
  intros Hdirect. unfold handleWith.
  assert (Hcaught : ∀ e st0 r0 st0',
    Some (catchError h m None e st0) = Some (r0, st0') → lockers st0' = lockers st0).
  { intros e st0 r0 st0' H. pose proof (LockFacts.lockers_catchError h m None e st0) as He.
    simplify_eq. by rewrite H in He. }
  pose proof (lockers_runAllTypeInhibitors h m false st) as Hall.
  destruct (runAllTypeInhibitors h m false st) as [[[|]|e] st1]; simpl in Hall.
  - intros H. by simplify_eq.
  - set (st2 := if commandUtil h then _ else st1).
    assert (H12 : lockers st2 = lockers st).
    { subst st2. by destruct (commandUtil h). }
    pose proof (lockers_runPreTypeInhibitors h m st2) as Hpre.
    destruct (runPreTypeInhibitors h m st2) as [[[|]|e] st3]; simpl in Hpre.
    + intros H. simplify_eq. congruence.
    + destruct (Prefix.p_command _) as [c|].
      * destruct (slashOnly c); [intros H; simplify_eq; simpl; congruence|].
        destruct (direct m _ (Some c) false st3) as [[[[[|]|]|e] st4]|] eqn:Hd;
          intros H; try done; apply Hdirect in Hd.
        -- simplify_eq. congruence.
        -- simplify_eq. simpl. congruence.
        -- simplify_eq. congruence.
        -- apply Hcaught in H. congruence.
      * pose proof (lockers_handleRegexAndConditionalCommands h m st3) as Hrx.
        destruct (handleRegexAndConditionalCommands h m st3) as [[[|]|e] st4];
          simpl in Hrx; intros H.
        -- simplify_eq. congruence.
        -- simplify_eq. simpl. congruence.
        -- apply Hcaught in H. congruence.
    + intros H. apply Hcaught in H. congruence.
  - intros H. apply Hcaught in H. congruence.
Qed.

Lemma lockers_handleDirectCommand h fuel :
  ∀ m content command ignore st r st',
    handleDirectCommand fuel h m content command ignore st = Some (r, st') →
    lockers st' = lockers st.
Proof.
  induction fuel as [|n IH]; intros m content command ignore st r st' H; [done|].
  simpl in H. pose proof (tryBlock_release h m content command ignore st) as Ht.
  destruct (tryBlock h m content command ignore st) as [[exit key] st1].
  destruct exit as [v|e|m'|content' command' ignore'].
  - by simplify_eq.
  - pose proof (LockFacts.lockers_catchError h m (cmd_id <$> command) e st1) as He.
    destruct (catchError h m (cmd_id <$> command) e st1) as [r0 st2].
    simplify_eq. simpl in He. rewrite <- Ht. by apply release_ext.
  - rewrite <- Ht. eapply lockers_handleWith; [|exact H]. exact IH.
  - rewrite <- Ht. by eapply IH.
Qed.

(** X2. Every call of [handleDirectCommand] or [handle] that settles
    leaves the lock set of every command as it found it: a key the call
    added is removed again by the [finally] block, whether the command
    returned, threw, or the error was thrown on; a call that found its
    key held, or ended in a Flag, removes nothing. *)
Theorem locks_left_as_found h fuel m content command ignore st r st' :
  handleDirectCommand fuel h m content command ignore st = Some (r, st') ∨
  handle fuel h m st = Some (r, st') →
  lockers st' = lockers st.
Proof.
  intros [H|H].
  - by eapply lockers_handleDirectCommand.
  - unfold handle in H.
    eapply lockers_handleWith; [|exact H]. apply lockers_handleDirectCommand.
Qed.

Import Samples LockSamples DispatchMoreSamples.

Lemma locks_left_as_found_slow :
  handleDirectCommand 1 hl slowMsg "" (Some perGuild) false constructed =
    Some (Returns (Some true), ranSlow) ∧
  lockers ranSlow = lockers constructed.
Proof.
  assert (H : handleDirectCommand 1 hl slowMsg "" (Some perGuild) false constructed =
              Some (Returns (Some true), ranSlow)) by (vm_compute; reflexivity).
  split; [exact H|].
  exact (locks_left_as_found hl 1 slowMsg "" (Some perGuild) false constructed
           (Returns (Some true)) ranSlow (or_introl H)).
Defined.

End LockMore.

Module FallbackFacts.
Import Dispatch Fallback.







Import Samples DispatchSamples FallbackSamples.


Example guarded_greeter_does_not_run :
  log (handleRegexAndConditionalCommands guarded helloMsg initial).2 =
    [Emit (COMMAND_BLOCKED helloMsg (Some "greet") (Custom "closed"))].
Proof. vm_compute. reflexivity. Qed.

End FallbackFacts.

Module CooldownMore.
Import Cooldown CooldownInv CooldownMoreInv CooldownFacts.

Lemma keeps_refl st : keeps st st.
Proof. intros u obj H. by exists obj. Qed.

Lemma keeps_trans st1 st2 st3 : keeps st1 st2 → keeps st2 st3 → keeps st1 st3.
Proof.
  intros H12 H23 u obj H. destruct (H12 u obj H) as (obj2 & H2 & Hsub2).
  destruct (H23 u obj2 H2) as (obj3 & H3 & Hsub3).
  exists obj3. split; [done|]. set_solver.
Qed.

Lemma keeps_same st st' : cooldowns st' = cooldowns st → keeps st st'.
Proof. intros Heq u obj H. exists obj. by rewrite Heq. Qed.

Lemma keeps_ensureUser u st : keeps st (ensureUser u st).
Proof.
  unfold ensureUser. destruct (cooldowns st !! u) eqn:E; [apply keeps_refl|].
  intros u' obj H. exists obj. split; [|done]. simpl.
  rewrite lookup_insert_ne; [done|]. intros <-. congruence.
Qed.

Lemma keeps_setEntry u cid v st : keeps st (setEntry u cid v st).
Proof.
  unfold setEntry. destruct (cooldowns st !! u) as [obj|] eqn:E; [|apply keeps_refl].
  intros u' obj' H. simpl. destruct (decide (u' = u)) as [->|Hne].
  - rewrite lookup_insert_eq. eexists. split; [done|].
    assert (obj' = obj) as -> by congruence. rewrite dom_insert_L. set_solver.
  - rewrite lookup_insert_ne by done. by exists obj'.
Qed.

Lemma keeps_runCooldowns h m c st : keeps st (runCooldowns h m c st).2.
Proof.
  unfold runCooldowns.
  destruct (isIgnored h m c); [apply keeps_refl|].
  destruct (timeOf h c =? 0); [apply keeps_refl|].
  destruct (inheritedAt _ _ _); [simpl; apply keeps_ensureUser|].
  destruct (entryOf _ _ _) as [e|]; simpl.
  - destruct (ratelimit c <=? uses e); simpl.
    + eapply keeps_trans; [apply keeps_ensureUser|by apply keeps_same].
    + eapply keeps_trans; [apply keeps_ensureUser|apply keeps_setEntry].
  - assert (H0 : keeps st
        (setEntry (author_id m) (cmd_id c)
           (Some {| timer := nextTimer (ensureUser (author_id m) st);
                    end_ := createdTimestamp m + timeOf h c; uses := 0 |})
           (setTimeout (author_id m) (cmd_id c) (timeOf h c)
              (ensureUser (author_id m) st)).2)).
    { eapply keeps_trans; [apply keeps_ensureUser|].
      eapply keeps_trans; [|apply keeps_setEntry]. by apply keeps_same. }
    destruct (ratelimit c <=? 0); simpl.
    + eapply keeps_trans; [exact H0|by apply keeps_same].
    + eapply keeps_trans; [exact H0|apply keeps_setEntry].
Qed.

(** The expiry callback sets the key to null and so never finds the
    user's object without keys: nothing is deleted. *)
Lemma keeps_expire id cid st : keeps st (expire id cid st).
Proof.
  destruct (cooldowns st !! id) as [obj|] eqn:Hobj.
  - rewrite (expire_unfold _ _ _ _ Hobj).
    intros u obj' H. simpl. destruct (decide (u = id)) as [->|Hne].
    + rewrite lookup_insert_eq. eexists. split; [done|].
      assert (obj' = obj) as -> by congruence. rewrite dom_insert_L. set_solver.
    + rewrite lookup_insert_ne by done. by exists obj'.
  - unfold expire. rewrite Hobj. apply keeps_refl.
Qed.

Lemma keeps_step h st a os st' : step h st a = Some (os, st') → keeps st st'.
Proof.
  destruct a as [dt|t id cid|m c]; simpl.
  - destruct (0 <=? dt); [|done]. intros H. simplify_eq. by apply keeps_same.
  - destruct (timers st !! t) as [tm|]; [|done].
    destruct (_ && _); [|done]. intros H. simplify_eq.
    eapply keeps_trans; [|apply keeps_expire]. by apply keeps_same.
  - pose proof (keeps_runCooldowns h m c st) as H.
    destruct (runCooldowns h m c st) as [b st1]. intros H'. by simplify_eq.
Qed.

(** X4. The cooldown table never forgets: once a user has an object in
    [cooldowns], no sequence of calls, timer expiries and time steps
    removes the object or any of its keys.  The expiry callback sets the
    command's key to null before it looks for keys, so its
    [this.cooldowns.delete(id)] is never reached. *)
Theorem cooldown_object_never_dropped h acts : ∀ st outs st' u obj,
  run h st acts = Some (outs, st') →
  cooldowns st !! u = Some obj →
  ∃ obj', cooldowns st' !! u = Some obj' ∧ dom obj ⊆ dom obj'.
Proof.
  induction acts as [|a acts IH]; intros st outs st' u obj Hrun Hobj; simpl in Hrun.
  - simplify_eq. by exists obj.
  - destruct (step h st a) as [[o1 st1]|] eqn:Hs; [|done].
    destruct (run h st1 acts) as [[o2 st2]|] eqn:Hr; [|done]. simplify_eq.
    destruct (keeps_step _ _ _ _ _ Hs u obj Hobj) as (obj1 & H1 & Hsub1).
    destruct (IH _ _ _ _ _ Hr H1) as (obj2 & H2 & Hsub2).
    exists obj2. split; [done|]. set_solver.
Qed.

(** X5. A cooldown that expired starts again: when the timer of a live
    entry is due and fires, the user's next use of the command is
    allowed, however many uses the old entry had counted, and opens a new
    window with one use counted, ending one cooldown after that
    message's timestamp, under a new timer.  The timer is due after the
    delay the host waits for the cooldown: the cooldown itself from 1 ms
    to 2^31 - 1 ms, and 1 ms for any other. *)
Theorem expired_cooldown_starts_again h st u c e tm m :
  live st u (cmd_id c) e tm →
  due tm ≤ now st →
  author_id m = u →
  isIgnored h m c = false →
  timeOf h c ≠ 0 →
  0 < ratelimit c →
  ∃ o st',
    run h st [Fire (timer e) u (cmd_id c); Call m c] = Some ([o], st') ∧
    o_blocked o = false ∧ o_emitted o = [] ∧
    entryOf st' u (cmd_id c) =
      Some {| timer := nextTimer st;
              end_ := createdTimestamp m + timeOf h c; uses := 1 |} ∧
    timers st' !! nextTimer st =
      Some {| due := now st + Js.timerDelay (timeOf h c); t_user := u;
              t_cmd := cmd_id c |}.
Proof.
  intros Hlive Hdue <- Hig Ht Hrl. destruct Hlive as (He & Htm & Hu & Hc).
  set (u := author_id m). fold u in He, Hu.
  set (st1 := expire u (cmd_id c) (clearTimeout (timer e) st)).
  assert (Hstep : step h st (Fire (timer e) u (cmd_id c)) = Some ([], st1)).
  { simpl. rewrite Htm.
    rewrite bool_decide_eq_true_2 by done.
    destruct (Z.leb_spec (due tm) (now st)); [done|lia]. }
  assert (He1 : entryOf st1 u (cmd_id c) = None) by apply expire_clears.
  assert (Hn1 : nextTimer st1 = nextTimer st).
  { subst st1. by rewrite nextTimer_expire. }
  assert (Hnow1 : now st1 = now st).
  { subst st1. by rewrite now_expire. }
  assert (Hown : inheritedAt (ensureUser u st1) u (cmd_id c) = false).
  { assert (Hobj : is_Some (cooldowns (clearTimeout (timer e) st) !! u)).
    { unfold entryOf in He. simpl. destruct (cooldowns st !! u); [eauto|done]. }
    destruct Hobj as [obj Hobj]. subst st1.
    rewrite (expire_unfold _ _ _ _ Hobj).
    eapply inheritedAt_ensureUser_own.
    - cbn. apply lookup_insert_eq.
    - apply lookup_insert_eq. }
  pose proof (runCooldowns_fresh h m c st1 Hig Ht He1 Hown) as Hrun.
  cbv zeta in Hrun. fold u in Hrun.
  destruct (Z.leb_spec (ratelimit c) 0) as [|_]; [lia|].
  pose proof (created_entry h m c st1) as Hce. cbv zeta in Hce. fold u in Hce.
  destruct Hce as ([obj Hobj] & He0 & Hlog0 & _ & Hnext & Htimers & _).
  eexists _, _. split.
  { cbn [run]. rewrite Hstep. cbn [run step]. rewrite Hrun. reflexivity. }
  cbn [o_blocked o_emitted]. split; [done|]. split.
  { rewrite log_setEntry, Hlog0. apply drop_log_same. }
  split.
  - rewrite (entryOf_setEntry_eq _ _ _ _ _ Hobj). unfold incUses. simpl.
    by rewrite Hn1.
  - rewrite timers_setEntry, Htimers, Hn1, lookup_insert_eq. by rewrite Hnow1.
Qed.

(** X6. Keys do not interfere: calls by other users or for other commands,
    the timers of other keys and the passing of time leave the entry of
    a user for a command as it is. *)
Theorem other_keys_leave_entry h u cid acts : ∀ st outs st',
  Forall (foreign u cid) acts →
  run h st acts = Some (outs, st') →
  entryOf st' u cid = entryOf st u cid.
Proof.
  induction acts as [|a acts IH]; intros st outs st' Hf Hrun; simpl in Hrun.
  - by simplify_eq.
  - apply Forall_cons in Hf as [Ha Hf].
    destruct (step h st a) as [[o1 st1]|] eqn:Hs; [|done].
    destruct (run h st1 acts) as [[o2 st2]|] eqn:Hr; [|done]. simplify_eq.
    rewrite (IH _ _ _ Hf Hr).
    destruct a as [dt|t id cid'|m c]; simpl in Hs, Ha.
    + destruct (0 <=? dt); [|done]. simplify_eq. apply entryOf_with_now.
    + destruct (timers st !! t) as [tm|]; [|done].
      destruct (_ && _); [|done]. simplify_eq.
      rewrite expire_frame by done. apply entryOf_with_timers.
    + pose proof (runCooldowns_frame h m c st u cid Ha) as H.
      destruct (runCooldowns h m c st) as [b st1']. by simplify_eq.
Qed.

Import Samples CooldownMoreSamples.

(** The first theorem at [late_use], from the state after its first use:
    the timer has fired, the object of user [u] is still there. *)
Lemma cooldown_object_never_dropped_late_use :
  run h1 first_used (tail late_use) =
    Some ((ranFrom h1 first_used (tail late_use)).1, fired) ∧
  cooldowns first_used !! Some "u" = Some (cooldowns first_used !!! Some "u") ∧
  ∃ obj', cooldowns fired !! Some "u" = Some obj' ∧
          dom (cooldowns first_used !!! Some "u") ⊆ dom obj'.
Proof.
  assert (H1 : run h1 first_used (tail late_use) =
               Some ((ranFrom h1 first_used (tail late_use)).1, fired))
    by (vm_compute; reflexivity).
  assert (H2 : cooldowns first_used !! Some "u" =
               Some (cooldowns first_used !!! Some "u"))
    by (vm_compute; reflexivity).
  repeat (split; [assumption|]).
  exact (cooldown_object_never_dropped h1 (tail late_use) first_used _ fired
           (Some "u") _ H1 H2).
Defined.

Example fired_entry_is_null :
  cooldowns fired !! Some "u" = Some {["a" := None]}.
Proof. vm_compute. reflexivity. Qed.

(** The second theorem at [once], used up by [u] and a cooldown later. *)
Lemma expired_cooldown_starts_again_once :
  live exhausted (Some "u") (cmd_id once)
    {| timer := 0; end_ := 1000; uses := 1 |}
    {| due := 1000; t_user := Some "u"; t_cmd := "once" |} ∧
  1000 ≤ now exhausted ∧
  ∃ o st',
    run h1 exhausted [Fire 0%nat (Some "u") "once";
                      Call (mkMsg "2" "u" "!once" 1000) once] = Some ([o], st') ∧
    o_blocked o = false ∧ o_emitted o = [] ∧
    entryOf st' (Some "u") "once" =
      Some {| timer := 1; end_ := 2000; uses := 1 |} ∧
    timers st' !! 1%nat =
      Some {| due := 2000; t_user := Some "u"; t_cmd := "once" |}.
Proof.
  assert (H1 : live exhausted (Some "u") (cmd_id once)
                 {| timer := 0; end_ := 1000; uses := 1 |}
                 {| due := 1000; t_user := Some "u"; t_cmd := "once" |})
    by (repeat split; vm_compute; reflexivity).
  assert (H2 : 1000 ≤ now exhausted) by (vm_compute; congruence).
  repeat (split; [assumption|]).
  exact (expired_cooldown_starts_again h1 exhausted (Some "u") once _ _
           (mkMsg "2" "u" "!once" 1000) H1 H2 eq_refl eq_refl
           ltac:(vm_compute; congruence) ltac:(vm_compute; reflexivity)).
Defined.

(** The third theorem: what [v] does with [a], and [u] with [once], leaves
    the entry of [u] for [a] alone. *)
Lemma other_keys_leave_entry_others :
  Forall (foreign (Some "u") "a") others ∧
  run h1 first_used others = Some (ranFrom h1 first_used others) ∧
  entryOf (ranFrom h1 first_used others).2 (Some "u") "a" =
    entryOf first_used (Some "u") "a".
Proof.
  assert (H1 : Forall (foreign (Some "u") "a") others).
  { repeat constructor; simpl; intros [? ?]; discriminate. }
  assert (H2 : run h1 first_used others =
               Some ((ranFrom h1 first_used others).1, (ranFrom h1 first_used others).2))
    by (vm_compute; reflexivity).
  split; [assumption|]. split; [vm_compute; reflexivity|].
  exact (other_keys_leave_entry h1 (Some "u") "a" others first_used _ _ H1 H2).
Defined.

End CooldownMore.

(** * Further properties of prefix parsing *)

Module StringFacts.
Import Shape.

Lemma append_cons c s t : (String c s ++ t)%string = String c (s ++ t)%string.
Proof. reflexivity. Qed.

Lemma append_nil_l s : ("" ++ s)%string = s.
Proof. reflexivity. Qed.

Lemma append_nil_r s : (s ++ "")%string = s.
Proof. induction s as [|c s IH]; [done|]. by rewrite append_cons, IH. Qed.

Lemma append_assoc a b c : ((a ++ b) ++ c)%string = (a ++ (b ++ c))%string.
Proof. induction a as [|x a IH]; [reflexivity|]. by rewrite !append_cons, IH. Qed.

Lemma length_append a b : Js.length (a ++ b) = Js.length a + Js.length b.
Proof.
  unfold Js.length. induction a as [|x a IH]; [rewrite append_nil_l; simpl; lia|].
  rewrite append_cons. cbn [String.length]. rewrite !Nat2Z.inj_succ. lia.
Qed.

Lemma length_nonneg s : 0 ≤ Js.length s.
Proof. unfold Js.length. lia. Qed.

Lemma toLowerCase_append a b :
  Js.toLowerCase (a ++ b) = (Js.toLowerCase a ++ Js.toLowerCase b)%string.
Proof.
  induction a as [|x a IH]; [reflexivity|].
  rewrite append_cons. cbn [Js.toLowerCase]. by rewrite append_cons, IH.
Qed.

Lemma toLowerCase_length s : Js.length (Js.toLowerCase s) = Js.length s.
Proof.
  unfold Js.length. f_equal. induction s as [|x s IH]; [done|].
  cbn [Js.toLowerCase String.length]. by rewrite IH.
Qed.

Lemma startsWith_append a b : Js.startsWith (a ++ b) a = true.
Proof.
  induction a as [|x a IH]; [rewrite append_nil_l; by destruct b|].
  rewrite append_cons. cbn [Js.startsWith]. by rewrite Ascii.eqb_refl.
Qed.

Lemma drop_append a b : Js.drop (String.length a) (a ++ b) = b.
Proof.
  induction a as [|x a IH]; [rewrite append_nil_l; by destruct b|].
  rewrite append_cons. cbn [String.length Js.drop]. exact IH.
Qed.

(** [(a ++ b).slice(a.length)] is [b]. *)
Lemma slice_append a b : Js.slice (a ++ b) (Js.length a) = b.
Proof.
  unfold Js.slice. pose proof (length_nonneg a).
  destruct (Z.ltb_spec (Js.length a) 0); [lia|].
  unfold Js.length. rewrite Nat2Z.id. apply drop_append.
Qed.

Lemma searchFrom_blank i ws : blank ws = true → Js.searchFrom i ws = -1.
Proof.
  revert i. induction ws as [|c ws IH]; intros i H; simpl in *; [done|].
  apply andb_prop in H as [Hc Hws]. rewrite Hc. by apply IH.
Qed.

Lemma searchFrom_solid i ws c r :
  blank ws = true → Js.isSpace c = false →
  Js.searchFrom i (ws ++ String c r) = i + Js.length ws.
Proof.
  revert i. induction ws as [|x ws IH]; intros i H Hc.
  - change ("" ++ String c r)%string with (String c r). cbn [Js.searchFrom].
    rewrite Hc. unfold Js.length. simpl. lia.
  - apply andb_prop in H as [Hx Hws]. rewrite append_cons. cbn [Js.searchFrom].
    rewrite Hx, IH by done.
    unfold Js.length. cbn [String.length]. lia.
Qed.

Lemma splitFirst_solid a : solid a = true → Js.splitFirst a = a.
Proof.
  induction a as [|c a IH]; intros H; simpl in *; [done|].
  apply andb_prop in H as [Hc Ha]. apply negb_true_iff in Hc.
  rewrite Hc. by rewrite IH.
Qed.

Lemma splitFirst_space a c r :
  solid a = true → Js.isSpace c = true → Js.splitFirst (a ++ String c r) = a.
Proof.
  induction a as [|x a IH]; intros H Hc.
  - change ("" ++ String c r)%string with (String c r). cbn [Js.splitFirst].
    by rewrite Hc.
  - apply andb_prop in H as [Hx Ha]. apply negb_true_iff in Hx.
    rewrite append_cons. cbn [Js.splitFirst]. rewrite Hx. by rewrite IH.
Qed.

Lemma isSpace_lowerChar c : Js.isSpace (Js.lowerChar c) = Js.isSpace c.
Proof. by destruct c as [[] [] [] [] [] [] [] []]. Qed.

Lemma lowerChar_idem c : Js.lowerChar (Js.lowerChar c) = Js.lowerChar c.
Proof. by destruct c as [[] [] [] [] [] [] [] []]. Qed.

Lemma toLowerCase_idem s : Js.toLowerCase (Js.toLowerCase s) = Js.toLowerCase s.
Proof.
  induction s as [|c s IH]; simpl; [done|]. by rewrite lowerChar_idem, IH.
Qed.

End StringFacts.
Module PrefixMore.
Import Prefix Shape StringFacts.

Lemma drop_add a b j : Js.drop (String.length a + j) (a ++ b) = Js.drop j b.
Proof.
  induction a as [|x a IH]; [by rewrite append_nil_l|].
  rewrite append_cons. cbn [String.length Nat.add Js.drop]. exact IH.
Qed.

Lemma slice_append_add a b k :
  0 ≤ k → Js.slice (a ++ b) (Js.length a + k) = Js.slice b k.
Proof.
  intros Hk. unfold Js.slice. pose proof (length_nonneg a).
  destruct (Z.ltb_spec (Js.length a + k) 0); [lia|].
  destruct (Z.ltb_spec k 0); [lia|].
  unfold Js.length. rewrite Z2Nat.inj_add, Nat2Z.id by lia. apply drop_add.
Qed.

Lemma parseWithPrefix_command h m p assoc :
  p_command (parseWithPrefix h m p assoc) =
    if negb (Js.startsWith (Js.toLowerCase (content m)) (Js.toLowerCase p)) then None
    else admitted assoc
           (findCommand h
              (Js.splitFirst
                 (Js.slice (content m)
                    (Js.searchNonSpace (Js.slice (content m) (0 + Js.length p)) +
                     Js.length p)))).
Proof.
  unfold parseWithPrefix, admitted.
  destruct (negb _); [done|].
  destruct (findCommand h _) as [c|]; [|done].
  by destruct (match assoc with Some _ => _ | None => _ end).
Qed.

Lemma parseWithPrefix_fields h m p assoc :
  Js.startsWith (Js.toLowerCase (content m)) (Js.toLowerCase p) = true →
  let startOfArgs :=
    Js.searchNonSpace (Js.slice (content m) (0 + Js.length p)) + Js.length p in
  let alias := Js.splitFirst (Js.slice (content m) startOfArgs) in
  let parsed := parseWithPrefix h m p assoc in
  p_prefix parsed = Some p ∧ p_alias parsed = Some alias ∧
  p_content parsed =
    Some (Js.trim (Js.slice (content m) (startOfArgs + Js.length alias + 1))) ∧
  p_afterPrefix parsed = Some (Js.trim (Js.slice (content m) (Js.length p))).
Proof.
  intros Hs. cbv zeta. unfold parseWithPrefix. rewrite Hs. cbn [negb].
  destruct (findCommand h _) as [c|]; [|done].
  by destruct (match assoc with Some _ => _ | None => _ end).
Qed.

(** X7. For contents whose code units are all below 256:
    [parseWithPrefix] splits a content made of the prefix, optional
    white space, a word and a rest that is empty or starts with a white
    space character: the alias is the word, the content the rest after
    that one character, trimmed, and the command is the one registered
    under the alias, unless prefix overrides rule it out.  White space is
    what the language takes for it in that range: tab, line feed,
    vertical tab, form feed, carriage return, space and no-break space
    (code units 9 to 13, 32 and 160). *)
Theorem parseWithPrefix_splits h m p ws a rest assoc :
  content m = (p ++ ws ++ a ++ rest)%string →
  blank ws = true → solid a = true → a ≠ "" →
  (rest = "" ∨ ∃ c r, rest = String c r ∧ Js.isSpace c = true) →
  let parsed := parseWithPrefix h m p assoc in
  p_prefix parsed = Some p ∧ p_alias parsed = Some a ∧
  p_content parsed = Some (Js.trim (Js.slice rest 1)) ∧
  p_afterPrefix parsed = Some (Js.trim (ws ++ a ++ rest)) ∧
  p_command parsed = admitted assoc (findCommand h a).
Proof.
  intros Hc Hws Ha Hne Hrest. cbv zeta.
  assert (Hs : Js.startsWith (Js.toLowerCase (content m)) (Js.toLowerCase p) = true).
  { rewrite Hc, toLowerCase_append. apply startsWith_append. }
  assert (Hafter : Js.slice (content m) (0 + Js.length p) = (ws ++ a ++ rest)%string).
  { rewrite Hc, Z.add_0_l. apply slice_append. }
  assert (Hsearch : Js.searchNonSpace (ws ++ a ++ rest) = Js.length ws).
  { destruct a as [|c0 a']; [done|]. cbn [solid Types.allChars] in Ha.
    apply andb_prop in Ha as [Hc0 _]. apply negb_true_iff in Hc0.
    rewrite append_cons. unfold Js.searchNonSpace.
    by rewrite searchFrom_solid. }
  assert (Hargs : Js.slice (content m) (Js.length ws + Js.length p) = (a ++ rest)%string).
  { rewrite Hc.
    replace (Js.length ws + Js.length p) with (Js.length (p ++ ws))
      by (rewrite length_append; lia).
    rewrite <- (append_assoc p ws). apply slice_append. }
  assert (Halias : Js.splitFirst (a ++ rest) = a).
  { destruct Hrest as [->|(c & r & -> & Hsp)].
    - rewrite append_nil_r. by apply splitFirst_solid.
    - by apply splitFirst_space. }
  assert (Hcontent : Js.slice (content m) (Js.length ws + Js.length p + Js.length a + 1) =
                     Js.slice rest 1).
  { rewrite Hc, <- !append_assoc.
    replace (Js.length ws + Js.length p + Js.length a)
      with (Js.length ((p ++ ws) ++ a)) by (rewrite !length_append; lia).
    by apply slice_append_add. }
  destruct (parseWithPrefix_fields h m p assoc Hs) as (H1 & H2 & H3 & H4).
  rewrite Hafter, Hsearch, Hargs, Halias, Hcontent in *.
  rewrite H1, H2, H3, H4.
  repeat split; try done.
  - rewrite <- Hafter. by rewrite Z.add_0_l.
  - rewrite parseWithPrefix_command, Hs, Hafter, Hsearch, Hargs, Halias. done.
Qed.

Lemma lastChar_split p c : lastChar p = Some c → ∃ q, p = (q ++ String c "")%string.
Proof.
  induction p as [|x p IH]; [done|]. cbn [lastChar].
  destruct p as [|y p'].
  - intros H. simplify_eq. by exists "".
  - intros H. destruct (IH H) as [q Hq]. exists (String x q).
    by rewrite append_cons, <- Hq.
Qed.

Lemma splitFirst_blank ws : blank ws = true → Js.splitFirst ws = "".
Proof.
  destruct ws as [|c ws]; [done|]. cbn [blank Types.allChars Js.splitFirst].
  intros H. apply andb_prop in H as [Hc _]. by rewrite Hc.
Qed.

(** X8. For contents whose code units are all below 256: a content that
    is the prefix alone, with or without white space after it (no-break
    space included), is read as naming the last character of the prefix:
    the search for the first character after the prefix finds none and
    gives -1, so the alias starts one character before the end of the
    prefix.  A command registered under that character is resolved. *)
Theorem bare_prefix_names_its_last_character h m p c ws assoc :
  content m = (p ++ ws)%string →
  lastChar p = Some c → Js.isSpace c = false → blank ws = true →
  let parsed := parseWithPrefix h m p assoc in
  p_alias parsed = Some (String c "") ∧
  p_command parsed = admitted assoc (findCommand h (String c "")).
Proof.
  intros Hc Hlast Hsp Hws. cbv zeta.
  destruct (lastChar_split p c Hlast) as [q Hq].
  assert (Hs : Js.startsWith (Js.toLowerCase (content m)) (Js.toLowerCase p) = true).
  { rewrite Hc, toLowerCase_append. apply startsWith_append. }
  assert (Hafter : Js.slice (content m) (0 + Js.length p) = ws).
  { rewrite Hc, Z.add_0_l. apply slice_append. }
  assert (Hsearch : Js.searchNonSpace ws = -1) by by apply searchFrom_blank.
  assert (Hlen : -1 + Js.length p = Js.length q).
  { rewrite Hq, length_append. unfold Js.length at 2. simpl. lia. }
  assert (Hargs : Js.slice (content m) (Js.length q) = String c ws).
  { rewrite Hc, Hq, append_assoc. rewrite append_cons, append_nil_l.
    apply slice_append. }
  assert (Halias : Js.splitFirst (String c ws) = String c "").
  { cbn [Js.splitFirst]. rewrite Hsp. by rewrite splitFirst_blank. }
  destruct (parseWithPrefix_fields h m p assoc Hs) as (_ & H2 & _).
  rewrite Hafter, Hsearch, Hlen, Hargs, Halias in H2. split; [exact H2|].
  by rewrite parseWithPrefix_command, Hs, Hafter, Hsearch, Hlen, Hargs, Halias.
Qed.


Lemma toLowerCase_drop n s : Js.toLowerCase (Js.drop n s) = Js.drop n (Js.toLowerCase s).
Proof.
  revert s. induction n as [|n IH]; intros s; [done|].
  destruct s as [|c s]; [done|]. cbn [Js.drop Js.toLowerCase]. apply IH.
Qed.

Lemma toLowerCase_slice s k :
  Js.toLowerCase (Js.slice s k) = Js.slice (Js.toLowerCase s) k.
Proof. unfold Js.slice. by rewrite toLowerCase_drop, toLowerCase_length. Qed.

Lemma searchFrom_toLowerCase i s :
  Js.searchFrom i (Js.toLowerCase s) = Js.searchFrom i s.
Proof.
  revert i. induction s as [|c s IH]; intros i; [done|].
  cbn [Js.toLowerCase Js.searchFrom]. by rewrite isSpace_lowerChar, IH.
Qed.

Lemma splitFirst_toLowerCase s :
  Js.splitFirst (Js.toLowerCase s) = Js.toLowerCase (Js.splitFirst s).
Proof.
  induction s as [|c s IH]; [done|].
  cbn [Js.toLowerCase Js.splitFirst]. rewrite isSpace_lowerChar.
  destruct (Js.isSpace c); [done|]. cbn [Js.toLowerCase]. by rewrite IH.
Qed.

Lemma findCommand_toLowerCase h name :
  findCommand h (Js.toLowerCase name) = findCommand h name.
Proof. unfold findCommand. by rewrite toLowerCase_idem. Qed.

(** The alias [parseWithPrefix] reads, up to case, from the content up to
    case. *)
Lemma alias_toLowerCase s p :
  Js.toLowerCase
    (Js.splitFirst
       (Js.slice s (Js.searchNonSpace (Js.slice s (0 + Js.length p)) + Js.length p))) =
  Js.splitFirst
    (Js.slice (Js.toLowerCase s)
       (Js.searchNonSpace (Js.slice (Js.toLowerCase s) (0 + Js.length p)) +
        Js.length p)).
Proof.
  unfold Js.searchNonSpace.
  by rewrite <- splitFirst_toLowerCase, <- !toLowerCase_slice, searchFrom_toLowerCase.
Qed.

Lemma parseWithPrefix_case h m m' p assoc :
  sameButCase m m' →
  p_command (parseWithPrefix h m p assoc) = p_command (parseWithPrefix h m' p assoc) ∧
  p_prefix (parseWithPrefix h m p assoc) = p_prefix (parseWithPrefix h m' p assoc).
Proof.
  unfold sameButCase. intros Hs. split.
  - rewrite !parseWithPrefix_command, Hs.
    destruct (negb _); [done|]. f_equal.
    rewrite <- (findCommand_toLowerCase h (Js.splitFirst (Js.slice (content m) _))),
            <- (findCommand_toLowerCase h (Js.splitFirst (Js.slice (content m') _))).
    by rewrite !alias_toLowerCase, Hs.
  - unfold parseWithPrefix. rewrite Hs.
    destruct (negb _); [done|].
    destruct (findCommand h _) as [c|], (findCommand h _) as [c'|];
      repeat (match goal with |- context [if ?b then _ else _] => destruct b end);
      done.
Qed.

Lemma parseMultiplePrefixes_case h m m' : ∀ pairs,
  sameButCase m m' →
  p_command (parseMultiplePrefixes h m pairs) =
    p_command (parseMultiplePrefixes h m' pairs) ∧
  p_prefix (parseMultiplePrefixes h m pairs) =
    p_prefix (parseMultiplePrefixes h m' pairs).
Proof.
  intros pairs Hs. unfold parseMultiplePrefixes.
  set (f := λ m0 '(prefix, cmds), parseWithPrefix h m0 prefix cmds).
  change (map (λ '(prefix, cmds), parseWithPrefix h m prefix cmds) pairs)
    with (map (f m) pairs).
  change (map (λ '(prefix, cmds), parseWithPrefix h m' prefix cmds) pairs)
    with (map (f m') pairs).
  assert (Hpt : ∀ pc, p_command (f m pc) = p_command (f m' pc) ∧
                      p_prefix (f m pc) = p_prefix (f m' pc)).
  { intros [p cmds]. by apply parseWithPrefix_case. }
  assert (H1 : ∀ l,
    match List.find (λ parsed, bool_decide (is_Some (p_command parsed))) (map (f m) l),
          List.find (λ parsed, bool_decide (is_Some (p_command parsed))) (map (f m') l) with
    | Some r, Some r' => p_command r = p_command r' ∧ p_prefix r = p_prefix r'
    | None, None => True
    | _, _ => False
    end).
  { induction l as [|pc l IH]; [done|]. cbn [map List.find].
    destruct (Hpt pc) as [Hc Hp]. rewrite <- Hc.
    by destruct (bool_decide (is_Some (p_command (f m pc)))). }
  assert (H2 : ∀ l,
    match List.find (λ parsed, bool_decide (is_Some (p_prefix parsed))) (map (f m) l),
          List.find (λ parsed, bool_decide (is_Some (p_prefix parsed))) (map (f m') l) with
    | Some r, Some r' => p_command r = p_command r' ∧ p_prefix r = p_prefix r'
    | None, None => True
    | _, _ => False
    end).
  { induction l as [|pc l IH]; [done|]. cbn [map List.find].
    destruct (Hpt pc) as [Hc Hp]. rewrite <- Hp.
    by destruct (bool_decide (is_Some (p_prefix (f m pc)))). }
  specialize (H1 pairs). specialize (H2 pairs).
  destruct (List.find _ (map (f m) pairs)), (List.find _ (map (f m') pairs));
    try done.
  by destruct (List.find _ (map (f m) pairs)), (List.find _ (map (f m') pairs)).
Qed.

(** X9. Command resolution ignores the case of letters, for contents
    whose code units are all below 256 (where [toLowerCase] maps A to Z
    and the letters from U+00C0 to U+00DE, U+00D7 apart, 32 code units
    up): two messages whose contents have the same [toLowerCase] resolve,
    through any list of prefixes, to the same command under the same
    prefix; so do they through [parseCommand] when the handler's prefix
    supplier gives the same prefixes for both. *)
Theorem resolution_ignores_case h m m' pairs :
  sameButCase m m' →
  (p_command (parseMultiplePrefixes h m pairs) =
     p_command (parseMultiplePrefixes h m' pairs) ∧
   p_prefix (parseMultiplePrefixes h m pairs) =
     p_prefix (parseMultiplePrefixes h m' pairs)) ∧
  (prefix h m = prefix h m' →
   p_command (parseCommand h m) = p_command (parseCommand h m') ∧
   p_prefix (parseCommand h m) = p_prefix (parseCommand h m')).
Proof.
  intros Hs. split; [by apply parseMultiplePrefixes_case|].
  intros Hp. unfold parseCommand, candidates. rewrite Hp.
  by apply parseMultiplePrefixes_case.
Qed.

Lemma find_parsed h m : ∀ pairs r,
  List.find (λ parsed, bool_decide (is_Some (p_command parsed)))
    (map (λ '(prefix, cmds), parseWithPrefix h m prefix cmds) pairs) = Some r →
  ∃ p assoc, (p, assoc) ∈ pairs ∧ r = parseWithPrefix h m p assoc ∧
             is_Some (p_command r).
Proof.
  induction pairs as [|[p assoc] pairs IH]; intros r H; [done|].
  cbn [map List.find] in H.
  destruct (bool_decide _) eqn:Hb.
  - simplify_eq. apply bool_decide_eq_true in Hb.
    exists p, assoc. split; [by left|done].
  - destruct (IH r H) as (p' & assoc' & Hin & Hr). exists p', assoc'.
    split; [by right|done].
Qed.

(** X10. A parse that reports a command is sound: the reported prefix is
    one of the candidates and starts the content up to case, the command
    is the one registered under the reported alias, and prefix overrides
    are respected: through a general prefix only a command without a
    prefix of its own is resolved, through an override only a command the
    override belongs to. *)
Theorem parsed_command_is_sound h m pairs c :
  p_command (parseMultiplePrefixes h m pairs) = Some c →
  ∃ p assoc a,
    (p, assoc) ∈ pairs ∧
    p_prefix (parseMultiplePrefixes h m pairs) = Some p ∧
    p_alias (parseMultiplePrefixes h m pairs) = Some a ∧
    Js.startsWith (Js.toLowerCase (content m)) (Js.toLowerCase p) = true ∧
    findCommand h a = Some c ∧
    match assoc with
    | None => cmd_prefix c = None
    | Some cmds => cmd_id c ∈ cmds
    end.
Proof.
  unfold parseMultiplePrefixes.
  destruct (List.find (λ parsed, bool_decide (is_Some (p_command parsed))) _)
    as [r|] eqn:Hfind.
  - intros Hc. destruct (find_parsed h m pairs r Hfind) as (p & assoc & Hin & -> & _).
    rewrite parseWithPrefix_command in Hc.
    destruct (Js.startsWith _ _) eqn:Hs; [|done]. cbn [negb] in Hc.
    destruct (parseWithPrefix_fields h m p assoc Hs) as (H1 & H2 & _).
    exists p, assoc. eexists. split; [done|]. split; [done|]. split; [exact H2|].
    split; [done|]. unfold admitted in Hc.
    destruct (findCommand h _) as [c'|]; [|done].
    destruct assoc as [cmds|].
    + destruct (bool_decide (cmd_id c' ∉ cmds)) eqn:Hb; [done|]. simplify_eq.
      apply bool_decide_eq_false in Hb. split; [done|].
      by destruct (decide (cmd_id c ∈ cmds)).
    + destruct (bool_decide (is_Some (cmd_prefix c'))) eqn:Hb; [done|]. simplify_eq.
      apply bool_decide_eq_false in Hb. split; [done|].
      destruct (cmd_prefix c); [|done]. destruct Hb. by eexists.
  - destruct (List.find (λ parsed, bool_decide (is_Some (p_prefix parsed))) _)
      as [r|] eqn:Hguess; [|intros Hc; discriminate Hc].
    intros Hc. apply find_some in Hguess as [Hin _].
    pose proof (find_none _ _ Hfind r Hin) as Hb. cbn beta in Hb.
    apply bool_decide_eq_false in Hb. destruct Hb. by eexists.
Qed.

Import Samples PrefixSamples ShapeSamples.

(** The splitting theorem at "! ping hello there ". *)
Lemma parseWithPrefix_splits_ping :
  let m := mkMsg "1" "u" "! ping hello there " 0 in
  let parsed := parseWithPrefix plain m "!" None in
  p_prefix parsed = Some "!" ∧ p_alias parsed = Some "ping" ∧
  p_content parsed = Some "hello there" ∧
  p_afterPrefix parsed = Some "ping hello there" ∧
  p_command parsed = Some ping.
Proof.
  exact (parseWithPrefix_splits plain (mkMsg "1" "u" "! ping hello there " 0)
           "!" " " "ping" " hello there " None eq_refl eq_refl eq_refl
           ltac:(discriminate)
           (or_intror (ex_intro _ " "%char (ex_intro _ "hello there "
              (conj eq_refl eq_refl))))).
Defined.

(** The bare prefix "hey" runs the command registered under "y". *)
Lemma bare_prefix_names_its_last_character_hey :
  let m := mkMsg "1" "u" "hey" 0 in
  p_alias (parseWithPrefix hey m "hey" None) = Some "y" ∧
  p_command (parseWithPrefix hey m "hey" None) = Some yes.
Proof.
  exact (bare_prefix_names_its_last_character hey (mkMsg "1" "u" "hey" 0)
           "hey" "y"%char "" None eq_refl eq_refl eq_refl eq_refl).
Defined.

Example bare_prefix_runs_yes :
  p_command (parseCommand hey (mkMsg "1" "u" "hey" 0)) = Some yes.
Proof. vm_compute. reflexivity. Qed.

(** "!PING" and "!ping" resolve alike. *)
Lemma resolution_ignores_case_ping :
  sameButCase (mkMsg "1" "u" "!PING" 0) (mkMsg "1" "u" "!ping" 0) ∧
  p_command (parseCommand plain (mkMsg "1" "u" "!PING" 0)) =
    p_command (parseCommand plain (mkMsg "1" "u" "!ping" 0)).
Proof.
  assert (H : sameButCase (mkMsg "1" "u" "!PING" 0) (mkMsg "1" "u" "!ping" 0))
    by reflexivity.
  split; [exact H|].
  exact (proj1 (proj2 (resolution_ignores_case plain _ _ [] H) eq_refl)).
Defined.

(** The soundness theorem at "!ping". *)
Lemma parsed_command_is_sound_ping :
  let m := mkMsg "1" "u" "!ping" 0 in
  let pairs := map (fun p => (p, None)) (candidates plain m) in
  p_command (parseMultiplePrefixes plain m pairs) = Some ping ∧
  ∃ p assoc a,
    (p, assoc) ∈ pairs ∧
    p_prefix (parseMultiplePrefixes plain m pairs) = Some p ∧
    p_alias (parseMultiplePrefixes plain m pairs) = Some a ∧
    Js.startsWith (Js.toLowerCase (content m)) (Js.toLowerCase p) = true ∧
    findCommand plain a = Some ping ∧
    match assoc with
    | None => cmd_prefix ping = None
    | Some cmds => cmd_id ping ∈ cmds
    end.
Proof.
  cbv zeta.
  assert (H : p_command (parseMultiplePrefixes plain (mkMsg "1" "u" "!ping" 0)
                (map (fun p => (p, None)) (candidates plain (mkMsg "1" "u" "!ping" 0)))) =
              Some ping) by (vm_compute; reflexivity).
  split; [exact H|].
  exact (parsed_command_is_sound plain _ _ ping H).
Defined.

End PrefixMore.

(** * Further properties of the client, the inhibitors and the context
    menu commands *)

Module ClientFacts.
Import Client.

Lemma includes_refl s : Js.includes s s = true.
Proof.
  destruct s as [|c s]; [done|]. cbn [Js.includes].
  assert (H : ∀ t, Js.startsWith t t = true).
  { induction t as [|x t IH]; [done|]. cbn [Js.startsWith].
    by rewrite Ascii.eqb_refl. }
  by rewrite H.
Qed.

Lemma includes_append a s b : Js.includes (a ++ s ++ b) s = true.
Proof.
  induction a as [|x a IH].
  - rewrite StringFacts.append_nil_l.
    destruct (s ++ b)%string eqn:E; cbn [Js.includes];
      rewrite <- E, StringFacts.startsWith_append; done.
  - rewrite StringFacts.append_cons. cbn [Js.includes]. rewrite IH.
    apply orb_true_r.
Qed.

(** X11. Every owner is a super user, except when [superUserID] is a
    single id and [ownerID] an array: then the owners are not looked at,
    and the super users are the same whatever the array holds. *)
Theorem owner_is_super_user superUserID ownerID u :
  (isOwner ownerID u = true →
   (∀ s ids, ¬ (superUserID = OneId s ∧ ownerID = ManyIds ids)) →
   isSuperUser superUserID ownerID u = true) ∧
  (∀ s ids, superUserID = OneId s → ownerID = ManyIds ids →
     isSuperUser superUserID ownerID u = isSuperUser (OneId s) (ManyIds []) u).
Proof.
  split.
  - unfold isOwner, isSuperUser. intros Ho Hshape.
    destruct (resolveId u) as [id|]; [|done].
    destruct superUserID as [s|ss], ownerID as [o|os].
    + rewrite Ho. apply orb_true_r.
    + by destruct (Hshape s os).
    + apply String.eqb_eq in Ho as ->. rewrite includes_refl. apply orb_true_r.
    + rewrite Ho. apply orb_true_r.
  - by intros s ids -> ->.
Qed.

(** X12. With an array of super users and a single owner id,
    [this.ownerID.includes(id)] is the substring test of strings: a user
    whose id occurs inside the owner's id is a super user. *)
Theorem id_inside_owner_id_is_super_user ids a b x :
  Js.truthyStr (user_id x) = true →
  isSuperUser (ManyIds ids) (OneId (a ++ user_id x ++ b)) (Some x) = true.
Proof.
  intros Hx. unfold isSuperUser, resolveId. rewrite Hx.
  rewrite includes_append. apply orb_true_r.
Qed.

Lemma owner_is_super_user_owner :
  isOwner (OneId "owner") (Some {| user_id := "owner"; bot := false |}) = true ∧
  isSuperUser (ManyIds []) (OneId "owner")
    (Some {| user_id := "owner"; bot := false |}) = true.
Proof.
  assert (H : isOwner (OneId "owner")
                (Some {| user_id := "owner"; bot := false |}) = true) by reflexivity.
  split; [exact H|].
  refine (proj1 (owner_is_super_user (ManyIds []) (OneId "owner") _) H _).
  intros s ids [Hs _]. discriminate Hs.
Defined.

(** User "2345" with owner "123456". *)
Lemma id_inside_owner_id_is_super_user_2345 :
  isOwner (OneId "123456") (Some {| user_id := "2345"; bot := false |}) = false ∧
  isSuperUser (ManyIds []) (OneId "123456")
    (Some {| user_id := "2345"; bot := false |}) = true.
Proof.
  split; [reflexivity|].
  exact (id_inside_owner_id_is_super_user [] "1" "6"
           {| user_id := "2345"; bot := false |} eq_refl).
Defined.

End ClientFacts.

Module InhibitorMore.
Import Inhibitors.

(** X13. [test] rejects exactly when an inhibitor of the stage throws or
    rejects, with the error of the one that does so first in time (the
    first loaded among those that fail at the same instant) and at that
    instant, without waiting for the others; it then reports no reason,
    whatever the other inhibitors of the stage return and whatever their
    priority. *)
Theorem test_rejects_with_first_thrower modules type m c e :
  test modules type m c = Throws e ↔
  ∃ i, first_failing m c (ofType modules type) i ∧
       inh_exec i m c = Throws e ∧
       Promise.instant (settled (run modules type m c)) = inh_settles i m c.
Proof.
  unfold test. destruct (ofType modules type) as [|y r] eqn:Hof.
  - rewrite (InhibitorFacts.run_none _ _ _ _ Hof). cbn. split; [done|].
    intros (i & (l1 & l2 & Heq & _) & _). by destruct l1.
  - rewrite InhibitorFacts.run_unfold by (by rewrite Hof). cbv zeta.
    cbn [settled Promise.result Promise.instant]. rewrite <- Hof.
    assert (Hprobe : ∀ j e', Promise.result (probe m c j) = Throws e' ↔
                             inh_exec j m c = Throws e').
    { intros j e'. cbn. destruct (inh_exec j m c) as [[|]|e0]; split; congruence. }
    destruct (Promise.firstRejection (map (probe m c) (ofType modules type)))
      as [[t e0]|] eqn:Hfirst.
    + rewrite (PromiseFacts.all_rejected _ _ _ _ Hfirst). cbn [Promise.result Promise.instant].
      pose proof (proj1 (PromiseFacts.firstRejection_Some (probe m c) _ t e0) Hfirst)
        as (l1 & i & l2 & Heq & Hi & Ht & H1 & H2).
      cbn [probe Promise.instant] in Ht, H1, H2. split.
      * intros H. injection H as <-. exists i. split; [|split].
        -- exists l1, l2. split; [done|]. rewrite Ht. split.
           ++ intros j Hj [e' He']. apply H1; [done|]. exists e'. by apply Hprobe.
           ++ intros j Hj [e' He']. apply H2; [done|]. exists e'. by apply Hprobe.
        -- by apply Hprobe.
        -- done.
      * intros (i' & (k1 & k2 & Heq' & K1 & K2) & Hi' & Hinst).
        assert (Hfirst' : Promise.firstRejection (map (probe m c) (ofType modules type)) =
                          Some (inh_settles i' m c, e)).
        { apply PromiseFacts.firstRejection_Some. exists k1, i', k2.
          split; [done|]. split; [by apply Hprobe|]. split; [done|]. split.
          - intros j Hj [e' He']. apply K1; [done|]. exists e'. by apply Hprobe.
          - intros j Hj [e' He']. apply K2; [done|]. exists e'. by apply Hprobe. }
        congruence.
    + rewrite (PromiseFacts.all_fulfilled (probe m c))
        by exact (proj1 (PromiseFacts.firstRejection_None (probe m c) _) Hfirst).
      cbn [Promise.result]. split.
      * by destruct (Js.sortBy byPriority _).
      * intros (i & (l1 & l2 & Heq & _) & Hi & _).
        pose proof (proj1 (PromiseFacts.firstRejection_None (probe m c) _) Hfirst)
          as Hnone.
        destruct (Hnone i) as [a Ha].
        { rewrite Heq. apply elem_of_app. right. by left. }
        apply Hprobe in Hi. congruence.
Qed.

Import InhibitorMoreSamples.

Example strict_then_broken_rejects :
  test [strict; broken] "post" (Samples.mkMsg "1" "u" "!a" 0) None =
    Throws "inhibitor failed".
Proof. reflexivity. Qed.

(** The promise of [slowFailure], loaded first, rejects after that of
    [quickFailure]: [test] rejects with the error of the latter. *)
Example quick_failure_wins :
  test [slowFailure; strict; quickFailure] "post" (Samples.mkMsg "1" "u" "!a" 0) None =
    Throws "quick failed" ∧
  Promise.instant (settled (run [slowFailure; strict; quickFailure] "post"
                              (Samples.mkMsg "1" "u" "!a" 0) None)) = 2%nat.
Proof. split; reflexivity. Qed.

End InhibitorMore.

Module ContextMenuMore.
Import ContextMenu.

(** X14. [handle] of a context menu interaction resolves with true
    exactly when a loaded command has the interaction's name (the first
    such in loading order, the name compared exactly) and its body
    returns; in every case the log only grows, and the body of the
    command found is called exactly once, after the started event. *)
Theorem handle_true_iff_body_returns h interaction log :
  ((handle h interaction log).1 = Returns true ↔
   ∃ command ret,
     List.find (fun module => String.eqb (name module) (commandName interaction))
       (cm_modules h) = Some command ∧
     cm_exec command interaction = Returns ret) ∧
  ∃ efs, (handle h interaction log).2 = (log ++ efs)%list ∧
    match List.find (fun module => String.eqb (name module) (commandName interaction))
            (cm_modules h) with
    | None => efs = [CmEmit (CM_NOT_FOUND interaction)]
    | Some command =>
        ∃ before after,
          efs = (before ++ [CmEmit (CM_STARTED interaction (cm_id command));
                            CmExec (cm_id command) interaction] ++ after)%list ∧
          Forall (fun ef => ∃ r, ef = CmEmit (CM_BLOCKED interaction (cm_id command) r))
            before ∧
          Forall (fun ef => ∃ ev, ef = CmEmit ev) after
    end.
Proof.
  unfold handle.
  destruct (List.find _ (cm_modules h)) as [command|].
  - set (log1 := if cm_ownerOnly command && _ then _ else log).
    set (log2 := if cm_superUserOnly command && _ then _ else log1).
    assert (H2 : ∃ before, log2 = (log ++ before)%list ∧
      Forall (fun ef => ∃ r, ef = CmEmit (CM_BLOCKED interaction (cm_id command) r))
        before).
    { subst log2 log1.
      destruct (cm_ownerOnly command && _), (cm_superUserOnly command && _).
      - eexists [_; _]. rewrite <- app_assoc. split; [done|].
        repeat constructor; by eexists.
      - eexists [_]. split; [done|]. repeat constructor; by eexists.
      - eexists [_]. split; [done|]. repeat constructor; by eexists.
      - exists []. by rewrite app_nil_r. }
    destruct H2 as (before & -> & Hbefore). clearbody log1. clear log1.
    destruct (cm_exec command interaction) as [ret|err] eqn:Hexec.
    + split.
      * split; [by eauto|done].
      * eexists. rewrite <- !app_assoc. split; [done|].
        exists before, [CmEmit (CM_FINISHED interaction (cm_id command) ret)].
        repeat split; [done|]. repeat constructor. by eexists.
    + unfold emitError. destruct (0 <? cm_errorListeners h)%nat.
      * split.
        -- split; [done|]. intros (command' & ret & Hc & Hr). simplify_eq.
           congruence.
        -- eexists. rewrite <- !app_assoc. split; [done|].
           exists before, [CmEmit (CM_ERROR err interaction (cm_id command))].
           repeat split; [done|]. repeat constructor. by eexists.
      * split.
        -- split; [done|]. intros (command' & ret & Hc & Hr). simplify_eq.
           congruence.
        -- eexists. rewrite <- !app_assoc. split; [done|].
           exists before, []. repeat split; [done|]. constructor.
  - split.
    + split; [done|]. by intros (command & ret & Hc & _).
    + by eexists.
Qed.

Lemma last_two {A} (l : list A) a b : last (l ++ [a; b]) = Some b.
Proof. change [a; b] with ([a] ++ [b])%list. by rewrite app_assoc, last_snoc. Qed.

(** X15. A context menu command that throws: with a listener on the
    handler's error event the call resolves with false, the error event
    being the last thing emitted; with none the call rejects with the
    error and emits nothing after the started event. *)
Theorem menu_error_routed h interaction log command err :
  List.find (fun module => String.eqb (name module) (commandName interaction))
    (cm_modules h) = Some command →
  cm_exec command interaction = Throws err →
  if (0 <? cm_errorListeners h)%nat
  then (handle h interaction log).1 = Returns false ∧
       last (handle h interaction log).2 =
         Some (CmEmit (CM_ERROR err interaction (cm_id command)))
  else (handle h interaction log).1 = Throws err ∧
       last (handle h interaction log).2 = Some (CmExec (cm_id command) interaction).
Proof.
  intros Hfind Hexec. unfold handle. rewrite Hfind, Hexec. unfold emitError.
  destruct (0 <? cm_errorListeners h)%nat; cbn [fst snd]; (split; [done|]).
  - by rewrite last_snoc.
  - apply last_two.
Qed.

Import ContextMenuSamples ContextMenuMoreSamples.

Lemma menu_error_routed_watched :
  List.find (fun module => String.eqb (name module) (commandName pickFaulty))
    (cm_modules watched) = Some faulty ∧
  cm_exec faulty pickFaulty = Throws "menu failed" ∧
  (handle watched pickFaulty []).1 = Returns false ∧
  last (handle watched pickFaulty []).2 =
    Some (CmEmit (CM_ERROR "menu failed" pickFaulty "faulty")).
Proof.
  assert (H1 : List.find (fun module => String.eqb (name module) (commandName pickFaulty))
                 (cm_modules watched) = Some faulty) by reflexivity.
  assert (H2 : cm_exec faulty pickFaulty = Throws "menu failed") by reflexivity.
  repeat (split; [assumption|]).
  exact (menu_error_routed watched pickFaulty [] faulty "menu failed" H1 H2).
Defined.

End ContextMenuMore.

(** * Further properties of the built-in argument types *)

Module TypesMoreFacts.
Import Types TypesMore Shape StringFacts.

Lemma trimEnd_solid s : solid s = true → Js.trimEnd s = s.
Proof.
  induction s as [|c s IH]; [done|]. cbn [solid allChars Js.trimEnd].
  intros H. apply andb_prop in H as [Hc Hs]. apply negb_true_iff in Hc.
  rewrite (IH Hs). rewrite Hc. by destruct s.
Qed.

Lemma trimStart_solid s : solid s = true → Js.trimStart s = s.
Proof.
  destruct s as [|c s]; [done|]. cbn [solid allChars Js.trimStart].
  intros H. apply andb_prop in H as [Hc Hs]. apply negb_true_iff in Hc.
  by rewrite Hc.
Qed.

Lemma trim_solid s : solid s = true → Js.trim s = s.
Proof. intros H. unfold Js.trim. by rewrite trimStart_solid, trimEnd_solid. Qed.

Lemma allChars_impl (p q : ascii → bool) s :
  (∀ c, p c = true → q c = true) → allChars p s = true → allChars q s = true.
Proof.
  intros Hpq. induction s as [|c s IH]; [done|]. cbn [allChars].
  intros H. apply andb_prop in H as [Hc Hs]. by rewrite (Hpq c Hc), IH.
Qed.

Lemma digit_not_space c : isDigit c = true → negb (Js.isSpace c) = true.
Proof. by destruct c as [[] [] [] [] [] [] [] []]. Qed.

Lemma hexDigit_not_space c : isHexDigit c = true → negb (Js.isSpace c) = true.
Proof. by destruct c as [[] [] [] [] [] [] [] []]. Qed.

Lemma digits_solid s : allChars isDigit s = true → solid s = true.
Proof. apply allChars_impl, digit_not_space. Qed.

Lemma spanDigits_all s : allChars isDigit s = true → spanDigits s = (s, "").
Proof.
  induction s as [|c s IH]; [done|]. cbn [allChars spanDigits].
  intros H. apply andb_prop in H as [Hc Hs]. by rewrite Hc, (IH Hs).
Qed.

Lemma nonDecimal_digits s : allChars isDigit s = true → nonDecimal s = None.
Proof.
  destruct s as [|z [|x r]]; [done|done|]. cbn [allChars nonDecimal].
  intros H. apply andb_prop in H as [_ H]. apply andb_prop in H as [Hx _].
  destruct (Ascii.eqb z "0"); [|done].
  assert (Hb : Ascii.eqb x "b" || Ascii.eqb x "B" = false)
    by (by destruct x as [[] [] [] [] [] [] [] []]).
  assert (Ho : Ascii.eqb x "o" || Ascii.eqb x "O" = false)
    by (by destruct x as [[] [] [] [] [] [] [] []]).
  assert (Hh : Ascii.eqb x "x" || Ascii.eqb x "X" = false)
    by (by destruct x as [[] [] [] [] [] [] [] []]).
  by rewrite Hb, Ho, Hh.
Qed.

(** A non-empty string of decimal digits is a number to [isNaN]. *)
Lemma digits_are_numeric s :
  some isDigit s = true → isNaN_number s = false.
Proof.
  unfold some. intros H. apply andb_prop in H as [Hne Hd].
  unfold isNaN_number. rewrite (trim_solid s (digits_solid s Hd)), Hne.
  cbn [andb]. apply negb_false_iff. unfold numericLiteral.
  rewrite (nonDecimal_digits s Hd).
  destruct s as [|c r] eqn:Hs; [done|]. rewrite <- Hs in *.
  assert (Hsign : isSign c = false).
  { rewrite Hs in Hd. cbn [allChars] in Hd. apply andb_prop in Hd as [Hc _].
    by destruct c as [[] [] [] [] [] [] [] []]. }
  rewrite Hsign. unfold unsignedDecimal. rewrite (spanDigits_all s Hd), Hne.
  apply orb_true_r.
Qed.

(** X16. The bigint caster returns the exact value of a non-empty string
    of decimal digits, however long. *)
Theorem BIGINT_reads_decimal_digits s :
  some isDigit s = true →
  BIGINT s = Returns (Some (digitsValue 10 0 s)).
Proof.
  intros H. unfold BIGINT. rewrite (digits_are_numeric s H).
  pose proof H as H'. unfold some in H'. apply andb_prop in H' as [Hne Hd].
  rewrite Hne. cbn [negb orb]. unfold BigInt.
  rewrite (trim_solid s (digits_solid s Hd)), (nonDecimal_digits s Hd).
  destruct s as [|c r] eqn:Hs; [done|]. rewrite <- Hs in *.
  assert (Hsign : isSign c = false).
  { rewrite Hs in Hd. cbn [allChars] in Hd. apply andb_prop in Hd as [Hc _].
    by destruct c as [[] [] [] [] [] [] [] []]. }
  by rewrite Hsign, H.
Qed.

Lemma BIGINT_reads_decimal_digits_long :
  BIGINT "123456789012345678901234567890" =
    Returns (Some 123456789012345678901234567890).
Proof.
  exact (BIGINT_reads_decimal_digits "123456789012345678901234567890" eq_refl).
Defined.


Lemma isDigit_radix10 c : isDigit c = true → isRadixDigit 10 c = true.
Proof. by destruct c as [[] [] [] [] [] [] [] []]. Qed.

Lemma radix10_isDigit c : isRadixDigit 10 c = true → isDigit c = true.
Proof. by destruct c as [[] [] [] [] [] [] [] []]. Qed.

Lemma isHexDigit_radix16 c : isHexDigit c = true → isRadixDigit 16 c = true.
Proof. by destruct c as [[] [] [] [] [] [] [] []]. Qed.

Lemma spanRadix10_digits d rest :
  allChars isDigit d = true → endsDigits rest = true →
  spanRadix 10 (d ++ rest) = d.
Proof.
  intros Hd Hrest. induction d as [|c d IH].
  - rewrite append_nil_l. destruct rest as [|x r]; [done|].
    cbn [endsDigits] in Hrest. apply andb_prop in Hrest as [Hx _].
    cbn [spanRadix]. destruct (isRadixDigit 10 x) eqn:E; [|done].
    apply radix10_isDigit in E. by rewrite E in Hx.
  - cbn [allChars] in Hd. apply andb_prop in Hd as [Hc Hd'].
    rewrite append_cons. cbn [spanRadix].
    by rewrite (isDigit_radix10 c Hc), (IH Hd').
Qed.

(** [parseInt] on a text that starts with neither a blank, a sign nor a
    hexadecimal prefix. *)
Lemma parseIntExact_plain radix c t :
  Js.isSpace c = false →
  Ascii.eqb c "-" || Ascii.eqb c "+" = false →
  match t with
  | String x _ => Ascii.eqb c "0" && (Ascii.eqb x "x" || Ascii.eqb x "X")
  | EmptyString => false
  end = false →
  parseIntExact radix (String c t) =
    match spanRadix radix (String c t) with
    | EmptyString => None
    | digits => Some (1 * digitsValue radix 0 digits)
    end.
Proof.
  intros Hsp Hsign Hprefix. unfold parseIntExact. cbn [Js.trimStart].
  rewrite Hsp. apply orb_false_elim in Hsign as [-> ->].
  destruct t as [|x r]; [done|]. by rewrite Hprefix.
Qed.

Lemma digitValue_digit c : isDigit c = true → 0 ≤ digitValue c ≤ 9.
Proof.
  destruct c as [[] [] [] [] [] [] [] []]; intros H; try done;
    vm_compute; split; congruence.
Qed.

Lemma digitsValue_nonneg s acc :
  0 ≤ acc → allChars isDigit s = true → 0 ≤ digitsValue 10 acc s.
Proof.
  revert acc. induction s as [|c s IH]; intros acc Hacc H; [done|].
  cbn [allChars] in H. apply andb_prop in H as [Hc Hs].
  pose proof (digitValue_digit c Hc). cbn [digitsValue]. apply IH; [lia|done].
Qed.

Lemma toNumber_small z : Z.abs z < 2 ^ 53 → toNumber z = Int z.
Proof.
  intros H. unfold toNumber, nearest.
  destruct (Z.ltb_spec (Z.abs z) (2 ^ 53)) as [_|]; [|lia].
  destruct (Z.leb_spec (2 ^ 1024) (Z.abs z)) as [Hbig|_].
  - assert (2 ^ 53 < 2 ^ 1024) by (apply Z.pow_lt_mono_r; lia). lia.
  - f_equal. rewrite Z.mul_comm. apply Z.abs_sgn.
Qed.

(** X17. The integer caster keeps the leading digits and drops the rest:
    for a phrase that [isNaN] takes for a number and that starts with a
    run of at most 20 decimal digits ended by something else (a fraction,
    an exponent), it returns the number for the value of that run: the
    value itself below 2^53, the double nearest to it from there on.  So
    12 for "12.9", 1 for "1e3" and 9007199254740992 for
    "9007199254740993.5". *)
Theorem INTEGER_keeps_leading_digits d rest :
  some isDigit d = true → (String.length d ≤ 20)%nat →
  endsDigits rest = true →
  isNaN_number (d ++ rest) = false →
  INTEGER (d ++ rest) = Returns (Some (toNumber (digitsValue 10 0 d))) ∧
  (digitsValue 10 0 d < 2 ^ 53 →
   INTEGER (d ++ rest) = Returns (Some (Int (digitsValue 10 0 d)))).
Proof.
  intros Hd _ Hrest Hnum.
  assert (Hint : INTEGER (d ++ rest) = Returns (Some (toNumber (digitsValue 10 0 d)))).
  { unfold some in Hd. apply andb_prop in Hd as [Hne Hd].
    assert (Hspan : spanRadix 10 (d ++ rest) = d) by by apply spanRadix10_digits.
    destruct d as [|c d']; [done|].
    cbn [allChars] in Hd. apply andb_prop in Hd as [Hc Hd'].
    unfold INTEGER. rewrite Hnum. rewrite append_cons in *.
    cbn [Js.truthyStr negb orb]. do 2 f_equal.
    unfold parseInt. rewrite parseIntExact_plain, Hspan; [by rewrite Z.mul_1_l| | |].
    - pose proof (digit_not_space c Hc) as Hsp. by apply negb_true_iff in Hsp.
    - by destruct c as [[] [] [] [] [] [] [] []].
    - destruct d' as [|y d''].
      + rewrite append_nil_l. destruct rest as [|x r]; [done|].
        cbn [endsDigits] in Hrest. apply andb_prop in Hrest as [_ Hx].
        apply negb_true_iff in Hx. rewrite Hx. apply andb_false_r.
      + rewrite append_cons. cbn [allChars] in Hd'.
        apply andb_prop in Hd' as [Hy _].
        assert (Hh : Ascii.eqb y "x" || Ascii.eqb y "X" = false)
          by (by destruct y as [[] [] [] [] [] [] [] []]).
        rewrite Hh. apply andb_false_r. }
  split; [exact Hint|]. intros Hsmall. rewrite Hint. do 2 f_equal.
  apply toNumber_small.
  assert (Hpos : 0 ≤ digitsValue 10 0 d).
  { unfold some in Hd. apply andb_prop in Hd as [_ Hd].
    apply digitsValue_nonneg; [lia|done]. }
  rewrite Z.abs_eq by done. done.
Qed.

Lemma INTEGER_keeps_leading_digits_fraction :
  isNaN_number "12.9" = false ∧ INTEGER "12.9" = Returns (Some (Int 12)) ∧
  isNaN_number "9007199254740993.5" = false ∧
  INTEGER "9007199254740993.5" = Returns (Some (Int 9007199254740992)).
Proof.
  split; [reflexivity|]. split.
  - exact (proj2 (INTEGER_keeps_leading_digits "12" ".9" eq_refl
                    ltac:(simpl; lia) eq_refl eq_refl) ltac:(vm_compute; reflexivity)).
  - split; [reflexivity|].
    exact (proj1 (INTEGER_keeps_leading_digits "9007199254740993" ".5" eq_refl
                    ltac:(simpl; lia) eq_refl eq_refl)).
Defined.

Example INTEGER_samples :
  INTEGER "1e3" = Returns (Some (Int 1)) ∧
  INTEGER " 0x1f " = Returns (Some (Int 31)) ∧
  INTEGER "Infinity" = Returns (Some NaN) ∧
  INTEGER "0b11" = Returns (Some (Int 0)) ∧
  INTEGER "12abc" = Returns None ∧
  INTEGER "" = Returns None ∧
  INTEGER "9007199254740995" = Returns (Some (Int 9007199254740996)) ∧
  INTEGER "-18014398509481985" = Returns (Some (Int (-18014398509481984))).
Proof. repeat split; reflexivity. Qed.

Lemma hexDigit_no_hash s : allChars isHexDigit s = true → dropFirstHash s = s.
Proof.
  induction s as [|c s IH]; [done|]. cbn [allChars dropFirstHash].
  intros H. apply andb_prop in H as [Hc Hs].
  assert (Hh : Ascii.eqb c "#" = false)
    by (by destruct c as [[] [] [] [] [] [] [] []]).
  by rewrite Hh, (IH Hs).
Qed.

Lemma spanRadix16_all s : allChars isHexDigit s = true → spanRadix 16 s = s.
Proof.
  induction s as [|c s IH]; [done|]. cbn [allChars spanRadix].
  intros H. apply andb_prop in H as [Hc Hs].
  by rewrite (isHexDigit_radix16 c Hc), (IH Hs).
Qed.

Lemma digitValue_hex c : isHexDigit c = true → 0 ≤ digitValue c ≤ 15.
Proof. destruct c as [[] [] [] [] [] [] [] []]; intros H; try done; vm_compute; split; congruence. Qed.

Lemma digitsValue_bound s : allChars isHexDigit s = true →
  ∀ acc, 0 ≤ acc →
    0 ≤ digitsValue 16 acc s < (acc + 1) * 16 ^ Z.of_nat (String.length s).
Proof.
  induction s as [|c s IH]; intros H acc Hacc.
  - cbn [digitsValue String.length]. simpl. lia.
  - cbn [allChars] in H. apply andb_prop in H as [Hc Hs].
    pose proof (digitValue_hex c Hc) as Hv.
    cbn [digitsValue String.length].
    specialize (IH Hs (acc * 16 + digitValue c) ltac:(lia)).
    rewrite Nat2Z.inj_succ, Z.pow_succ_r by lia.
    assert (Hpow : 0 < 16 ^ Z.of_nat (String.length s)) by (apply Z.pow_pos_nonneg; lia).
    nia.
Qed.

(** X18. The colour caster reads one to six hexadecimal digits, with or
    without a leading "#", as their value, which lies between 0 and
    0xffffff. *)
Theorem COLOR_reads_hex h :
  some isHexDigit h = true → (String.length h ≤ 6)%nat →
  COLOR ("#" ++ h) = Returns (Some (digitsValue 16 0 h)) ∧
  COLOR h = Returns (Some (digitsValue 16 0 h)) ∧
  0 ≤ digitsValue 16 0 h ≤ 16777215.
Proof.
  intros Hh Hlen. unfold some in Hh. apply andb_prop in Hh as [Hne Hd].
  pose proof (digitsValue_bound h Hd 0 ltac:(lia)) as Hb.
  assert (Hpow : 16 ^ Z.of_nat (String.length h) ≤ 16 ^ 6)
    by (apply Z.pow_le_mono_r; lia).
  assert (Hrange : 0 ≤ digitsValue 16 0 h ≤ 16777215).
  { change (16 ^ 6) with 16777216 in Hpow. lia. }
  assert (Hparse : parseIntExact 16 h = Some (digitsValue 16 0 h)).
  { pose proof (spanRadix16_all h Hd) as Hspan.
    destruct h as [|c h']; [done|].
    pose proof Hd as Hd0. cbn [allChars] in Hd0. apply andb_prop in Hd0 as [Hc Hd'].
    rewrite parseIntExact_plain, Hspan; [by rewrite Z.mul_1_l| | |].
    - pose proof (hexDigit_not_space c Hc) as Hsp. by apply negb_true_iff in Hsp.
    - by destruct c as [[] [] [] [] [] [] [] []].
    - destruct h' as [|x r]; [done|]. cbn [allChars] in Hd'.
      apply andb_prop in Hd' as [Hx _].
      assert (Hxx : Ascii.eqb x "x" || Ascii.eqb x "X" = false)
        by (by destruct x as [[] [] [] [] [] [] [] []]).
      rewrite Hxx. apply andb_false_r. }
  assert (Hcolor : ∀ p, Js.truthyStr p = true → dropFirstHash p = h →
                        COLOR p = Returns (Some (digitsValue 16 0 h))).
  { intros p Hp Hdrop. unfold COLOR. rewrite Hp, Hdrop, Hparse. cbn [negb].
    destruct (Z.ltb_spec (digitsValue 16 0 h) 0); [lia|].
    destruct (Z.ltb_spec 16777215 (digitsValue 16 0 h)); [lia|]. done. }
  repeat split; try lia.
  - apply Hcolor; [done|]. by rewrite append_cons, append_nil_l.
  - apply Hcolor; [done|]. by apply hexDigit_no_hash.
Qed.

Lemma COLOR_reads_hex_orange :
  COLOR "#ff8000" = Returns (Some 16744448) ∧
  COLOR "ff8000" = Returns (Some 16744448) ∧
  0 ≤ 16744448 ≤ 16777215.
Proof. exact (COLOR_reads_hex "ff8000" eq_refl ltac:(simpl; lia)). Defined.

Example COLOR_samples :
  COLOR "#1000000" = Returns None ∧ COLOR "-1" = Returns None ∧
  COLOR "##ff" = Returns None ∧ COLOR "0x10" = Returns (Some 16) ∧
  COLOR "ffzz" = Returns (Some 255).
Proof. repeat split; reflexivity. Qed.

End TypesMoreFacts.

(** * Properties of the prompts and of the command util cache *)

Module PromptFacts.
Import Prompts.

Lemma addPrompt_insert c u (P : gmap string (gset string)) :
  addPrompt c u P = <[c := {[u]} ∪ default ∅ (P !! c)]> P.
Proof.
  unfold addPrompt. destruct (P !! c) as [users|] eqn:Hc.
  - cbn zeta. by rewrite Hc.
  - cbn zeta. rewrite lookup_insert_eq. cbn [default]. by rewrite insert_insert_eq.
Qed.

Lemma hasPrompt_addPrompt c u c' u' (P : gmap string (gset string)) :
  hasPrompt c' u' (addPrompt c u P) =
    if bool_decide (c' = c ∧ u' = u) then true else hasPrompt c' u' P.
Proof.
  rewrite addPrompt_insert. unfold hasPrompt.
  destruct (decide (c' = c)) as [->|Hne].
  - rewrite lookup_insert_eq. destruct (decide (u' = u)) as [->|Hu].
    + rewrite (bool_decide_eq_true_2 (c = c ∧ u = u)) by done.
      apply bool_decide_eq_true_2. set_solver.
    + rewrite (bool_decide_eq_false_2 (c = c ∧ u' = u)) by (by intros [_ ?]).
      destruct (P !! c) as [users|]; cbn [default].
      * apply bool_decide_ext. set_solver.
      * apply bool_decide_eq_false_2. set_solver.
  - rewrite lookup_insert_ne by done.
    by rewrite (bool_decide_eq_false_2 (c' = c ∧ u' = u)) by (by intros [? _]).
Qed.

Lemma hasPrompt_removePrompt_same c u (P : gmap string (gset string)) :
  hasPrompt c u (removePrompt c u P) = false.
Proof.
  unfold hasPrompt, removePrompt.
  destruct (P !! c) as [users|] eqn:Hc; [|by rewrite Hc].
  cbn zeta. destruct (bool_decide (size (users ∖ {[u]}) = 0%nat)).
  - destruct (decide (c = u)) as [->|Hne].
    + by rewrite lookup_delete_eq.
    + rewrite lookup_delete_ne, lookup_insert_eq by done.
      apply bool_decide_eq_false_2. set_solver.
  - rewrite lookup_insert_eq. apply bool_decide_eq_false_2. set_solver.
Qed.

Lemma hasPrompt_removePrompt_other c u c' u' (P : gmap string (gset string)) :
  ¬ (c' = c ∧ u' = u) → c' ≠ u →
  hasPrompt c' u' (removePrompt c u P) = hasPrompt c' u' P.
Proof.
  intros Hne Hcu. unfold hasPrompt, removePrompt.
  destruct (P !! c) as [users|] eqn:Hc; [|done].
  cbn zeta.
  assert (Hins : match <[c := users ∖ {[u]}]> P !! c' with
                 | Some us => bool_decide (u' ∈ us)
                 | None => false
                 end = match P !! c' with
                       | Some us => bool_decide (u' ∈ us)
                       | None => false
                       end).
  { destruct (decide (c' = c)) as [->|Hc'].
    - rewrite lookup_insert_eq, Hc. apply bool_decide_ext.
      assert (u' ≠ u) by (intros ->; by apply Hne). set_solver.
    - by rewrite lookup_insert_ne. }
  destruct (bool_decide (size (users ∖ {[u]}) = 0%nat)); [|done].
  by rewrite lookup_delete_ne.
Qed.

(** X19. Prompts add and remove as expected for the pair concerned and
    leave other pairs alone: after [addPrompt] the user has a prompt in
    the channel, after [removePrompt] none; and the prompt of another
    user or channel is as before, for [removePrompt] as long as that
    channel's id is not the id of the user removed. *)
Theorem prompts_add_and_remove c u c' u' (P : gmap string (gset string)) :
  ¬ (c' = c ∧ u' = u) → c' ≠ u →
  hasPrompt c u (addPrompt c u P) = true ∧
  hasPrompt c u (removePrompt c u P) = false ∧
  hasPrompt c' u' (addPrompt c u P) = hasPrompt c' u' P ∧
  hasPrompt c' u' (removePrompt c u P) = hasPrompt c' u' P.
Proof.
  intros Hne Hcu. repeat split.
  - rewrite hasPrompt_addPrompt. by rewrite bool_decide_eq_true_2.
  - apply hasPrompt_removePrompt_same.
  - rewrite hasPrompt_addPrompt. by rewrite bool_decide_eq_false_2.
  - by apply hasPrompt_removePrompt_other.
Qed.

(** X20. When [removePrompt] takes the last user out of a channel it
    deletes the entry keyed by the user's id, not the channel's: the
    channel keeps an empty set, and a channel whose id is the user's id
    loses the prompts of all its users. *)
Theorem last_prompt_removed_deletes_by_user_id c u users (P : gmap string (gset string)) :
  P !! c = Some users → users ⊆ {[u]} → c ≠ u →
  removePrompt c u P !! c = Some ∅ ∧
  removePrompt c u P !! u = None ∧
  ∀ x, hasPrompt u x (removePrompt c u P) = false.
Proof.
  intros Hc Hsub Hne. unfold hasPrompt, removePrompt. rewrite Hc. cbn zeta.
  assert (Hempty : users ∖ {[u]} = ∅) by set_solver.
  rewrite Hempty, size_empty, bool_decide_eq_true_2 by done.
  rewrite lookup_delete_ne, lookup_insert_eq, lookup_delete_eq by done.
  done.
Qed.

Lemma prompts_add_and_remove_two :
  let P : gmap string (gset string) := {["ch" := {["v"]}]} in
  hasPrompt "ch" "u" (addPrompt "ch" "u" P) = true ∧
  hasPrompt "ch" "u" (removePrompt "ch" "u" P) = false ∧
  hasPrompt "ch" "v" (addPrompt "ch" "u" P) = hasPrompt "ch" "v" P ∧
  hasPrompt "ch" "v" (removePrompt "ch" "u" P) = hasPrompt "ch" "v" P.
Proof.
  refine (prompts_add_and_remove "ch" "u" "ch" "v" {["ch" := {["v"]}]} _ _).
  - intros [_ H]. discriminate H.
  - discriminate.
Defined.

(** User "u" leaves channel "ch" while user "w" has a prompt in a channel
    whose id is "u". *)
Lemma last_prompt_removed_deletes_by_user_id_u :
  let P : gmap string (gset string) := {["ch" := {["u"]}; "u" := {["w"]}]} in
  hasPrompt "u" "w" P = true ∧
  removePrompt "ch" "u" P !! "ch" = Some ∅ ∧
  removePrompt "ch" "u" P !! "u" = None ∧
  ∀ x, hasPrompt "u" x (removePrompt "ch" "u" P) = false.
Proof.
  cbv zeta. split; [by vm_compute|].
  refine (last_prompt_removed_deletes_by_user_id "ch" "u" {["u"]}
            {["ch" := {["u"]}; "u" := {["w"]}]} _ _ _).
  - by vm_compute.
  - set_solver.
  - discriminate.
Defined.

End PromptFacts.

Module SweepFacts.
Import Sweep.

Lemma visit_keyed lifetime now : ∀ utils deleted,
  keyed utils →
  (∀ k, k ∈ deleted → k ∉ map fst utils) →
  let '(count, deleted') := visit lifetime now deleted utils in
  count = Z.of_nat (List.length (List.filter (stale lifetime now) utils)) ∧
  ∀ k, k ∈ deleted' ↔
       k ∈ deleted ∨ ∃ m, (k, m) ∈ utils ∧ stale lifetime now (k, m) = true.
Proof.
  induction utils as [|[k m] rest IH]; intros deleted [Hkeys Hnodup] Hfresh.
  - cbn [visit]. split; [done|]. intros k. split; [by left|].
    intros [?|(m & Hm & _)]; [done|]. by apply elem_of_nil in Hm.
  - cbn [visit]. apply Forall_cons in Hkeys as [Hk Hkeys].
    cbn [map fst] in Hnodup. apply NoDup_cons in Hnodup as [Hnotin Hnodup].
    assert (Hkd : k ∉ deleted).
    { intros Hin. apply (Hfresh k Hin). cbn [map fst]. by left. }
    rewrite bool_decide_eq_false_2 by done.
    cbn [List.filter]. unfold stale at 1. cbn [snd].
    destruct (lifetime <? now - stamp m) eqn:Hold.
    + specialize (IH ({[msg_id m]} ∪ deleted) (conj Hkeys Hnodup)).
      destruct (visit lifetime now ({[msg_id m]} ∪ deleted) rest) as [count deleted'].
      destruct IH as [Hcount Hdel].
      { intros k' Hk'. apply elem_of_union in Hk' as [Hk'|Hk'].
        - apply elem_of_singleton in Hk' as ->. by rewrite <- Hk.
        - intros Hin. apply (Hfresh k' Hk'). cbn [map fst]. by right. }
      split.
      * cbn [List.length]. rewrite Hcount. lia.
      * intros k'. rewrite Hdel. split.
        -- intros [Hk'|(m' & Hm' & Hs)].
           ++ apply elem_of_union in Hk' as [Hk'|Hk']; [|by left].
              apply elem_of_singleton in Hk' as ->. right. exists m.
              split; [rewrite <- Hk; by left|]. unfold stale. by cbn [snd].
           ++ right. exists m'. split; [by right|done].
        -- intros [Hk'|(m' & Hm' & Hs)]; [left; set_solver|].
           apply elem_of_cons in Hm' as [Heq|Hm'].
           ++ simplify_eq. left. set_solver.
           ++ right. by exists m'.
    + specialize (IH deleted (conj Hkeys Hnodup)).
      destruct (visit lifetime now deleted rest) as [count deleted'].
      destruct IH as [Hcount Hdel].
      { intros k' Hk' Hin. apply (Hfresh k' Hk'). cbn [map fst]. by right. }
      split; [done|].
      intros k'. rewrite Hdel. split.
      * intros [Hk'|(m' & Hm' & Hs)]; [by left|].
        right. exists m'. split; [by right|done].
      * intros [Hk'|(m' & Hm' & Hs)]; [by left|].
        apply elem_of_cons in Hm' as [Heq|Hm'].
        -- simplify_eq. unfold stale in Hs. cbn [snd] in Hs. congruence.
        -- right. by exists m'.
Qed.

(** X21. On a cache that holds every util under the id of its message,
    [sweepCommandUtil] removes exactly the utils whose message (by its
    edit time, or else its creation time) is older than the lifetime,
    keeps the others in their order, and returns the number removed. *)
Theorem sweepCommandUtil_removes_stale lifetime now utils :
  keyed utils →
  sweepCommandUtil lifetime now utils =
    (Z.of_nat (List.length (List.filter (stale lifetime now) utils)),
     List.filter (fun km => negb (stale lifetime now km)) utils).
Proof.
  intros Hkeyed. unfold sweepCommandUtil.
  pose proof (visit_keyed lifetime now utils ∅ Hkeyed) as Hv.
  destruct (visit lifetime now ∅ utils) as [count deleted].
  destruct Hv as [-> Hdel]; [set_solver|]. f_equal.
  destruct Hkeyed as [_ Hnodup].
  assert (Hpt : ∀ km, km ∈ utils →
    (let '(k, _) := km in bool_decide (k ∉ deleted)) = negb (stale lifetime now km)).
  { intros [k m] Hin. destruct (stale lifetime now (k, m)) eqn:Hs; cbn [negb].
    - apply bool_decide_eq_false_2. intros Hnot. apply Hnot, Hdel. right. by exists m.
    - apply bool_decide_eq_true_2. intros Hd. apply Hdel in Hd as [Hd|(m' & Hm' & Hs')];
        [set_solver|].
      assert (m' = m); [|congruence].
      clear -Hnodup Hin Hm'. induction utils as [|[k0 m0] rest IH]; [by apply elem_of_nil in Hin|].
      cbn [map fst] in Hnodup. apply NoDup_cons in Hnodup as [Hnotin Hnodup].
      apply elem_of_cons in Hin as [Hin|Hin], Hm' as [Hm'|Hm']; simplify_eq; try done.
      + destruct Hnotin. apply list_elem_of_fmap. by exists (k0, m').
      + destruct Hnotin. apply list_elem_of_fmap. by exists (k0, m).
      + by apply IH. }
  clear -Hpt. induction utils as [|km rest IH]; [done|]. cbn [List.filter].
  rewrite (Hpt km) by (by left). rewrite IH; [done|].
  intros km' Hin. apply Hpt. by right.
Qed.

Import Samples SweepSamples.

Lemma sweepCommandUtil_removes_stale_cached :
  keyed cached ∧
  sweepCommandUtil 300 1000 cached = (2, [("3", mkMsg "3" "v" "!a" 900)]).
Proof.
  assert (H : keyed cached).
  { split; [by repeat constructor|]. cbn. repeat constructor; set_solver. }
  split; [exact H|].
  exact (sweepCommandUtil_removes_stale 300 1000 cached H).
Defined.

End SweepFacts.

(** * Properties of loading and removing modules *)

Module CollectionFacts.
Import Collection.

Section Entries.
Context {V : Type}.
Implicit Types (entries : list (string * V)) (k : string) (v : V).

Lemma get_set_eq k v entries : get k (set k v entries) = Some v.
Proof.
  induction entries as [|[k' v'] rest IH]; cbn [set get].
  - by rewrite String.eqb_refl.
  - destruct (String.eqb k k') eqn:E; cbn [get]; [by rewrite String.eqb_refl|].
    by rewrite E.
Qed.

Lemma get_set_ne k k' v entries : k' ≠ k → get k' (set k v entries) = get k' entries.
Proof.
  intros Hne. induction entries as [|[k0 v0] rest IH]; cbn [set get].
  - by rewrite (proj2 (String.eqb_neq k' k)).
  - destruct (String.eqb_spec k k0) as [->|Hk]; cbn [get].
    + by rewrite (proj2 (String.eqb_neq k' k0)).
    + destruct (String.eqb k' k0); [done|exact IH].
Qed.

Lemma get_delete_eq k entries : get k (delete k entries) = None.
Proof.
  induction entries as [|[k' v'] rest IH]; cbn [delete get]; [done|].
  destruct (String.eqb k k') eqn:E; [done|]. cbn [get]. by rewrite E.
Qed.

Lemma get_delete_ne k k' entries : k' ≠ k → get k' (delete k entries) = get k' entries.
Proof.
  intros Hne. induction entries as [|[k0 v0] rest IH]; cbn [delete get]; [done|].
  destruct (String.eqb_spec k k0) as [->|Hk]; cbn [get].
  - by rewrite (proj2 (String.eqb_neq k' k0)).
  - destruct (String.eqb k' k0); [done|exact IH].
Qed.

Lemma get_delete_Some k k' v entries :
  get k' (delete k entries) = Some v → k' ≠ k ∧ get k' entries = Some v.
Proof.
  intros H. destruct (decide (k' = k)) as [->|Hne].
  - by rewrite get_delete_eq in H.
  - by rewrite get_delete_ne in H.
Qed.

Lemma get_None_keys k entries : get k entries = None ↔ k ∉ map fst entries.
Proof.
  induction entries as [|[k' v'] rest IH]; cbn [get map fst].
  - split; [intros _ H; by apply elem_of_nil in H|done].
  - destruct (String.eqb_spec k k') as [->|Hne].
    + split; [done|]. intros H. destruct H. by left.
    + rewrite IH. split.
      * intros H Hin. apply elem_of_cons in Hin as [?|?]; done.
      * intros H Hin. apply H. by right.
Qed.

Lemma keys_set k v entries :
  map fst (set k v entries) =
    if has k entries then map fst entries else (map fst entries ++ [k])%list.
Proof.
  unfold has. induction entries as [|[k' v'] rest IH]; cbn [set get map fst]; [done|].
  destruct (String.eqb_spec k k') as [->|Hne]; cbn [map fst]; [done|].
  rewrite IH. by destruct (get k rest).
Qed.

Lemma keys_delete k entries :
  map fst (delete k entries) = List.filter (fun k' => negb (String.eqb k k')) (map fst entries).
Proof.
  induction entries as [|[k' v'] rest IH]; cbn [delete map fst List.filter]; [done|].
  destruct (String.eqb k k'); cbn [negb map fst]; by rewrite IH.
Qed.

Lemma NoDup_set k v entries : NoDup (map fst entries) → NoDup (map fst (set k v entries)).
Proof.
  intros H. rewrite keys_set. unfold has.
  destruct (get k entries) eqn:E; [done|].
  apply NoDup_app. split; [done|]. split; [|apply NoDup_singleton].
  intros x Hx Hx'. apply list_elem_of_singleton in Hx' as ->.
  by apply get_None_keys in E.
Qed.

Lemma NoDup_delete k entries : NoDup (map fst entries) → NoDup (map fst (delete k entries)).
Proof.
  intros H. rewrite keys_delete. induction (map fst entries) as [|x l IH];
    cbn [List.filter]; [constructor|].
  apply NoDup_cons in H as [Hx Hl].
  destruct (negb (String.eqb k x)); [|by apply IH].
  apply NoDup_cons. split; [|by apply IH].
  intros Hin. apply Hx. apply list_elem_of_In, filter_In in Hin as [Hin _].
  by apply list_elem_of_In.
Qed.

(** A key put at the end and taken out again leaves the entries as they
    were. *)
Lemma delete_set_fresh k v entries :
  get k entries = None → delete k (set k v entries) = entries.
Proof.
  induction entries as [|[k' v'] rest IH]; cbn [get set delete].
  - by rewrite String.eqb_refl.
  - destruct (String.eqb k k') eqn:E; [done|]. intros H. cbn [delete].
    by rewrite E, IH.
Qed.

End Entries.

End CollectionFacts.

Module RegistryFacts.
Import Collection Registry CollectionFacts RegistrySamples.

Lemma register_unfold opts module filepath r d :
  objects r !! module = Some d →
  ¬ (m_categoryID d = "default" ∧ automateCategories opts = true ∧ filepath = None) →
  let cat := if String.eqb (m_categoryID d) "default" && automateCategories opts
             then match filepath with Some p => dirName opts p | None => "" end
             else m_categoryID d in
  let categories :=
    if has cat (r_categories r) then r_categories r
    else set cat [] (r_categories r) in
  let d3 := {| m_id := m_id d; m_categoryID := cat; m_category := Some cat;
               m_filepath := filepath; m_aliases := m_aliases d;
               m_prefix := m_prefix d |} in
  register opts module filepath r =
    (Returns tt,
     {| objects := <[module := d3]> (objects r);
        r_modules := set (m_id d) module (r_modules r);
        r_categories :=
          set cat (set (m_id d) module (default [] (get cat categories))) categories;
        r_aliases := r_aliases r; r_prefixes := r_prefixes r;
        r_emitted := r_emitted r |}).
Proof.
  intros Hd Hok. cbv zeta. unfold register. rewrite Hd.
  cbn [setFilepath m_categoryID m_id].
  destruct (String.eqb_spec (m_categoryID d) "default") as [Hdef|Hdef];
    destruct (automateCategories opts) eqn:Hauto; cbn [andb].
  - destruct filepath as [p|]; [|by destruct Hok].
    unfold with_categories, with_objects, with_modules, setCategory, setCategoryID.
    cbn. by rewrite insert_insert_eq.
  - unfold with_categories, with_objects, with_modules, setCategory. cbn.
    by rewrite insert_insert_eq.
  - unfold with_categories, with_objects, with_modules, setCategory. cbn.
    by rewrite insert_insert_eq.
  - unfold with_categories, with_objects, with_modules, setCategory. cbn.
    by rewrite insert_insert_eq.
Qed.

Lemma register_returns opts module filepath r r' :
  register opts module filepath r = (Returns tt, r') →
  ∃ d, objects r !! module = Some d ∧
       ¬ (m_categoryID d = "default" ∧ automateCategories opts = true ∧ filepath = None).
Proof.
  unfold register. destruct (objects r !! module) as [d|]; [|done].
  intros H. exists d. split; [done|]. intros (Hdef & Hauto & ->).
  cbn [setFilepath m_categoryID] in H. by rewrite Hdef, Hauto in H.
Qed.

(** [register] keeps the modules listed. *)
Lemma register_listed opts module filepath r r' :
  listed r → register opts module filepath r = (Returns tt, r') → listed r'.
Proof.
  intros Hl Hreg. destruct (register_returns _ _ _ _ _ Hreg) as (d & Hd & Hok).
  rewrite (register_unfold _ _ _ _ _ Hd Hok) in Hreg. cbv zeta in Hreg.
  set (cat := if _ && _ then _ else _) in Hreg.
  set (categories := if has cat _ then _ else _) in Hreg.
  injection Hreg as <-. intros id module' Hget. cbn in *.
  assert (Hcats : ∀ c, c ≠ cat → get c categories = get c (r_categories r)).
  { intros c Hc. subst categories. destruct (has cat (r_categories r)); [done|].
    by apply get_set_ne. }
  assert (Hcat : ∀ members, get cat (r_categories r) = Some members →
                            get cat categories = Some members).
  { intros members Hm. subst categories. unfold has. by rewrite Hm. }
  destruct (decide (id = m_id d)) as [->|Hne].
  - rewrite get_set_eq in Hget. injection Hget as <-.
    eexists _, _. rewrite lookup_insert_eq.
    split; [reflexivity|]. split; [reflexivity|]. split; [reflexivity|].
    split; apply get_set_eq.
  - rewrite get_set_ne in Hget by done.
    destruct (Hl id module' Hget) as (d' & members & Hd' & Hid & Hc' & Hm & Hin).
    assert (Hmod : module' ≠ module) by (intros ->; congruence).
    exists d'. destruct (decide (m_categoryID d' = cat)) as [Hsame|Hdiff].
    + exists (set (m_id d) module (default [] (get cat categories))).
      rewrite lookup_insert_ne by done. repeat split; try done.
      * rewrite Hsame. apply get_set_eq.
      * rewrite get_set_ne by done. rewrite Hsame in Hm.
        by rewrite (Hcat _ Hm).
    + exists members. rewrite lookup_insert_ne by done. repeat split; try done.
      rewrite get_set_ne by done. by rewrite Hcats.
Qed.

Lemma register_distinct opts module filepath r r' :
  distinct r → register opts module filepath r = (Returns tt, r') → distinct r'.
Proof.
  intros Hn Hreg. destruct (register_returns _ _ _ _ _ Hreg) as (d & Hd & Hok).
  rewrite (register_unfold _ _ _ _ _ Hd Hok) in Hreg. injection Hreg as <-.
  unfold distinct. cbn. by apply NoDup_set.
Qed.

Lemma deregister_listed module r r' :
  listed r → deregister module r = (Returns tt, r') → listed r'.
Proof.
  unfold deregister. intros Hl.
  destruct (objects r !! module) as [d|] eqn:Hd; [|done].
  destruct (m_category d) as [c|] eqn:Hc; [|done]. cbn.
  assert (Hbase : ∀ cs,
    (∀ id module' d' members,
       get id (r_modules r) = Some module' → id ≠ m_id d →
       objects r !! module' = Some d' →
       get (m_categoryID d') (r_categories r) = Some members →
       ∃ members', get (m_categoryID d') cs = Some members' ∧
                   get id members' = get id members) →
    listed (with_categories (with_modules r (delete (m_id d) (r_modules r))) cs)).
  { intros cs Hcs id module' Hget. cbn in Hget.
    apply get_delete_Some in Hget as [Hne Hget].
    destruct (Hl id module' Hget) as (d' & members & Hd' & Hid & Hc' & Hm & Hin).
    destruct (Hcs id module' d' members Hget Hne Hd' Hm) as (members' & Hm' & Heq).
    exists d', members'. cbn. repeat split; try done. by rewrite Heq. }
  destruct (get c (r_categories r)) as [members|] eqn:Hm; intros H; injection H as <-.
  - apply Hbase. intros id module' d' members0 Hget Hne Hd' Hm0.
    destruct (decide (m_categoryID d' = c)) as [Hsame|Hdiff].
    + rewrite Hsame in *. rewrite get_set_eq. eexists. split; [done|].
      rewrite get_delete_ne by done. congruence.
    + rewrite get_set_ne by done. by exists members0.
  - assert (Heq : with_modules r (delete (m_id d) (r_modules r)) =
                  with_categories (with_modules r (delete (m_id d) (r_modules r)))
                    (r_categories r)) by done.
    rewrite Heq. apply Hbase. intros id module' d' members0 Hget Hne Hd' Hm0.
    by exists members0.
Qed.

Lemma deregister_distinct module r r' :
  distinct r → deregister module r = (Returns tt, r') → distinct r'.
Proof.
  unfold deregister, distinct. intros Hn.
  destruct (objects r !! module) as [d|]; [|done].
  destruct (m_category d) as [c|]; [|done]. cbn.
  destruct (get c (r_categories r)); intros H; injection H as <-; cbn;
    by apply NoDup_delete.
Qed.

(** [listed] and [distinct] only look at the store, the modules and the
    categories. *)
Lemma listed_ext r r' :
  objects r' = objects r → r_modules r' = r_modules r →
  r_categories r' = r_categories r → listed r → listed r'.
Proof. unfold listed. intros -> -> ->. done. Qed.

Lemma distinct_ext r r' : r_modules r' = r_modules r → distinct r → distinct r'.
Proof. unfold distinct. by intros ->. Qed.

Lemma registerCommand_base opts command filepath r r' :
  registerCommand opts command filepath r = (Returns tt, r') →
  ∃ r1, register opts command filepath r = (Returns tt, r1) ∧
        objects r' = objects r1 ∧ r_modules r' = r_modules r1 ∧
        r_categories r' = r_categories r1 ∧ r_emitted r' = r_emitted r1.
Proof.
  unfold registerCommand.
  destruct (register opts command filepath r) as [[[]|e] r1]; [|done].
  destruct (objects r1 !! command) as [d|]; [|done].
  destruct (addAliases _ _ _ _) as [[[]|e] aliases]; [|done].
  destruct (m_prefix d) as [p|].
  - destruct (addPrefixes _ _ _) as [newEntry prefixes]. intros H.
    injection H as <-. by exists r1.
  - intros H. injection H as <-. by exists r1.
Qed.

Lemma deregisterCommand_base opts command r r' :
  deregisterCommand opts command r = (Returns tt, r') →
  ∃ r2, deregister command r2 = (Returns tt, r') ∧
        objects r2 = objects r ∧ r_modules r2 = r_modules r ∧
        r_categories r2 = r_categories r ∧ r_emitted r2 = r_emitted r.
Proof.
  unfold deregisterCommand. destruct (objects r !! command) as [d|]; [|done].
  intros H. eexists. split; [exact H|]. by destruct (m_prefix d).
Qed.

Section Removing.
Variable dereg : nat → Registry → Outcome unit * Registry.
Hypothesis dereg_listed : ∀ module r r',
  listed r → dereg module r = (Returns tt, r') → listed r'.
Hypothesis dereg_distinct : ∀ module r r',
  distinct r → dereg module r = (Returns tt, r') → distinct r'.

Lemma remove_kept id module r r' :
  listed r ∧ distinct r → remove dereg id r = (Returns module, r') →
  listed r' ∧ distinct r'.
Proof.
  unfold remove. intros [Hl Hn]. destruct (get id (r_modules r)) as [m|]; [|done].
  destruct (dereg m r) as [[[]|e] r1] eqn:Hd; [|done]. intros H.
  injection H as <- <-. split.
  - eapply listed_ext; [..|by eapply dereg_listed]; done.
  - eapply distinct_ext; [|by eapply dereg_distinct]; done.
Qed.

Lemma removeEach_kept : ∀ values r r',
  listed r ∧ distinct r → removeEach dereg values r = (Returns tt, r') →
  listed r' ∧ distinct r'.
Proof.
  induction values as [|m rest IH]; intros r r' Hinv; cbn [removeEach].
  - intros H. by injection H as <-.
  - destruct (objects r !! m) as [d|]; [|done].
    destruct (hasFilepath d); [|by apply IH].
    destruct (remove dereg (m_id d) r) as [[m'|e] r1] eqn:Hr; [|done].
    apply IH. by eapply remove_kept.
Qed.

End Removing.

Lemma registerCommand_kept opts m p r0 r0' :
  listed r0 ∧ distinct r0 → registerCommand opts m p r0 = (Returns tt, r0') →
  listed r0' ∧ distinct r0'.
Proof.
  intros [Hl0 Hn0] H. destruct (registerCommand_base _ _ _ _ _ H)
    as (r1 & Hr & Ho & Hm & Hc & _). split.
  - eapply listed_ext; [..|by eapply register_listed]; done.
  - eapply distinct_ext; [|by eapply register_distinct]; done.
Qed.

Lemma nothing_loaded r : r_modules r = [] → listed r ∧ distinct r.
Proof.
  intros H. split.
  - intros id module Hget. rewrite H in Hget. discriminate Hget.
  - unfold distinct. rewrite H. constructor.
Qed.

(** X22. What is loaded stays filed: through every [register],
    [deregister], [remove], [removeAll] and [load] of a module handler or
    a command handler that returns, every module in [modules] is stored
    under its own id and listed, under that id, in the category its
    [categoryID] names, and [modules] holds no id twice. *)
Theorem loaded_modules_stay_listed opts r r' :
  listed r → distinct r → changed opts r r' → listed r' ∧ distinct r'.
Proof.
  intros Hl Hn Hch.
  assert (Hdc : ∀ module r0 r0', listed r0 →
                deregisterCommand opts module r0 = (Returns tt, r0') → listed r0').
  { intros m r0 r0' Hl0 H. destruct (deregisterCommand_base _ _ _ _ H)
      as (r2 & Hd & Ho & Hm & Hc & _).
    eapply deregister_listed; [|exact Hd]. by eapply listed_ext. }
  assert (Hdn : ∀ module r0 r0', distinct r0 →
                deregisterCommand opts module r0 = (Returns tt, r0') → distinct r0').
  { intros m r0 r0' Hn0 H. destruct (deregisterCommand_base _ _ _ _ H)
      as (r2 & Hd & Ho & Hm & Hc & _).
    eapply deregister_distinct; [|exact Hd]. by eapply distinct_ext. }
  pose proof (registerCommand_kept opts) as Hrc.
  destruct Hch as [m p H|m p H|m H|m H|id m H|id m H|H|m p b H|m p b H].
  - split; [by eapply register_listed|by eapply register_distinct].
  - by eapply Hrc.
  - split; [by eapply deregister_listed|by eapply deregister_distinct].
  - split; [by eapply Hdc|by eapply Hdn].
  - eapply (remove_kept deregister); [apply deregister_listed|apply deregister_distinct| |exact H].
    done.
  - eapply (remove_kept (deregisterCommand opts)); [apply Hdc|apply Hdn| |exact H].
    done.
  - eapply (removeEach_kept deregister);
      [apply deregister_listed|apply deregister_distinct| |exact H]. done.
  - unfold load in H. destruct (objects r !! m) as [d|]; [|done].
    destruct (has (m_id d) (r_modules r)); [done|].
    destruct (register opts m p r) as [[[]|e] r1] eqn:Hr; [|done].
    injection H as <-. split.
    + eapply listed_ext; [..|by eapply register_listed]; done.
    + eapply distinct_ext; [|by eapply register_distinct]; done.
  - unfold load in H. destruct (objects r !! m) as [d|]; [|done].
    destruct (has (m_id d) (r_modules r)); [done|].
    destruct (registerCommand opts m p r) as [[[]|e] r1] eqn:Hr; [|done].
    injection H as <-.
    destruct (Hrc m p r r1 (conj Hl Hn) Hr) as [Hl1 Hn1]. split.
    + by eapply listed_ext.
    + by eapply distinct_ext.
Qed.

Lemma loaded_modules_stay_listed_ping : listed loaded ∧ distinct loaded.
Proof.
  refine (loaded_modules_stay_listed defaults built loaded _ _ _).
  - exact (proj1 (nothing_loaded built eq_refl)).
  - exact (proj2 (nothing_loaded built eq_refl)).
  - apply (by_registerCommand defaults built loaded 0 (Some "/commands/ping.js")).
    vm_compute. reflexivity.
Defined.


Lemma delete_filter {V} k (entries : list (string * V)) :
  delete k entries = List.filter (fun kv => negb (String.eqb k kv.1)) entries.
Proof.
  induction entries as [|[k' v'] rest IH]; cbn [delete List.filter]; [done|].
  cbn [fst]. destruct (String.eqb k k'); cbn [negb]; by rewrite IH.
Qed.

Lemma filter_delete_gone {V} id (gone : list string) (l : list (string * V)) :
  List.filter (fun kv => bool_decide (kv.1 ∉ gone))
    (List.filter (fun kv => negb (String.eqb id kv.1)) l) =
  List.filter (fun kv => bool_decide (kv.1 ∉ id :: gone)) l.
Proof.
  induction l as [|[k v] l IH]; [done|]. cbn [List.filter fst].
  destruct (String.eqb_spec id k) as [->|Hne]; cbn [negb].
  - rewrite (bool_decide_eq_false_2 (k ∉ k :: gone)) by set_solver. exact IH.
  - cbn [List.filter fst].
    rewrite (bool_decide_ext (k ∉ id :: gone) (k ∉ gone)) by set_solver.
    destruct (bool_decide (k ∉ gone)); by rewrite IH.
Qed.

Lemma deregister_registered module r d c :
  objects r !! module = Some d → m_category d = Some c →
  ∃ r', deregister module r = (Returns tt, r') ∧
        objects r' = objects r ∧
        r_modules r' = delete (m_id d) (r_modules r) ∧
        categoryIds r' = categoryIds r ∧
        r_aliases r' = r_aliases r ∧ r_prefixes r' = r_prefixes r ∧
        r_emitted r' = r_emitted r.
Proof.
  intros Hd Hc. unfold deregister. rewrite Hd, Hc. cbn.
  destruct (get c (r_categories r)) as [members|] eqn:Hm.
  - eexists. split; [done|]. repeat split. unfold categoryIds. cbn.
    rewrite keys_set. unfold has. by rewrite Hm.
  - eexists. by split.
Qed.

(** The loop of [removeAll] over entries of [modules]. *)
Lemma removeEach_entries r0 : ∀ entries r,
  NoDup (map fst entries) →
  objects r = objects r0 → listed r →
  (∀ id module, (id, module) ∈ entries → get id (r_modules r) = Some module) →
  ∃ r',
    removeEach deregister (map snd entries) r = (Returns tt, r') ∧
    objects r' = objects r0 ∧
    r_modules r' =
      List.filter (fun kv => bool_decide
                     (kv.1 ∉ map fst (List.filter (fun km => filed r0 km.2) entries)))
        (r_modules r) ∧
    r_emitted r' =
      (r_emitted r ++
       map REMOVE (List.filter (filed r0) (map snd entries)))%list ∧
    categoryIds r' = categoryIds r.
Proof.
  induction entries as [|[id module] rest IH]; intros r Hnd Hobj Hl Hin.
  - exists r. cbn. rewrite app_nil_r. repeat split; try done.
    symmetry. apply forallb_filter_id. apply forallb_forall. intros kv _.
    apply bool_decide_eq_true_2. intros H. by apply elem_of_nil in H.
  - cbn [map fst snd] in *. apply NoDup_cons in Hnd as [Hfresh Hnd].
    assert (Hget : get id (r_modules r) = Some module) by (apply Hin; by left).
    destruct (Hl id module Hget) as (d & members & Hd & Hid & Hc & Hm & Hmem).
    cbn [removeEach]. rewrite Hd. cbn [List.filter].
    assert (Hfiled : filed r0 module = hasFilepath d).
    { unfold filed. by rewrite <- Hobj, Hd. }
    cbn [snd]. rewrite Hfiled.
    destruct (hasFilepath d) eqn:Hf.
    + unfold remove. rewrite Hid, Hget.
      destruct (deregister_registered module r d _ Hd Hc)
        as (r1 & Hdereg & Ho1 & Hm1 & Hc1 & _ & _ & He1).
      rewrite Hdereg.
      destruct (IH (emit (REMOVE module) r1)) as (r' & Hrun & Ho' & Hm' & He' & Hc').
      * done.
      * cbn. congruence.
      * eapply listed_ext; [..|by eapply deregister_listed]; done.
      * intros id' module' Hin'. cbn. rewrite Hm1, Hid.
        rewrite get_delete_ne; [apply Hin; by right|].
        intros ->. apply Hfresh. apply list_elem_of_fmap. by exists (id, module').
      * exists r'. split; [done|]. split; [done|].
        change (r_modules (emit (REMOVE module) r1)) with (r_modules r1) in Hm'.
        change (r_emitted (emit (REMOVE module) r1))
          with (r_emitted r1 ++ [REMOVE module])%list in He'.
        repeat split.
        -- rewrite Hm', Hm1, Hid, delete_filter. cbn [map fst].
           apply filter_delete_gone.
        -- rewrite He', He1. cbn [map]. by rewrite <- app_assoc.
        -- exact (eq_trans Hc' Hc1).
    + destruct (IH r Hnd Hobj Hl) as (r' & Hrun & Ho' & Hm' & He' & Hc').
      { intros id' module' Hin'. apply Hin. by right. }
      by exists r'.
Qed.

(** X23. [removeAll] removes the modules that have a file path and no
    others: on a handler whose modules are listed, it returns, the
    modules left are those loaded without a path (from a class), in their
    order, one remove event was emitted per module removed, in loading
    order, and every category is still there, also the emptied ones. *)
Theorem removeAll_removes_filed_modules r :
  listed r → distinct r →
  ∃ r', removeAll deregister r = (Returns tt, r') ∧
        r_modules r' = List.filter (fun km => negb (filed r km.2)) (r_modules r) ∧
        r_emitted r' =
          (r_emitted r ++ map REMOVE (List.filter (filed r) (map snd (r_modules r))))%list ∧
        categoryIds r' = categoryIds r.
Proof.
  intros Hl Hn. unfold removeAll.
  destruct (removeEach_entries r (r_modules r) r Hn eq_refl Hl)
    as (r' & Hrun & _ & Hm & He & Hc).
  { intros id module Hin. unfold distinct in Hn. clear -Hn Hin.
    induction (r_modules r) as [|[k v] l IH]; [by apply elem_of_nil in Hin|].
    cbn [map fst] in Hn. apply NoDup_cons in Hn as [Hk Hn]. cbn [get].
    apply elem_of_cons in Hin as [Heq|Hin].
    - injection Heq as -> ->. by rewrite String.eqb_refl.
    - destruct (String.eqb_spec id k) as [->|Hne]; [|by apply IH].
      destruct Hk. apply list_elem_of_fmap. by exists (k, module). }
  exists r'. split; [done|]. split; [|done]. rewrite Hm.
  apply filter_ext_in. intros [k v] Hin. cbn [fst snd].
  destruct (filed r v) eqn:Hf; cbn [negb].
  - apply bool_decide_eq_false_2. intros Hnot. apply Hnot.
    apply list_elem_of_fmap. exists (k, v). split; [done|].
    apply list_elem_of_In, filter_In. split; [done|]. done.
  - apply bool_decide_eq_true_2. intros Hk.
    apply list_elem_of_fmap in Hk as ([k' v'] & Hkk & Hin').
    cbn in Hkk. subst k'. apply list_elem_of_In, filter_In in Hin' as [Hin' Hf'].
    cbn in Hf'. assert (v' = v); [|congruence].
    unfold distinct in Hn. clear -Hn Hin Hin'.
    induction (r_modules r) as [|[k0 v0] l IH]; [done|].
    cbn [map fst] in Hn. apply NoDup_cons in Hn as [Hk Hn].
    destruct Hin as [Heq|Hin], Hin' as [Heq'|Hin']; simplify_eq; try done.
    + destruct Hk. apply list_elem_of_fmap. exists (k, v'). split; [done|].
      by apply list_elem_of_In.
    + destruct Hk. apply list_elem_of_fmap. exists (k, v). split; [done|].
      by apply list_elem_of_In.
    + by apply IH.
Qed.

Lemma mixed_kept : listed mixed ∧ distinct mixed.
Proof.
  apply (registerCommand_kept defaults 2 None loaded); [|by vm_compute].
  apply (registerCommand_kept defaults 0 (Some "/commands/ping.js") built);
    [|by vm_compute].
  by apply nothing_loaded.
Qed.

(** [ping] came from a file and [ban] from its class: [ban] stays. *)
Lemma removeAll_removes_filed_modules_mixed :
  ∃ r', removeAll deregister mixed = (Returns tt, r') ∧
        r_modules r' = [("ban", 2%nat)] ∧
        r_emitted r' = [REMOVE 0] ∧
        categoryIds r' = ["default"; "mod"].
Proof.
  exact (removeAll_removes_filed_modules mixed (proj1 mixed_kept) (proj2 mixed_kept)).
Defined.


(** A round of the alias loop that returns writes the command's id, and
    only that. *)
Lemma addAlias_returns opts id alias aliases aliases' :
  addAlias opts id alias aliases = (Returns tt, aliases') →
  aliases' !! Js.toLowerCase alias = Some id ∧
  ∀ k, aliases' !! k = Some id ∨ aliases' !! k = aliases !! k.
Proof.
  unfold addAlias.
  destruct (Js.truthyStr (default "" (aliases !! Js.toLowerCase alias))); [done|].
  destruct (aliasReplacement opts) as [replace|].
  - destruct (String.eqb_spec (replace (Js.toLowerCase alias)) (Js.toLowerCase alias))
      as [Heq|Hne].
    + intros H. injection H as <-. split; [apply lookup_insert_eq|].
      intros k. destruct (decide (k = Js.toLowerCase alias)) as [->|Hk].
      * left. apply lookup_insert_eq.
      * right. by apply lookup_insert_ne.
    + destruct (Js.truthyStr _); [done|]. intros H. injection H as <-. split.
      * rewrite lookup_insert_ne by done. apply lookup_insert_eq.
      * intros k. destruct (decide (k = replace (Js.toLowerCase alias))) as [->|Hk1].
        { left. apply lookup_insert_eq. }
        rewrite lookup_insert_ne by done.
        destruct (decide (k = Js.toLowerCase alias)) as [->|Hk2].
        { left. apply lookup_insert_eq. }
        right. by apply lookup_insert_ne.
  - intros H. injection H as <-. split; [apply lookup_insert_eq|].
    intros k. destruct (decide (k = Js.toLowerCase alias)) as [->|Hk].
    + left. apply lookup_insert_eq.
    + right. by apply lookup_insert_ne.
Qed.

Lemma addAliases_returns opts id : ∀ names aliases aliases',
  addAliases opts id names aliases = (Returns tt, aliases') →
  (∀ a, a ∈ names → aliases' !! Js.toLowerCase a = Some id) ∧
  ∀ k, aliases' !! k = Some id ∨ aliases' !! k = aliases !! k.
Proof.
  induction names as [|a names IH]; intros aliases aliases'; cbn [addAliases].
  - intros H. injection H as <-. split; [|by right].
    intros a Ha. by apply elem_of_nil in Ha.
  - destruct (addAlias opts id a aliases) as [[[]|e] aliases1] eqn:Ha; [|done].
    intros Hrest. destruct (addAlias_returns _ _ _ _ _ Ha) as [Ha1 Hk1].
    destruct (IH _ _ Hrest) as [Hall Hk]. split.
    + intros b Hb. apply elem_of_cons in Hb as [->|Hb]; [|by apply Hall].
      destruct (Hk (Js.toLowerCase a)) as [?|Heq]; [done|]. by rewrite Heq.
    + intros k. destruct (Hk k) as [?|Heq]; [by left|]. rewrite Heq. apply Hk1.
Qed.

(** A round of the alias loop leaves alone an alias that is taken. *)
Lemma addAlias_taken opts id alias aliases k other :
  aliases !! k = Some other → Js.truthyStr other = true →
  let '(result, aliases') := addAlias opts id alias aliases in
  aliases' !! k = Some other ∧
  (k = Js.toLowerCase alias → result = Throws ALIAS_CONFLICT) ∧
  (∀ e, result = Throws e → e = ALIAS_CONFLICT).
Proof.
  intros Hk Hother. unfold addAlias.
  destruct (decide (k = Js.toLowerCase alias)) as [->|Hne].
  { rewrite Hk. change (default "" (Some other)) with other.
    rewrite Hother. repeat split; [done|].
    intros e H. by injection H as <-. }
  destruct (Js.truthyStr (default "" (aliases !! Js.toLowerCase alias))).
  { repeat split; [done|]. intros e H. by injection H as <-. }
  assert (H1 : <[Js.toLowerCase alias := id]> aliases !! k = Some other)
    by (by rewrite lookup_insert_ne).
  destruct (aliasReplacement opts) as [replace|]; [|repeat split; done].
  destruct (String.eqb (replace (Js.toLowerCase alias)) (Js.toLowerCase alias));
    [repeat split; done|].
  destruct (decide (k = replace (Js.toLowerCase alias))) as [->|Hk1].
  { rewrite H1. change (default "" (Some other)) with other.
    rewrite Hother. repeat split; [done|].
    intros e H. by injection H as <-. }
  destruct (Js.truthyStr (default "" _)); cbv beta iota zeta.
  - split; [done|]. split; [done|]. intros e H. by injection H as <-.
  - split; [by rewrite lookup_insert_ne|]. by split.
Qed.

Lemma addAliases_conflict opts id : ∀ names aliases a other,
  a ∈ names → aliases !! Js.toLowerCase a = Some other →
  Js.truthyStr other = true →
  (addAliases opts id names aliases).1 = Throws ALIAS_CONFLICT.
Proof.
  induction names as [|b names IH]; intros aliases a other Ha Hk Hother;
    [by apply elem_of_nil in Ha|].
  cbn [addAliases].
  pose proof (addAlias_taken opts id b aliases _ other Hk Hother) as Ht.
  destruct (addAlias opts id b aliases) as [[[]|e] aliases1].
  - destruct Ht as (Hk1 & Hsame & _).
    apply elem_of_cons in Ha as [->|Ha]; [by specialize (Hsame eq_refl)|].
    by eapply IH.
  - destruct Ht as (_ & _ & He). by rewrite (He e eq_refl).
Qed.

(** X24. A command that was registered is found under each of its
    aliases, in any case of letters: when [CommandHandler.register]
    returns, [findCommand] of a name that is one of the command's aliases
    up to case gives the command. *)
Theorem registered_command_is_found opts command filepath r r' d name a :
  registerCommand opts command filepath r = (Returns tt, r') →
  objects r !! command = Some d →
  a ∈ m_aliases d → Js.toLowerCase name = Js.toLowerCase a →
  findCommand name r' = Some command.
Proof.
  unfold registerCommand. intros Hreg Hd Ha Hname.
  destruct (register opts command filepath r) as [[[]|e] r1] eqn:Hbase; [|done].
  destruct (register_returns _ _ _ _ _ Hbase) as (d0 & Hd0 & Hok).
  assert (d0 = d) as -> by congruence.
  rewrite (register_unfold _ _ _ _ _ Hd Hok) in Hbase. cbv zeta in Hbase.
  injection Hbase as <-. cbn in Hreg. rewrite lookup_insert_eq in Hreg. cbn in Hreg.
  destruct (addAliases opts (m_id d) (m_aliases d) (r_aliases r))
    as [[[]|e] aliases] eqn:Hal; [|done].
  destruct (addAliases_returns _ _ _ _ _ Hal) as [Hall _].
  assert (Hfind : ∀ r0, r_aliases r0 = aliases →
                        r_modules r0 = set (m_id d) command (r_modules r) →
                        findCommand name r0 = Some command).
  { intros r0 Hal0 Hm0. unfold findCommand.
    rewrite Hal0, Hname, (Hall a Ha), Hm0. apply get_set_eq. }
  destruct (m_prefix d) as [p|].
  - destruct (addPrefixes _ _ _) as [newEntry prefixes].
    injection Hreg as <-. by apply Hfind.
  - injection Hreg as <-. by apply Hfind.
Qed.

Lemma registered_command_is_found_PING : findCommand "PING" loaded = Some 0%nat.
Proof.
  refine (registered_command_is_found defaults 0 (Some "/commands/ping.js")
            built loaded ping "PING" "ping" _ _ _ _).
  - vm_compute. reflexivity.
  - vm_compute. reflexivity.
  - left.
  - reflexivity.
Defined.

(** X25. An alias conflict leaves the command half registered: when one
    of its aliases is, up to case, already the alias of a command,
    [CommandHandler.register] throws the conflict only after
    [CitrusHandler.register] has put the command in [modules], so it
    stays there, and loading it again is refused as already loaded. *)
Theorem alias_conflict_leaves_command_loaded opts command filepath r d a other :
  objects r !! command = Some d →
  ¬ (m_categoryID d = "default" ∧ automateCategories opts = true ∧ filepath = None) →
  a ∈ m_aliases d →
  r_aliases r !! Js.toLowerCase a = Some other → Js.truthyStr other = true →
  ∃ r',
    registerCommand opts command filepath r = (Throws ALIAS_CONFLICT, r') ∧
    get (m_id d) (r_modules r') = Some command ∧
    load (registerCommand opts) command filepath false r' = (Throws ALREADY_LOADED, r').
Proof.
  intros Hd Hok Ha Hk Hother. unfold registerCommand.
  rewrite (register_unfold _ _ _ _ _ Hd Hok). cbv zeta. cbn.
  rewrite lookup_insert_eq. cbn.
  pose proof (addAliases_conflict opts (m_id d) (m_aliases d) (r_aliases r)
                a other Ha Hk Hother) as Hc.
  destruct (addAliases opts (m_id d) (m_aliases d) (r_aliases r)) as [result aliases].
  cbn in Hc. subst result. eexists. split; [done|]. cbn. split; [apply get_set_eq|].
  unfold load. cbn. rewrite lookup_insert_eq. cbn. unfold has.
  by rewrite get_set_eq.
Qed.

(** [pong] is registered after [ping], whose alias "P" takes "p". *)
Lemma alias_conflict_leaves_command_loaded_pong :
  ∃ r',
    registerCommand defaults 1 (Some "/commands/pong.js") loaded =
      (Throws ALIAS_CONFLICT, r') ∧
    get "pong" (r_modules r') = Some 1%nat ∧
    load (registerCommand defaults) 1 (Some "/commands/pong.js") false r' =
      (Throws ALREADY_LOADED, r').
Proof.
  refine (alias_conflict_leaves_command_loaded defaults 1 (Some "/commands/pong.js")
            loaded pong "p" "ping" _ _ _ _ _).
  - vm_compute. reflexivity.
  - intros (_ & H & _). discriminate H.
  - right. left.
  - vm_compute. reflexivity.
  - reflexivity.
Defined.


Lemma foldl_dropPrefix_single p prefixes :
  foldl (fun ps p0 => dropPrefix p0 ps) prefixes (Prefix.intoArray (PrefixStr p)) =
    dropPrefix p prefixes.
Proof. reflexivity. Qed.

(** X26. [CommandHandler.deregister] does not take the command's id out
    of a prefix override it shares: when the set of the command's prefix
    has not exactly one member, [prefixes.delete(prefix)] is called on the
    set with the prefix, so the command leaves [modules] while its id
    stays in the set. *)
Theorem deregister_leaves_id_under_shared_prefix opts command r d p ids c :
  objects r !! command = Some d →
  m_prefix d = Some (PrefixStr p) → m_category d = Some c →
  get p (r_prefixes r) = Some ids → size ids ≠ 1%nat →
  m_id d ∈ ids → m_id d ≠ p →
  ∃ r',
    deregisterCommand opts command r = (Returns tt, r') ∧
    get (m_id d) (r_modules r') = None ∧
    get p (r_prefixes r') = Some (ids ∖ {[p]}) ∧
    m_id d ∈ ids ∖ {[p]}.
Proof.
  intros Hd Hp Hc Hget Hsize Hin Hne. unfold deregisterCommand. rewrite Hd, Hp.
  rewrite foldl_dropPrefix_single.
  set (r2 := with_prefixes _ _).
  destruct (deregister_registered command r2 d c Hd Hc)
    as (r' & Hdereg & _ & Hm & _ & _ & Hpre & _).
  exists r'. split; [exact Hdereg|]. split; [|split].
  - rewrite Hm. apply get_delete_eq.
  - rewrite Hpre. subst r2. cbn. unfold dropPrefix. rewrite Hget.
    rewrite bool_decide_eq_false_2 by done. apply get_set_eq.
  - set_solver.
Qed.

(** [ban] is deregistered while [kick] shares its prefix "?". *)
Lemma deregister_leaves_id_under_shared_prefix_ban :
  ∃ r' ids,
    deregisterCommand defaults 2 moderation = (Returns tt, r') ∧
    get "ban" (r_modules r') = None ∧
    get "?" (r_prefixes r') = Some ids ∧ "ban" ∈ ids.
Proof.
  destruct (deregister_leaves_id_under_shared_prefix defaults 2 moderation
              {| m_id := "ban"; m_categoryID := "mod"; m_category := Some "mod";
                 m_filepath := None; m_aliases := ["ban"];
                 m_prefix := Some (PrefixStr "?") |}
              "?" ({["ban"; "kick"]}) "mod")
    as (r' & Hrun & Hgone & Hset & Hin).
  - vm_compute. reflexivity.
  - reflexivity.
  - reflexivity.
  - vm_compute. reflexivity.
  - vm_compute. discriminate.
  - set_solver.
  - discriminate.
  - exists r', ({["ban"; "kick"]} ∖ {["?"]}). done.
Defined.

Lemma addAliases_plain opts id : aliasReplacement opts = None →
  ∀ names aliases aliases',
    addAliases opts id names aliases = (Returns tt, aliases') →
    ∀ k, aliases' !! k =
           if bool_decide (k ∈ map Js.toLowerCase names) then Some id
           else aliases !! k.
Proof.
  intros Hnone. induction names as [|a names IH]; intros aliases aliases';
    cbn [addAliases map].
  - intros H k. injection H as <-. rewrite bool_decide_eq_false_2; [done|].
    intros Hk. by apply elem_of_nil in Hk.
  - destruct (addAlias opts id a aliases) as [[[]|e] aliases1] eqn:Ha; [|done].
    intros Hrest k. rewrite (IH _ _ Hrest k).
    unfold addAlias in Ha. rewrite Hnone in Ha.
    destruct (Js.truthyStr (default "" _)); [done|]. injection Ha as <-.
    destruct (decide (k ∈ map Js.toLowerCase names)) as [Hk|Hk].
    + rewrite !bool_decide_eq_true_2; [done| |done]. by right.
    + rewrite (bool_decide_eq_false_2 _ Hk).
      destruct (decide (k = Js.toLowerCase a)) as [->|Hka].
      * rewrite bool_decide_eq_true_2 by (by left). apply lookup_insert_eq.
      * rewrite bool_decide_eq_false_2.
        -- by apply lookup_insert_ne.
        -- intros Hin. apply elem_of_cons in Hin as [?|?]; done.
Qed.

Lemma dropAliases_plain opts : aliasReplacement opts = None →
  ∀ names aliases k,
    foldl (fun als a => dropAlias opts a als) aliases names !! k =
      if bool_decide (k ∈ map Js.toLowerCase names) then None else aliases !! k.
Proof.
  intros Hnone. induction names as [|a names IH]; intros aliases k; cbn [foldl map].
  - rewrite bool_decide_eq_false_2; [done|].
    intros Hk. by apply elem_of_nil in Hk.
  - rewrite IH. unfold dropAlias. rewrite Hnone.
    destruct (decide (k ∈ map Js.toLowerCase names)) as [Hk|Hk].
    + rewrite !bool_decide_eq_true_2; [done| |done]. by right.
    + rewrite (bool_decide_eq_false_2 _ Hk).
      destruct (decide (k = Js.toLowerCase a)) as [->|Hka].
      * rewrite bool_decide_eq_true_2 by (by left). apply lookup_delete_eq.
      * rewrite bool_decide_eq_false_2.
        -- by apply lookup_delete_ne.
        -- intros Hin. apply elem_of_cons in Hin as [?|?]; done.
Qed.

(** X27. Registering a command and deregistering it again is a round
    trip for what can be looked up: for a command without a prefix of its
    own that was not loaded and whose aliases were free, in a handler
    without alias replacement, [modules] and [aliases] are afterwards as
    before, and so are the prefix overrides; its category stays behind,
    without the command. *)
Theorem register_then_deregister opts command filepath r r1 d :
  registerCommand opts command filepath r = (Returns tt, r1) →
  objects r !! command = Some d →
  m_prefix d = None → aliasReplacement opts = None →
  get (m_id d) (r_modules r) = None →
  (∀ a, a ∈ m_aliases d → r_aliases r !! Js.toLowerCase a = None) →
  ∃ r2 cat members,
    deregisterCommand opts command r1 = (Returns tt, r2) ∧
    r_modules r2 = r_modules r ∧ r_aliases r2 = r_aliases r ∧
    r_prefixes r2 = r_prefixes r ∧
    get cat (r_categories r2) = Some members ∧ get (m_id d) members = None.
Proof.
  unfold registerCommand. intros Hreg Hd Hp Hnone Hfresh Hfree.
  destruct (register opts command filepath r) as [[[]|e] r0] eqn:Hbase; [|done].
  destruct (register_returns _ _ _ _ _ Hbase) as (d0 & Hd0 & Hok).
  assert (d0 = d) as -> by congruence.
  rewrite (register_unfold _ _ _ _ _ Hd Hok) in Hbase. cbv zeta in Hbase.
  set (cat := if _ && _ then _ else _) in Hbase.
  set (categories := if has cat _ then _ else _) in Hbase.
  injection Hbase as <-. cbn in Hreg. rewrite lookup_insert_eq in Hreg. cbn in Hreg.
  destruct (addAliases opts (m_id d) (m_aliases d) (r_aliases r))
    as [[[]|e] aliases] eqn:Hal; [|done].
  rewrite Hp in Hreg. injection Hreg as <-.
  unfold deregisterCommand. cbn. rewrite lookup_insert_eq. cbn.
  unfold deregister. cbn. rewrite lookup_insert_eq. cbn.
  rewrite get_set_eq.
  eexists _, cat, _. split; [reflexivity|]. cbn. repeat split.
  - by apply delete_set_fresh.
  - apply map_eq. intros k. rewrite (dropAliases_plain opts Hnone).
    rewrite (addAliases_plain opts _ Hnone _ _ _ Hal).
    destruct (decide (k ∈ map Js.toLowerCase (m_aliases d))) as [Hk|Hk].
    + rewrite bool_decide_eq_true_2 by done.
      apply list_elem_of_fmap in Hk as (a & -> & Ha). symmetry. by apply Hfree.
    + by rewrite !bool_decide_eq_false_2.
  - apply get_set_eq.
  - apply get_delete_eq.
Qed.

Lemma register_then_deregister_ping :
  ∃ r2 cat members,
    deregisterCommand defaults 0 loaded = (Returns tt, r2) ∧
    r_modules r2 = r_modules built ∧ r_aliases r2 = r_aliases built ∧
    r_prefixes r2 = r_prefixes built ∧
    get cat (r_categories r2) = Some members ∧ get "ping" members = None.
Proof.
  refine (register_then_deregister defaults 0 (Some "/commands/ping.js")
            built loaded ping _ _ _ _ _ _).
  - vm_compute. reflexivity.
  - vm_compute. reflexivity.
  - reflexivity.
  - reflexivity.
  - reflexivity.
  - intros a _. apply lookup_empty.
Defined.

End RegistryFacts.
